(* ===== verification/_CoqProject ===== *)
-Q . S2P
Prelude.v
GoTime.v
Channel.v
Buffer.v
Observer.v
System.v
Invariants.v
Demo.v
Wf.v
Width.v
Queues.v
Movers.v
Backpressure.v
Logs.v
Conservation.v
Roundtrip.v
Parametric.v
Heartbeat.v
Alias.v
Spec.v
Refinement.v
Lifecycle.v
Progress.v
Complete.v
Race.v
HappensBefore.v
Restart.v
Unserialised.v
Fair.v
Periodic.v
Safety.v
Report.v
Scenario.v
