(* ===== verification/Prelude.v ===== *)
(** * Verification of the Observer telemetry aggregator

    Source under verification: [src/internal/observer/observer.go], the Go
    package [observer] of the stream replicator.  The package is one struct,
    [Observer], and five functions: [New], [Start], [Stop], [TargetWrite] and
    [TargetWriteOversized].  [Start] launches one goroutine, the aggregation
    loop, which multiplexes two buffered channels of write results, an
    unbuffered exit channel and an idle timer with a [select], merges every
    result into a local [ObserverBuffer], and hands the buffer to a
    [StatsReceiver] whenever the report deadline has passed and once more on
    shutdown.  [Stop] is a two-step handshake with that goroutine over the
    unbuffered channels [exitSignal] and [stopDone].

    ** The parts of the program and the files that model them

    - [Prelude] (this file): the libraries every file loads, the scope
      [obs_scope], the tactics and the hint database [obs], and the generic
      lemmas on lists and options that the components share.
    - [GoTime]: the two types of Go's [time] package that the source uses,
      [Time] and [Duration], as integers of nanoseconds, with [Add] and
      [After], and the same at 64 bits: [wrap64], [Add64] with the overflow
      test of [Time.Add], [when64] with the saturation of the runtime timer
      (spec-modelled: the package is not under src/).
    - [Channel]: Go channels as a capacity and a FIFO list, with [make_chan],
      [chan_send] (refuses when the buffer is full: the sender blocks) and
      [chan_recv] (spec-modelled: the runtime is not under src/).
    - [Buffer]: the two interfaces the loop is a client of, as type classes:
      [ObserverBuffer] ([models.ObserverBuffer]: empty value, [Append],
      summary string) and [StatsReceiver] (the sink: [Send]); and the
      instances the theorems are witnessed with: the journal buffer (the list
      of merged entries), the counting buffer, the recording sink.
    - [Observer]: the struct [Observer] (a Record with the source's field
      names), [New], the log entries the code emits, the aggregation
      goroutine's local state ([Goroutine]: program counter, [reportTime],
      [buffer]) and one definition per atomic action of the goroutine
      (lines 57-92) and of the four methods (lines 49-55, 97-116).
    - [System]: the interleaving semantics.  A state [Sys] holds the struct,
      the goroutines [Start] has launched, the clients that are inside a
      [Start] or [Stop] call, the clock and the log.  A [Label] names one
      atomic action of one thread (or a clock tick); [step] executes it and
      is [None] when the action is not enabled (a blocked send or receive, a
      thread at another program point).  [Step] is the same semantics as an
      inductive relation, [run] executes a schedule (a list of labels), and
      [Reachable] / [SReachable] are the states reachable by any schedule /
      by schedules whose lifecycle calls are serialised, which is the
      discipline the source requires of its callers.
    - [Invariants]: the state invariants and their preservation: channel
      capacity, monotone clock, the lifecycle phase invariant that relates
      [isRunning], the goroutine's program counter and the caller's.
    - [Demo]: a concrete system (natural numbers as results, the journal
      buffer, the recording sink, a timeout of 100ms and an interval of 1s)
      with the schedules and the computed states the witnesses use.
    - [Wf]: the well-formed states.  [goroutine_wf] types the local
      variables of a goroutine by its program point, [waiters] and [exits]
      count the callers blocked on [stopDone] and the goroutines on the exit
      path, [sys_wf] joins them with the capacity of the channels; every step
      preserves it, with or without serialised callers.
    - [Queues]: the two result queues read through the tag of their class
      ([queue], [push], [recv]) and the frame lemmas of the steps that do not
      touch a queue.
    - [Movers]: a push commutes with every step of another thread that is
      not a push to the same queue, the receive from that queue included.
    - [Backpressure]: when a push blocks ([full]), what releases it, and
      that nothing does while the observer is [idle]; [pushed_to] and
      [received_from] count the pushes and the receives of an execution by
      class.
    - [Width]: [at_width] compares the three times an action of the loop
      computes (lines 57, 78, 88) with their computation at 64 bits.
    - [Logs]: the summaries in the log against the buffers the recording
      sink holds.
    - [Roundtrip]: the way of a result from the producer to the loop's
      buffer: the schedule that pushes entries ([push]) and the one that lets
      the loop receive them ([drain], one iteration [merge_round] each).
    - [Alias]: the buffer passed to [Send] by address: [deref] reads the
      variable [buffer] of a goroutine, [sent] is the address a flush
      passes, [passed] the addresses a schedule passes, [reads] what a sink
      that kept them reads.
    - [Conservation]: where every pushed result is (queue, buffer of a
      goroutine that has not flushed, buffer sent to the sink): a permutation
      of the pushes in every execution, equal to them class by class in every
      serialised one; what the sink holds after a [Stop] that found the
      queues empty.
    - [Parametric]: the observer is parametric in its two interfaces.
      [BufferSim] and [SinkSim] are the classes of relations the operations
      preserve; related implementations give systems that run the same
      schedules in lock step.  With the journal on one side this is the data
      refinement of every buffer and sink; with the counting buffer it gives
      the counts the sink holds after [Stop].
    - [Heartbeat]: the periodic flush without traffic, as a schedule of idle
      wake-ups whose length is computed from the clock, the report time and
      the idle timeout.
    - [Spec]: the abstract aggregator of the specification: two bounded
      queues, the accumulated entries, the delivered buffers, the running
      flag, with atomic operations (the shutdown is one of them: the final
      flush and the end of the loop), its invariant and its conservation law.
    - [Refinement]: the abstraction function from the states of the code to
      the states of [Spec], the operation each label implements, and the
      theorem that serialised executions of the code are runs of [Spec].
    - [Complete]: the converse.  [impl] is the schedule of the code that
      performs one operation of [Spec] ([flush_wait] is how long its flush
      lets the clock run), [impl_all] the schedule for a list of operations,
      [shape] the states of the code between two operations.
    - [Lifecycle]: what [Start] and [Stop] promise: idempotent [Start],
      no-op [Stop] ([redundant] is the call that finds nothing to do), at
      most one live loop, and a bounded schedule that completes a [Stop]
      from any state of the serialised system.
    - [Progress]: nothing is stuck: [Start_labels] (the steps of a [Start]
      call, which together are the method [Start]), [exit_path] (what is
      left of lines 63-92 from a program point), [finish_call] (the steps
      that let the lifecycle call in progress return) and [next_action] /
      [wait_for] (what a goroutine inside the loop does next, and how long
      the clock has to run before it can).
    - [Fair]: termination.  [potential] counts the statements between a
      program point of the goroutine and its return; an infinite execution
      is a function from step numbers to labels, [prefix] its first steps,
      and [fair] says that the goroutine is scheduled again whenever it is
      [runnable] and that its [select] prefers another case to the exit
      signal a bounded number of times.  [pad] extends a finite execution by
      a clock that stands still; [starve] is the infinite execution in which
      the [select] always takes a queued result.
    - [Periodic]: the flush in every execution that is live ([live_exec]:
      infinite, the goroutine scheduled again whenever it is runnable, the
      clock passing every reading); [flush_distance] counts the statements
      between a program point and the flush once the deadline has passed.
    - [Safety]: what holds with or without serialised callers: the timing
      of the periodic flush (never early, more than one interval after the
      last), the nil sink ([drop_sink] takes the sink away from a state),
      the constancy of the configuration, determinism
      of the labelled semantics.
    - [Race]: the happens-before order of an execution and the data races
      on [isRunning].  [access] is the access a label makes (lines 50, 54,
      72, 98), [threads] the goroutines that take the step, [hb_step] the
      edges of the [go] statement and of the two rendezvous; [know] is the
      set of events that happen before the next event of a goroutine,
      [races] says that an access is not ordered after an earlier
      conflicting one, and [owner] is the goroutine to which the accesses are
      handed by the rendezvous.
    - [HappensBefore]: the same order as the memory model defines it:
      [ordered] relates two events of an execution that share a goroutine
      ([givers], [takers]: the goroutines that take a step, and the one a
      [go] statement creates), [happens_before] is its transitive closure,
      [launched] counts the goroutines as [Start] launches them, and [drf]
      says that of two conflicting accesses to [isRunning] ([access_at],
      [conflict]) the earlier happens before the later.
    - [Restart]: [Stop], [Start] and one iteration of the new loop
      ([stop_restart]), from every state in which one loop waits in its
      [select].
    - [Unserialised]: [Start] calls that overlap ([racing_starts]) and
      [Stop] calls that overlap ([racing_stops]), from every state and for
      every pair of clients, with the states they leave behind as invariants
      of every continuation without a [Start] ([leaked], [stranded]).
    - [Report]: one reporting period.  [round] is a wake-up of the loop
      after a wait in the [select], by a result that arrives or by the idle
      timer; [rounds] the wake-ups before the report time, [elapsed] the
      time they take, [arrived] the results received; [period] adds the
      heartbeat up to the flush.
    - [Scenario]: the scenario of the specification, label by label, from
      [New] to the first periodic flush (three results and one oversized
      result flushed once after one report interval), evaluated by the
      kernel as a test of the semantics.

    ** What the theorems show

    - Data: no result is lost, duplicated or retagged
      ([Conservation.conservation]); each queue is first-in first-out up to
      the sink ([Conservation.fifo_per_class]); a [Stop] that finds the queues
      empty has delivered everything
      ([Conservation.stopped_drained_delivers_all]), and one that does not
      leaves results behind, which the loop of the next [Start] merges
      ([Restart.stop_strands_restart_merges]).
      Pushed into empty queues and received by the loop, the entries are
      merged in the order received, within a class the order of the pushes
      ([Roundtrip.push_drain_roundtrip]); the moment of a push among the
      steps of the other threads does not matter ([Movers.push_commutes]);
      the log has the summary of every buffer the sink was sent and of no
      other ([Logs.log_agrees_with_sink]).
    - Aliasing: a sink that keeps the pointer it is passed reads, after the
      reset and the next merge, the result merged after the flush and
      nothing of the report ([Alias.pointer_outlives_report]); the
      specification's snapshot holds for sinks that copy.
    - Nil sink: the observer without a sink runs the schedules of the
      observer with one and reaches the same states but for the sink, the
      log included ([Safety.nil_sink_same_run]).
    - Well-formedness: every step keeps the state well-formed
      ([Wf.wf_preservation]); in particular a caller blocked on [stopDone]
      and a goroutine on its exit path always have each other, even when
      callers race ([Wf.handshake_partner]).
    - Lifecycle: the six phases ([Lifecycle.lifecycle_phases]), one live loop
      ([Lifecycle.at_most_one_live_loop]), [Stop] completes and flushes once
      ([Lifecycle.stop_completes], [Lifecycle.stop_final_flush]), and any
      number of calls of [Start] on a running observer or of [Stop] on an
      idle one change nothing but the log ([Lifecycle.redundant_calls]).
    - Progress: a lifecycle call in progress can always return
      ([Progress.lifecycle_calls_return]), the loop waits for nothing but
      the clock ([Progress.loop_can_step]).
    - Termination: an iteration of the loop is at most five steps and the
      exit path three ([Fair.loop_steps_bounded]); in every fair execution
      a [Stop] in progress returns, whatever producers and the clock do
      ([Fair.stop_returns_fair]); when the [select] is not fair it need not
      ([Fair.stop_can_starve]).  In every live execution a goroutine inside
      the loop flushes, periodically or on exit, with or without traffic
      ([Periodic.flush_in_fair_execution]).
    - Reporting: whatever arrives during a reporting period, at whatever
      times, is sent to the sink in one buffer at the first wake-up after
      the report time, in the order of arrival and with its tags, and the
      next period starts from an empty buffer ([Report.period_report]).
    - Time: the periodic flush is never early ([Safety.flush_after_deadline]),
      comes at most one idle timeout late without traffic
      ([Heartbeat.heartbeat_flush]), the next deadline floats forward and
      two periodic flushes of one loop are more than a report interval
      apart ([Safety.flushes_spaced]), and once the deadline has passed the
      flush is at most four steps of the goroutine away
      ([Periodic.flush_is_due]).
    - Width: the report times and the timers of the semantics are the ones
      the program computes with [int64], up to a stated bound on the clock
      and the report interval ([Width.times_at_width]).
    - Queues: in every execution the producers are at most 1000 results of
      a class ahead of the loop, the difference being what the queue holds
      ([Backpressure.producers_lead_bounded]); a push blocks exactly on a
      full queue and a receive of the loop releases it
      ([Backpressure.TargetWrite_backpressure]); without a loop nothing
      does ([Backpressure.push_blocks_without_loop]).
    - Refinement: the code implements the abstract aggregator
      ([Refinement.refinement]), the aggregator does nothing the code cannot
      do when the report interval is not negative ([Complete.completeness]),
      and every implementation of the interfaces is the image of the journal
      implementation ([Parametric.journal_refinement],
      [Parametric.counts_after_stop]).
    - Unserialised callers: two [Start] calls at once leak a loop that no
      [Stop] reaches, two [Stop] calls at once strand a caller until the
      next [Start] ([Unserialised.racing_starts_two_loops],
      [Unserialised.racing_stops_block]).
    - Data races: with one calling thread every access to [isRunning] is
      ordered by the handshake of [Stop] ([Race.single_caller_race_free]);
      a call from a second thread races even when the calls do not overlap
      ([Race.second_caller_races]).  The analysis that decides this in one
      pass over the labels computes the transitive closure of program
      order, the [go] statement and the two rendezvous, and its verdict is
      data-race freedom as the memory model defines it, in every execution
      ([HappensBefore.know_is_happens_before]).

    ** Atomicity and what a step is

    Every access to shared memory ([isRunning], a channel) is its own step,
    and every [time.Now()] is read in the step that contains it, so the two
    clock readings of lines 82 and 88 may differ.  A rendezvous on an
    unbuffered channel is one joint step of the sender and the receiver.
    Go's [select] chooses among the ready cases at random: each ready case
    is an enabled label, so every choice is covered.  Blocked senders on a
    full channel are admitted in any order (Go admits them in FIFO order:
    the model has more behaviours, never fewer).

    ** Bounds and fuel

    No fuel: [step] is a total function to [option], [run] recurses on the
    schedule.  The schedules of the liveness theorems are computed: the one
    that completes a [Stop] has at most eight labels, the heartbeat has four
    labels for each idle wake-up up to the report time, their number the
    quotient of the remaining time by the idle timeout plus one.  The
    potential of a program point is at most eight, and a [select] case that
    stays in the loop raises it by four, so a goroutine whose [select]
    avoids the exit signal [k] times takes at most [8 + 5 * k] steps; the
    fair executions are infinite and need no bound on their length.  Channel
    capacity is the source's 1000.  [Time] and [Duration] are unbounded
    integers in the semantics; [GoTime] has the [int64] computations beside
    them and [Width.times_at_width] the bound up to which they agree: the
    clock plus the report interval must not exceed [2 ^ 63 - 1] nanoseconds
    (about 292 years), and the timer needs no bound because it saturates.

    ** What is assumed

    The sinks of the class [StatsReceiver] read the buffer during [Send]:
    [Send] takes the value.  The source passes the address of the loop's
    variable, which the loop overwrites after the flush; [Alias] has the
    store, the address passed and what a sink that kept the pointer reads
    later, and the theorems on what the sink holds are about sinks that
    copy.  [Send] returns: a sink that blocks forever would block the loop
    and [Stop] with it.  Liveness is stated as the existence of a bounded
    schedule, and of every execution that satisfies the hypotheses [fair] or
    [live_exec]; that the Go scheduler, the random choice of [select] and
    the clock produce such executions is assumed, not proved.

    ** Not modelled, and why

    - What a racy execution does: the interleaving semantics is
      sequentially consistent, and [Race] says which executions have a data
      race on [isRunning], not what values a racy read may return under the
      Go memory model.  What overlapping callers can do under sequential
      consistency is in [Unserialised] and [Wf].  The happens-before edges
      of the producers' sends are left out of [Race]: they order no access
      to [isRunning], and leaving edges out can only add races.
    - A sink that reads the retained pointer from another goroutine while
      the loop writes the variable: that is a data race, and the semantics
      has no memory model for it.  [Alias] covers the reads between steps.
    - A bound in time on the flush of a loaded loop: the source has none.
      The bound is in steps of the goroutine ([Periodic.flush_is_due]); how
      long a step takes is the scheduler's and the sink's business.
    - The wall clock: the clock of the semantics is the monotonic reading.
      Go compares wall-clock times only after [Time.Add] has overflowed the
      monotonic reading ([GoTime.Add64] returns [None]), that is for a
      report interval beyond the bound of [Width.times_at_width]; what the
      loop does then is outside the model.
    - The time a [Send] takes: [Send] is one step of the goroutine.  That
      the loop receives nothing while it runs is the goroutine not being
      scheduled; [Backpressure.producers_lead_bounded] bounds what the
      producers can push meanwhile.  A sink that never returns is a
      goroutine that is never scheduled again, which the fairness
      hypotheses exclude.
    - The Go scheduler: scheduling is the choice of the next label, and
      every choice is covered; what the liveness theorems need of the
      scheduler is a hypothesis on executions.
    - The concrete [models.ObserverBuffer], [models.TargetWriteResult], the
      sink's wire protocol and the logger's output: they are outside src/,
      and the loop uses them only through the operations of the two type
      classes and the three log calls. *)

From Stdlib Require Export ZArith Lia.
From stdpp Require Export ssreflect base tactics option list gmap strings numbers.

#[export] Set Warnings "-rewrite-rw".
#[global] Open Scope Z_scope.

Declare Scope obs_scope.
Delimit Scope obs_scope with obs.
#[global] Open Scope obs_scope.

(** ** Hint database

    [obs] collects the lemmas that discharge the routine side conditions of
    the development (lengths, lookups, bounds). *)

Create HintDb obs discriminated.
Create Rewrite HintDb obs.

(** ** Tactics *)

(** The bind of the option monad succeeds exactly when both stages do. *)
Lemma bind_Some_inv {A B} (f : A → option B) (m : option A) (b : B) :
  m ≫= f = Some b → ∃ a, m = Some a ∧ f a = Some b.
Proof. destruct m as [a|]; [by exists a|done]. Qed.

(** [option_inv]: turn every hypothesis [Some _ = Some _], [Some _ = None],
    [(_, _) = (_, _)] and every boolean-decision hypothesis into its
    content, and close the goal when one of them is absurd. *)
Ltac option_inv :=
  repeat match goal with
  | H : Some _ = None |- _ => discriminate H
  | H : None = Some _ |- _ => discriminate H
  | H : Some _ = Some _ |- _ => apply (inj Some) in H
  | H : bool_decide _ = true |- _ => apply bool_decide_eq_true_1 in H
  | H : bool_decide _ = false |- _ => apply bool_decide_eq_false_1 in H
  | H : (_, _) = (_, _) |- _ => inv H
  end; simplify_eq.

(** [inv_enabled H]: [H : e = Some _] says that a guarded action was
    enabled; peel the binds, [if]s and [match]es of [e] from the outside in,
    dropping the branches that are [None], until the result is exposed. *)
Ltac inv_enabled H :=
  repeat first
    [ apply bind_Some_inv in H as (? & ? & H)
    | match type of H with
      | (if ?b then _ else _) = Some _ => destruct b eqn:?; [|discriminate H]
      | (if ?b then _ else _) = Some _ => destruct b eqn:?; [discriminate H|]
      | match ?x with _ => _ end = Some _ => destruct x eqn:?; try discriminate H
      end ];
  option_inv.

(** [solve_obs]: the closing tactic of the development. *)
Ltac solve_obs := try done; eauto with obs; try lia.

(** ** Generic lemmas *)

Section lists.
Context {A : Type}.
Implicit Types (l k : list A) (x y : A) (i : nat).

(** Appending one element at the back (how a channel and a goroutine table
    grow) lengthens the list by one. *)
Lemma length_snoc l x : length (l ++ [x]) = S (length l).
Proof. rewrite length_app /=. lia. Qed.

(** The new element of [l ++ [x]] sits at index [length l]. *)
Lemma lookup_snoc_new l x : (l ++ [x]) !! length l = Some x.
Proof. by rewrite lookup_app_r // Nat.sub_diag. Qed.

(** The old elements keep their index. *)
Lemma lookup_snoc_old l x i y : l !! i = Some y → (l ++ [x]) !! i = Some y.
Proof. intros H. by rewrite lookup_app_l; [|eapply lookup_lt_Some]. Qed.

(** A lookup in [l ++ [x]] is an old element or the new one. *)
Lemma lookup_snoc_Some l x i y :
  (l ++ [x]) !! i = Some y ↔ l !! i = Some y ∨ (i = length l ∧ y = x).
Proof.
  rewrite lookup_app_Some. split.
  - intros [?|[? H]]; [by left|right].
    apply list_lookup_singleton_Some in H as [? ->]. split; [lia|done].
  - intros [?|[-> ->]]; [by left|right]. by rewrite Nat.sub_diag.
Qed.

(** Updating index [i] changes what is read at [i] and nothing else. *)
Lemma lookup_insert_Some_list l i j x y :
  <[i:=x]> l !! j = Some y →
  (i = j ∧ y = x ∧ (i < length l)%nat) ∨ (i ≠ j ∧ l !! j = Some y).
Proof.
  destruct (decide (i = j)) as [->|Hne].
  - intros H. left. assert (j < length l)%nat.
    { apply lookup_lt_Some in H. by rewrite length_insert in H. }
    rewrite list_lookup_insert_eq // in H. by simplify_eq.
  - rewrite list_lookup_insert_ne //. by right.
Qed.

(** After the element [x] at index [j] is replaced by [y], index [i] reads
    [y] when it is [j] and what it read before otherwise. *)
Lemma lookup_insert_cases l i j z x y :
  l !! i = Some z → l !! j = Some x →
  (j = i ∧ z = x ∧ <[j:=y]> l !! i = Some y) ∨ (j ≠ i ∧ <[j:=y]> l !! i = Some z).
Proof.
  intros Hi Hj. destruct (decide (j = i)) as [->|Hne].
  - left. simplify_eq. split_and!; [done..|].
    by apply list_lookup_insert_eq, lookup_lt_Some with z.
  - right. by rewrite list_lookup_insert_ne.
Qed.

(** Updating the last element of [l ++ [x]]. *)
Lemma insert_snoc_last l x y : <[length l := y]> (l ++ [x]) = l ++ [y].
Proof. by rewrite insert_app_r_alt // Nat.sub_diag. Qed.

(** Reading and updating the first two elements after a prefix. *)
Lemma lookup_app_0 l x k : (l ++ x :: k) !! length l = Some x.
Proof. by apply list_lookup_middle. Qed.

Lemma lookup_app_1 l x y k : (l ++ x :: y :: k) !! S (length l) = Some y.
Proof. by rewrite (lookup_app_r l) ?Nat.sub_succ_l ?Nat.sub_diag //; lia. Qed.

Lemma insert_app_0 l x y k : <[length l := y]> (l ++ x :: k) = l ++ y :: k.
Proof. by rewrite insert_app_r_alt // Nat.sub_diag. Qed.

Lemma insert_app_1 l x y z k : <[S (length l) := z]> (l ++ x :: y :: k) = l ++ x :: z :: k.
Proof. by rewrite insert_app_r_alt ?Nat.sub_succ_l ?Nat.sub_diag //; lia. Qed.

(** When every element of [l] satisfies [P] and the element read at [i] in
    [l ++ [x]] does not, that element is the last one. *)
Lemma lookup_snoc_not_Forall (P : A → Prop) l x i y :
  Forall P l → (l ++ [x]) !! i = Some y → ¬ P y → i = length l ∧ y = x.
Proof.
  intros Hl [Hi|?]%lookup_snoc_Some Hy; [|done].
  destruct Hy. by eapply Forall_lookup_1.
Qed.

(** A singleton table read at [k'] names its only key. *)
Lemma singleton_lookup_inv {V} (k k' : nat) (v v' : V) :
  ({[k := v]} : gmap nat V) !! k' = Some v' → k' = k ∧ v' = v.
Proof. by intros [-> ->]%lookup_singleton_Some. Qed.

(** Replacing one element of a list changes the concatenation of the
    images by that element's image, up to order. *)
Lemma bind_insert_Permutation {B} (f : A → list B) l i x y :
  l !! i = Some x →
  ∃ rest, l ≫= f ≡ₚ f x ++ rest ∧ <[i:=y]> l ≫= f ≡ₚ f y ++ rest.
Proof.
  intros Hi. exists ((take i l ≫= f) ++ (drop (S i) l ≫= f)).
  rewrite insert_take_drop; [|by eapply lookup_lt_Some].
  rewrite -{1}(take_drop_middle l i x Hi) !bind_app !bind_cons.
  split; solve_Permutation.
Qed.

End lists.

#[export] Hint Rewrite @length_snoc @length_insert @length_app : obs.
#[export] Hint Resolve lookup_snoc_new lookup_snoc_old : obs.

Section options.
Context {A B : Type}.

(** Guarded success: [if b then Some x else None] succeeds only when the
    guard holds. *)
Lemma if_Some_inv (b : bool) (x y : A) :
  (if b then Some x else None) = Some y → b = true ∧ x = y.
Proof. destruct b; naive_solver. Qed.

End options.

(** ** Counting *)

(** How many elements of a list, and how many values of a table, satisfy a
    decidable predicate; and how the two counts move under the updates the
    semantics makes: replacing one element, appending one at the back,
    binding and unbinding a key. *)
Section counting.
Context {V : Type} (P : V → Prop) `{!∀ v, Decision (P v)}.
Implicit Types (l : list V) (m : gmap nat V) (v w : V).

Definition indicator v : nat := if decide (P v) then 1%nat else 0%nat.

Definition count_list l : nat := length (filter P l).

Definition count_map m : nat := size (filter (λ kv, P kv.2) m).

Lemma count_list_cons v l : count_list (v :: l) = (indicator v + count_list l)%nat.
Proof. rewrite /count_list /indicator filter_cons. by case_decide. Qed.

Lemma count_list_app l l' : count_list (l ++ l') = (count_list l + count_list l')%nat.
Proof. by rewrite /count_list list.filter_app length_app. Qed.

Lemma count_list_snoc l v : count_list (l ++ [v]) = (count_list l + indicator v)%nat.
Proof. rewrite count_list_app count_list_cons /count_list /=. lia. Qed.

Lemma count_list_insert l i v w :
  l !! i = Some v →
  (count_list (<[i:=w]> l) + indicator v = count_list l + indicator w)%nat.
Proof.
  revert i. induction l as [|x l IH]; intros [|i] Hi; simplify_eq/=;
    rewrite !count_list_cons; [lia|]. specialize (IH i Hi). lia.
Qed.

Lemma count_map_empty : count_map ∅ = 0%nat.
Proof. by rewrite /count_map map_filter_empty map_size_empty. Qed.

Lemma count_map_insert m k v :
  count_map (<[k:=v]> m) = (count_map (delete k m) + indicator v)%nat.
Proof.
  rewrite /count_map /indicator map_filter_insert /=. case_decide; [|lia].
  rewrite map_filter_delete -insert_delete_eq map_size_insert_None; [lia|].
  apply lookup_delete_eq.
Qed.

Lemma count_map_delete m k v :
  m !! k = Some v → count_map m = (count_map (delete k m) + indicator v)%nat.
Proof. intros Hk. by rewrite -{1}(insert_id m k v Hk) count_map_insert. Qed.

Lemma count_map_insert_new m k v :
  m !! k = None → count_map (<[k:=v]> m) = (count_map m + indicator v)%nat.
Proof. intros Hk. by rewrite count_map_insert delete_id. Qed.

(** A count is positive exactly when something is counted. *)
Lemma count_list_pos l : count_list l ≠ 0%nat ↔ ∃ i v, l !! i = Some v ∧ P v.
Proof.
  unfold count_list. split.
  - destruct (filter P l) as [|v k] eqn:E; [done|]. intros _.
    assert (v ∈ filter P l) as [? [i ?]%list_elem_of_lookup_1]%list_elem_of_filter
      by (rewrite E; left). eauto.
  - intros (i & v & Hi & Hv) Hn%length_zero_iff_nil.
    apply (elem_of_not_nil v (filter P l)); [|done].
    apply list_elem_of_filter. eauto using list_elem_of_lookup_2.
Qed.

Lemma count_map_pos m : count_map m ≠ 0%nat ↔ ∃ k v, m !! k = Some v ∧ P v.
Proof.
  split.
  - intros (k & v & [? ?]%map_lookup_filter_Some)%map_size_non_empty_iff%map_choose.
    eauto.
  - intros (k & v & Hk & Hv). rewrite (count_map_delete m k v Hk) /indicator decide_True //.
    lia.
Qed.

End counting.

(** ** Searching the natural numbers *)

(** The first index from [n] at which a test holds, when it holds at
    [n + k]. *)
Lemma first_true (P : nat → bool) (n k : nat) :
  P (n + k)%nat = true →
  ∃ m, (n ≤ m ≤ n + k)%nat ∧ P m = true ∧ ∀ j, (n ≤ j < m)%nat → P j = false.
Proof.
  revert n. induction k as [|k IH]; intros n H.
  - exists n. rewrite Nat.add_0_r in H. split_and!; [lia..|done|intros; lia].
  - destruct (P n) eqn:E; [exists n; split_and!; [lia..|done|intros; lia]|].
    destruct (IH (S n)) as (m & ? & ? & Hj);
      [by replace (S n + k)%nat with (n + S k)%nat by lia|].
    exists m. split_and!; [lia..|done|]. intros j ?.
    destruct (decide (j = n)) as [->|]; [done|apply Hj; lia].
Qed.

(** The test holds somewhere in [n, n + k) or nowhere. *)
Lemma bounded_search (P : nat → bool) (n k : nat) :
  (∃ j, (n ≤ j < n + k)%nat ∧ P j = true) ∨ (∀ j, (n ≤ j < n + k)%nat → P j = false).
Proof.
  induction k as [|k [(j & ? & ?)|IH]];
    [right; intros; lia|left; exists j; split; [lia|done]|].
  destruct (P (n + k)%nat) eqn:E; [left; exists (n + k)%nat; split; [lia|done]|].
  right. intros j ?. destruct (decide (j = (n + k)%nat)) as [->|]; [done|apply IH; lia].
Qed.
