(* ===== verification/GoTime.v ===== *)
(** * GoTime: the part of Go's [time] package the observer uses

    [time.Time] values are compared and shifted but never printed or
    decomposed by the observer, so a [Time] is the reading of the monotonic
    clock in nanoseconds and a [Duration] is a signed number of nanoseconds.
    [Add] is [Time.Add], [After] is [Time.After] (strict), [timer_fired]
    says when the channel returned by [time.After d] is ready.  The second
    half has the same operations as the machine computes them, with
    [int64]: [wrap64] is the addition that wraps around, [Add64] the
    monotonic part of [Time.Add] with its test for an overflow, [when64] the
    deadline of the runtime timer, which saturates; the lemmas say when they
    agree with the unbounded ones.  The model reads one clock where Go has
    two readings that differ by a constant (the monotonic reading of a
    [Time] counts from the start of the process); the bounds below are
    bounds on the larger of the two.  The package is outside src/: these
    definitions follow its documentation. *)

From S2P Require Import Prelude.

Definition Time : Type := Z.
Definition Duration : Type := Z.

(** [t.Add(d)]: the time [t + d]. *)
Definition Add (t : Time) (d : Duration) : Time := t + d.

(** [t.After(u)]: whether the instant [t] is strictly after [u]. *)
Definition After (t u : Time) : bool := bool_decide (u < t).

(** [time.After(d)] called at [t0] returns a channel that becomes ready once
    at least [d] has elapsed: [timer_fired (Add t0 d) now]. *)
Definition timer_fired (deadline now : Time) : bool := bool_decide (deadline ≤ now).

(** ** The same at 64 bits

    A [Duration] is an [int64], and so are the monotonic reading of a
    [time.Time] and the deadline of a runtime timer. *)

Definition int64_min : Z := - 2 ^ 63.
Definition int64_max : Z := 2 ^ 63 - 1.

Definition int64 (z : Z) : Prop := int64_min ≤ z ≤ int64_max.

#[global] Instance int64_dec z : Decision (int64 z).
Proof. unfold int64. apply _. Defined.

(** The sum of two [int64] as the machine computes it: two's complement,
    wrapping around. *)
Definition wrap64 (z : Z) : Z := (z + 2 ^ 63) mod 2 ^ 64 - 2 ^ 63.

(** [t.Add(d)] on the monotonic reading [ext] of [t]: the sum at 64 bits,
    with the test [d < 0 && te > t.ext || d > 0 && te < t.ext] for an
    overflow, after which the reading is dropped ([None]) and the time is
    compared by its wall clock. *)
Definition Add64 (ext : Time) (d : Duration) : option Time :=
  let te := wrap64 (ext + d) in
  if bool_decide (d < 0 ∧ ext < te ∨ 0 < d ∧ te < ext) then None else Some te.

(** The deadline of the runtime timer behind [time.After(d)], armed when
    the clock reads [nano]: at once for [d <= 0], and otherwise the sum at
    64 bits, replaced by the largest [int64] when it has overflowed. *)
Definition when64 (nano : Time) (d : Duration) : Time :=
  if bool_decide (d ≤ 0) then nano
  else let t := wrap64 (nano + d) in if bool_decide (t < 0) then int64_max else t.

Lemma After_spec t u : After t u = true ↔ u < t.
Proof. apply bool_decide_eq_true. Qed.

Lemma After_false t u : After t u = false ↔ t ≤ u.
Proof. unfold After. rewrite bool_decide_eq_false. lia. Qed.

Lemma After_irrefl t : After t t = false.
Proof. apply After_false. lia. Qed.

Lemma After_Add t d : After (Add t d) t = true ↔ 0 < d.
Proof. rewrite After_spec /Add. lia. Qed.

Lemma After_mono t t' u : t ≤ t' → After t u = true → After t' u = true.
Proof. rewrite !After_spec. lia. Qed.

Lemma timer_fired_spec deadline now : timer_fired deadline now = true ↔ deadline ≤ now.
Proof. apply bool_decide_eq_true. Qed.

Lemma timer_fired_mono deadline now now' :
  now ≤ now' → timer_fired deadline now = true → timer_fired deadline now' = true.
Proof. rewrite !timer_fired_spec. lia. Qed.

(** A timer armed with a non-positive duration is ready at once. *)
Lemma timer_fired_nonpos t d : d ≤ 0 → timer_fired (Add t d) t = true.
Proof. rewrite timer_fired_spec /Add. lia. Qed.

Lemma Add_mono_l t t' d : t ≤ t' → Add t d ≤ Add t' d.
Proof. unfold Add. lia. Qed.

(** ** 64 bits *)

(** The wrap takes away the multiple of [2 ^ 64] that brings the sum into
    the range. *)
Lemma wrap64_shift z k : int64 (z - k * 2 ^ 64) → wrap64 z = z - k * 2 ^ 64.
Proof.
  unfold wrap64, int64, int64_min, int64_max. intros Hz.
  replace (z + 2 ^ 63) with ((z - k * 2 ^ 64 + 2 ^ 63) + k * 2 ^ 64) by lia.
  rewrite Z.mod_add // Z.mod_small; lia.
Qed.

Lemma wrap64_small z : int64 z → wrap64 z = z.
Proof. intros Hz. rewrite (wrap64_shift z 0) Z.sub_0_r //. Qed.

(** The sum of two [int64] wraps around at most once. *)
Lemma wrap64_add x y :
  int64 x → int64 y →
  wrap64 (x + y) =
    if decide (int64 (x + y)) then x + y
    else if decide (x + y < 0) then x + y + 2 ^ 64 else x + y - 2 ^ 64.
Proof.
  intros Hx Hy. unfold int64, int64_min, int64_max in *.
  repeat case_decide.
  - by apply wrap64_small.
  - rewrite (wrap64_shift _ (-1)); unfold int64, int64_min, int64_max; lia.
  - rewrite (wrap64_shift _ 1); unfold int64, int64_min, int64_max; lia.
Qed.

(** The overflow test of [Time.Add] is exact: the reading is kept, and is
    the sum, exactly when the sum is an [int64]. *)
Lemma Add64_spec ext d :
  int64 ext → int64 d →
  Add64 ext d = if decide (int64 (ext + d)) then Some (Add ext d) else None.
Proof.
  intros He Hd. rewrite /Add64 /Add wrap64_add //.
  unfold int64, int64_min, int64_max in *.
  repeat case_decide; (rewrite bool_decide_eq_false_2; [done|lia])
                      || (rewrite bool_decide_eq_true_2; [done|lia]).
Qed.

(** The deadline of a timer saturates. *)
Lemma when64_spec nano d :
  0 ≤ nano → int64 nano → int64 d →
  when64 nano d = if decide (d ≤ 0) then nano else Z.min (nano + d) int64_max.
Proof.
  intros H0 Hn Hd. unfold when64. case_bool_decide; [by rewrite decide_True|].
  rewrite decide_False // wrap64_add //. unfold int64, int64_min, int64_max in *.
  repeat case_decide; case_bool_decide; lia.
Qed.

(** For a clock that has not reached the largest [int64], the timer with
    the saturated deadline fires when the timer of the model does. *)
Lemma when64_fired nano d t :
  0 ≤ nano → int64 nano → int64 d → nano ≤ t < int64_max →
  timer_fired (when64 nano d) t = timer_fired (Add nano d) t.
Proof.
  intros H0 Hn Hd Ht. rewrite when64_spec // /timer_fired /Add.
  apply bool_decide_ext. case_decide; lia.
Qed.

#[export] Hint Resolve After_mono timer_fired_mono timer_fired_nonpos Add_mono_l : obs.
#[export] Hint Rewrite After_irrefl : obs.
