(* ===== verification/Channel.v ===== *)
(** * Channel: Go channels as bounded FIFO queues

    A channel made by [make(chan T, n)] is its capacity [n] and the list of
    values sent and not yet received, oldest first.  A send appends when
    there is room and is refused otherwise (the sender blocks); a receive
    takes the oldest value and is refused on an empty buffer (the receiver
    blocks).  With capacity 0 no send is ever accepted by the buffer: such a
    channel transfers a value only by a rendezvous, which the interleaving
    semantics of [System] performs as one joint step.  The runtime is
    outside src/: these definitions follow the language specification. *)

From S2P Require Import Prelude.

Section channel.
Context {A : Type}.

Record chan : Type := Chan { chan_cap : nat; chan_buf : list A }.

(** [make(chan A, n)] *)
Definition make_chan (n : nat) : chan := Chan n [].

(** [len(c)] *)
Definition chan_len (c : chan) : nat := length (chan_buf c).

(** A send would not block. *)
Definition chan_can_send (c : chan) : bool := bool_decide (chan_len c < chan_cap c)%nat.

(** [c <- v]: [None] when the sender has to block. *)
Definition chan_send (c : chan) (v : A) : option chan :=
  if chan_can_send c then Some (Chan (chan_cap c) (chan_buf c ++ [v])) else None.

(** [<-c]: [None] when the receiver has to block. *)
Definition chan_recv (c : chan) : option (A * chan) :=
  match chan_buf c with
  | [] => None
  | v :: q => Some (v, Chan (chan_cap c) q)
  end.

(** Well-formedness: the buffer never holds more than the capacity. *)
Definition chan_wf (c : chan) : Prop := (chan_len c ≤ chan_cap c)%nat.

#[global] Instance chan_wf_dec c : Decision (chan_wf c).
Proof. unfold chan_wf. apply _. Defined.

(** Sending [vs] one after the other, stopping at the first refusal. *)
Fixpoint chan_send_all (c : chan) (vs : list A) : option chan :=
  match vs with
  | [] => Some c
  | v :: vs => c' ← chan_send c v; chan_send_all c' vs
  end.

(** Receiving [n] values, oldest first. *)
Fixpoint chan_recv_n (c : chan) (n : nat) : option (list A * chan) :=
  match n with
  | O => Some ([], c)
  | S n => '(v, c') ← chan_recv c; '(vs, c'') ← chan_recv_n c' n; Some (v :: vs, c'')
  end.

Implicit Types (c : chan) (v : A).

Lemma make_chan_wf n : chan_wf (make_chan n).
Proof. unfold chan_wf, chan_len. simpl. lia. Qed.

Lemma make_chan_len n : chan_len (make_chan n) = 0%nat.
Proof. done. Qed.

Lemma chan_can_send_spec c : chan_can_send c = true ↔ (chan_len c < chan_cap c)%nat.
Proof. apply bool_decide_eq_true. Qed.

(** A send succeeds exactly when the buffer is not full, and then appends at
    the back and keeps the capacity. *)
Lemma chan_send_Some c v c' :
  chan_send c v = Some c' ↔
  (chan_len c < chan_cap c)%nat ∧ c' = Chan (chan_cap c) (chan_buf c ++ [v]).
Proof.
  unfold chan_send. destruct (chan_can_send c) eqn:E.
  - apply chan_can_send_spec in E. naive_solver.
  - apply bool_decide_eq_false in E. naive_solver.
Qed.

(** A send blocks exactly when the buffer is full (backpressure). *)
Lemma chan_send_None c v : chan_send c v = None ↔ (chan_cap c ≤ chan_len c)%nat.
Proof.
  unfold chan_send. destruct (chan_can_send c) eqn:E.
  - apply chan_can_send_spec in E. split; [done|lia].
  - apply bool_decide_eq_false in E. split; [lia|done].
Qed.

Lemma chan_recv_Some c v c' :
  chan_recv c = Some (v, c') ↔ chan_buf c = v :: chan_buf c' ∧ chan_cap c' = chan_cap c.
Proof.
  unfold chan_recv. destruct c as [n [|w q]], c' as [n' q']; simpl.
  - split; [done|by intros [? ?]].
  - split; [by intros ?; simplify_eq|by intros [? ?]; simplify_eq].
Qed.

Lemma chan_recv_None c : chan_recv c = None ↔ chan_len c = 0%nat.
Proof. unfold chan_recv, chan_len. destruct (chan_buf c); naive_solver. Qed.

Lemma chan_send_len c v c' : chan_send c v = Some c' → chan_len c' = S (chan_len c).
Proof. intros [_ ->]%chan_send_Some. apply length_snoc. Qed.

Lemma chan_send_cap c v c' : chan_send c v = Some c' → chan_cap c' = chan_cap c.
Proof. by intros [_ ->]%chan_send_Some. Qed.

Lemma chan_recv_len c v c' : chan_recv c = Some (v, c') → chan_len c = S (chan_len c').
Proof. intros [H _]%chan_recv_Some. unfold chan_len. by rewrite H. Qed.

Lemma chan_recv_cap c v c' : chan_recv c = Some (v, c') → chan_cap c' = chan_cap c.
Proof. by intros [_ H]%chan_recv_Some. Qed.

(** Both operations keep the buffer within the capacity. *)
Lemma chan_send_wf c v c' : chan_send c v = Some c' → chan_wf c'.
Proof.
  intros H. unfold chan_wf. rewrite (chan_send_len _ _ _ H) (chan_send_cap _ _ _ H).
  apply chan_send_Some in H. lia.
Qed.

Lemma chan_recv_wf c v c' : chan_wf c → chan_recv c = Some (v, c') → chan_wf c'.
Proof.
  unfold chan_wf. intros Hwf H.
  rewrite (chan_recv_cap _ _ _ H). apply chan_recv_len in H. lia.
Qed.

(** An unbuffered channel never accepts a send into its buffer. *)
Lemma chan_send_unbuffered c v : chan_cap c = 0%nat → chan_send c v = None.
Proof. intros H. apply chan_send_None. lia. Qed.

(** FIFO: what is sent to an empty channel is received in the same order. *)
Lemma chan_recv_n_buf c :
  chan_recv_n c (chan_len c) = Some (chan_buf c, Chan (chan_cap c) []).
Proof.
  destruct c as [n q]. unfold chan_len. simpl.
  induction q as [|v q IH]; [done|]. cbn [length chan_recv_n].
  rewrite /chan_recv /= IH //.
Qed.

Lemma chan_send_all_buf c vs c' :
  chan_send_all c vs = Some c' →
  chan_buf c' = chan_buf c ++ vs ∧ chan_cap c' = chan_cap c.
Proof.
  revert c. induction vs as [|v vs IH]; intros c H; simpl in H.
  - simplify_eq. by rewrite app_nil_r.
  - apply bind_Some_inv in H as (c1 & [_ ->]%chan_send_Some & H).
    apply IH in H as [-> ->]. simpl. by rewrite -app_assoc.
Qed.

Lemma chan_send_all_enough c vs :
  (chan_len c + length vs ≤ chan_cap c)%nat → is_Some (chan_send_all c vs).
Proof.
  revert c. induction vs as [|v vs IH]; intros c H; simpl in *; [by eexists|].
  destruct (chan_send c v) as [c1|] eqn:E.
  - simpl. apply IH. rewrite (chan_send_len _ _ _ E) (chan_send_cap _ _ _ E). lia.
  - apply chan_send_None in E. lia.
Qed.

(** Round trip: what is sent to an empty channel that has room for it is
    what is received from it, in the same order, and the channel is empty
    again. *)
Lemma chan_send_all_recv_n c vs :
  chan_buf c = [] → (length vs ≤ chan_cap c)%nat →
  chan_send_all c vs ≫= (λ c', chan_recv_n c' (length vs)) = Some (vs, c).
Proof.
  intros Hc Hlen.
  destruct (chan_send_all_enough c vs) as [c' Hs]; [by rewrite /chan_len Hc|].
  rewrite Hs /=. destruct (chan_send_all_buf _ _ _ Hs) as [Hbuf Hcap].
  rewrite Hc /= in Hbuf. pose proof (chan_recv_n_buf c') as Hr.
  rewrite /chan_len Hbuf Hcap in Hr. rewrite Hr. by destruct c; simplify_eq/=.
Qed.

(** A send and a receive that are both possible can be done in either
    order, with the same result. *)
Lemma chan_send_recv_comm c v w c1 c2 :
  chan_send c v = Some c1 → chan_recv c = Some (w, c2) →
  ∃ c3, chan_recv c1 = Some (w, c3) ∧ chan_send c2 v = Some c3.
Proof.
  intros [Hlen ->]%chan_send_Some Hr. destruct c as [n [|x q]]; [done|].
  unfold chan_recv in Hr. simplify_eq/=. exists (Chan n (q ++ [v])).
  split; [done|]. apply chan_send_Some. unfold chan_len in *. simpl in *. split; [lia|done].
Qed.

End channel.

Arguments chan : clear implicits.
Arguments Chan {A} _ _.

#[export] Hint Resolve make_chan_wf chan_send_wf chan_recv_wf : obs.
