(* ===== verification/Buffer.v ===== *)
(** * Buffer: the two interfaces the aggregation loop is a client of

    [ObserverBuffer] is [models.ObserverBuffer]: the loop creates the empty
    value, merges results into it with [Append res oversized], and prints it
    with [String()].  [StatsReceiver] is the sink interface
    [statsreceiveriface.StatsReceiver] with its single method [Send].  Both
    live outside src/, so they are type classes here and the observer's
    theorems hold for every instance.  The instances below are the ones the
    development evaluates executions with: the journal buffer keeps every
    merged entry with its tag, the counting buffer keeps the two counts, the
    recording sink keeps every buffer it was sent. *)

From S2P Require Import Prelude.
From stdpp Require Import pretty.

(** [models.ObserverBuffer]: [buffer_empty] is the composite literal
    [models.ObserverBuffer{}], [buffer_string] is the method [String]. *)
Class ObserverBuffer (R B : Type) : Type := {
  buffer_empty : B;
  Append : B → R → bool → B;
  buffer_string : B → string;
}.

(** [statsreceiveriface.StatsReceiver]: [Send] takes the sink's state and
    the buffer and gives the sink's next state; nothing is returned to the
    caller. *)
Class StatsReceiver (B S : Type) : Type := {
  Send : S → B → S;
}.

#[global] Hint Mode ObserverBuffer - ! : typeclass_instances.
#[global] Hint Mode StatsReceiver - ! : typeclass_instances.

(** An entry is a result with its oversized tag. *)
Definition Entry (R : Type) : Type := R * bool.

(** The buffer reached by merging [es] in order into [b]. *)
Definition replay_from {R B} `{!ObserverBuffer R B} (b : B) (es : list (Entry R)) : B :=
  fold_left (λ b e, Append b e.1 e.2) es b.

Definition replay {R B} `{!ObserverBuffer R B} (es : list (Entry R)) : B :=
  replay_from buffer_empty es.

(** How many entries carry the tag [o]. *)
Definition count_tag {R} (o : bool) (es : list (Entry R)) : nat :=
  length (filter (λ e, e.2 = o) es).

(** ** The journal buffer: the list of merged entries, oldest first *)

Record Journal (R : Type) : Type := MkJournal { entries : list (Entry R) }.
Arguments MkJournal {R} _.
Arguments entries {R} _.

Definition journal_summary {R} (j : Journal R) : string :=
  "results=" +:+ pretty (count_tag false (entries j)) +:+
  " oversized=" +:+ pretty (count_tag true (entries j)).

#[export] Instance journal_buffer R : ObserverBuffer R (Journal R) := {|
  buffer_empty := MkJournal [];
  Append j r o := MkJournal (entries j ++ [(r, o)]);
  buffer_string := journal_summary;
|}.

(** ** The counting buffer: how many results of each class were merged *)

Record Counts : Type := MkCounts { results : nat; oversized_results : nat }.

Definition counts_summary (c : Counts) : string :=
  "results=" +:+ pretty (results c) +:+ " oversized=" +:+ pretty (oversized_results c).

#[export] Instance counts_buffer R : ObserverBuffer R Counts := {|
  buffer_empty := MkCounts 0 0;
  Append c _ o :=
    if o then MkCounts (results c) (S (oversized_results c))
    else MkCounts (S (results c)) (oversized_results c);
  buffer_string := counts_summary;
|}.

(** ** The recording sink: every buffer it was sent, oldest first *)

#[export] Instance recording_sink B : StatsReceiver B (list B) := {|
  Send s b := s ++ [b];
|}.

(** ** Lemmas *)

Section replay.
Context {R B : Type} `{!ObserverBuffer R B}.
Implicit Types (b : B) (es : list (Entry R)) (r : R) (o : bool).

Lemma replay_from_nil b : replay_from b [] = b.
Proof. done. Qed.

Lemma replay_from_app b es es' :
  replay_from b (es ++ es') = replay_from (replay_from b es) es'.
Proof. apply fold_left_app. Qed.

(** Merging one more entry is one more [Append]. *)
Lemma replay_from_snoc b es r o :
  replay_from b (es ++ [(r, o)]) = Append (replay_from b es) r o.
Proof. by rewrite replay_from_app. Qed.

Lemma replay_snoc es r o :
  replay (B:=B) (es ++ [(r, o)]) = Append (replay es) r o.
Proof. apply replay_from_snoc. Qed.

End replay.

Section count_tag.
Context {R : Type}.
Implicit Types (es : list (Entry R)) (r : R) (o : bool).

Lemma count_tag_nil o : count_tag (R:=R) o [] = 0%nat.
Proof. done. Qed.

Lemma count_tag_app o es es' : count_tag o (es ++ es') = (count_tag o es + count_tag o es')%nat.
Proof. by rewrite /count_tag filter_app length_app. Qed.

Lemma count_tag_snoc o es r o' :
  count_tag o (es ++ [(r, o')]) = (count_tag o es + if decide (o' = o) then 1 else 0)%nat.
Proof.
  rewrite count_tag_app. f_equal. rewrite /count_tag filter_cons /=.
  by destruct (decide (o' = o)).
Qed.

(** The counts do not depend on the order of the entries. *)
#[global] Instance count_tag_Permutation o :
  Proper ((≡ₚ) ==> (=)) (count_tag (R:=R) o).
Proof. intros es es' Hp. unfold count_tag. by rewrite Hp. Qed.

(** Every entry carries one of the two tags. *)
Lemma count_tag_total es : (count_tag false es + count_tag true es)%nat = length es.
Proof.
  induction es as [|[r o] es IH] using rev_ind; [done|].
  rewrite !count_tag_snoc length_snoc.
  destruct o; repeat case_decide; simplify_eq; lia.
Qed.

(** The journal buffer replays to itself. *)
Lemma replay_journal es : replay (B:=Journal R) es = MkJournal es.
Proof.
  induction es as [|[r o] es IH] using rev_ind; [done|].
  by rewrite replay_snoc IH.
Qed.

(** The counting buffer is the image of the journal under [count_tag]:
    replaying the same entries into it gives exactly the two counts. *)
Lemma replay_counts es :
  replay (B:=Counts) es = MkCounts (count_tag false es) (count_tag true es).
Proof.
  induction es as [|[r o] es IH] using rev_ind; [done|].
  rewrite replay_snoc IH !count_tag_snoc /=.
  destruct o; repeat case_decide; simplify_eq; f_equal; lia.
Qed.

End count_tag.

#[export] Hint Rewrite @replay_from_snoc @replay_snoc @count_tag_snoc @count_tag_app : obs.
