(* ===== verification/Observer.v ===== *)
(** * Observer: the struct, its constructor and the atomic actions of its code

    The struct [Observer] of observer.go is the Record [Observer] with the
    source's field names (the logger field is the log of the system state in
    [System]).  The goroutine that [Start] launches has two local variables,
    [reportTime] and [buffer], and a program point [PC]; each atomic action
    of its body is one definition below, named after what the lines do, which
    is enabled at one program point and gives the next observer, the next
    goroutine state and the log entries written.  The methods [Start] and
    [Stop] are split at their accesses to shared memory ([Start_check],
    [Start_spawn], [Stop_check]); the two channel handshakes of [Stop] are
    joint steps of [System].  [TargetWrite] and [TargetWriteOversized] are
    one channel send each. *)

From S2P Require Import Prelude GoTime Channel Buffer.

(** What the code hands to the logger: [Warn msg], [Infof format] and
    [Debugf format arg] (the only argument ever formatted is the idle
    timeout). *)
Inductive LogEntry : Type :=
| Warn (msg : string)
| Infof (format : string)
| Debugf (format : string) (arg : Duration).

#[global] Instance LogEntry_eq_dec : EqDecision LogEntry.
Proof. solve_decision. Defined.

(** Program points of the goroutine of [Start] (lines 56-93). *)
Inductive PC : Type :=
| AtInit                  (* line 57: about to initialise reportTime and buffer *)
| AtSelectEnter           (* line 62: about to enter the select and arm the timer *)
| AtSelect (timer : Time) (* line 62: waiting in the select; the timer fires at [timer] *)
| AtCheck                 (* line 82: about to compare the clock with reportTime *)
| AtFlush                 (* line 83: about to log and send the buffer *)
| AtReset                 (* line 88: about to recompute reportTime and reset the buffer *)
| AtExitFlush             (* line 64: exit signal received, about to do the final flush *)
| AtExitClear             (* line 72: about to clear isRunning and leave the loop *)
| AtStopDone              (* line 92: about to signal stopDone *)
| AtReturn.               (* line 93: the goroutine has returned *)

#[global] Instance PC_eq_dec : EqDecision PC.
Proof. solve_decision. Defined.

(** Where a client is inside a lifecycle call; a client that is not in the
    table is outside [Start] and [Stop]. *)
Inductive ClientPC : Type :=
| InStartSet              (* line 54: about to set isRunning and launch the goroutine *)
| InStopSend              (* line 99: blocked sending on exitSignal *)
| InStopWait.             (* line 100: blocked receiving from stopDone *)

#[global] Instance ClientPC_eq_dec : EqDecision ClientPC.
Proof. solve_decision. Defined.

(** The actions of the goroutine, one per group of source lines. *)
Inductive Action : Type :=
| Init | Enter | RecvWrite | RecvOversized | Timeout
| Check | FlushReport | Reset | ExitFlush | ExitClear.

#[global] Instance Action_eq_dec : EqDecision Action.
Proof. solve_decision. Defined.

Definition msg_already_running : string := "Observer is already running".
Definition msg_exit : string := "Received exit signal, shutting down Observer ...".
Definition msg_timeout : string := "Observer timed out after (%v) waiting for result".

Section observer.
Context {R B S : Type} `{!ObserverBuffer R B} `{!StatsReceiver B S}.

(** The struct.  [statsClient] is [None] for a nil interface value and
    otherwise holds the sink's state. *)
Record Observer : Type := MkObserver {
  statsClient : option S;
  exitSignal : chan unit;
  stopDone : chan unit;
  targetWriteChan : chan R;
  targetWriteOversizedChan : chan R;
  timeout : Duration;
  reportInterval : Duration;
  isRunning : bool;
}.

(** The goroutine's program point and its two local variables. *)
Record Goroutine : Type := MkGoroutine {
  pc : PC;
  reportTime : Time;
  buffer : B;
}.

(** What one action does: the struct, the goroutine and the log lines. *)
Definition Effect : Type := Observer * Goroutine * list LogEntry.

Definition set_statsClient (s : option S) (o : Observer) : Observer :=
  MkObserver s (exitSignal o) (stopDone o) (targetWriteChan o)
    (targetWriteOversizedChan o) (timeout o) (reportInterval o) (isRunning o).

Definition set_targetWriteChan (c : chan R) (o : Observer) : Observer :=
  MkObserver (statsClient o) (exitSignal o) (stopDone o) c
    (targetWriteOversizedChan o) (timeout o) (reportInterval o) (isRunning o).

Definition set_targetWriteOversizedChan (c : chan R) (o : Observer) : Observer :=
  MkObserver (statsClient o) (exitSignal o) (stopDone o) (targetWriteChan o)
    c (timeout o) (reportInterval o) (isRunning o).

Definition set_isRunning (b : bool) (o : Observer) : Observer :=
  MkObserver (statsClient o) (exitSignal o) (stopDone o) (targetWriteChan o)
    (targetWriteOversizedChan o) (timeout o) (reportInterval o) b.

Definition set_pc (p : PC) (g : Goroutine) : Goroutine :=
  MkGoroutine p (reportTime g) (buffer g).

(** ** [New] (lines 34-46) *)

Definition New (statsClient : option S) (timeout reportInterval : Duration) : Observer :=
  {| statsClient := statsClient;
     exitSignal := make_chan 0;
     stopDone := make_chan 0;
     targetWriteChan := make_chan 1000;
     targetWriteOversizedChan := make_chan 1000;
     timeout := timeout;
     reportInterval := reportInterval;
     isRunning := false |}.

(** ** The producers' entry points *)

(** [TargetWrite] (lines 108-110): one send on [targetWriteChan]; [None]
    when the channel is full and the caller blocks. *)
Definition TargetWrite (o : Observer) (r : R) : option Observer :=
  c ← chan_send (targetWriteChan o) r; Some (set_targetWriteChan c o).

(** [TargetWriteOversized] (lines 114-116). *)
Definition TargetWriteOversized (o : Observer) (r : R) : option Observer :=
  c ← chan_send (targetWriteOversizedChan o) r; Some (set_targetWriteOversizedChan c o).

(** ** The goroutine's actions *)

(** Lines 68-70 and 84-86: [Send] when the client is not nil. *)
Definition send_stats (o : Observer) (b : B) : Observer :=
  match statsClient o with
  | Some s => set_statsClient (Some (Send s b)) o
  | None => o
  end.

(** Lines 57-58: [reportTime := time.Now().Add(o.reportInterval)] and
    [buffer := models.ObserverBuffer{}]. *)
Definition loop_init (now : Time) (o : Observer) (g : Goroutine) : option Effect :=
  match pc g with
  | AtInit => Some (o, MkGoroutine AtSelectEnter (Add now (reportInterval o)) buffer_empty, [])
  | _ => None
  end.

(** Lines 61-62 and 78: entering the [select] evaluates
    [time.After(o.timeout)], which arms a timer from the current clock. *)
Definition select_enter (now : Time) (o : Observer) (g : Goroutine) : option Effect :=
  match pc g with
  | AtSelectEnter => Some (o, set_pc (AtSelect (Add now (timeout o))) g, [])
  | _ => None
  end.

(** Line 63: [case <-o.exitSignal], the receiver's half of the rendezvous. *)
Definition select_exit (g : Goroutine) : option Goroutine :=
  match pc g with
  | AtSelect _ => Some (set_pc AtExitFlush g)
  | _ => None
  end.

(** Lines 74-75: [case res := <-o.targetWriteChan: buffer.Append(res, false)]. *)
Definition select_write (o : Observer) (g : Goroutine) : option Effect :=
  match pc g with
  | AtSelect _ =>
      '(res, c) ← chan_recv (targetWriteChan o);
      Some (set_targetWriteChan c o,
            MkGoroutine AtCheck (reportTime g) (Append (buffer g) res false), [])
  | _ => None
  end.

(** Lines 76-77: [case res := <-o.targetWriteOversizedChan:
    buffer.Append(res, true)]. *)
Definition select_oversized (o : Observer) (g : Goroutine) : option Effect :=
  match pc g with
  | AtSelect _ =>
      '(res, c) ← chan_recv (targetWriteOversizedChan o);
      Some (set_targetWriteOversizedChan c o,
            MkGoroutine AtCheck (reportTime g) (Append (buffer g) res true), [])
  | _ => None
  end.

(** Lines 78-79: [case <-time.After(o.timeout)], ready once the timer armed
    at the entry of the select has fired. *)
Definition select_timeout (now : Time) (o : Observer) (g : Goroutine) : option Effect :=
  match pc g with
  | AtSelect timer =>
      if timer_fired timer now
      then Some (o, set_pc AtCheck g, [Debugf msg_timeout (timeout o)])
      else None
  | _ => None
  end.

(** Line 82: [if time.Now().After(reportTime)]. *)
Definition check_report (now : Time) (o : Observer) (g : Goroutine) : option Effect :=
  match pc g with
  | AtCheck =>
      Some (o, set_pc (if After now (reportTime g) then AtFlush else AtSelectEnter) g, [])
  | _ => None
  end.

(** Lines 83-86: log the summary and send the buffer. *)
Definition flush_report (o : Observer) (g : Goroutine) : option Effect :=
  match pc g with
  | AtFlush =>
      Some (send_stats o (buffer g), set_pc AtReset g, [Infof (buffer_string (buffer g))])
  | _ => None
  end.

(** Lines 88-89: [reportTime = time.Now().Add(o.reportInterval)] and
    [buffer = models.ObserverBuffer{}]. *)
Definition reset_report (now : Time) (o : Observer) (g : Goroutine) : option Effect :=
  match pc g with
  | AtReset =>
      Some (o, MkGoroutine AtSelectEnter (Add now (reportInterval o)) buffer_empty, [])
  | _ => None
  end.

(** Lines 64-70: the warning and the final flush. *)
Definition exit_flush (o : Observer) (g : Goroutine) : option Effect :=
  match pc g with
  | AtExitFlush =>
      Some (send_stats o (buffer g), set_pc AtExitClear g,
            [Warn msg_exit; Infof (buffer_string (buffer g))])
  | _ => None
  end.

(** Lines 72-73: [o.isRunning = false; break ObserverLoop]. *)
Definition exit_clear (o : Observer) (g : Goroutine) : option Effect :=
  match pc g with
  | AtExitClear => Some (set_isRunning false o, set_pc AtStopDone g, [])
  | _ => None
  end.

(** Line 92: [o.stopDone <- struct{}{}], the sender's half of the rendezvous. *)
Definition stop_done (g : Goroutine) : option Goroutine :=
  match pc g with
  | AtStopDone => Some (set_pc AtReturn g)
  | _ => None
  end.

(** The goroutine's body as a dispatch on the action. *)
Definition act (a : Action) (now : Time) (o : Observer) (g : Goroutine) : option Effect :=
  match a with
  | Init => loop_init now o g
  | Enter => select_enter now o g
  | RecvWrite => select_write o g
  | RecvOversized => select_oversized o g
  | Timeout => select_timeout now o g
  | Check => check_report now o g
  | FlushReport => flush_report o g
  | Reset => reset_report now o g
  | ExitFlush => exit_flush o g
  | ExitClear => exit_clear o g
  end.

(** ** [Start] and [Stop] *)

(** Lines 50-53: the test of [isRunning]; the call returns with a warning
    when it is set and goes on to line 54 otherwise. *)
Definition Start_check (o : Observer) : option ClientPC * list LogEntry :=
  if isRunning o then (None, [Warn msg_already_running]) else (Some InStartSet, []).

(** Lines 54-56: [o.isRunning = true] and the [go] statement.  The new
    goroutine has not run yet: its local variables are set by [loop_init]. *)
Definition Start_spawn (o : Observer) : Observer * Goroutine :=
  (set_isRunning true o, MkGoroutine AtInit 0 buffer_empty).

(** Line 98: the test of [isRunning]; the call returns at once when it is
    clear and goes on to the send of line 99 otherwise. *)
Definition Stop_check (o : Observer) : option ClientPC :=
  if isRunning o then Some InStopSend else None.

(** [Start] run without interruption (lines 49-94 up to the launch). *)
Definition Start (o : Observer) : Observer * option Goroutine * list LogEntry :=
  match Start_check o with
  | (Some _, lg) => let '(o', g) := Start_spawn o in (o', Some g, lg)
  | (None, lg) => (o, None, lg)
  end.

(** The goroutine is still inside the loop (it has not received the exit
    signal). *)
Definition in_loop (p : PC) : bool :=
  match p with
  | AtInit | AtSelectEnter | AtSelect _ | AtCheck | AtFlush | AtReset => true
  | _ => false
  end.

(** The goroutine has not returned. *)
Definition live (p : PC) : bool :=
  match p with AtReturn => false | _ => true end.

(** The channels of the struct are within their capacities, which are the
    ones [New] gave them. *)
Definition observer_wf (o : Observer) : Prop :=
  chan_cap (targetWriteChan o) = 1000%nat ∧
  chan_cap (targetWriteOversizedChan o) = 1000%nat ∧
  chan_wf (targetWriteChan o) ∧
  chan_wf (targetWriteOversizedChan o) ∧
  exitSignal o = make_chan 0 ∧
  stopDone o = make_chan 0.

End observer.

Arguments Observer : clear implicits.
Arguments Goroutine : clear implicits.
Arguments Effect : clear implicits.

(** [inv_act H]: [H : act a now o g = Some _]; one goal per action [a] that
    can have been enabled, with the guard of the action in the context and
    the resulting observer, goroutine and log substituted. *)
Ltac inv_act H :=
  match type of H with
  | act ?a _ _ _ = Some _ =>
      destruct a;
      unfold act, loop_init, select_enter, select_write, select_oversized,
        select_timeout, check_report, flush_report, reset_report, exit_flush,
        exit_clear in H;
      inv_enabled H
  end.

(** [inv_sync H]: the same for the two rendezvous halves. *)
Ltac inv_sync H :=
  unfold select_exit, stop_done in H; inv_enabled H.
