(* ===== verification/System.v ===== *)
(** * System: the interleaving semantics of the observer and its callers

    A state [Sys] is the struct, the table of goroutines launched by
    [Start] (indexed by launch order), the table of clients that are inside
    a [Start] or [Stop] call, the clock and the log.  A [Label] is one atomic
    action: a clock tick, a step of a method call by a client, a push by a
    producer, an action of a goroutine, or one of the two rendezvous of the
    shutdown handshake.  [step] executes a label and is [None] when it is not
    enabled; [Step] states the same rules as an inductive relation; [run]
    executes a schedule; [Reachable] and [SReachable] are the reachable
    states without and with serialised lifecycle calls. *)

From S2P Require Import Prelude GoTime Channel Buffer Observer.

Section system.
Context {R B S : Type} `{!ObserverBuffer R B} `{!StatsReceiver B S}.

Record Sys : Type := MkSys {
  obs : Observer R S;
  gs : list (Goroutine B);
  cs : gmap nat ClientPC;
  now : Time;
  logs : list LogEntry;
}.

Inductive Label : Type :=
| Tick (d : Duration)                  (* the clock advances by [d] *)
| CallStart (c : nat)                  (* client [c] enters Start: lines 50-53 *)
| StartSpawn (c : nat)                 (* client [c] at lines 54-56 *)
| CallStop (c : nat)                   (* client [c] enters Stop: line 98 *)
| CallTargetWrite (r : R)              (* a producer's send of line 109 *)
| CallTargetWriteOversized (r : R)     (* a producer's send of line 115 *)
| Loop (g : nat) (a : Action)          (* goroutine [g] performs [a] *)
| SelectExit (g c : nat)               (* rendezvous on exitSignal: lines 63 and 99 *)
| StopDone (g c : nat).                (* rendezvous on stopDone: lines 92 and 100 *)

(** The state in which [New] has just returned, at clock [t0]. *)
Definition initial (sc : option S) (to ri : Duration) (t0 : Time) : Sys :=
  MkSys (New sc to ri) [] ∅ t0 [].

(** A client enters a call and stays inside it ([Some]) or the call
    returns at once ([None]). *)
Definition enter_call (c : nat) (p : option ClientPC) (m : gmap nat ClientPC) :
    gmap nat ClientPC :=
  match p with Some p => <[c := p]> m | None => m end.

Definition step (l : Label) (s : Sys) : option Sys :=
  match l with
  | Tick d =>
      if bool_decide (0 ≤ d)
      then Some (MkSys (obs s) (gs s) (cs s) (now s + d) (logs s))
      else None
  | CallStart c =>
      match cs s !! c with
      | Some _ => None
      | None =>
          let '(p, lg) := Start_check (obs s) in
          Some (MkSys (obs s) (gs s) (enter_call c p (cs s)) (now s) (logs s ++ lg))
      end
  | StartSpawn c =>
      match cs s !! c with
      | Some InStartSet =>
          let '(o, g) := Start_spawn (obs s) in
          Some (MkSys o (gs s ++ [g]) (delete c (cs s)) (now s) (logs s))
      | _ => None
      end
  | CallStop c =>
      match cs s !! c with
      | Some _ => None
      | None =>
          Some (MkSys (obs s) (gs s) (enter_call c (Stop_check (obs s)) (cs s))
                  (now s) (logs s))
      end
  | CallTargetWrite r =>
      o ← TargetWrite (obs s) r;
      Some (MkSys o (gs s) (cs s) (now s) (logs s))
  | CallTargetWriteOversized r =>
      o ← TargetWriteOversized (obs s) r;
      Some (MkSys o (gs s) (cs s) (now s) (logs s))
  | Loop g a =>
      gr ← gs s !! g;
      '(o, gr', lg) ← act a (now s) (obs s) gr;
      Some (MkSys o (<[g := gr']> (gs s)) (cs s) (now s) (logs s ++ lg))
  | SelectExit g c =>
      gr ← gs s !! g;
      gr' ← select_exit gr;
      match cs s !! c with
      | Some InStopSend =>
          Some (MkSys (obs s) (<[g := gr']> (gs s)) (<[c := InStopWait]> (cs s))
                  (now s) (logs s))
      | _ => None
      end
  | StopDone g c =>
      gr ← gs s !! g;
      gr' ← stop_done gr;
      match cs s !! c with
      | Some InStopWait =>
          Some (MkSys (obs s) (<[g := gr']> (gs s)) (delete c (cs s)) (now s) (logs s))
      | _ => None
      end
  end.

(** Executing a schedule, stopping at the first label that is not enabled. *)
Fixpoint run (ls : list Label) (s : Sys) : option Sys :=
  match ls with
  | [] => Some s
  | l :: ls => s' ← step l s; run ls s'
  end.

(** The same rules as a relation. *)
Inductive Step : Sys → Label → Sys → Prop :=
| Step_Tick s d :
    0 ≤ d →
    Step s (Tick d) (MkSys (obs s) (gs s) (cs s) (now s + d) (logs s))
| Step_CallStart s c p lg :
    cs s !! c = None →
    Start_check (obs s) = (p, lg) →
    Step s (CallStart c)
      (MkSys (obs s) (gs s) (enter_call c p (cs s)) (now s) (logs s ++ lg))
| Step_StartSpawn s c o g :
    cs s !! c = Some InStartSet →
    Start_spawn (obs s) = (o, g) →
    Step s (StartSpawn c) (MkSys o (gs s ++ [g]) (delete c (cs s)) (now s) (logs s))
| Step_CallStop s c :
    cs s !! c = None →
    Step s (CallStop c)
      (MkSys (obs s) (gs s) (enter_call c (Stop_check (obs s)) (cs s)) (now s) (logs s))
| Step_TargetWrite s r o :
    TargetWrite (obs s) r = Some o →
    Step s (CallTargetWrite r) (MkSys o (gs s) (cs s) (now s) (logs s))
| Step_TargetWriteOversized s r o :
    TargetWriteOversized (obs s) r = Some o →
    Step s (CallTargetWriteOversized r) (MkSys o (gs s) (cs s) (now s) (logs s))
| Step_Loop s g a gr o gr' lg :
    gs s !! g = Some gr →
    act a (now s) (obs s) gr = Some (o, gr', lg) →
    Step s (Loop g a) (MkSys o (<[g := gr']> (gs s)) (cs s) (now s) (logs s ++ lg))
| Step_SelectExit s g c gr gr' :
    gs s !! g = Some gr →
    select_exit gr = Some gr' →
    cs s !! c = Some InStopSend →
    Step s (SelectExit g c)
      (MkSys (obs s) (<[g := gr']> (gs s)) (<[c := InStopWait]> (cs s)) (now s) (logs s))
| Step_StopDone s g c gr gr' :
    gs s !! g = Some gr →
    stop_done gr = Some gr' →
    cs s !! c = Some InStopWait →
    Step s (StopDone g c)
      (MkSys (obs s) (<[g := gr']> (gs s)) (delete c (cs s)) (now s) (logs s)).

(** The discipline the source asks of its callers: a lifecycle call begins
    only when no other lifecycle call is in progress. *)
Definition serial (l : Label) (s : Sys) : bool :=
  match l with
  | CallStart _ | CallStop _ => bool_decide (cs s = ∅)
  | _ => true
  end.

(** States reachable from [s0] by any schedule. *)
Inductive Reachable (s0 : Sys) : Sys → Prop :=
| Reachable_init : Reachable s0 s0
| Reachable_step s l s' : Reachable s0 s → step l s = Some s' → Reachable s0 s'.

(** States reachable from [s0] when lifecycle calls are serialised. *)
Inductive SReachable (s0 : Sys) : Sys → Prop :=
| SReachable_init : SReachable s0 s0
| SReachable_step s l s' :
    SReachable s0 s → serial l s = true → step l s = Some s' → SReachable s0 s'.

(** A schedule whose lifecycle calls are serialised, from [s]. *)
Fixpoint serial_run (ls : list Label) (s : Sys) : bool :=
  match ls with
  | [] => true
  | l :: ls =>
      serial l s && match step l s with Some s' => serial_run ls s' | None => false end
  end.

(** ** Basic facts *)

Implicit Types (s : Sys) (l : Label) (ls : list Label).

(** The relation and the function are the same semantics. *)
Lemma Step_step s l s' : Step s l s' ↔ step l s = Some s'.
Proof.
  split.
  - destruct 1 as [s d Hd|s c p lg Hc Hs|s c o g Hc Hs|s c Hc|s r o H|s r o H
      |s g a gr o gr' lg Hg Ha|s g c gr gr' Hg He Hc|s g c gr gr' Hg He Hc];
      cbn [step];
      rewrite ?Hc ?Hs ?H ?Hg /= ?Ha ?He /= ?Hc ?bool_decide_eq_true_2 //.
  - destruct l; simpl; intros H; inv_enabled H; by econstructor.
Qed.

Lemma run_app ls ls' s : run (ls ++ ls') s = run ls s ≫= run ls'.
Proof.
  revert s. induction ls as [|l ls IH]; intros s; simpl; [done|].
  destruct (step l s); simpl; [apply IH|done].
Qed.

Lemma run_snoc ls l s : run (ls ++ [l]) s = run ls s ≫= step l.
Proof.
  rewrite run_app. destruct (run ls s) as [s'|]; simpl; [|done].
  by destruct (step l s').
Qed.

Lemma run_cons_Some l ls s s' :
  run (l :: ls) s = Some s' ↔ ∃ s1, step l s = Some s1 ∧ run ls s1 = Some s'.
Proof.
  simpl. split.
  - intros (s1 & ? & ?)%bind_Some_inv. eauto.
  - intros (s1 & -> & ?). done.
Qed.

(** Every prefix of an execution is an execution. *)
Lemma run_take ls s s' n : run ls s = Some s' → is_Some (run (take n ls) s).
Proof.
  rewrite -{1}(take_drop n ls) run_app. intros (s1 & -> & _)%bind_Some_inv. by eexists.
Qed.

(** Reachability is the closure of [step] under [run]. *)
Lemma Reachable_run s0 s : Reachable s0 s ↔ ∃ ls, run ls s0 = Some s.
Proof.
  split.
  - induction 1 as [|s l s' _ [ls IH] Hstep]; [by exists []|].
    exists (ls ++ [l]). by rewrite run_snoc IH.
  - intros [ls H]. revert s H. induction ls as [|l ls IH] using rev_ind; intros s H.
    + simpl in H. simplify_eq. constructor.
    + rewrite run_snoc in H. apply bind_Some_inv in H as (s1 & H1 & H2).
      eapply Reachable_step; eauto.
Qed.

Lemma Reachable_trans s0 s1 s2 : Reachable s0 s1 → Reachable s1 s2 → Reachable s0 s2.
Proof. intros H1 H2. induction H2; [done|]. eapply Reachable_step; eauto. Qed.

(** A serialised execution is an execution. *)
Lemma SReachable_Reachable s0 s : SReachable s0 s → Reachable s0 s.
Proof. induction 1; [constructor|eapply Reachable_step; eauto]. Qed.

Lemma SReachable_trans s0 s1 s2 : SReachable s0 s1 → SReachable s1 s2 → SReachable s0 s2.
Proof. intros H1 H2. induction H2; [done|]. eapply SReachable_step; eauto. Qed.

Lemma SReachable_run s0 s ls :
  serial_run ls s0 = true → run ls s0 = Some s → SReachable s0 s.
Proof.
  revert s0. induction ls as [|l ls IH]; intros s0 Hs Hr; simpl in *.
  - simplify_eq. constructor.
  - apply andb_true_iff in Hs as [Hl Hs].
    destruct (step l s0) as [s1|] eqn:E; [|done]. simpl in Hr.
    eapply SReachable_trans; [|eapply IH; eauto].
    eapply SReachable_step; [constructor|done..].
Qed.

(** ** Induction over schedules, from the last label *)

Lemma serial_run_app ls ls' s :
  serial_run (ls ++ ls') s =
  serial_run ls s && from_option (serial_run ls') false (run ls s).
Proof.
  revert s. induction ls as [|l ls IH]; intros s; simpl.
  - by destruct (serial_run ls' s).
  - destruct (step l s) as [s1|]; simpl; [|by rewrite !andb_false_r].
    by rewrite IH andb_assoc.
Qed.

Lemma serial_run_snoc ls l s0 :
  serial_run (ls ++ [l]) s0 = true ↔
  serial_run ls s0 = true ∧
  ∃ s, run ls s0 = Some s ∧ serial l s = true ∧ is_Some (step l s).
Proof.
  rewrite serial_run_app andb_true_iff. apply and_iff_compat_l.
  destruct (run ls s0) as [s|]; simpl; [|naive_solver].
  rewrite andb_true_iff. destruct (step l s) as [s'|] eqn:E; split.
  - intros [? _]. exists s. by rewrite E.
  - intros (? & ? & ? & _). by simplify_eq.
  - by intros [_ ?].
  - intros (? & ? & _ & [? ?]). simplify_eq.
Qed.

(** A serialised schedule is executable, and so is each of its prefixes. *)
Lemma serial_run_is_Some ls s : serial_run ls s = true → is_Some (run ls s).
Proof.
  revert s. induction ls as [|l ls IH]; intros s; simpl; [by eexists|].
  intros [_ H]%andb_true_iff. destruct (step l s); simpl; [by apply IH|done].
Qed.

Lemma serial_run_app_l ls ls' s : serial_run (ls ++ ls') s = true → serial_run ls s = true.
Proof. rewrite serial_run_app. by intros [? _]%andb_true_iff. Qed.

(** A property of schedules and the states they reach holds when it holds
    of the empty schedule and every enabled label extends it. *)
Lemma run_ind (P : list Label → Sys → Prop) s0 :
  P [] s0 →
  (∀ ls s l s', run ls s0 = Some s → P ls s → step l s = Some s' → P (ls ++ [l]) s') →
  ∀ ls s, run ls s0 = Some s → P ls s.
Proof.
  intros H0 Hstep ls. induction ls as [|l ls IH] using rev_ind; intros s Hr.
  - simpl in Hr. by simplify_eq.
  - rewrite run_snoc in Hr. apply bind_Some_inv in Hr as (s1 & H1 & H2). eauto.
Qed.

(** The same over serialised schedules. *)
Lemma serial_run_ind (P : list Label → Sys → Prop) s0 :
  P [] s0 →
  (∀ ls s l s', serial_run ls s0 = true → run ls s0 = Some s → P ls s →
                serial l s = true → step l s = Some s' → P (ls ++ [l]) s') →
  ∀ ls s, serial_run ls s0 = true → run ls s0 = Some s → P ls s.
Proof.
  intros H0 Hstep ls. induction ls as [|l ls IH] using rev_ind; intros s Hs Hr.
  - simpl in Hr. by simplify_eq.
  - apply serial_run_snoc in Hs as (Hs & s1 & H1 & Hl & _).
    rewrite run_snoc H1 /= in Hr. eauto.
Qed.

End system.

Arguments Sys : clear implicits.
Arguments Label : clear implicits.

(** [inv_step H]: [H : step l s = Some s']; one goal per rule of [Step] that
    can have produced it, with the premises of the rule in the context. *)
Ltac inv_step H :=
  apply Step_step in H; inversion H; subst; clear H; simpl in *.

#[export] Hint Constructors Reachable SReachable : obs.
#[export] Hint Resolve SReachable_Reachable : obs.
