(* ===== verification/Invariants.v ===== *)
(** * Invariants: what holds in every reachable state

    Three groups.  Frame lemmas say what each action of the goroutine can
    change ([act_frame], [act_in_loop], [act_exit]).  Invariants of every
    execution: the channels stay within the capacity [New] gave them, the
    configuration never changes, the clock never goes back, and a goroutine
    is at the flush only when the clock has passed its report time.  The
    lifecycle invariant [phase_inv] of serialised executions: [isRunning],
    the program point of the last goroutine launched and the program point
    of the caller move together through six phases, and every goroutine
    launched earlier has returned. *)

From S2P Require Import Prelude GoTime Channel Buffer Observer System.

Section invariants.
Context {R B S : Type} `{!ObserverBuffer R B} `{!StatsReceiver B S}.

Implicit Types (s : Sys R B S) (l : Label R) (o : Observer R S) (g : Goroutine B).
Implicit Types (a : Action) (t : Time) (lg : list LogEntry).
Implicit Types (sc : option S) (to ri : Duration).

(** A predicate kept by every step, and one kept by every serialised step. *)
Definition inductive_inv (P : Sys R B S → Prop) : Prop :=
  ∀ s l s', P s → step l s = Some s' → P s'.

Definition serial_inductive_inv (P : Sys R B S → Prop) : Prop :=
  ∀ s l s', P s → serial l s = true → step l s = Some s' → P s'.

(** Every goroutine of the table has returned. *)
Definition returned (gs : list (Goroutine B)) : Prop :=
  Forall (λ g, pc g = AtReturn) gs.

(** The configuration and the clock origin of a state. *)
Definition config_inv (to ri : Duration) (t0 : Time) s : Prop :=
  observer_wf (obs s) ∧ timeout (obs s) = to ∧ reportInterval (obs s) = ri ∧ t0 ≤ now s.

(** A goroutine that has decided to flush did so because the clock had
    passed its report time, and the clock has not gone back since. *)
Definition deadline_inv s : Prop :=
  ∀ i g, gs s !! i = Some g → pc g = AtFlush ∨ pc g = AtReset → reportTime g < now s.

(** The six phases of a serialised lifecycle. *)
Inductive phase (run : bool) (gs : list (Goroutine B)) (cs : gmap nat ClientPC) : Prop :=
| Ph_idle :
    run = false → returned gs → cs = ∅ → phase run gs cs
| Ph_starting c :
    run = false → returned gs → cs = {[c := InStartSet]} → phase run gs cs
| Ph_running past g :
    run = true → gs = past ++ [g] → returned past → in_loop (pc g) = true →
    cs = ∅ → phase run gs cs
| Ph_stopping past g c :
    run = true → gs = past ++ [g] → returned past → in_loop (pc g) = true →
    cs = {[c := InStopSend]} → phase run gs cs
| Ph_exiting past g c :
    run = true → gs = past ++ [g] → returned past →
    pc g = AtExitFlush ∨ pc g = AtExitClear →
    cs = {[c := InStopWait]} → phase run gs cs
| Ph_signalling past g c :
    run = false → gs = past ++ [g] → returned past → pc g = AtStopDone →
    cs = {[c := InStopWait]} → phase run gs cs.

Definition phase_inv s : Prop := phase (isRunning (obs s)) (gs s) (cs s).

(** ** Induction over executions *)

Lemma Reachable_inv (P : Sys R B S → Prop) s0 s :
  P s0 → inductive_inv P → Reachable s0 s → P s.
Proof. intros H0 Hind. induction 1; eauto. Qed.

Lemma SReachable_inv (P : Sys R B S → Prop) s0 s :
  P s0 → serial_inductive_inv P → SReachable s0 s → P s.
Proof. intros H0 Hind. induction 1; eauto. Qed.

Lemma inductive_serial_inductive (P : Sys R B S → Prop) :
  inductive_inv P → serial_inductive_inv P.
Proof. intros H s l s' ? _ ?. eauto. Qed.

(** ** What an action of the goroutine changes *)

Lemma send_stats_frame o b :
  exitSignal (send_stats o b) = exitSignal o ∧
  stopDone (send_stats o b) = stopDone o ∧
  targetWriteChan (send_stats o b) = targetWriteChan o ∧
  targetWriteOversizedChan (send_stats o b) = targetWriteOversizedChan o ∧
  timeout (send_stats o b) = timeout o ∧
  reportInterval (send_stats o b) = reportInterval o ∧
  isRunning (send_stats o b) = isRunning o.
Proof. unfold send_stats. by destruct (statsClient o). Qed.

(** No action touches the configuration or the handshake channels. *)
Lemma act_frame a t o g o' g' lg :
  act a t o g = Some (o', g', lg) →
  timeout o' = timeout o ∧ reportInterval o' = reportInterval o ∧
  exitSignal o' = exitSignal o ∧ stopDone o' = stopDone o.
Proof.
  intros H; inv_act H; simpl;
    try done; by destruct (send_stats_frame o (buffer g)) as (?&?&?&?&?&?&?).
Qed.

(** The channels stay within their capacity under every action. *)
Lemma act_observer_wf a t o g o' g' lg :
  act a t o g = Some (o', g', lg) → observer_wf o → observer_wf o'.
Proof.
  unfold observer_wf. intros H (?&?&?&?&?&?).
  inv_act H; simpl;
    repeat match goal with
    | |- context [send_stats ?o ?b] =>
        destruct (send_stats_frame o b) as (->&->&->&->&_&_&_)
    | H : chan_recv _ = Some _ |- _ =>
        pose proof (chan_recv_cap _ _ _ H);
        pose proof (λ Hwf, chan_recv_wf _ _ _ Hwf H); clear H
    end; intuition (eauto; congruence).
Qed.

(** An action is enabled only for a goroutine that has not returned. *)
Lemma act_live a t o g o' g' lg : act a t o g = Some (o', g', lg) → live (pc g) = true.
Proof. intros H; inv_act H; by destruct (pc g). Qed.

(** Inside the loop an action stays inside the loop and leaves [isRunning]
    alone. *)
Lemma act_in_loop a t o g o' g' lg :
  act a t o g = Some (o', g', lg) → in_loop (pc g) = true →
  in_loop (pc g') = true ∧ isRunning o' = isRunning o.
Proof.
  intros H Hin; inv_act H; simpl in *; try done;
    try (by case_match);
    by destruct (send_stats_frame o (buffer g)) as (?&?&?&?&?&?&?).
Qed.

(** After the exit signal only two actions remain: the final flush, which
    leaves [isRunning] set, and the clearing of [isRunning]. *)
Lemma act_exit a t o g o' g' lg :
  act a t o g = Some (o', g', lg) → in_loop (pc g) = false →
  (a = ExitFlush ∧ pc g = AtExitFlush ∧ pc g' = AtExitClear ∧ isRunning o' = isRunning o) ∨
  (a = ExitClear ∧ pc g = AtExitClear ∧ pc g' = AtStopDone ∧ isRunning o' = false).
Proof.
  intros H Hin; inv_act H; simpl in *;
    try (match goal with H : pc g = _ |- _ => rewrite H in Hin end; done).
  - left. by destruct (send_stats_frame o (buffer g)) as (?&?&?&?&?&?&?).
  - by right.
Qed.

(** ** What the methods change *)

Lemma TargetWrite_frame o r o' :
  TargetWrite o r = Some o' ↔
  ∃ c, chan_send (targetWriteChan o) r = Some c ∧ o' = set_targetWriteChan c o.
Proof.
  unfold TargetWrite. split.
  - intros H. inv_enabled H. eauto.
  - by intros (c & -> & ->).
Qed.

Lemma TargetWriteOversized_frame o r o' :
  TargetWriteOversized o r = Some o' ↔
  ∃ c, chan_send (targetWriteOversizedChan o) r = Some c ∧
       o' = set_targetWriteOversizedChan c o.
Proof.
  unfold TargetWriteOversized. split.
  - intros H. inv_enabled H. eauto.
  - by intros (c & -> & ->).
Qed.

Lemma TargetWrite_observer_wf o r o' :
  TargetWrite o r = Some o' → observer_wf o → observer_wf o'.
Proof.
  intros (c & Hs & ->)%TargetWrite_frame (?&?&?&?&?&?). unfold observer_wf. simpl.
  rewrite (chan_send_cap _ _ _ Hs). eauto 10 using chan_send_wf.
Qed.

Lemma TargetWriteOversized_observer_wf o r o' :
  TargetWriteOversized o r = Some o' → observer_wf o → observer_wf o'.
Proof.
  intros (c & Hs & ->)%TargetWriteOversized_frame (?&?&?&?&?&?). unfold observer_wf. simpl.
  rewrite (chan_send_cap _ _ _ Hs). eauto 10 using chan_send_wf.
Qed.

Lemma New_observer_wf sc to ri : observer_wf (New (R:=R) sc to ri).
Proof. repeat split; apply make_chan_wf. Qed.

(** ** Invariants of every execution *)

Lemma config_inv_inductive to ri t0 : inductive_inv (config_inv to ri t0).
Proof.
  intros s l s' (Hwf & Hto & Hri & Ht) H. unfold config_inv. inv_step H; try done.
  - split_and!; [done..|lia].
  - unfold Start_spawn in *. by simplify_eq.
  - match goal with H : TargetWrite _ _ = Some _ |- _ =>
      pose proof (TargetWrite_observer_wf _ _ _ H Hwf);
      apply TargetWrite_frame in H as (c & _ & ->) end. done.
  - match goal with H : TargetWriteOversized _ _ = Some _ |- _ =>
      pose proof (TargetWriteOversized_observer_wf _ _ _ H Hwf);
      apply TargetWriteOversized_frame in H as (c & _ & ->) end. done.
  - match goal with H : act _ _ _ _ = Some _ |- _ =>
      destruct (act_frame _ _ _ _ _ _ _ H) as (-> & -> & _);
      eauto using act_observer_wf end.
Qed.

Lemma config_inv_initial sc to ri t0 : config_inv to ri t0 (initial sc to ri t0).
Proof. split_and!; [apply New_observer_wf|done..]. Qed.

(** What an action does to the report time and to the decision to flush:
    the goroutine arrives at the flush only from a check that saw the clock
    past the report time, and the report time changes only at [Init] and
    [Reset]. *)
Lemma act_deadline a t o g o' g' lg :
  act a t o g = Some (o', g', lg) →
  (pc g = AtFlush ∨ pc g = AtReset → reportTime g < t) →
  pc g' = AtFlush ∨ pc g' = AtReset → reportTime g' < t.
Proof.
  intros H Hold; inv_act H; simpl; intros [?|?]; try done.
  - destruct (After t (reportTime g)) eqn:E; [by apply After_spec in E|done].
  - by case_match.
  - apply Hold. by left.
Qed.

Lemma deadline_inv_inductive : inductive_inv deadline_inv.
Proof.
  intros s l s' Hd H. unfold deadline_inv in *. inv_step H; intros i g0; eauto.
  - intros Hi Hpc. specialize (Hd _ _ Hi Hpc). lia.
  - unfold Start_spawn in *. simplify_eq.
    intros [Hi|[-> ->]]%lookup_snoc_Some [?|?]; by eauto.
  - intros [(-> & -> & _)|[_ Hi]]%lookup_insert_Some_list; [|by eauto].
    eapply act_deadline; eauto.
  - intros [(-> & -> & _)|[_ Hi]]%lookup_insert_Some_list; [|by eauto].
    match goal with H : select_exit _ = Some _ |- _ => inv_sync H end.
    by intros [?|?].
  - intros [(-> & -> & _)|[_ Hi]]%lookup_insert_Some_list; [|by eauto].
    match goal with H : stop_done _ = Some _ |- _ => inv_sync H end.
    by intros [?|?].
Qed.

(** ** The lifecycle invariant of serialised executions *)

Lemma returned_lookup gs i g : returned gs → gs !! i = Some g → pc g = AtReturn.
Proof. intros Hr Hi. by eapply (Forall_lookup_1 _ _ _ _ Hr Hi). Qed.

Lemma returned_snoc gs g : returned gs → pc g = AtReturn → returned (gs ++ [g]).
Proof. intros. apply Forall_app. split; [done|by constructor]. Qed.

(** Among goroutines that have all returned but the last, a live one is the
    last. *)
Lemma live_is_last past g i gr :
  returned past → (past ++ [g]) !! i = Some gr → live (pc gr) = true →
  i = length past ∧ gr = g.
Proof.
  intros Hr Hi Hl. eapply lookup_snoc_not_Forall; [exact Hr|exact Hi|].
  intros Hpc. by rewrite Hpc in Hl.
Qed.

End invariants.

(** [phase_cases H]: one goal per phase of [H : phase _ _ _], with fixed
    names for what the phase says. *)
Ltac phase_cases H :=
  destruct H as [Hrun Hret Hcs|c0 Hrun Hret Hcs|past g0 Hrun Hgs Hret Hpc Hcs
    |past g0 c0 Hrun Hgs Hret Hpc Hcs|past g0 c0 Hrun Hgs Hret Hpc Hcs
    |past g0 c0 Hrun Hgs Hret Hpc Hcs]; subst.

(** [client_is Hc]: [Hc] reads a client in the table of the phase, which is
    empty or a singleton; drop the phases it contradicts and identify the
    client in the others. *)
Ltac client_is Hc :=
  first [ by rewrite lookup_empty in Hc
        | by apply singleton_lookup_inv in Hc as [_ ?]
        | apply singleton_lookup_inv in Hc as [-> _] ].

(** [acting_is_last Hi Hl]: the goroutine read by [Hi] is live by [Hl];
    drop the phases in which every goroutine has returned and identify it
    with the last goroutine in the others. *)
Ltac acting_is_last Hi Hl :=
  first [ by rewrite (returned_lookup _ _ _ ltac:(eassumption) Hi) in Hl
        | match goal with Hret : returned _ |- _ =>
            destruct (live_is_last _ _ _ _ Hret Hi Hl) as [-> ->] end;
          rewrite insert_snoc_last ].

Section phases.
Context {R B S : Type} `{!ObserverBuffer R B} `{!StatsReceiver B S}.

Implicit Types (s : Sys R B S) (l : Label R) (o : Observer R S) (g : Goroutine B).
Implicit Types (a : Action) (t : Time) (lg : list LogEntry).
Implicit Types (sc : option S) (to ri : Duration).
Implicit Types (gs past : list (Goroutine B)) (cs : gmap nat ClientPC).

Lemma phase_call_start o gs c p lg :
  phase (isRunning o) gs ∅ → Start_check o = (p, lg) →
  phase (isRunning o) gs (enter_call c p ∅).
Proof.
  unfold Start_check. intros Hph Hs.
  destruct (isRunning o) eqn:E; simplify_eq/=; [done|].
  phase_cases Hph; try done. by eapply Ph_starting.
Qed.

Lemma phase_call_stop o gs c :
  phase (isRunning o) gs ∅ → phase (isRunning o) gs (enter_call c (Stop_check o) ∅).
Proof.
  unfold Stop_check. intros Hph.
  destruct (isRunning o) eqn:E; simpl; [|done].
  phase_cases Hph; try done. by eapply Ph_stopping.
Qed.

Lemma phase_start_spawn run gs cs c g :
  phase run gs cs → cs !! c = Some InStartSet → in_loop (pc g) = true →
  phase true (gs ++ [g]) (delete c cs).
Proof.
  intros Hph Hc Hg. phase_cases Hph; client_is Hc.
  rewrite delete_singleton_eq. by eapply Ph_running.
Qed.

(** An action of a goroutine moves the phase along: inside the loop it
    stays in its phase, the final flush stays in the exiting phase and the
    clearing of [isRunning] moves to the signalling phase. *)
Lemma phase_act a t o gs cs i g o' g' lg :
  phase (isRunning o) gs cs → gs !! i = Some g →
  act a t o g = Some (o', g', lg) →
  phase (isRunning o') (<[i:=g']> gs) cs.
Proof.
  intros Hph Hi Ha. pose proof (act_live _ _ _ _ _ _ _ Ha) as Hl.
  phase_cases Hph; acting_is_last Hi Hl.
  - destruct (act_in_loop _ _ _ _ _ _ _ Ha Hpc) as [? ->]. by eapply Ph_running.
  - destruct (act_in_loop _ _ _ _ _ _ _ Ha Hpc) as [? ->]. by eapply Ph_stopping.
  - destruct (act_exit _ _ _ _ _ _ _ Ha) as [(_&_&?&->)|(_&_&?&->)].
    + by destruct Hpc as [-> | ->].
    + eapply Ph_exiting; eauto.
    + by eapply Ph_signalling.
  - destruct (act_exit _ _ _ _ _ _ _ Ha) as [(_&?&_)|(_&?&_)];
      [by rewrite Hpc|congruence..].
Qed.

(** The rendezvous on [exitSignal] moves from the stopping phase to the
    exiting phase. *)
Lemma phase_select_exit run gs cs i c g g' :
  phase run gs cs → gs !! i = Some g → select_exit g = Some g' →
  cs !! c = Some InStopSend →
  phase run (<[i:=g']> gs) (<[c:=InStopWait]> cs).
Proof.
  intros Hph Hi He Hc. inv_sync He.
  assert (live (pc g) = true) as Hl by (by destruct (pc g)).
  phase_cases Hph; client_is Hc; acting_is_last Hi Hl.
  rewrite insert_singleton_eq. eapply Ph_exiting; eauto.
Qed.

(** The rendezvous on [stopDone] ends the lifecycle: every goroutine has
    returned and no client is inside a call. *)
Lemma phase_stop_done run gs cs i c g g' :
  phase run gs cs → gs !! i = Some g → stop_done g = Some g' →
  cs !! c = Some InStopWait →
  phase run (<[i:=g']> gs) (delete c cs).
Proof.
  intros Hph Hi He Hc. inv_sync He.
  assert (live (pc g) = true) as Hl by (by destruct (pc g)).
  phase_cases Hph; client_is Hc; acting_is_last Hi Hl.
  - destruct Hpc; congruence.
  - rewrite delete_singleton_eq. eapply Ph_idle; eauto using returned_snoc.
Qed.

Lemma phase_inv_serial_inductive :
  serial_inductive_inv (phase_inv (R:=R) (B:=B) (S:=S)).
Proof.
  intros s l s' Hph Hser H. unfold phase_inv in *.
  inv_step H; try done; option_inv.
  - rewrite Hser in Hph |- *. eauto using phase_call_start.
  - unfold Start_spawn in *. simplify_eq. eauto using phase_start_spawn.
  - rewrite Hser in Hph |- *. eauto using phase_call_stop.
  - match goal with H : TargetWrite _ _ = Some _ |- _ =>
      apply TargetWrite_frame in H as (? & _ & ->) end. done.
  - match goal with H : TargetWriteOversized _ _ = Some _ |- _ =>
      apply TargetWriteOversized_frame in H as (? & _ & ->) end. done.
  - eauto using phase_act.
  - eauto using phase_select_exit.
  - eauto using phase_stop_done.
Qed.

Lemma phase_inv_initial sc to ri t0 :
  phase_inv (initial (R:=R) (B:=B) sc to ri t0).
Proof. by apply Ph_idle; [|apply Forall_nil|]. Qed.

(** ** The invariants in every reachable state *)

Lemma SReachable_phase_inv sc to ri t0 s :
  SReachable (initial sc to ri t0) s → phase_inv s.
Proof.
  apply SReachable_inv; [apply phase_inv_initial|apply phase_inv_serial_inductive].
Qed.

Lemma Reachable_config_inv sc to ri t0 s :
  Reachable (initial sc to ri t0) s → config_inv to ri t0 s.
Proof.
  apply Reachable_inv; [apply config_inv_initial|apply config_inv_inductive].
Qed.

Lemma Reachable_deadline_inv sc to ri t0 s :
  Reachable (initial sc to ri t0) s → deadline_inv s.
Proof.
  apply Reachable_inv; [|apply deadline_inv_inductive].
  intros i g Hi. by rewrite lookup_nil in Hi.
Qed.

(** At most one goroutine of a phase is live. *)
Lemma phase_one_live run gs cs i j g g' :
  phase run gs cs → gs !! i = Some g → gs !! j = Some g' →
  live (pc g) = true → live (pc g') = true → i = j.
Proof.
  intros Hph Hi Hj Hl Hl'.
  phase_cases Hph;
    try (by rewrite (returned_lookup _ _ _ Hret Hi) in Hl);
    destruct (live_is_last _ _ _ _ Hret Hi Hl) as [-> _];
    by destruct (live_is_last _ _ _ _ Hret Hj Hl') as [-> _].
Qed.

(** In the stopping phase the caller's goroutine is the last one and is
    inside the loop. *)
Lemma phase_stopping_inv run gs cs c :
  phase run gs cs → cs !! c = Some InStopSend →
  ∃ past g, gs = past ++ [g] ∧ returned past ∧ in_loop (pc g) = true ∧
            cs = {[c := InStopSend]}.
Proof. intros Hph Hc. phase_cases Hph; client_is Hc. eauto 10. Qed.

(** What [send_stats] does to the sink. *)
Lemma send_stats_statsClient o (b : B) :
  statsClient (send_stats o b) = (λ k, Send k b) <$> statsClient o.
Proof. unfold send_stats. destruct (statsClient o) eqn:E; simpl; by rewrite ?E. Qed.

End phases.
