(* ===== verification/Demo.v ===== *)
(** * Demo: a concrete system to evaluate the model on

    Results are natural numbers, the buffer is the journal, the sink records
    what it is sent.  The schedules below drive the system through the
    lifecycle; the states they reach are computed by the kernel and are the
    inputs of the witnesses of the other files. *)

From S2P Require Import Prelude GoTime Channel Buffer Observer System.

Definition DSys : Type := Sys nat (Journal nat) (list (Journal nat)).
Definition DLabel : Type := Label nat.

(** Milliseconds as a [Duration]. *)
Definition ms (n : Z) : Duration := n * 1000000.

(** [New(sink, 100ms, 1s)] at clock 0. *)
Definition demo_init : DSys := initial (Some []) (ms 100) (ms 1000) 0.

(** The same with a nil sink. *)
Definition demo_init_nil : DSys := initial None (ms 100) (ms 1000) 0.

(** [Start()], then the goroutine runs up to its [select]. *)
Definition sched_start : list DLabel :=
  [CallStart 0; StartSpawn 0; Loop 0 Init; Loop 0 Enter].

(** [Start()], then the goroutine initialises its variables and is about
    to enter its [select] for the first time. *)
Definition sched_spawned : list DLabel :=
  [CallStart 0; StartSpawn 0; Loop 0 Init].

(** One result is pushed and merged; the goroutine is about to check the
    deadline. *)
Definition sched_merge : list DLabel :=
  sched_start ++ [CallTargetWrite 7%nat; Loop 0 RecvWrite].

(** One result is pushed and not yet received, while the goroutine waits
    in its [select]. *)
Definition sched_queued : list DLabel := sched_start ++ [CallTargetWrite 7%nat].

(** From there: the goroutine receives the result, tests the deadline and
    enters its [select] again, while the clock advances and an oversized
    result is pushed. *)
Definition sched_around : list DLabel :=
  [Loop 0 RecvWrite; Loop 0 Check; Tick (ms 5); CallTargetWriteOversized 4%nat;
   Loop 0 Enter].

(** More than a report interval passes and the goroutine decides to flush. *)
Definition sched_late : list DLabel :=
  sched_merge ++ [Tick (ms 1001); Loop 0 Check].

(** The flush has been done and the reset has not. *)
Definition sched_flushed : list DLabel :=
  sched_late ++ [Loop 0 FlushReport].

(** From there: the reset, one idle wait longer than the report interval,
    and the decision to flush again. *)
Definition sched_next_flush : list DLabel :=
  [Loop 0 Reset; Loop 0 Enter; Tick (ms 1001); Loop 0 Timeout; Loop 0 Check].

(** [Stop()] is called while the goroutine waits in its [select]; one
    result is still queued. *)
Definition sched_stopping : list DLabel :=
  sched_start ++ [CallTargetWrite 7%nat; CallStop 0].

(** From there: the exit signal is taken and the goroutine runs to its
    return. *)
Definition sched_exit : list DLabel :=
  [SelectExit 0 0; Loop 0 ExitFlush; Loop 0 ExitClear; StopDone 0 0].

(** The exit signal has been taken: the caller waits for [stopDone] and the
    goroutine is on its exit path. *)
Definition sched_exiting : list DLabel := sched_stopping ++ [SelectExit 0 0].

(** From the running observer: an idle wait longer than the report
    interval, the periodic flush, and a [Stop()] to its end. *)
Definition sched_flush_stop : list DLabel :=
  [Tick (ms 1001); Loop 0 Timeout; Loop 0 Check; Loop 0 FlushReport; Loop 0 Reset;
   Loop 0 Enter; CallStop 0; SelectExit 0 0; Loop 0 ExitFlush; Loop 0 ExitClear;
   StopDone 0 0].

(** The running observer after more than a report interval, and the three
    steps of its goroutine up to the flush. *)
Definition sched_overdue : list DLabel := sched_start ++ [Tick (ms 1001)].
Definition sched_due : list DLabel := [Loop 0 Timeout; Loop 0 Check; Loop 0 FlushReport].

(** A result and an oversized result are pushed and merged, then [Stop()]
    runs to its end. *)
Definition sched_drained_stop : list DLabel :=
  sched_merge ++
  [CallTargetWriteOversized 8%nat; Loop 0 Check; Loop 0 Enter; Loop 0 RecvOversized;
   Loop 0 Check; Loop 0 Enter; CallStop 0;
   SelectExit 0 0; Loop 0 ExitFlush; Loop 0 ExitClear; StopDone 0 0].

(** A thousand pushes that nobody receives. *)
Definition sched_fill : list DLabel := replicate 1000 (CallTargetWrite 0%nat).

(** The loop waits in its [select] while a thousand pushes fill the queue. *)
Definition sched_full_running : list DLabel := sched_start ++ sched_fill.

(** The state a schedule reaches ([demo_init] when it is not executable). *)
Definition after (ls : list DLabel) (s : DSys) : DSys := default s (run ls s).

Definition demo_spawned : DSys := Eval vm_compute in after sched_spawned demo_init.

(** The goroutine of [demo_spawned]: first report at one second, nothing
    merged yet. *)
Definition fresh_loop : Goroutine (Journal nat) :=
  MkGoroutine AtSelectEnter (ms 1000) (MkJournal []).

Definition demo_running : DSys := Eval vm_compute in after sched_start demo_init.
Definition demo_queued : DSys := Eval vm_compute in after sched_queued demo_init.
Definition demo_merged : DSys := Eval vm_compute in after sched_merge demo_init.
Definition demo_late : DSys := Eval vm_compute in after sched_late demo_init.
Definition demo_flushed : DSys := Eval vm_compute in after sched_flushed demo_init.
Definition demo_next_flush : DSys := Eval vm_compute in after sched_next_flush demo_flushed.
Definition demo_stopping : DSys := Eval vm_compute in after sched_stopping demo_init.
Definition demo_exiting : DSys := Eval vm_compute in after sched_exiting demo_init.
Definition demo_exited : DSys := Eval vm_compute in after sched_exit demo_stopping.
Definition demo_flush_stop : DSys := Eval vm_compute in after sched_flush_stop demo_running.
Definition demo_overdue : DSys := Eval vm_compute in after sched_overdue demo_init.
Definition demo_due_flushed : DSys := Eval vm_compute in after sched_due demo_overdue.
Definition demo_nil_late : DSys := Eval vm_compute in after sched_late demo_init_nil.
Definition demo_stopped : DSys := Eval vm_compute in after sched_drained_stop demo_init.

(** The state in which the normal queue is full. *)
Definition demo_full : DSys :=
  MkSys (set_targetWriteChan (Chan 1000 (replicate 1000 0%nat)) (obs demo_init))
    [] ∅ 0 [].

(** The same while the loop waits in its [select]. *)
Definition demo_full_running : DSys :=
  MkSys (set_targetWriteChan (Chan 1000 (replicate 1000 0%nat)) (obs demo_running))
    (gs demo_running) ∅ 0 [].

Lemma run_sched_full_running : run sched_full_running demo_init = Some demo_full_running.
Proof. vm_compute. reflexivity. Qed.

Lemma run_sched_fill : run sched_fill demo_init = Some demo_full.
Proof. vm_compute. reflexivity. Qed.

Lemma run_sched_flushed : run sched_flushed demo_init = Some demo_flushed.
Proof. vm_compute. reflexivity. Qed.

Lemma run_sched_next_flush : run sched_next_flush demo_flushed = Some demo_next_flush.
Proof. vm_compute. reflexivity. Qed.

Lemma run_sched_exit : run sched_exit demo_stopping = Some demo_exited.
Proof. vm_compute. reflexivity. Qed.

Lemma run_sched_flush_stop : run sched_flush_stop demo_running = Some demo_flush_stop.
Proof. vm_compute. reflexivity. Qed.

Lemma run_sched_due : run sched_due demo_overdue = Some demo_due_flushed.
Proof. vm_compute. reflexivity. Qed.

Lemma run_sched_nil_late : run sched_late demo_init_nil = Some demo_nil_late.
Proof. vm_compute. reflexivity. Qed.

Lemma run_sched_start : run sched_start demo_init = Some demo_running.
Proof. vm_compute. reflexivity. Qed.

Lemma run_sched_merge : run sched_merge demo_init = Some demo_merged.
Proof. vm_compute. reflexivity. Qed.

Lemma run_sched_late : run sched_late demo_init = Some demo_late.
Proof. vm_compute. reflexivity. Qed.

Lemma run_sched_stopping : run sched_stopping demo_init = Some demo_stopping.
Proof. vm_compute. reflexivity. Qed.

Lemma run_sched_drained_stop : run sched_drained_stop demo_init = Some demo_stopped.
Proof. vm_compute. reflexivity. Qed.

Lemma serial_sched_drained_stop : serial_run sched_drained_stop demo_init = true.
Proof. vm_compute. reflexivity. Qed.

(** The four schedules respect the serialisation of lifecycle calls. *)
Lemma demo_running_reachable : SReachable demo_init demo_running.
Proof. apply (SReachable_run _ _ sched_start); vm_compute; reflexivity. Defined.

Lemma demo_merged_reachable : SReachable demo_init demo_merged.
Proof. apply (SReachable_run _ _ sched_merge); vm_compute; reflexivity. Defined.

Lemma demo_late_reachable : SReachable demo_init demo_late.
Proof. apply (SReachable_run _ _ sched_late); vm_compute; reflexivity. Defined.

Lemma demo_stopping_reachable : SReachable demo_init demo_stopping.
Proof. apply (SReachable_run _ _ sched_stopping); vm_compute; reflexivity. Defined.

Lemma demo_exiting_reachable : SReachable demo_init demo_exiting.
Proof. apply (SReachable_run _ _ sched_exiting); vm_compute; reflexivity. Defined.

Lemma demo_flushed_reachable : SReachable demo_init demo_flushed.
Proof. apply (SReachable_run _ _ sched_flushed); vm_compute; reflexivity. Defined.

Lemma demo_nil_late_reachable : SReachable demo_init_nil demo_nil_late.
Proof. apply (SReachable_run _ _ sched_late); vm_compute; reflexivity. Defined.

Lemma demo_full_reachable : SReachable demo_init demo_full.
Proof. apply (SReachable_run _ _ sched_fill); vm_compute; reflexivity. Defined.

Lemma demo_full_running_reachable : SReachable demo_init demo_full_running.
Proof. apply (SReachable_run _ _ sched_full_running); vm_compute; reflexivity. Defined.
