(* ===== verification/Wf.v ===== *)
(** * Wf: the well-formed states of the system

    What a state looks like in every execution, whoever calls what and
    when.  [goroutine_wf] types the local variables of a goroutine by its
    program point: the timer of a [select] fires within one idle timeout,
    the report time is never more than one report interval ahead of the
    clock, and it is behind the clock at the flush and at the reset.
    [waiters] and [exits] count the callers blocked on [stopDone] (line 100)
    and the goroutines between the exit signal and the send on [stopDone]
    (lines 64-92): the two numbers are equal, so neither side of the second
    handshake of [Stop] is ever left without a partner, serialised callers
    or not.  [sys_wf] is the conjunction with the capacity of the channels;
    it holds of the state [New] returns and every step preserves it. *)

From S2P Require Import Prelude GoTime Channel Buffer Observer System Invariants Demo.

Section wf.
Context {R B S : Type} `{!ObserverBuffer R B} `{!StatsReceiver B S}.

Implicit Types (s : Sys R B S) (l : Label R) (o : Observer R S) (g : Goroutine B).
Implicit Types (a : Action) (t : Time) (lg : list LogEntry).
Implicit Types (sc : option S) (to ri : Duration).
Implicit Types (gl : list (Goroutine B)) (cl : gmap nat ClientPC) (q : ClientPC).

(** The exit path (lines 64-92): the goroutine has taken the exit signal
    and has not yet released the caller. *)
Definition exiting (p : PC) : bool :=
  match p with AtExitFlush | AtExitClear | AtStopDone => true | _ => false end.

(** The goroutines on the exit path, and the callers blocked at line 100. *)
Definition exits gl : nat := count_list (λ g, exiting (pc g) = true) gl.

Definition waiters cl : nat := count_map (λ q, q = InStopWait) cl.

(** What the program point says of the local variables at clock [t]. *)
Definition goroutine_wf t to ri g : Prop :=
  match pc g with
  | AtInit => True
  | AtSelect timer => timer ≤ Add t to ∧ reportTime g ≤ Add t ri
  | AtFlush | AtReset => reportTime g < t ∧ reportTime g ≤ Add t ri
  | _ => reportTime g ≤ Add t ri
  end.

#[global] Instance goroutine_wf_dec t to ri g : Decision (goroutine_wf t to ri g).
Proof. unfold goroutine_wf. destruct (pc g); apply _. Defined.

Record sys_wf s : Prop := SysWf {
  wf_observer : observer_wf (obs s);
  wf_goroutines :
    Forall (goroutine_wf (now s) (timeout (obs s)) (reportInterval (obs s))) (gs s);
  wf_handshake : waiters (cs s) = exits (gs s);
}.

(** ** The local variables *)

(** The clock may advance under a well-formed goroutine. *)
Lemma goroutine_wf_mono t t' to ri g :
  t ≤ t' → goroutine_wf t to ri g → goroutine_wf t' to ri g.
Proof. unfold goroutine_wf, Add. intros Ht. destruct (pc g); lia. Qed.

(** Every action of the body leaves the goroutine well-formed. *)
Lemma act_goroutine_wf a t o g o' g' lg :
  act a t o g = Some (o', g', lg) →
  goroutine_wf t (timeout o) (reportInterval o) g →
  goroutine_wf t (timeout o) (reportInterval o) g'.
Proof.
  intros H. unfold goroutine_wf. inv_act H; unfold Add; simpl; try lia.
  destruct (After t (reportTime g)) eqn:E; [apply After_spec in E|]; lia.
Qed.

Lemma sync_goroutine_wf t to ri g g' :
  select_exit g = Some g' ∨ stop_done g = Some g' →
  goroutine_wf t to ri g → goroutine_wf t to ri g'.
Proof. unfold goroutine_wf. intros [H|H]; inv_sync H; simpl; lia. Qed.

(** ** The handshake *)

(** An action of the body neither enters nor leaves the exit path. *)
Lemma act_exiting a t o g o' g' lg :
  act a t o g = Some (o', g', lg) → exiting (pc g') = exiting (pc g).
Proof. intros H; inv_act H; simpl; try done. by case_match. Qed.

(** Replacing a goroutine moves the count by the difference of the two. *)
Lemma exits_insert gl i g g' :
  gl !! i = Some g →
  (exits (<[i:=g']> gl) + Nat.b2n (exiting (pc g)) =
   exits gl + Nat.b2n (exiting (pc g')))%nat.
Proof.
  intros Hi. pose proof (count_list_insert (λ g, exiting (pc g) = true) gl i g g' Hi).
  unfold exits, indicator in *.
  destruct (exiting (pc g)), (exiting (pc g')); repeat case_decide; done.
Qed.

Lemma exits_snoc gl g : exits (gl ++ [g]) = (exits gl + Nat.b2n (exiting (pc g)))%nat.
Proof.
  rewrite /exits count_list_snoc /indicator.
  destruct (exiting (pc g)); by case_decide.
Qed.

Lemma exits_insert_same gl i g g' :
  gl !! i = Some g → exiting (pc g') = exiting (pc g) → exits (<[i:=g']> gl) = exits gl.
Proof. intros Hi He. pose proof (exits_insert gl i g g' Hi). rewrite He in H. lia. Qed.

(** The exit signal adds one goroutine to the exit path. *)
Lemma exits_select_exit gl i g g' :
  gl !! i = Some g → select_exit g = Some g' → exits (<[i:=g']> gl) = Datatypes.S (exits gl).
Proof.
  intros Hi He. pose proof (exits_insert gl i g g' Hi). inv_sync He.
  simpl in H. lia.
Qed.

(** The signal on [stopDone] takes one from it. *)
Lemma exits_stop_done gl i g g' :
  gl !! i = Some g → stop_done g = Some g' → Datatypes.S (exits (<[i:=g']> gl)) = exits gl.
Proof.
  intros Hi He. pose proof (exits_insert gl i g g' Hi). inv_sync He.
  simpl in H. lia.
Qed.

(** A caller that enters [Start] or [Stop] is not yet waiting. *)
Lemma waiters_enter_call cl c p :
  cl !! c = None → p ≠ Some InStopWait → waiters (enter_call c p cl) = waiters cl.
Proof.
  intros Hc Hp. destruct p as [q|]; [|done]. unfold waiters. simpl.
  rewrite count_map_insert_new // /indicator decide_False; [lia|congruence].
Qed.

(** A caller that leaves the table was waiting or was not. *)
Lemma waiters_delete_other cl c q :
  cl !! c = Some q → q ≠ InStopWait → waiters (delete c cl) = waiters cl.
Proof.
  intros Hc Hq.
  rewrite /waiters (count_map_delete _ cl c q Hc) /indicator decide_False; [lia|done].
Qed.

Lemma waiters_delete_wait cl c :
  cl !! c = Some InStopWait → waiters cl = Datatypes.S (waiters (delete c cl)).
Proof.
  intros Hc.
  rewrite /waiters (count_map_delete _ cl c _ Hc) /indicator. case_decide; [lia|done].
Qed.

(** A caller whose exit signal is taken starts to wait. *)
Lemma waiters_insert_wait cl c :
  waiters (<[c:=InStopWait]> cl) = Datatypes.S (waiters (delete c cl)).
Proof. rewrite /waiters count_map_insert /indicator. case_decide; [lia|done]. Qed.

(** ** Preservation, field by field *)

Lemma step_goroutines_wf s l s' :
  Forall (goroutine_wf (now s) (timeout (obs s)) (reportInterval (obs s))) (gs s) →
  step l s = Some s' →
  Forall (goroutine_wf (now s') (timeout (obs s)) (reportInterval (obs s))) (gs s').
Proof.
  intros Hwf H. inv_step H; try done.
  - eapply list.Forall_impl; [done|]. intros g. apply goroutine_wf_mono. lia.
  - unfold Start_spawn in *. simplify_eq. apply Forall_app. split; [done|].
    by repeat constructor.
  - apply Forall_insert; [done|].
    eapply act_goroutine_wf; [done|]. by eapply Forall_lookup_1.
  - apply Forall_insert; [done|].
    eapply sync_goroutine_wf; [eauto|]. by eapply Forall_lookup_1.
  - apply Forall_insert; [done|].
    eapply sync_goroutine_wf; [eauto|]. by eapply Forall_lookup_1.
Qed.

Lemma step_handshake s l s' :
  waiters (cs s) = exits (gs s) → step l s = Some s' → waiters (cs s') = exits (gs s').
Proof.
  intros Hwf H. inv_step H; try done.
  - rewrite waiters_enter_call //. unfold Start_check in *. by case_match; simplify_eq.
  - unfold Start_spawn in *. simplify_eq.
    erewrite waiters_delete_other; [|done..].
    rewrite exits_snoc /=. lia.
  - rewrite waiters_enter_call //. unfold Stop_check. by case_match.
  - erewrite exits_insert_same; eauto using act_exiting.
  - erewrite exits_select_exit; [|done..].
    rewrite waiters_insert_wait. erewrite waiters_delete_other; [|done..]. lia.
  - match goal with Hg : gs _ !! _ = Some _, Hd : stop_done _ = Some _ |- _ =>
      pose proof (exits_stop_done _ _ _ _ Hg Hd) end.
    match goal with Hc : cs _ !! _ = Some _ |- _ =>
      rewrite (waiters_delete_wait _ _ Hc) in Hwf end.
    lia.
Qed.

Lemma sys_wf_initial sc to ri t0 : sys_wf (initial sc to ri t0).
Proof.
  split; [apply New_observer_wf|by constructor|].
  by rewrite /= /waiters count_map_empty.
Qed.

Lemma sys_wf_step s l s' : sys_wf s → step l s = Some s' → sys_wf s'.
Proof.
  intros [Ho Hg Hh] H.
  destruct (config_inv_inductive (timeout (obs s)) (reportInterval (obs s)) (now s)
              s l s') as (Ho' & Hto & Hri & _); [by split_and!|done|].
  split; [done| |by eapply step_handshake].
  rewrite Hto Hri. by eapply step_goroutines_wf.
Qed.

Lemma Reachable_sys_wf sc to ri t0 s : Reachable (initial sc to ri t0) s → sys_wf s.
Proof.
  apply Reachable_inv; [apply sys_wf_initial|]. intros ? ? ?. apply sys_wf_step.
Qed.

(** ** The claims *)

(** C37 (well-formed states).  Every step of the system, by any thread and
    at any moment, takes a well-formed state to a well-formed state: the
    queues stay within the capacity [New] gave them and the handshake
    channels unbuffered; a goroutine's timer is at most one idle timeout and
    its report time at most one report interval ahead of the clock, and the
    report time is behind the clock at the flush and at the reset; and the
    callers blocked on [stopDone] are as many as the goroutines on their way
    to signal it.  The step leaves the idle timeout and the report interval
    as they are and does not turn the clock back. *)
Theorem wf_preservation s l s' :
  sys_wf s → step l s = Some s' →
  sys_wf s' ∧ timeout (obs s') = timeout (obs s) ∧
  reportInterval (obs s') = reportInterval (obs s) ∧ now s ≤ now s'.
Proof.
  intros Hwf H. split; [by eapply sys_wf_step|]. destruct Hwf as [Ho _ _].
  by destruct (config_inv_inductive (timeout (obs s)) (reportInterval (obs s)) (now s)
                 s l s') as (_ & ? & ? & ?); [split_and!|..].
Qed.

(** C35 (no orphan in the second handshake).  In every execution, with or
    without serialised callers: while a caller is blocked at line 100
    waiting for [stopDone], some goroutine is on its exit path, and while a
    goroutine is on its exit path some caller is waiting for it; a goroutine
    waiting in its [select] is woken by its timer at most one idle timeout
    from now. *)
Theorem handshake_partner sc to ri t0 s :
  Reachable (initial sc to ri t0) s →
  (∀ c, cs s !! c = Some InStopWait → ∃ i g, gs s !! i = Some g ∧ exiting (pc g) = true) ∧
  (∀ i g, gs s !! i = Some g → exiting (pc g) = true → ∃ c, cs s !! c = Some InStopWait) ∧
  (∀ i g timer, gs s !! i = Some g → pc g = AtSelect timer → timer ≤ Add (now s) to).
Proof.
  intros Hr. pose proof (Reachable_sys_wf _ _ _ _ _ Hr) as [_ Hg Hh].
  destruct (Reachable_config_inv _ _ _ _ _ Hr) as (_ & Hto & _).
  split_and!.
  - intros c Hc. apply (count_list_pos (λ g, exiting (pc g) = true)).
    fold (exits (gs s)). rewrite -Hh. apply count_map_pos. eauto.
  - intros i g Hi He.
    destruct (proj1 (count_map_pos (λ q, q = InStopWait) (cs s))) as (c & q & Hc & ->);
      [|by eauto].
    fold (waiters (cs s)). rewrite Hh. apply count_list_pos. eauto.
  - intros i g timer Hi Hpc. pose proof (Forall_lookup_1 _ _ _ _ Hg Hi) as Hw.
    unfold goroutine_wf in Hw. rewrite Hpc Hto in Hw. tauto.
Qed.

End wf.

(** ** Witnesses *)

(** The exit signal of the demo's [Stop] is taken from a well-formed state. *)
Lemma wf_preservation_witness :
  sys_wf demo_stopping ∧ sys_wf demo_exiting ∧
  timeout (obs demo_exiting) = timeout (obs demo_stopping) ∧
  reportInterval (obs demo_exiting) = reportInterval (obs demo_stopping) ∧
  now demo_stopping ≤ now demo_exiting.
Proof.
  assert (sys_wf demo_stopping) as Hwf.
  { apply (Reachable_sys_wf (Some []) (ms 100) (ms 1000) 0).
    apply SReachable_Reachable, demo_stopping_reachable. }
  split; [exact Hwf|].
  apply (wf_preservation demo_stopping (SelectExit 0 0)); [exact Hwf|].
  vm_compute. reflexivity.
Defined.

(** In the demo the caller that waits for [stopDone] and the goroutine on
    its exit path find each other. *)
Lemma handshake_partner_witness :
  (∃ i g, gs demo_exiting !! i = Some g ∧ exiting (pc g) = true) ∧
  (∃ c, cs demo_exiting !! c = Some InStopWait).
Proof.
  destruct (handshake_partner (Some []) (ms 100) (ms 1000) 0 demo_exiting) as (H1 & H2 & _).
  { apply SReachable_Reachable, demo_exiting_reachable. }
  split; [apply (H1 0%nat)|eapply (H2 0%nat)]; vm_compute; reflexivity.
Defined.
