(* ===== verification/Width.v ===== *)
(** * Width: the times of the loop at 64 bits

    The model keeps the clock, the report time and the timer of the
    [select] as unbounded integers.  The program computes them with
    [int64]: [time.Now().Add(o.reportInterval)] (lines 57 and 88) adds the
    interval to the monotonic reading of the clock and drops the reading
    when the sum has overflowed, and [time.After(o.timeout)] (line 78) arms
    a runtime timer whose deadline saturates ([GoTime.Add64],
    [GoTime.when64]).  This file says when the two agree: the report time of
    the model is the one the machine computes as long as the clock plus the
    report interval is an [int64], and the timer of the model fires when
    the machine's does, whatever the idle timeout, as long as the clock has
    not reached the largest [int64].  Beyond that bound (a report interval
    of about 292 years, added to the time the process has run) the machine
    compares wall-clock times, which the model does not have. *)

From S2P Require Import Prelude GoTime Channel Buffer Observer System Invariants Demo Wf.

Section width.
Context {R B S : Type} `{!ObserverBuffer R B} `{!StatsReceiver B S}.

Implicit Types (s : Sys R B S) (o : Observer R S) (g : Goroutine B) (a : Action).
Implicit Types (sc : option S) (to ri : Duration) (t : Time).

(** What an action computes from the clock, against the computation at 64
    bits: the report time of the initialisation and of the reset, the timer
    of the [select]; the other actions compute no time. *)
Definition at_width a t to ri g g' : Prop :=
  match a with
  | Init | Reset =>
      Add64 t ri = if decide (t + ri ≤ int64_max) then Some (reportTime g') else None
  | Enter =>
      reportTime g' = reportTime g ∧
      ∃ timer, pc g' = AtSelect timer ∧
               ∀ t', t ≤ t' < int64_max →
                     timer_fired timer t' = timer_fired (when64 t to) t'
  | _ => reportTime g' = reportTime g
  end.

(** ** One action *)

Lemma act_at_width a t o g o' g' lg :
  0 ≤ t < int64_max → int64 (timeout o) → int64 (reportInterval o) →
  act a t o g = Some (o', g', lg) →
  at_width a t (timeout o) (reportInterval o) g g'.
Proof.
  intros Ht Hto Hri H. assert (int64 t) by (unfold int64, int64_min in *; lia).
  inv_act H; simpl; try done.
  - rewrite Add64_spec //. unfold int64, int64_min in *. repeat case_decide; done || lia.
  - split; [done|]. eexists. split; [done|]. intros t' Ht'.
    rewrite when64_fired //. lia.
  - rewrite Add64_spec //. unfold int64, int64_min in *. repeat case_decide; done || lia.
Qed.

(** ** The times a state holds *)

Lemma goroutine_wf_max t to ri g :
  goroutine_wf t to ri g → t + Z.max to ri ≤ int64_max → pc g ≠ AtInit →
  reportTime g ≤ int64_max ∧ ∀ timer, pc g = AtSelect timer → timer ≤ int64_max.
Proof.
  unfold goroutine_wf, Add. intros Hwf Hmax Hpc.
  destruct (pc g) eqn:E; try done; (split; [lia|]); intros ? [=]; subst; lia.
Qed.

(** ** The claim *)

(** C19 (the times at 64 bits).  In every state of an execution from [New]
    with a clock that started at zero or later and has not reached the
    largest [int64], and with durations that are [int64]: the report time
    that the initialisation and the reset compute is the sum the machine
    computes, and [Time.Add] keeps the monotonic reading, exactly when the
    clock plus the report interval does not exceed the largest [int64]; the
    timer that the [select] arms fires at the clock readings at which the
    saturating timer of the runtime fires, whatever the idle timeout; no
    other action computes a time; and while the clock plus the larger of
    the two durations does not exceed the largest [int64], no report time
    and no timer in the state does. *)
Theorem times_at_width sc to ri t0 s i g :
  Reachable (initial sc to ri t0) s →
  0 ≤ t0 → int64 to → int64 ri → now s < int64_max → gs s !! i = Some g →
  (∀ a o' g' lg, act a (now s) (obs s) g = Some (o', g', lg) →
                 at_width a (now s) to ri g g') ∧
  (now s + Z.max to ri ≤ int64_max → pc g ≠ AtInit →
   reportTime g ≤ int64_max ∧ ∀ timer, pc g = AtSelect timer → timer ≤ int64_max).
Proof.
  intros Hr H0 Hto Hri Hnow Hi.
  destruct (Reachable_config_inv _ _ _ _ _ Hr) as (_ & <- & <- & Ht0).
  split.
  - intros a o' g' lg Ha. eapply act_at_width; [lia|done..].
  - apply goroutine_wf_max.
    eapply Forall_lookup_1; [apply wf_goroutines, (Reachable_sys_wf _ _ _ _ _ Hr)|done].
Qed.

End width.

(** ** Witness: the reset after the first flush of [Demo], at 1000.1ms *)

Lemma times_at_width_witness :
  (∀ a o' g' lg,
     act a (now demo_flushed) (obs demo_flushed)
       (MkGoroutine AtReset (ms 1000) (MkJournal [(7%nat, false)])) = Some (o', g', lg) →
     at_width a (now demo_flushed) (ms 100) (ms 1000)
       (MkGoroutine AtReset (ms 1000) (MkJournal [(7%nat, false)])) g') ∧
  (now demo_flushed + Z.max (ms 100) (ms 1000) ≤ int64_max → AtReset ≠ AtInit →
   ms 1000 ≤ int64_max ∧ ∀ timer, AtReset = AtSelect timer → timer ≤ int64_max).
Proof.
  exact (times_at_width (Some []) (ms 100) (ms 1000) 0 demo_flushed 0
           (MkGoroutine AtReset (ms 1000) (MkJournal [(7%nat, false)]))
           (SReachable_Reachable _ _ demo_flushed_reachable)
           ltac:(done) ltac:(vm_compute; split; congruence)
           ltac:(vm_compute; split; congruence) eq_refl eq_refl).
Defined.
