(* ===== verification/Queues.v ===== *)
(** * Queues: the two result queues, class by class

    [targetWriteChan] and [targetWriteOversizedChan] are handled by the same
    code up to the channel and the tag: [TargetWrite] and
    [TargetWriteOversized] send on one of them, the two data cases of the
    [select] receive from one of them and merge with its tag.  This file
    reads both through the tag: [queue t] is the channel of class [t],
    [push e] the producer's call for an entry, [recv t] the case of the
    [select] for class [t].  The frame lemmas say that a step which does not
    touch a queue neither reads nor changes it; they are what the round trip
    of [Roundtrip] and the commutation of [Movers] rest on. *)

From S2P Require Import Prelude GoTime Channel Buffer Observer System Invariants.

Section queues.
Context {R B K : Type} `{!ObserverBuffer R B} `{!StatsReceiver B K}.

Implicit Types (s : Sys R B K) (l : Label R) (o : Observer R K) (g : Goroutine B).
Implicit Types (a : Action) (t : bool) (c : chan R) (e : Entry R) (r : R).

(** The channel of a class: lines 109 and 74 for [false], lines 115 and 76
    for [true]. *)
Definition queue t o : chan R :=
  if t then targetWriteOversizedChan o else targetWriteChan o.

Definition set_queue t c o : Observer R K :=
  if t then set_targetWriteOversizedChan c o else set_targetWriteChan c o.

(** The producer's call for an entry (lines 108-110 and 114-116). *)
Definition push e : Label R :=
  if e.2 then CallTargetWriteOversized e.1 else CallTargetWrite e.1.

(** The data case of the [select] for a class (lines 74-77). *)
Definition recv t : Action := if t then RecvOversized else RecvWrite.

(** The same state with another struct. *)
Definition with_obs (f : Observer R K → Observer R K) s : Sys R B K :=
  MkSys (f (obs s)) (gs s) (cs s) (now s) (logs s).

(** The labels that send on or receive from the queue of class [t]. *)
Definition touches t l : bool :=
  match l with
  | CallTargetWrite _ => negb t
  | CallTargetWriteOversized _ => t
  | Loop _ RecvWrite => negb t
  | Loop _ RecvOversized => t
  | _ => false
  end.

(** ** The struct through the tag *)

Lemma queue_set_queue t c o : queue t (set_queue t c o) = c.
Proof. by destruct t. Qed.

Lemma queue_set_queue_ne t t' c o : t ≠ t' → queue t (set_queue t' c o) = queue t o.
Proof. by destruct t, t'. Qed.

Lemma set_queue_set_queue t c c' o : set_queue t c (set_queue t c' o) = set_queue t c o.
Proof. by destruct t. Qed.

Lemma set_queue_comm t t' c c' o :
  t ≠ t' → set_queue t c (set_queue t' c' o) = set_queue t' c' (set_queue t c o).
Proof. by destruct t, t'. Qed.

Lemma set_queue_id t o : set_queue t (queue t o) o = o.
Proof. by destruct t, o. Qed.

Lemma send_stats_set_queue t c o (b : B) :
  send_stats (set_queue t c o) b = set_queue t c (send_stats o b).
Proof. unfold send_stats. destruct t, o as [[k|] ? ? ? ? ? ? ?]; done. Qed.

(** The contents of the queues are not the sink's business, nor the
    business of [isRunning]. *)
Lemma queue_send_stats t o (b : B) : queue t (send_stats o b) = queue t o.
Proof. destruct (send_stats_frame o b) as (_ & _ & ? & ? & _). by destruct t. Qed.

Lemma queue_set_isRunning t x o : queue t (set_isRunning x o) = queue t o.
Proof. by destruct t. Qed.

(** ** The two operations on a queue *)

(** A push is a send on the queue of the entry's class. *)
Lemma step_push e s :
  step (push e) s =
  c ← chan_send (queue e.2 (obs s)) e.1; Some (with_obs (set_queue e.2 c) s).
Proof.
  destruct e as [r []]; simpl; unfold TargetWrite, TargetWriteOversized;
    by destruct (chan_send _ _).
Qed.

(** The data case of the [select] receives the oldest result of its queue
    and merges it with the tag of the class. *)
Lemma act_recv t (now : Time) o g timer r c :
  pc g = AtSelect timer → chan_recv (queue t o) = Some (r, c) →
  act (recv t) now o g =
    Some (set_queue t c o, MkGoroutine AtCheck (reportTime g) (Append (buffer g) r t), []).
Proof.
  intros Hpc Hr. destruct t; simpl in *;
    by rewrite /select_write /select_oversized Hpc Hr.
Qed.

Lemma act_recv_inv t (now : Time) o g o' g' lg :
  act (recv t) now o g = Some (o', g', lg) →
  ∃ timer r c,
    pc g = AtSelect timer ∧ chan_recv (queue t o) = Some (r, c) ∧ o' = set_queue t c o ∧
    g' = MkGoroutine AtCheck (reportTime g) (Append (buffer g) r t) ∧ lg = [].
Proof.
  intros H. destruct t; simpl in H; unfold select_write, select_oversized in H;
    inv_enabled H; eauto 10.
Qed.

(** ** Frame *)

(** An action other than the receive from a queue runs the same whatever
    the queue holds, and leaves it as it is. *)
Lemma act_set_queue a t c (now : Time) o g :
  a ≠ recv t →
  act a now (set_queue t c o) g =
  (λ x, (set_queue t c x.1.1, x.1.2, x.2)) <$> act a now o g.
Proof.
  intros Ha. destruct a, t; try done; simpl;
    rewrite /loop_init /select_enter /select_write /select_oversized /select_timeout
      /check_report /flush_report /reset_report /exit_flush /exit_clear;
    destruct (pc g); simpl; try done;
    rewrite ?(send_stats_set_queue true) ?(send_stats_set_queue false) //;
    try (by case_match);
    by destruct (chan_recv _) as [[? ?]|].
Qed.

Lemma act_queue a t (now : Time) o g o' g' lg :
  a ≠ recv t → act a now o g = Some (o', g', lg) → queue t o' = queue t o.
Proof.
  intros Ha H. destruct t; inv_act H; simpl; try done;
    by destruct (send_stats_frame o (buffer g)) as (?&?&?&?&?&?&?).
Qed.

(** A step that does not touch a queue runs the same whatever the queue
    holds. *)
Lemma step_frame_queue t c l s :
  touches t l = false →
  step l (with_obs (set_queue t c) s) = with_obs (set_queue t c) <$> step l s.
Proof.
  intros Ht. destruct l as [d|k|k|k|r|r|i a|i k|i k]; simpl in *.
  - by case_bool_decide.
  - destruct (cs s !! k); [done|]. by destruct t; unfold Start_check; simpl; case_match.
  - destruct (cs s !! k) as [[]|]; try done. by destruct t.
  - destruct (cs s !! k); [done|]. by destruct t.
  - destruct t; [|done]. unfold TargetWrite. simpl.
    by destruct (chan_send (targetWriteChan (obs s)) r).
  - destruct t; [done|]. unfold TargetWriteOversized. simpl.
    by destruct (chan_send (targetWriteOversizedChan (obs s)) r).
  - destruct (gs s !! i) as [g|]; [|done]. simpl.
    rewrite act_set_queue; [|by destruct a, t].
    by destruct (act a (now s) (obs s) g) as [[[o' g'] lg]|].
  - destruct (gs s !! i) as [g|]; [|done]. simpl.
    destruct (select_exit g); [|done]. simpl. by destruct (cs s !! k) as [[]|].
  - destruct (gs s !! i) as [g|]; [|done]. simpl.
    destruct (stop_done g); [|done]. simpl. by destruct (cs s !! k) as [[]|].
Qed.

(** ... and leaves the queue as it is. *)
Lemma step_queue t l s s' :
  touches t l = false → step l s = Some s' → queue t (obs s') = queue t (obs s).
Proof.
  intros Ht H. inv_step H; try done.
  - unfold Start_spawn in *. simplify_eq. by destruct t.
  - match goal with H : TargetWrite _ _ = Some _ |- _ =>
      apply TargetWrite_frame in H as (? & _ & ->) end. by destruct t.
  - match goal with H : TargetWriteOversized _ _ = Some _ |- _ =>
      apply TargetWriteOversized_frame in H as (? & _ & ->) end. by destruct t.
  - eapply act_queue; [|done]. by destruct a, t.
Qed.

End queues.
