(* ===== verification/Movers.v ===== *)
(** * Movers: when a push happens does not matter

    A producer's push and a step of any other thread that are both possible
    in a state can be taken in either order and lead to the same state,
    unless the other step is a push to the same queue ([push_diamond]).  The
    receive from the same queue is the interesting case: the queue is
    neither empty nor full, the receive takes its head and the push extends
    its tail.  It follows that a push can be moved across any stretch of an
    execution in which nobody else pushes to its queue
    ([push_commutes]): what the system does depends on the order of the
    pushes to each queue and not on the moment of a push among the steps of
    the loop, of the callers of [Start] and [Stop], and of the clock. *)

From S2P Require Import Prelude GoTime Channel Buffer Observer System Invariants Demo Queues.

Section movers.
Context {R B K : Type} `{!ObserverBuffer R B} `{!StatsReceiver B K}.

Implicit Types (s : Sys R B K) (l : Label R) (ls : list (Label R)).
Implicit Types (o : Observer R K) (g : Goroutine B) (t : bool) (e : Entry R).

(** The pushes to the queue of class [t] (lines 109 and 115). *)
Definition pushes_to t l : bool :=
  match l with
  | CallTargetWrite _ => negb t
  | CallTargetWriteOversized _ => t
  | _ => false
  end.

(** A stretch of an execution in which nobody pushes to the queue of [t]. *)
Definition no_push_to t ls : bool := forallb (λ l, negb (pushes_to t l)) ls.

(** A label that touches the queue and is not a push to it is the receive
    of some goroutine. *)
Lemma touches_recv t l :
  touches t l = true → pushes_to t l = false → ∃ i, l = Loop i (recv t).
Proof. destruct l as [| | | | | |i []| |], t; naive_solver. Qed.

(** The receive from a queue commutes with a push to it. *)
Lemma push_recv_diamond e i s s1 s2 :
  step (push e) s = Some s1 → step (Loop i (recv e.2)) s = Some s2 →
  ∃ s3, step (Loop i (recv e.2)) s1 = Some s3 ∧ step (push e) s2 = Some s3.
Proof.
  rewrite step_push. intros (c & Hc & ?)%bind_Some_inv Hl. simplify_eq. simpl in Hl.
  apply bind_Some_inv in Hl as (g & Hg & Hl).
  apply bind_Some_inv in Hl as ([[o' g'] lg] & Ha & ?). simplify_eq.
  apply act_recv_inv in Ha as (timer & r & c2 & Hpc & Hr & -> & -> & ->).
  destruct (chan_send_recv_comm _ _ _ _ _ Hc Hr) as (c3 & Hr' & Hc').
  exists (MkSys (set_queue e.2 c3 (obs s))
            (<[i := MkGoroutine AtCheck (reportTime g) (Append (buffer g) r e.2)]> (gs s))
            (cs s) (now s) (logs s ++ [])).
  split.
  - rewrite /= Hg /= (act_recv _ _ _ _ timer r c3) ?queue_set_queue //=.
    by rewrite set_queue_set_queue.
  - by rewrite step_push /= queue_set_queue Hc' /= /with_obs /= set_queue_set_queue.
Qed.

(** A push and a step that are both possible commute, unless the step is
    a push to the same queue. *)
Lemma push_diamond e l s s1 s2 :
  step (push e) s = Some s1 → step l s = Some s2 → pushes_to e.2 l = false →
  ∃ s3, step l s1 = Some s3 ∧ step (push e) s2 = Some s3.
Proof.
  intros Hp Hl Hne. destruct (touches e.2 l) eqn:Ht.
  - destruct (touches_recv _ _ Ht Hne) as [i ->]. by eapply push_recv_diamond.
  - rewrite step_push in Hp. apply bind_Some_inv in Hp as (c & Hc & ?). simplify_eq.
    exists (with_obs (set_queue e.2 c) s2). split.
    + by rewrite step_frame_queue // Hl.
    + by rewrite step_push (step_queue _ _ _ _ Ht Hl) Hc.
Qed.

(** The same across a stretch of an execution. *)
Lemma push_across e ls s :
  no_push_to e.2 ls = true → is_Some (step (push e) s) → is_Some (run ls s) →
  run (push e :: ls) s = run (ls ++ [push e]) s ∧ is_Some (run (ls ++ [push e]) s).
Proof.
  revert s. induction ls as [|l ls IH]; intros s Hno [s1 Hp] [s' Hr].
  - rewrite /= Hp. split; [done|by eexists].
  - simpl in Hno. apply andb_true_iff in Hno as [Hl%negb_true_iff Hno].
    apply run_cons_Some in Hr as (s2 & Hs2 & Hr).
    destruct (push_diamond _ _ _ _ _ Hp Hs2 Hl) as (s3 & Hl3 & Hp3).
    destruct (IH s2 Hno) as [Heq Hsome]; [by eexists..|].
    cbn [run app] in *. rewrite Hp Hs2 /= Hl3 /=. rewrite Hp3 /= in Heq. done.
Qed.

(** ** The claim *)

(** C40 (the moment of a push).  From a state in which a push is possible,
    across any stretch of steps that is executable without it and contains
    no other push to the same queue (steps of the loop, receives from that
    very queue included, pushes to the other queue, calls of [Start] and
    [Stop], clock ticks), pushing first and pushing last are both
    executable and reach the same state. *)
Theorem push_commutes e ls s :
  no_push_to e.2 ls = true → is_Some (step (push e) s) → is_Some (run ls s) →
  ∃ s', run (push e :: ls) s = Some s' ∧ run (ls ++ [push e]) s = Some s'.
Proof.
  intros Hno Hp Hr. destruct (push_across e ls s Hno Hp Hr) as [Heq [s' Hs']].
  exists s'. by rewrite Heq.
Qed.

End movers.

(** ** Witness: a push before or after the loop has received the queued
    result, the clock has advanced and the other queue has been pushed to *)

Lemma push_commutes_witness :
  ∃ s', run (push (9%nat, false) :: sched_around) demo_queued = Some s' ∧
        run (sched_around ++ [push (9%nat, false)]) demo_queued = Some s'.
Proof.
  apply (push_commutes (9%nat, false) sched_around demo_queued);
    vm_compute; [reflexivity|eexists; reflexivity..].
Defined.
