(* ===== verification/Backpressure.v ===== *)
(** * Backpressure: a full queue blocks the producer

    [TargetWrite] and [TargetWriteOversized] are one channel send each
    (lines 109 and 115): a queue that holds 1000 results refuses the push,
    and nothing else does.  What releases the producer is a receive of the
    loop (lines 74 and 76): along every execution the length of a queue is
    the number of pushes less the number of receives, so the producers are
    never more than 1000 results ahead of the loop, whatever keeps the loop
    from receiving (a [Send] in progress, for one).  When no loop is there,
    because [Start] has not
    been called or [Stop] has returned, nothing releases it: the queue stays
    full and the push stays refused whatever else happens, until somebody
    calls [Start]. *)

From S2P Require Import Prelude GoTime Channel Buffer Observer System Invariants Demo Queues.
From S2P Require Import Movers.

Section backpressure.
Context {R B K : Type} `{!ObserverBuffer R B} `{!StatsReceiver B K}.

Implicit Types (s : Sys R B K) (l : Label R) (ls : list (Label R)).
Implicit Types (o : Observer R K) (g : Goroutine B) (t : bool) (e : Entry R).
Implicit Types (sc : option K) (to ri : Duration).

(** Every label but the entry into [Start] (line 49). *)
Definition no_start l : bool :=
  match l with CallStart _ => false | _ => true end.

(** The queue of class [t] holds as many results as it has slots. *)
Definition full t s : Prop :=
  chan_len (queue t (obs s)) = chan_cap (queue t (obs s)).

(** No loop is alive and no lifecycle call is in progress: the state
    before the first [Start] and after a [Stop] has returned. *)
Definition idle s : Prop :=
  isRunning (obs s) = false ∧ returned (gs s) ∧ cs s = ∅.

(** The receives of the loop from the queue of class [t] (lines 74 and
    76). *)
Definition receives_from t l : bool :=
  match l with
  | Loop _ RecvWrite => negb t
  | Loop _ RecvOversized => t
  | _ => false
  end.

(** How many results a schedule pushes to the queue of class [t], and how
    many the loop receives from it. *)
Definition pushed_to t ls : nat := count_list (λ l, pushes_to t l = true) ls.

Definition received_from t ls : nat := count_list (λ l, receives_from t l = true) ls.

(** ** The queue of a class *)

Lemma observer_wf_queue t o :
  observer_wf o → chan_cap (queue t o) = 1000%nat ∧ chan_wf (queue t o).
Proof. intros (?&?&?&?&_). by destruct t. Qed.

(** A push is refused exactly when the queue has no free slot. *)
Lemma push_refused e s :
  step (push e) s = None ↔ (chan_cap (queue e.2 (obs s)) ≤ chan_len (queue e.2 (obs s)))%nat.
Proof.
  rewrite step_push -(chan_send_None _ e.1).
  by destruct (chan_send (queue e.2 (obs s)) e.1).
Qed.

(** One receive makes room for one push. *)
Lemma recv_releases e s i g timer :
  gs s !! i = Some g → pc g = AtSelect timer → chan_wf (queue e.2 (obs s)) → full e.2 s →
  (0 < chan_cap (queue e.2 (obs s)))%nat →
  ∃ s', step (Loop i (recv e.2)) s = Some s' ∧
        S (chan_len (queue e.2 (obs s'))) = chan_cap (queue e.2 (obs s)) ∧
        is_Some (step (push e) s').
Proof.
  unfold full. intros Hi Hpc Hwf Hfull Hcap.
  destruct (chan_recv (queue e.2 (obs s))) as [[r c]|] eqn:Hr;
    [|apply chan_recv_None in Hr; lia].
  pose proof (chan_recv_len _ _ _ Hr). pose proof (chan_recv_cap _ _ _ Hr).
  eexists. rewrite /= Hi /= (act_recv _ _ _ _ timer r c) //=. split; [done|].
  rewrite queue_set_queue. split; [lia|].
  rewrite step_push /= queue_set_queue.
  destruct (chan_send c e.1) eqn:Hs; [by eexists|]. apply chan_send_None in Hs. lia.
Qed.

(** ** The length of a queue along an execution *)

(** A step changes the length of a queue by the push or the receive it is. *)
Lemma step_queue_len t l s s' :
  step l s = Some s' →
  (chan_len (queue t (obs s')) + indicator (λ l, receives_from t l = true) l =
   chan_len (queue t (obs s)) + indicator (λ l, pushes_to t l = true) l)%nat.
Proof.
  intros H. unfold indicator.
  destruct (touches t l) eqn:Ht; last first.
  { rewrite (step_queue t l s s') //. by destruct l as [| | | | | |i []| |], t. }
  destruct (pushes_to t l) eqn:Hp.
  - assert (∃ r, l = push (r, t)) as [r ->]
      by (destruct l, t; try done; by eexists).
    rewrite step_push in H. apply bind_Some_inv in H as (c & Hc%chan_send_len & ?).
    simplify_eq. rewrite /with_obs /= queue_set_queue Hc. destruct t; simpl; lia.
  - destruct (touches_recv t l Ht Hp) as [i ->]. simpl in H.
    apply bind_Some_inv in H as (g & _ & H).
    apply bind_Some_inv in H as ([[o' g'] lg] & Ha & ?). simplify_eq.
    apply act_recv_inv in Ha as (timer & r & c & _ & Hr%chan_recv_len & -> & _).
    rewrite /= queue_set_queue Hr. destruct t; simpl; lia.
Qed.

Lemma run_queue_len t ls s s' :
  run ls s = Some s' →
  (chan_len (queue t (obs s')) + received_from t ls =
   chan_len (queue t (obs s)) + pushed_to t ls)%nat.
Proof.
  revert s. induction ls as [|l ls IH]; intros s Hr; simpl in Hr.
  - by simplify_eq.
  - apply bind_Some_inv in Hr as (s1 & H1 & Hr).
    pose proof (step_queue_len t _ _ _ H1). specialize (IH _ Hr).
    rewrite /pushed_to /received_from !count_list_cons. unfold pushed_to, received_from in IH.
    lia.
Qed.

(** ** Without a loop *)

(** Short of a [Start], an idle observer stays idle and a full queue stays
    full: the clock, a [Stop] (which returns at once) and a push to the
    other queue are all that can happen. *)
Lemma idle_full_step t s l s' :
  idle s → full t s → no_start l = true → step l s = Some s' → idle s' ∧ full t s'.
Proof.
  unfold idle, full. intros (Hrun & Hret & Hcs) Hfull Hl H.
  inv_step H; try done;
    try (match goal with Hc : cs _ !! _ = Some _ |- _ =>
           by rewrite Hcs lookup_empty in Hc end).
  - by rewrite /Stop_check Hrun.
  - match goal with H : TargetWrite _ _ = Some _ |- _ =>
      apply TargetWrite_frame in H as (c & Hc & ->) end.
    destruct t; [done|]. apply chan_send_Some in Hc as [? _]. simpl in Hfull. lia.
  - match goal with H : TargetWriteOversized _ _ = Some _ |- _ =>
      apply TargetWriteOversized_frame in H as (c & Hc & ->) end.
    destruct t; [|done]. apply chan_send_Some in Hc as [? _]. simpl in Hfull. lia.
  - match goal with Hg : gs _ !! _ = Some _, Ha : act _ _ _ _ = Some _ |- _ =>
      apply act_live in Ha; by rewrite (returned_lookup _ _ _ Hret Hg) in Ha end.
Qed.

Lemma idle_full_run t ls s s' :
  idle s → full t s → forallb no_start ls = true → run ls s = Some s' →
  idle s' ∧ full t s'.
Proof.
  revert s. induction ls as [|l ls IH]; intros s Hi Hf Hls Hr; simpl in *.
  - by simplify_eq.
  - apply andb_true_iff in Hls as [Hl Hls].
    destruct (step l s) as [s1|] eqn:E; [|done].
    destruct (idle_full_step _ _ _ _ Hi Hf Hl E). eauto.
Qed.

(** ** The claims *)

(** C9 (producers run at most 1000 results ahead).  In every execution from
    [New], for each class: the loop has received no more results than were
    pushed; the producers have pushed at most 1000 results more than the loop
    has received; and the difference is what the queue holds, which is at
    most the 1000 results its channel was made for.  While the loop does
    not receive (before [Start], after [Stop], during a flush to the sink),
    1000 pushes are accepted and the next one waits. *)
Theorem producers_lead_bounded sc to ri (t0 : Time) ls s t :
  run ls (initial sc to ri t0) = Some s →
  (received_from t ls ≤ pushed_to t ls ≤ received_from t ls + 1000)%nat ∧
  chan_len (queue t (obs s)) = (pushed_to t ls - received_from t ls)%nat ∧
  (chan_len (queue t (obs s)) ≤ 1000)%nat ∧
  (pushed_to t ls = received_from t ls + 1000 → ∀ r, step (push (r, t)) s = None)%nat.
Proof.
  intros Hr. pose proof (run_queue_len t _ _ _ Hr) as Hlen.
  assert (Reachable (initial sc to ri t0) s) as (Hwf & _)%Reachable_config_inv
    by (apply Reachable_run; eauto).
  destruct (observer_wf_queue t _ Hwf) as [Hcap Hle]. unfold chan_wf in Hle.
  assert (chan_len (queue t (obs (initial (R:=R) (B:=B) sc to ri t0))) = 0%nat) as H0
    by (by destruct t).
  rewrite H0 in Hlen. split_and!; try lia.
  intros Hfull r. apply push_refused. simpl. lia.
Qed.

(** C20 (backpressure).  In every reachable state a push is refused (the
    producer blocks) exactly when the queue of its class holds 1000 results;
    it is never dropped and never fails for another reason.  When a
    goroutine waits in its [select], the receive from the full queue is
    enabled and after it the push is accepted: a blocked producer waits for
    the loop, not for the sink or the clock. *)
Theorem TargetWrite_backpressure sc to ri (t0 : Time) s e :
  Reachable (initial sc to ri t0) s →
  (step (push e) s = None ↔ chan_len (queue e.2 (obs s)) = 1000%nat) ∧
  ∀ i g timer,
    gs s !! i = Some g → pc g = AtSelect timer → step (push e) s = None →
    ∃ s', step (Loop i (recv e.2)) s = Some s' ∧
          chan_len (queue e.2 (obs s')) = 999%nat ∧ is_Some (step (push e) s').
Proof.
  intros (Hwf & _)%Reachable_config_inv.
  destruct (observer_wf_queue e.2 _ Hwf) as [Hcap Hlen]. unfold chan_wf in Hlen.
  split; [rewrite push_refused; lia|].
  intros i g timer Hi Hpc Hfull%push_refused.
  destruct (recv_releases e s i g timer) as (s' & ? & ? & ?); rewrite /full; try done;
    try lia.
  exists s'. split_and!; [done|lia|done].
Qed.

(** C21 (no loop, no release).  From a state in which no loop is alive, no
    lifecycle call is in progress and a queue is full (an observer that was
    never started, or whose [Stop] has returned), whatever happens short of
    a call of [Start]: the observer is still idle, the queue is still full,
    and a push to it is refused.  Producers of a stopped observer block
    after 1000 results, and stay blocked. *)
Theorem push_blocks_without_loop s ls s' e :
  idle s → full e.2 s → forallb no_start ls = true → run ls s = Some s' →
  idle s' ∧ full e.2 s' ∧ step (push e) s' = None.
Proof.
  intros Hi Hf Hls Hr. destruct (idle_full_run _ _ _ _ Hi Hf Hls Hr) as [Hi' Hf'].
  split_and!; [done..|]. apply push_refused. unfold full in Hf'. lia.
Qed.

End backpressure.

(** ** Witnesses *)

(** [Start], then a thousand pushes that the loop does not receive. *)
Lemma producers_lead_bounded_witness :
  (received_from false sched_full_running ≤ pushed_to false sched_full_running
     ≤ received_from false sched_full_running + 1000)%nat ∧
  chan_len (queue false (obs demo_full_running)) =
    (pushed_to false sched_full_running - received_from false sched_full_running)%nat ∧
  (chan_len (queue false (obs demo_full_running)) ≤ 1000)%nat ∧
  (pushed_to false sched_full_running = received_from false sched_full_running + 1000 →
   ∀ r, step (push (r, false)) demo_full_running = None)%nat.
Proof.
  apply (producers_lead_bounded (Some []) (ms 100) (ms 1000) 0 sched_full_running
           demo_full_running false), run_sched_full_running.
Defined.

Lemma TargetWrite_backpressure_witness :
  (step (push (1%nat, false)) demo_full_running = None ↔
     chan_len (queue false (obs demo_full_running)) = 1000%nat) ∧
  ∃ s', step (Loop 0 (recv false)) demo_full_running = Some s' ∧
        chan_len (queue false (obs s')) = 999%nat ∧
        is_Some (step (push (1%nat, false)) s').
Proof.
  destruct (TargetWrite_backpressure (Some []) (ms 100) (ms 1000) 0 demo_full_running
              (1%nat, false)) as [H1 H2];
    [apply SReachable_Reachable, demo_full_running_reachable|].
  split; [exact H1|].
  apply (H2 0%nat (MkGoroutine (AtSelect (ms 100)) (ms 1000) (MkJournal [])) (ms 100));
    vm_compute; reflexivity.
Defined.

(** The observer that was never started, after a thousand pushes: time
    passes, a [Stop] returns at once, the other queue takes a result, and
    the push is still refused. *)
Lemma push_blocks_without_loop_witness :
  ∃ s', run [Tick (ms 5000); CallStop 0; CallTargetWriteOversized 4%nat] demo_full = Some s' ∧
        idle s' ∧ full false s' ∧ step (push (1%nat, false)) s' = None.
Proof.
  eexists. split; [vm_compute; reflexivity|].
  apply (push_blocks_without_loop demo_full
           [Tick (ms 5000); CallStop 0; CallTargetWriteOversized 4%nat] _ (1%nat, false));
    [split_and!; [done|by constructor|done]|vm_compute; reflexivity..].
Defined.
