(* ===== verification/Logs.v ===== *)
(** * Logs: what the log says about what the sink was sent

    The loop logs the summary of its buffer with [Infof] immediately before
    it hands the buffer to the sink (lines 67-69 and 83-85), and logs nothing
    else at that level.  With the recording sink of [Buffer] the two can be
    compared: in every execution the summaries in the log are the summaries
    of the buffers the sink holds, one for one and in the same order.  The
    other entries are the two warnings of the source and the idle-timeout
    message, which always carries the configured timeout. *)

From S2P Require Import Prelude GoTime Channel Buffer Observer System Invariants Demo.

Section logs.
Context {R B : Type} `{!ObserverBuffer R B}.

Abbreviation RSys := (Sys R B (list B)).
Abbreviation RObserver := (Observer R (list B)).

Implicit Types (s : RSys) (o : RObserver) (g : Goroutine B) (l : Label R).
Implicit Types (lg : list LogEntry) (bs : list B) (to ri : Duration) (t : Time).

(** The summary an entry logs, when it is an [Infof]. *)
Definition summary (e : LogEntry) : option string :=
  match e with Infof f => Some f | _ => None end.

(** The summaries of a log, oldest first. *)
Definition summaries lg : list string := omap summary lg.

(** The entries the source can write (lines 51, 64, 67, 79, 83), for the
    idle timeout [to]. *)
Definition entry_ok to (e : LogEntry) : bool :=
  match e with
  | Warn m => bool_decide (m = msg_already_running ∨ m = msg_exit)
  | Infof _ => true
  | Debugf f d => bool_decide (f = msg_timeout ∧ d = to)
  end.

(** The log and the sink agree. *)
Definition log_inv to s : Prop :=
  ∃ bs, statsClient (obs s) = Some bs ∧
        summaries (logs s) = buffer_string <$> bs ∧
        forallb (entry_ok to) (logs s) = true ∧
        timeout (obs s) = to.

Lemma summaries_app lg lg' : summaries (lg ++ lg') = summaries lg ++ summaries lg'.
Proof. apply omap_app. Qed.

(** What one action of the goroutine adds to the sink and to the log. *)
Lemma act_log a t o g o' g' lg bs :
  act a t o g = Some (o', g', lg) → statsClient o = Some bs →
  ∃ bs', statsClient o' = Some bs' ∧
         buffer_string <$> bs' = (buffer_string <$> bs) ++ summaries lg ∧
         forallb (entry_ok (timeout o)) lg = true.
Proof.
  intros H Hs. inv_act H; rewrite /= ?app_nil_r /send_stats ?Hs /=;
    try (by eexists; split_and!);
    eexists; (split_and!; [done|by rewrite ?fmap_app|by rewrite ?bool_decide_eq_true_2]).
Qed.

Lemma log_inv_inductive to : inductive_inv (log_inv to).
Proof.
  intros s l s' (bs & Hs & Hl & Hok & Hto) H. unfold log_inv.
  inv_step H; try (by eauto).
  - exists bs. unfold Start_check in *.
    case_match; simplify_eq; rewrite ?app_nil_r ?summaries_app ?forallb_app /= ?Hl ?Hok
      ?app_nil_r //=.
  - unfold Start_spawn in *. simplify_eq. by exists bs.
  - match goal with H : TargetWrite _ _ = Some _ |- _ =>
      apply TargetWrite_frame in H as (? & _ & ->) end. by exists bs.
  - match goal with H : TargetWriteOversized _ _ = Some _ |- _ =>
      apply TargetWriteOversized_frame in H as (? & _ & ->) end. by exists bs.
  - match goal with H : act _ _ _ _ = Some _ |- _ =>
      destruct (act_log _ _ _ _ _ _ _ _ H Hs) as (bs' & Hs' & Hb & Hok');
      destruct (act_frame _ _ _ _ _ _ _ H) as (Hto' & _) end.
    exists bs'. by rewrite summaries_app forallb_app Hb Hl Hok Hok' Hto'.
Qed.

(** ** The claim *)

(** C39 (log and sink).  In every execution from [New] with a sink, the
    summaries logged with [Infof] are the summaries of the buffers the sink
    was sent, one for one and in the order of the sends; every other entry
    of the log is one of the two warnings of the source or the idle-timeout
    message with the configured timeout. *)
Theorem log_agrees_with_sink to ri (t0 : Time) s :
  Reachable (initial (Some []) to ri t0) s →
  ∃ bs, statsClient (obs s) = Some bs ∧
        summaries (logs s) = buffer_string <$> bs ∧
        forallb (entry_ok to) (logs s) = true.
Proof.
  intros Hr.
  assert (log_inv to s) as (bs & ? & ? & ? & _); [|by eauto].
  revert Hr. apply Reachable_inv; [by exists []|apply log_inv_inductive].
Qed.

End logs.

(** ** Witness: the flush of the demo *)

Lemma log_agrees_with_sink_witness :
  ∃ bs, statsClient (obs demo_flushed) = Some bs ∧
        summaries (logs demo_flushed) = buffer_string <$> bs ∧
        forallb (entry_ok (ms 100)) (logs demo_flushed) = true.
Proof.
  apply (log_agrees_with_sink (ms 100) (ms 1000) 0 demo_flushed).
  apply SReachable_Reachable, demo_flushed_reachable.
Defined.
