(* ===== verification/Conservation.v ===== *)
(** * Conservation: no result is lost or duplicated, and order is kept

    With the journal buffer and the recording sink of [Buffer] the state
    shows where every pushed result is: still in one of the two queues,
    merged into the buffer of a goroutine that has not flushed it yet, or in a
    buffer the sink was sent.  [accounted] is the list of these entries, in
    that order from oldest to newest; [pushes] is what a schedule pushed.
    The two are permutations of one another in every execution, and equal
    class by class in every serialised one. *)

From S2P Require Import Prelude GoTime Channel Buffer Observer System Invariants Demo.

Section conservation.
Context {R : Type}.

Abbreviation JObserver := (Observer R (list (Journal R))).
Abbreviation JGoroutine := (Goroutine (Journal R)).
Abbreviation JSys := (Sys R (Journal R) (list (Journal R))).

Implicit Types (s : JSys) (o : JObserver) (g : JGoroutine) (l : Label R).
Implicit Types (ls : list (Label R)) (es : list (Entry R)) (c : chan R) (t : bool).

(** What a label pushes, with the tag of the queue it goes to. *)
Definition pushed l : list (Entry R) :=
  match l with
  | CallTargetWrite r => [(r, false)]
  | CallTargetWriteOversized r => [(r, true)]
  | _ => []
  end.

Definition pushes ls : list (Entry R) := ls ≫= pushed.

(** The program points at which the goroutine's buffer holds entries that
    have not been sent: from the entry of the loop to the flush.  At
    [AtReset] and after the final flush the buffer has been sent and is about
    to be dropped. *)
Definition holds_data (p : PC) : bool :=
  match p with
  | AtSelectEnter | AtSelect _ | AtCheck | AtFlush | AtExitFlush => true
  | AtInit | AtReset | AtExitClear | AtStopDone | AtReturn => false
  end.

Definition pending_of g : list (Entry R) :=
  if holds_data (pc g) then entries (buffer g) else [].

(** The contents of a queue, tagged. *)
Definition tagged t c : list (Entry R) := (λ r, (r, t)) <$> chan_buf c.

Definition delivered_to o : list (Entry R) :=
  default [] (statsClient o) ≫= entries.

Definition queued_in o : list (Entry R) :=
  tagged false (targetWriteChan o) ++ tagged true (targetWriteOversizedChan o).

Definition delivered s : list (Entry R) := delivered_to (obs s).
Definition pending s : list (Entry R) := gs s ≫= pending_of.
Definition queued s : list (Entry R) := queued_in (obs s).

(** Every entry the state knows of, oldest first within a class. *)
Definition accounted s : list (Entry R) := delivered s ++ pending s ++ queued s.

(** The results of one class, in order. *)
Definition class t es : list R := (filter (λ e, e.2 = t) es).*1.

Definition has_sink s : Prop := is_Some (statsClient (obs s)).

(** ** Classes *)

Lemma class_nil t : class t [] = [].
Proof. done. Qed.

Lemma class_app t es es' : class t (es ++ es') = class t es ++ class t es'.
Proof. by rewrite /class list.filter_app fmap_app. Qed.

Lemma class_cons t r t' es :
  class t ((r, t') :: es) = (if decide (t' = t) then [r] else []) ++ class t es.
Proof. rewrite /class filter_cons /=. by case_decide. Qed.

Lemma class_tagged t t' c :
  class t (tagged t' c) = if decide (t' = t) then chan_buf c else [].
Proof.
  unfold tagged. induction (chan_buf c) as [|r q IH]; [by case_decide|].
  rewrite fmap_cons class_cons IH. by case_decide.
Qed.

(** A list of entries is its two classes, up to order. *)
Lemma class_Permutation es :
  es ≡ₚ ((λ r, (r, false)) <$> class false es) ++ ((λ r, (r, true)) <$> class true es).
Proof.
  induction es as [|[r []] es IH]; [done|..];
    rewrite !class_cons; repeat case_decide; simplify_eq/=.
  - by rewrite -Permutation_middle -IH.
  - by rewrite -IH.
Qed.

(** ** What the queues hold after a send and a receive *)

Lemma tagged_send t c r c' :
  chan_send c r = Some c' → tagged t c' = tagged t c ++ [(r, t)].
Proof. intros [_ ->]%chan_send_Some. by rewrite /tagged /= fmap_app. Qed.

Lemma tagged_recv t c r c' :
  chan_recv c = Some (r, c') → tagged t c = (r, t) :: tagged t c'.
Proof. intros [H _]%chan_recv_Some. by rewrite /tagged H. Qed.

Lemma delivered_to_send o (b : Journal R) :
  is_Some (statsClient o) →
  delivered_to (send_stats o b) = delivered_to o ++ entries b
  ∧ queued_in (send_stats o b) = queued_in o
  ∧ is_Some (statsClient (send_stats o b)).
Proof.
  intros [k Hk]. rewrite /delivered_to /queued_in /send_stats Hk /=.
  by rewrite bind_app bind_singleton.
Qed.

(** Two lists with the same classes are permutations of one another. *)
Lemma class_eq_Permutation es es' : (∀ t, class t es = class t es') → es ≡ₚ es'.
Proof.
  intros H. rewrite (class_Permutation es) (class_Permutation es'). by rewrite !H.
Qed.

(** ** One action of a goroutine *)

(** What the struct and the acting goroutine account for, class by class,
    is the same before and after every action: a receive moves the head of a
    queue to the end of the buffer, a flush moves the buffer to the end of
    what was delivered, and nothing else touches an entry. *)
Lemma act_accounted a now o g o' g' lg t :
  act a now o g = Some (o', g', lg) → is_Some (statsClient o) →
  class t (delivered_to o' ++ pending_of g' ++ queued_in o') =
  class t (delivered_to o ++ pending_of g ++ queued_in o).
Proof.
  intros H Hk. inv_act H;
    repeat match goal with
    | |- context [send_stats o ?b] =>
        destruct (delivered_to_send o b Hk) as (-> & -> & _)
    end;
    rewrite /pending_of /queued_in /delivered_to /=;
    repeat match goal with
    | H : pc g = _ |- _ => rewrite H; clear H
    | H : chan_recv (targetWriteChan _) = Some _ |- _ =>
        rewrite (tagged_recv false _ _ _ H); clear H
    | H : chan_recv (targetWriteOversizedChan _) = Some _ |- _ =>
        rewrite (tagged_recv true _ _ _ H); clear H
    end;
    simpl; try done; try (by destruct (After _ _));
    destruct t; rewrite !(class_app, class_cons, class_nil, class_tagged);
    repeat case_decide; simplify_eq; by rewrite -?app_assoc ?app_nil_r /=.
Qed.

Lemma act_has_sink a now o g o' g' lg :
  act a now o g = Some (o', g', lg) → is_Some (statsClient o) → is_Some (statsClient o').
Proof.
  intros H Hk; inv_act H; simpl; try done; by apply delivered_to_send.
Qed.

(** The two rendezvous of the shutdown move no entry. *)
Lemma select_exit_pending g g' : select_exit g = Some g' → pending_of g' = pending_of g.
Proof.
  intros H; inv_sync H. unfold pending_of. simpl.
  by match goal with H : pc g = _ |- _ => rewrite H end.
Qed.

Lemma stop_done_pending g g' : stop_done g = Some g' → pending_of g' = pending_of g.
Proof.
  intros H; inv_sync H. unfold pending_of. simpl.
  by match goal with H : pc g = _ |- _ => rewrite H end.
Qed.

(** ** One step of the system *)

Lemma has_sink_inductive : inductive_inv has_sink.
Proof.
  intros s l s' Hk H. unfold has_sink in *. inv_step H; try done.
  - unfold Start_spawn in *. by simplify_eq.
  - match goal with H : TargetWrite _ _ = Some _ |- _ =>
      apply TargetWrite_frame in H as (? & _ & ->) end. done.
  - match goal with H : TargetWriteOversized _ _ = Some _ |- _ =>
      apply TargetWriteOversized_frame in H as (? & _ & ->) end. done.
  - eauto using act_has_sink.
Qed.

(** Replacing a goroutine by one that accounts for the same entries. *)
Lemma pending_insert_same (gl : list JGoroutine) i g g' :
  gl !! i = Some g → pending_of g' = pending_of g →
  <[i:=g']> gl ≫= pending_of ≡ₚ gl ≫= pending_of.
Proof.
  intros Hi Hp.
  destruct (bind_insert_Permutation pending_of gl i g g' Hi) as (rest & -> & ->).
  by rewrite Hp.
Qed.

(** A step adds what its label pushes to what the state accounts for, and
    neither removes nor repeats an entry. *)
Lemma step_accounted s l s' :
  has_sink s → step l s = Some s' → accounted s' ≡ₚ accounted s ++ pushed l.
Proof.
  intros Hk H. unfold has_sink in Hk.
  rewrite /accounted /delivered /pending /queued.
  inv_step H; rewrite ?app_nil_r; try done.
  - unfold Start_spawn in *. simplify_eq. by rewrite bind_app /= app_nil_r.
  - match goal with H : TargetWrite _ _ = Some _ |- _ =>
      apply TargetWrite_frame in H as (c & Hs & ->) end.
    rewrite /queued_in /delivered_to /= (tagged_send _ _ _ _ Hs). solve_Permutation.
  - match goal with H : TargetWriteOversized _ _ = Some _ |- _ =>
      apply TargetWriteOversized_frame in H as (c & Hs & ->) end.
    rewrite /queued_in /delivered_to /= (tagged_send _ _ _ _ Hs). solve_Permutation.
  - match goal with
    | Hi : gs s !! _ = Some ?g, Ha : act _ _ _ _ = Some (?o', ?g', _) |- _ =>
      destruct (bind_insert_Permutation pending_of _ _ _ g' Hi) as (rest & -> & ->);
      pose proof (class_eq_Permutation _ _ (λ t, act_accounted _ _ _ _ _ _ _ t Ha Hk)) as Hp;
      trans ((delivered_to o' ++ pending_of g' ++ queued_in o') ++ rest);
        [solve_Permutation|rewrite Hp; solve_Permutation]
    end.
  - by rewrite pending_insert_same; [| |eapply select_exit_pending].
  - by rewrite pending_insert_same; [| |eapply stop_done_pending].
Qed.

Lemma pushes_snoc ls l : pushes (ls ++ [l]) = pushes ls ++ pushed l.
Proof. by rewrite /pushes bind_app bind_singleton. Qed.

(** ** Serialised executions: one goroutine accounts for entries *)

Lemma pending_returned (past : list JGoroutine) : returned past → past ≫= pending_of = [].
Proof.
  induction 1 as [|g past Hg _ IH]; [done|].
  by rewrite bind_cons IH /pending_of Hg.
Qed.

(** In a phase, a live goroutine is the only one whose buffer counts. *)
Lemma pending_live_last run (gl : list JGoroutine) cl i g g' :
  phase run gl cl → gl !! i = Some g → live (pc g) = true →
  gl ≫= pending_of = pending_of g ∧ <[i:=g']> gl ≫= pending_of = pending_of g'.
Proof.
  intros Hph Hi Hl.
  phase_cases Hph; acting_is_last Hi Hl;
    by rewrite !bind_app !bind_singleton pending_returned.
Qed.

Lemma sync_live g g' : select_exit g = Some g' ∨ stop_done g = Some g' → live (pc g) = true.
Proof. intros [H|H]; inv_sync H; by destruct (pc g). Qed.

(** In a serialised execution a step appends what its label pushes to
    each class of what the state accounts for: the order within a class is
    the order of the pushes. *)
Lemma step_class s l s' t :
  has_sink s → phase_inv s → step l s = Some s' →
  class t (accounted s') = class t (accounted s) ++ class t (pushed l).
Proof.
  intros Hk Hph H. unfold has_sink, phase_inv in *.
  rewrite /accounted /delivered /pending /queued.
  inv_step H; rewrite ?class_nil ?app_nil_r; try done.
  - unfold Start_spawn in *. simplify_eq. by rewrite bind_app /= app_nil_r.
  - match goal with H : TargetWrite _ _ = Some _ |- _ =>
      apply TargetWrite_frame in H as (c & Hs & ->) end.
    rewrite /queued_in /delivered_to /= (tagged_send _ _ _ _ Hs).
    destruct t; rewrite !(class_app, class_cons, class_nil, class_tagged);
      repeat case_decide; simplify_eq; by rewrite -?app_assoc ?app_nil_r /=.
  - match goal with H : TargetWriteOversized _ _ = Some _ |- _ =>
      apply TargetWriteOversized_frame in H as (c & Hs & ->) end.
    rewrite /queued_in /delivered_to /= (tagged_send _ _ _ _ Hs).
    destruct t; rewrite !(class_app, class_cons, class_nil, class_tagged);
      repeat case_decide; simplify_eq; by rewrite -?app_assoc ?app_nil_r /=.
  - match goal with Hi : gs s !! _ = Some _, Ha : act _ _ _ _ = Some (_, ?g', _) |- _ =>
      destruct (pending_live_last _ _ _ _ _ g' Hph Hi (act_live _ _ _ _ _ _ _ Ha))
        as [-> ->]; by eapply act_accounted end.
  - match goal with Hi : gs s !! _ = Some _, He : select_exit _ = Some ?g' |- _ =>
      destruct (pending_live_last _ _ _ _ _ g' Hph Hi (sync_live _ _ (or_introl He)))
        as [-> ->]; by rewrite (select_exit_pending _ _ He) end.
  - match goal with Hi : gs s !! _ = Some _, He : stop_done _ = Some ?g' |- _ =>
      destruct (pending_live_last _ _ _ _ _ g' Hph Hi (sync_live _ _ (or_intror He)))
        as [-> ->]; by rewrite (stop_done_pending _ _ He) end.
Qed.

(** When no lifecycle call is in progress and the observer is not running,
    no goroutine has entries that were not sent. *)
Lemma pending_idle s : phase_inv s → isRunning (obs s) = false → cs s = ∅ → pending s = [].
Proof.
  unfold phase_inv, pending. intros Hph Hoff Hidle. rewrite Hidle in Hph.
  phase_cases Hph; try congruence; try (by apply pending_returned);
    by match goal with H : ∅ = {[_ := _]} |- _ =>
         apply (f_equal (λ m : gmap nat ClientPC, m !! c0)) in H;
         rewrite lookup_empty lookup_singleton_eq in H end.
Qed.

Lemma count_tag_class t es : count_tag t es = length (class t es).
Proof. by rewrite /count_tag /class length_fmap. Qed.

(** With nothing pending and nothing queued, everything accounted for has
    been delivered. *)
Lemma idle_drained_accounted s :
  phase_inv s → isRunning (obs s) = false → cs s = ∅ →
  chan_len (targetWriteChan (obs s)) = 0%nat →
  chan_len (targetWriteOversizedChan (obs s)) = 0%nat →
  accounted s = delivered s.
Proof.
  intros Hph Hoff Hidle Hq1%nil_length_inv Hq2%nil_length_inv.
  rewrite /accounted pending_idle //.
  by rewrite /queued /queued_in /tagged Hq1 Hq2 /= app_nil_r.
Qed.

(** What holds along a serialised execution with a sink. *)
Lemma serial_accounted to ri (t0 : Time) ls s :
  serial_run ls (initial (B:=Journal R) (Some []) to ri t0) = true →
  run ls (initial (Some []) to ri t0) = Some s →
  has_sink s ∧ phase_inv s ∧ ∀ t, class t (accounted s) = class t (pushes ls).
Proof.
  revert ls s.
  apply (serial_run_ind (λ ls s,
    has_sink s ∧ phase_inv s ∧ ∀ t, class t (accounted s) = class t (pushes ls))).
  - split_and!; [by eexists|apply phase_inv_initial|done].
  - intros ls s l s' Hs Hr (Hk & Hph & IH) Hl Hstep.
    split_and!; [by eapply has_sink_inductive|by eapply phase_inv_serial_inductive|].
    intros t. rewrite pushes_snoc class_app -IH. by apply step_class.
Qed.

(** Along every execution with a sink. *)
Lemma run_accounted to ri (t0 : Time) ls s :
  run ls (initial (Some []) to ri t0) = Some s → has_sink s ∧ accounted s ≡ₚ pushes ls.
Proof.
  revert ls s. apply (run_ind (λ ls s, has_sink s ∧ accounted s ≡ₚ pushes ls)).
  - split; [by eexists|done].
  - intros ls s l s' _ [Hk IH] Hstep. split; [by eapply has_sink_inductive|].
    rewrite pushes_snoc -IH. by apply step_accounted.
Qed.

(** ** The theorems *)

(** C1 (conservation).  In every execution from [New] with a sink,
    serialised or not, the results pushed so far are exactly the entries in
    the two queues, in the buffers of the goroutines that have not flushed
    them, and in the buffers the sink was sent, each with the tag of its
    queue: no result is lost, none is duplicated, none changes class. *)
Theorem conservation to ri (t0 : Time) ls s :
  run ls (initial (Some []) to ri t0) = Some s → accounted s ≡ₚ pushes ls.
Proof. intros Hr. by apply run_accounted in Hr as [_ ?]. Qed.

(** Counts in every execution, a corollary of conservation: the number of
    results of each class that are queued, pending in a loop or delivered
    to the sink is the number that was pushed to the queue of that class,
    and a result is accounted for exactly when it was pushed. *)
Corollary counts_conserved to ri (t0 : Time) ls s t :
  run ls (initial (Some []) to ri t0) = Some s →
  count_tag t (accounted s) = count_tag t (pushes ls) ∧
  ∀ e, e ∈ accounted s ↔ e ∈ pushes ls.
Proof.
  intros [_ Hp]%run_accounted. split; [by rewrite Hp|].
  intros e. by rewrite Hp.
Qed.

(** C6 (order within a class).  In every serialised execution the
    results of each class appear in what the sink was sent, then in the
    buffer of the loop, then in the queue, in the order in which they were
    pushed: each queue is first-in first-out all the way to the sink. *)
Theorem fifo_per_class to ri (t0 : Time) ls s t :
  serial_run ls (initial (B:=Journal R) (Some []) to ri t0) = true →
  run ls (initial (Some []) to ri t0) = Some s →
  class t (accounted s) = class t (pushes ls).
Proof. intros Hs Hr. by apply (serial_accounted to ri t0). Qed.

(** C17 (Stop after the queues were drained).  When a serialised execution
    ends with no lifecycle call in progress, the observer not running and
    both queues empty, the sink has been sent every pushed result exactly
    once, in push order within each class and with the right tag; the number
    of entries of each class it holds is the number of pushes to that
    queue. *)
Theorem stopped_drained_delivers_all to ri (t0 : Time) ls s t :
  serial_run ls (initial (B:=Journal R) (Some []) to ri t0) = true →
  run ls (initial (Some []) to ri t0) = Some s →
  isRunning (obs s) = false → cs s = ∅ →
  chan_len (targetWriteChan (obs s)) = 0%nat →
  chan_len (targetWriteOversizedChan (obs s)) = 0%nat →
  class t (delivered s) = class t (pushes ls) ∧
  count_tag t (delivered s) = count_tag t (pushes ls).
Proof.
  intros Hs Hr Hrun Hcs Hq1 Hq2.
  destruct (serial_accounted to ri t0 ls s Hs Hr) as (_ & Hph & Hc).
  by rewrite !count_tag_class -Hc idle_drained_accounted.
Qed.

End conservation.

(** ** Witnesses on the concrete system of [Demo] *)

Lemma conservation_witness :
  run sched_flushed demo_init = Some demo_flushed ∧
  accounted demo_flushed ≡ₚ pushes sched_flushed.
Proof.
  split; [vm_compute; reflexivity|].
  apply (conservation (ms 100) (ms 1000) 0 sched_flushed demo_flushed).
  vm_compute; reflexivity.
Defined.

Lemma fifo_per_class_witness :
  serial_run sched_drained_stop demo_init = true ∧
  run sched_drained_stop demo_init = Some demo_stopped ∧
  class true (accounted demo_stopped) = class true (pushes sched_drained_stop).
Proof.
  split; [vm_compute; reflexivity|]. split; [vm_compute; reflexivity|].
  apply (fifo_per_class (ms 100) (ms 1000) 0 sched_drained_stop demo_stopped true);
    vm_compute; reflexivity.
Defined.

Lemma stopped_drained_delivers_all_witness :
  serial_run sched_drained_stop demo_init = true ∧
  run sched_drained_stop demo_init = Some demo_stopped ∧
  isRunning (obs demo_stopped) = false ∧ cs demo_stopped = ∅ ∧
  chan_len (targetWriteChan (obs demo_stopped)) = 0%nat ∧
  chan_len (targetWriteOversizedChan (obs demo_stopped)) = 0%nat ∧
  class false (delivered demo_stopped) = class false (pushes sched_drained_stop) ∧
  count_tag false (delivered demo_stopped) = count_tag false (pushes sched_drained_stop).
Proof.
  do 6 (split; [vm_compute; reflexivity|]).
  apply (stopped_drained_delivers_all (ms 100) (ms 1000) 0
           sched_drained_stop demo_stopped false); vm_compute; reflexivity.
Defined.
