(* ===== verification/Roundtrip.v ===== *)
(** * Roundtrip: what is pushed is what the loop merges

    The way of a result from the producer to the loop's buffer, as a round
    trip through the queues: [push <$> es] sends the entries [es] with
    [TargetWrite] and [TargetWriteOversized], [drain i es'] lets goroutine
    [i] take them in the order [es'] (one iteration of the loop through a
    data case of the [select] for each), and the buffer is then the one that
    merges [es'] in order, the queues are as they were, and nothing else has
    changed.  Which of the two queues the [select] serves first is its
    choice, so [es'] is any interleaving of the two classes of [es]; within a
    class the order is the order of the pushes. *)

From S2P Require Import Prelude GoTime Channel Buffer Observer System Invariants Demo.
From S2P Require Import Queues Conservation.

Section roundtrip.
Context {R B K : Type} `{!ObserverBuffer R B} `{!StatsReceiver B K}.

Implicit Types (s : Sys R B K) (l : Label R) (o : Observer R K) (g : Goroutine B).
Implicit Types (t : bool) (e : Entry R) (es : list (Entry R)) (q : list R) (i : nat).

(** One iteration of the loop through the data case of class [t]: the
    [select] is entered, the result is received and merged, the deadline is
    tested (lines 61-62, 74-77, 82). *)
Definition merge_round i t : list (Label R) :=
  [Loop i Enter; Loop i (recv t); Loop i Check].

(** The iterations that take the entries [es] in order. *)
Definition drain i es : list (Label R) := es ≫= λ e, merge_round i e.2.

(** The struct with the contents of its two queues replaced. *)
Definition with_queues (q q' : list R) o : Observer R K :=
  set_queue false (Chan (chan_cap (queue false o)) q)
    (set_queue true (Chan (chan_cap (queue true o)) q') o).

(** ** The struct with other queues *)

Lemma with_queues_id q q' o :
  chan_buf (queue false o) = q → chan_buf (queue true o) = q' → with_queues q q' o = o.
Proof. intros <- <-. by destruct o as [? ? ? [? ?] [? ?] ? ? ?]. Qed.

Lemma with_queues_set_queue q q' t c o :
  chan_cap c = chan_cap (queue t o) →
  with_queues q q' (set_queue t c o) = with_queues q q' o.
Proof. unfold with_queues. destruct t; simpl; by intros ->. Qed.

Lemma with_queues_with_queues q1 q1' q2 q2' o :
  with_queues q1 q1' (with_queues q2 q2' o) = with_queues q1 q1' o.
Proof. done. Qed.

Lemma queue_with_queues t q q' o :
  queue t (with_queues q q' o) = Chan (chan_cap (queue t o)) (if t then q' else q).
Proof. by destruct t. Qed.

(** ** Pushing *)

Lemma pushes_run es s :
  (∀ t, chan_len (queue t (obs s)) + count_tag t es ≤ chan_cap (queue t (obs s)))%nat →
  run (push <$> es) s =
    Some (with_obs (λ o, with_queues (chan_buf (queue false o) ++ class false es)
                           (chan_buf (queue true o) ++ class true es) o) s).
Proof.
  revert s. induction es as [|[r t] es IH]; intros s Hcap.
  - rewrite /= /with_obs with_queues_id ?app_nil_r //. by destruct s.
  - rewrite fmap_cons. cbn [run]. rewrite step_push. cbn [fst snd].
    destruct (chan_send (queue t (obs s)) r) as [c|] eqn:Hc; last first.
    { apply chan_send_None in Hc. specialize (Hcap t).
      rewrite (count_tag_app t [(r, t)] es) /count_tag filter_cons /= decide_True // in Hcap.
      simpl in Hcap. lia. }
    pose proof Hc as [_ ->]%chan_send_Some. simpl. rewrite IH.
    + rewrite /with_obs. cbn [obs gs cs now logs]. rewrite with_queues_set_queue //.
      do 2 f_equal. rewrite !class_cons. by destruct t; rewrite /= -app_assoc.
    + intros t'. specialize (Hcap t'). revert Hcap.
      rewrite (count_tag_app t' [(r, t)] es) /count_tag filter_cons /=.
      destruct t, t'; rewrite /= /chan_len /= ?length_snoc; lia.
Qed.

(** ** Draining *)

(** One iteration through a data case, before the deadline. *)
Lemma merge_round_run s i g t r c :
  gs s !! i = Some g → pc g = AtSelectEnter → now s ≤ reportTime g →
  chan_recv (queue t (obs s)) = Some (r, c) →
  run (merge_round i t) s =
    Some (MkSys (set_queue t c (obs s))
            (<[i := MkGoroutine AtSelectEnter (reportTime g) (Append (buffer g) r t)]> (gs s))
            (cs s) (now s) (logs s)).
Proof.
  intros Hi Hpc Hnow Hr. pose proof (lookup_lt_Some _ _ _ Hi) as Hlt.
  rewrite /merge_round /= Hi /= /select_enter Hpc /= list_lookup_insert_eq //=.
  rewrite (act_recv t _ _ _ (Add (now s) (timeout (obs s))) r c) //=.
  rewrite list_lookup_insert_eq ?length_insert //= /check_report /=.
  assert (After (now s) (reportTime g) = false) as -> by (by apply After_false).
  by rewrite !list_insert_insert_eq !app_nil_r.
Qed.

Lemma drain_run es i s g (rest : bool → list R) :
  gs s !! i = Some g → pc g = AtSelectEnter → now s ≤ reportTime g →
  (∀ t, chan_buf (queue t (obs s)) = class t es ++ rest t) →
  run (drain i es) s =
    Some (MkSys (with_queues (rest false) (rest true) (obs s))
            (<[i := MkGoroutine AtSelectEnter (reportTime g) (replay_from (buffer g) es)]>
               (gs s))
            (cs s) (now s) (logs s)).
Proof.
  revert s g. induction es as [|[r t] es IH]; intros s g Hi Hpc Hnow Hq.
  - assert (∀ t, rest t = chan_buf (queue t (obs s))) as Hrest
      by (intros t; by rewrite Hq).
    rewrite /= with_queues_id // list_insert_id; [by destruct s|].
    rewrite Hi. f_equal. destruct g. by simplify_eq/=.
  - pose proof (lookup_lt_Some _ _ _ Hi) as Hlt.
    assert (chan_recv (queue t (obs s)) =
            Some (r, Chan (chan_cap (queue t (obs s))) (class t es ++ rest t))) as Hr.
    { apply chan_recv_Some. rewrite (Hq t) class_cons decide_True //. }
    rewrite /drain bind_cons run_app (merge_round_run _ _ g _ r _ Hi Hpc Hnow Hr) /=.
    rewrite (IH _ (MkGoroutine AtSelectEnter (reportTime g) (Append (buffer g) r t)))
      ?list_lookup_insert_eq //=.
    + by rewrite with_queues_set_queue // list_insert_insert_eq.
    + intros t'. destruct (decide (t' = t)) as [->|Hne].
      * by rewrite queue_set_queue.
      * by rewrite queue_set_queue_ne // Hq class_cons decide_False.
Qed.

(** ** The claim *)

(** C38 (round trip).  Results pushed into empty queues that have room for
    them, and then received by a goroutine that stands at the entry of its
    [select] before its deadline, in any order that keeps the order of the
    pushes within each class: the two schedules are executable one after the
    other, the goroutine is back at the entry of its [select] with the
    buffer that merges the entries in the order received, each with the tag
    of its queue, and the struct, the callers, the clock and the log are
    what they were. *)
Theorem push_drain_roundtrip s i g es es' :
  gs s !! i = Some g → pc g = AtSelectEnter → now s ≤ reportTime g →
  (∀ t, chan_buf (queue t (obs s)) = []) →
  (∀ t, count_tag t es ≤ chan_cap (queue t (obs s)))%nat →
  (∀ t, class t es' = class t es) →
  run ((push <$> es) ++ drain i es') s =
    Some (MkSys (obs s)
            (<[i := MkGoroutine AtSelectEnter (reportTime g) (replay_from (buffer g) es')]>
               (gs s))
            (cs s) (now s) (logs s)).
Proof.
  intros Hi Hpc Hnow Hemp Hcap Hcl.
  rewrite run_app pushes_run; [|intros t; rewrite /chan_len Hemp; apply Hcap].
  cbn [mbind option_bind]. rewrite (drain_run es' i _ g (λ _, [])) //.
  - by rewrite /with_obs /= with_queues_with_queues with_queues_id.
  - intros t. rewrite /with_obs. cbn [obs].
    rewrite queue_with_queues !Hemp app_nil_r Hcl. by destruct t.
Qed.

End roundtrip.

(** ** Witness: three results and one oversized result, the oversized one
    served first *)

Lemma push_drain_roundtrip_witness :
  run ((push <$> [(1, false); (2, false); (9, true); (3, false)]%nat) ++
       drain 0 [(9, true); (1, false); (2, false); (3, false)]%nat) demo_spawned =
    Some (MkSys (obs demo_spawned)
            [MkGoroutine AtSelectEnter (ms 1000)
               (MkJournal [(9, true); (1, false); (2, false); (3, false)]%nat)]
            ∅ 0 []).
Proof.
  etrans; [apply (push_drain_roundtrip demo_spawned 0 fresh_loop)|vm_compute; reflexivity].
  - vm_compute. reflexivity.
  - reflexivity.
  - vm_compute. by intros ?.
  - by intros [].
  - intros []; vm_compute; lia.
  - by intros [].
Defined.
