(* ===== verification/Parametric.v ===== *)
(** * Parametric: the observer does not depend on how its interfaces are
    implemented

    The loop uses the buffer only through the empty value, [Append] and
    [String], and the sink only through [Send].  Two implementations of the
    buffer related by a relation that these operations preserve, and two
    sinks related by a relation that [Send] preserves, therefore give two
    systems that execute the same schedules in lock step, with related
    states: a simulation in both directions.  With the journal buffer on one
    side this is a data refinement: what any buffer holds is what [replay]
    makes of the journal. *)

From S2P Require Import Prelude GoTime Channel Buffer Observer System.
From S2P Require Import Invariants Demo Conservation.

(** The buffer operations preserve [rb]; the summaries of related buffers
    are related by [rl]. *)
Class BufferSim {R B1 B2} `{!ObserverBuffer R B1} `{!ObserverBuffer R B2}
    (rb : B1 → B2 → Prop) (rl : string → string → Prop) : Prop := {
  sim_empty : rb buffer_empty buffer_empty;
  sim_Append b1 b2 r o : rb b1 b2 → rb (Append b1 r o) (Append b2 r o);
  sim_string b1 b2 : rb b1 b2 → rl (buffer_string b1) (buffer_string b2);
}.

(** [Send] takes related sinks and related buffers to related sinks. *)
Class SinkSim {B1 B2 S1 S2} `{!StatsReceiver B1 S1} `{!StatsReceiver B2 S2}
    (rb : B1 → B2 → Prop) (rs : S1 → S2 → Prop) : Prop := {
  sim_Send k1 k2 b1 b2 : rs k1 k2 → rb b1 b2 → rs (Send k1 b1) (Send k2 b2);
}.

(** What a sink that started as [k0] has become after being sent [bs]. *)
Definition sent_to {B S} `{!StatsReceiver B S} (k0 : S) (bs : list B) : S :=
  fold_left Send bs k0.

(** The relations of the data refinement from the journal: a buffer holds
    what [replay] makes of the journal's entries, a sink has been sent the
    replayed journals, and nothing is said of the summaries. *)
Definition replays {R B} `{!ObserverBuffer R B} (j : Journal R) (b : B) : Prop :=
  b = replay (entries j).

Definition relayed {R B S} `{!ObserverBuffer R B} `{!StatsReceiver B S}
    (k0 : S) (js : list (Journal R)) (k : S) : Prop :=
  k = sent_to k0 (replay ∘ entries <$> js).

Definition any_summary (f1 f2 : string) : Prop := True.

(** The sum of the counts of the buffers a sink was sent. *)
Definition total (sent : list Counts) : Counts :=
  MkCounts (sum_list (results <$> sent)) (sum_list (oversized_results <$> sent)).

(** The system of [Demo] with the counting buffer in place of the journal,
    and the state it reaches when a result and an oversized result are merged
    and [Stop()] has returned. *)
Definition counts_init : Sys nat Counts (list Counts) :=
  initial (Some []) (ms 100) (ms 1000) 0.

Definition counts_stopped : Sys nat Counts (list Counts) :=
  Eval vm_compute in default counts_init (run sched_drained_stop counts_init).

Section relations.
Context {R B1 B2 S1 S2 : Type}.
Context `{!ObserverBuffer R B1} `{!ObserverBuffer R B2}.
Context `{!StatsReceiver B1 S1} `{!StatsReceiver B2 S2}.
Context (rb : B1 → B2 → Prop) (rs : S1 → S2 → Prop) (rl : string → string → Prop).

(** Log lines are the same except for the summaries, which are related. *)
Definition log_sim (e1 e2 : LogEntry) : Prop :=
  match e1, e2 with
  | Infof f1, Infof f2 => rl f1 f2
  | _, _ => e1 = e2
  end.

(** The structs agree on every field but the sink, and the sinks are
    related (or both nil). *)
Definition obs_sim (o1 : Observer R S1) (o2 : Observer R S2) : Prop :=
  option_Forall2 rs (statsClient o1) (statsClient o2) ∧
  exitSignal o1 = exitSignal o2 ∧ stopDone o1 = stopDone o2 ∧
  targetWriteChan o1 = targetWriteChan o2 ∧
  targetWriteOversizedChan o1 = targetWriteOversizedChan o2 ∧
  timeout o1 = timeout o2 ∧ reportInterval o1 = reportInterval o2 ∧
  isRunning o1 = isRunning o2.

(** The goroutines are at the same point with the same report time and
    related buffers. *)
Definition g_sim (g1 : Goroutine B1) (g2 : Goroutine B2) : Prop :=
  pc g1 = pc g2 ∧ reportTime g1 = reportTime g2 ∧ rb (buffer g1) (buffer g2).

Definition sys_sim (s1 : Sys R B1 S1) (s2 : Sys R B2 S2) : Prop :=
  obs_sim (obs s1) (obs s2) ∧ Forall2 g_sim (gs s1) (gs s2) ∧
  cs s1 = cs s2 ∧ now s1 = now s2 ∧ Forall2 log_sim (logs s1) (logs s2).

Context `{!BufferSim rb rl} `{!SinkSim rb rs}.

Implicit Types (l : Label R) (ls : list (Label R)) (lg : list LogEntry).

Lemma log_sim_refl e : (∀ f, e ≠ Infof f) → log_sim e e.
Proof. destruct e; naive_solver. Qed.

Lemma send_stats_sim o1 o2 b1 b2 :
  obs_sim o1 o2 → rb b1 b2 → obs_sim (send_stats o1 b1) (send_stats o2 b2).
Proof.
  intros (Hk & ?) Hb. unfold send_stats.
  destruct (statsClient o1) eqn:E1, (statsClient o2) eqn:E2; inv Hk.
  - split; [|done]. constructor. by apply sim_Send.
  - split; [|done]. rewrite E1 E2. constructor.
Qed.

(** Writing the same value to the same field on both sides. *)
Lemma obs_sim_set_write o1 o2 (c : chan R) :
  obs_sim o1 o2 → obs_sim (set_targetWriteChan c o1) (set_targetWriteChan c o2).
Proof. intros (?&?&?&?&?&?&?&?). by repeat split. Qed.

Lemma obs_sim_set_oversized o1 o2 (c : chan R) :
  obs_sim o1 o2 →
  obs_sim (set_targetWriteOversizedChan c o1) (set_targetWriteOversizedChan c o2).
Proof. intros (?&?&?&?&?&?&?&?). by repeat split. Qed.

Lemma obs_sim_set_running o1 o2 (b : bool) :
  obs_sim o1 o2 → obs_sim (set_isRunning b o1) (set_isRunning b o2).
Proof. intros (?&?&?&?&?&?&?&?). by repeat split. Qed.

Local Hint Resolve obs_sim_set_write obs_sim_set_oversized obs_sim_set_running : core.

(** An action enabled on one side is enabled on the other and keeps the
    two sides related. *)
Lemma act_sim a t o1 o2 g1 g2 o1' g1' lg1 :
  obs_sim o1 o2 → g_sim g1 g2 →
  act a t o1 g1 = Some (o1', g1', lg1) →
  ∃ o2' g2' lg2, act a t o2 g2 = Some (o2', g2', lg2) ∧
                 obs_sim o1' o2' ∧ g_sim g1' g2' ∧ Forall2 log_sim lg1 lg2.
Proof.
  intros Ho (Hpc & Hrt & Hb) H.
  pose proof Ho as (_ & _ & _ & Hw & Hv & Hto & Hri & _).
  inv_act H;
    rewrite /act /loop_init /select_enter /select_write /select_oversized
      /select_timeout /check_report /flush_report /reset_report /exit_flush
      /exit_clear -Hpc -?Hw -?Hv -?Hto -?Hri -?Hrt;
    repeat match goal with
    | H : pc g1 = _ |- _ => rewrite H
    | H : chan_recv _ = Some _ |- _ => rewrite H; clear H
    | H : timer_fired _ _ = true |- _ => rewrite H; clear H
    end; simpl;
    eexists _, _, _; (split; [reflexivity|]).
  all: unfold g_sim, set_pc; simpl.
  all: repeat match goal with
    | |- _ ∧ _ => split
    | |- Forall2 _ _ _ => constructor
    | |- log_sim _ _ => simpl; first [done|by apply sim_string]
    | |- obs_sim (send_stats _ _) (send_stats _ _) => by apply send_stats_sim
    | |- rb (Append _ _ _) (Append _ _ _) => by apply sim_Append
    | |- rb buffer_empty buffer_empty => apply sim_empty
    end; auto.
Qed.

(** ** The methods *)

Lemma TargetWrite_sim o1 o2 r o1' :
  obs_sim o1 o2 → TargetWrite o1 r = Some o1' →
  ∃ o2', TargetWrite o2 r = Some o2' ∧ obs_sim o1' o2'.
Proof.
  intros Ho H. pose proof Ho as (_ & _ & _ & Hw & _).
  unfold TargetWrite in *. rewrite -Hw.
  destruct (chan_send (targetWriteChan o1) r) as [c|]; simplify_eq/=.
  eexists. split; [done|]. auto.
Qed.

Lemma TargetWriteOversized_sim o1 o2 r o1' :
  obs_sim o1 o2 → TargetWriteOversized o1 r = Some o1' →
  ∃ o2', TargetWriteOversized o2 r = Some o2' ∧ obs_sim o1' o2'.
Proof.
  intros Ho H. pose proof Ho as (_ & _ & _ & _ & Hv & _).
  unfold TargetWriteOversized in *. rewrite -Hv.
  destruct (chan_send (targetWriteOversizedChan o1) r) as [c|]; simplify_eq/=.
  eexists. split; [done|]. auto.
Qed.

Lemma Start_check_sim o1 o2 : obs_sim o1 o2 → Start_check o1 = Start_check o2.
Proof. intros (_&_&_&_&_&_&_&Hr). unfold Start_check. by rewrite Hr. Qed.

(** The log lines of [Start] are the same on both sides. *)
Lemma Start_check_log_sim (o : Observer R S1) p lg :
  Start_check o = (p, lg) → Forall2 log_sim lg lg.
Proof. unfold Start_check. case_match; intros; simplify_eq; repeat constructor. Qed.

Lemma Stop_check_sim o1 o2 : obs_sim o1 o2 → Stop_check o1 = Stop_check o2.
Proof. intros (_&_&_&_&_&_&_&Hr). unfold Stop_check. by rewrite Hr. Qed.

Lemma Start_spawn_sim o1 o2 :
  obs_sim o1 o2 →
  obs_sim (Start_spawn (B:=B1) o1).1 (Start_spawn (B:=B2) o2).1 ∧
  g_sim (Start_spawn (B:=B1) o1).2 (Start_spawn (B:=B2) o2).2.
Proof.
  intros Ho. split; [simpl; auto|]. split_and!; [done..|apply sim_empty].
Qed.

Lemma select_exit_sim g1 g2 g1' :
  g_sim g1 g2 → select_exit g1 = Some g1' →
  ∃ g2', select_exit g2 = Some g2' ∧ g_sim g1' g2'.
Proof.
  intros (Hpc & Hrt & Hb) H. unfold select_exit in *. rewrite -Hpc. inv_enabled H.
  eexists. by split.
Qed.

Lemma stop_done_sim g1 g2 g1' :
  g_sim g1 g2 → stop_done g1 = Some g1' →
  ∃ g2', stop_done g2 = Some g2' ∧ g_sim g1' g2'.
Proof.
  intros (Hpc & Hrt & Hb) H. unfold stop_done in *. rewrite -Hpc. inv_enabled H.
  eexists. by split.
Qed.

(** ** The system *)

Lemma Forall2_log_sim_app lg1 lg2 lg1' lg2' :
  Forall2 log_sim lg1 lg2 → Forall2 log_sim lg1' lg2' →
  Forall2 log_sim (lg1 ++ lg1') (lg2 ++ lg2').
Proof. apply Forall2_app. Qed.

Lemma Forall2_log_sim_refl lg : (∀ f, Infof f ∉ lg) → Forall2 log_sim lg lg.
Proof.
  induction lg as [|e lg IH]; intros H; constructor.
  - apply log_sim_refl. intros f ->. apply (H f). by left.
  - apply IH. intros f Hf. apply (H f). by right.
Qed.

(** Related goroutine tables give related goroutines at every index. *)
Lemma gs_sim_lookup (gl1 : list (Goroutine B1)) (gl2 : list (Goroutine B2)) i g1 :
  Forall2 g_sim gl1 gl2 → gl1 !! i = Some g1 →
  ∃ g2, gl2 !! i = Some g2 ∧ g_sim g1 g2.
Proof. intros H Hi. by eapply Forall2_lookup_l. Qed.

(** Lock step: a label enabled on one side is enabled on the other, and
    the states it leads to are related. *)
Lemma Step_sim l (s1 s1' : Sys R B1 S1) (s2 : Sys R B2 S2) :
  sys_sim s1 s2 → Step s1 l s1' → ∃ s2', Step s2 l s2' ∧ sys_sim s1' s2'.
Proof.
  intros (Ho & Hg & Hc & Hn & Hl) H. unfold sys_sim.
  inversion H; subst; clear H; simpl in *.
  - eexists. split; [by constructor|].
    split_and!; simpl; auto; congruence.
  - eexists. split.
    { econstructor; [by rewrite -Hc|by rewrite -(Start_check_sim _ _ Ho)]. }
    split_and!; simpl; [done..|congruence|done|].
    eauto using Forall2_app, Start_check_log_sim.
  - unfold Start_spawn in *. simplify_eq. eexists. split.
    { econstructor; [by rewrite -Hc|done]. }
    split_and!; simpl; [auto| |congruence|done..].
    apply Forall2_app; [done|]. repeat constructor. apply sim_empty.
  - eexists. split; [econstructor; by rewrite -Hc|].
    split_and!; simpl; [done..| |done|done].
    by rewrite (Stop_check_sim _ _ Ho) Hc.
  - match goal with H : TargetWrite _ _ = Some _ |- _ =>
      destruct (TargetWrite_sim _ _ _ _ Ho H) as (o2' & Hw & Ho') end.
    eexists. split; [by econstructor|]. by split_and!.
  - match goal with H : TargetWriteOversized _ _ = Some _ |- _ =>
      destruct (TargetWriteOversized_sim _ _ _ _ Ho H) as (o2' & Hw & Ho') end.
    eexists. split; [by econstructor|]. by split_and!.
  - match goal with Hi : gs s1 !! _ = Some _, Ha : act _ _ _ _ = Some _ |- _ =>
      destruct (gs_sim_lookup _ _ _ _ Hg Hi) as (g2 & Hi2 & Hg2);
      destruct (act_sim _ _ _ _ _ _ _ _ _ Ho Hg2 Ha)
        as (o2' & g2' & lg2 & Ha2 & Ho' & Hg' & Hlg) end.
    rewrite Hn in Ha2. eexists. split; [by econstructor|].
    split_and!; simpl; auto using Forall2_insert, Forall2_app.
  - match goal with Hi : gs s1 !! _ = Some _, He : select_exit _ = Some _ |- _ =>
      destruct (gs_sim_lookup _ _ _ _ Hg Hi) as (g2 & Hi2 & Hg2);
      destruct (select_exit_sim _ _ _ Hg2 He) as (g2' & He2 & Hg') end.
    eexists. split; [econstructor; [done..|by rewrite -Hc]|].
    split_and!; simpl; auto using Forall2_insert; congruence.
  - match goal with Hi : gs s1 !! _ = Some _, He : stop_done _ = Some _ |- _ =>
      destruct (gs_sim_lookup _ _ _ _ Hg Hi) as (g2 & Hi2 & Hg2);
      destruct (stop_done_sim _ _ _ Hg2 He) as (g2' & He2 & Hg') end.
    eexists. split; [econstructor; [done..|by rewrite -Hc]|].
    split_and!; simpl; auto using Forall2_insert; congruence.
Qed.

Lemma step_sim l (s1 s1' : Sys R B1 S1) (s2 : Sys R B2 S2) :
  sys_sim s1 s2 → step l s1 = Some s1' →
  ∃ s2', step l s2 = Some s2' ∧ sys_sim s1' s2'.
Proof.
  intros Hs H%Step_step. destruct (Step_sim _ _ _ _ Hs H) as (s2' & H2%Step_step & ?).
  eauto.
Qed.

Lemma run_sim ls (s1 s1' : Sys R B1 S1) (s2 : Sys R B2 S2) :
  sys_sim s1 s2 → run ls s1 = Some s1' →
  ∃ s2', run ls s2 = Some s2' ∧ sys_sim s1' s2'.
Proof.
  revert s1 s2. induction ls as [|l ls IH]; intros s1 s2 Hs H; simpl in *.
  - simplify_eq. eauto.
  - apply bind_Some_inv in H as (s1m & Hl & Hr).
    destruct (step_sim _ _ _ _ Hs Hl) as (s2m & -> & Hm). simpl. eauto.
Qed.

(** Whether a label respects the serialisation is the same on both sides. *)
Lemma serial_sim l (s1 : Sys R B1 S1) (s2 : Sys R B2 S2) :
  sys_sim s1 s2 → serial l s1 = serial l s2.
Proof. intros (_ & _ & Hc & _). destruct l; simpl; by rewrite ?Hc. Qed.

Lemma serial_run_sim ls (s1 : Sys R B1 S1) (s2 : Sys R B2 S2) :
  sys_sim s1 s2 → serial_run ls s1 = true → serial_run ls s2 = true.
Proof.
  revert s1 s2. induction ls as [|l ls IH]; intros s1 s2 Hs H; simpl in *; [done|].
  apply andb_true_iff in H as [Hl H]. rewrite -(serial_sim _ _ _ Hs) Hl /=.
  destruct (step l s1) as [s1m|] eqn:E; [|done].
  destruct (step_sim _ _ _ _ Hs E) as (s2m & -> & Hm). eauto.
Qed.

Lemma initial_sim (k1 : option S1) (k2 : option S2) to ri t0 :
  option_Forall2 rs k1 k2 →
  sys_sim (initial (B:=B1) k1 to ri t0) (initial (B:=B2) k2 to ri t0).
Proof. intros Hk. by repeat split; try constructor. Qed.

End relations.

(** ** Both directions *)

Section converse.
Context {R B1 B2 S1 S2 : Type}.
Context `{!ObserverBuffer R B1} `{!ObserverBuffer R B2}.
Context `{!StatsReceiver B1 S1} `{!StatsReceiver B2 S2}.
Context (rb : B1 → B2 → Prop) (rs : S1 → S2 → Prop) (rl : string → string → Prop).
Context `{!BufferSim rb rl} `{!SinkSim rb rs}.

(** The converse relations are preserved as well. *)
Lemma BufferSim_flip : BufferSim (flip rb) (flip rl).
Proof.
  split; unfold flip; [apply sim_empty|intros; by apply sim_Append
                      |intros; by eapply sim_string].
Qed.

Lemma SinkSim_flip : SinkSim (flip rb) (flip rs).
Proof. split; unfold flip; intros. by apply sim_Send. Qed.

Lemma log_sim_flip e1 e2 : log_sim rl e1 e2 → log_sim (flip rl) e2 e1.
Proof. destruct e1, e2; naive_solver. Qed.

Lemma sys_sim_flip (s1 : Sys R B1 S1) (s2 : Sys R B2 S2) :
  sys_sim rb rs rl s1 s2 → sys_sim (flip rb) (flip rs) (flip rl) s2 s1.
Proof.
  intros ((Hk & ?&?&?&?&?&?&?) & Hg & ? & ? & Hl). split_and!; try done.
  - split_and!; try done. by destruct Hk; constructor.
  - apply Forall2_flip. eapply Forall2_impl; [|exact Hg]. by intros ?? (?&?&?).
  - apply Forall2_flip. eapply Forall2_impl; [|exact Hl]. apply log_sim_flip.
Qed.

End converse.

Section bisimulation.
Context {R B1 B2 S1 S2 : Type}.
Context `{!ObserverBuffer R B1} `{!ObserverBuffer R B2}.
Context `{!StatsReceiver B1 S1} `{!StatsReceiver B2 S2}.
Context (rb : B1 → B2 → Prop) (rs : S1 → S2 → Prop) (rl : string → string → Prop).
Context `{!BufferSim rb rl} `{!SinkSim rb rs}.

Implicit Types (ls : list (Label R)).

Lemma run_sim_rev ls (s1 : Sys R B1 S1) (s2 s2' : Sys R B2 S2) :
  sys_sim rb rs rl s1 s2 → run ls s2 = Some s2' →
  ∃ s1', run ls s1 = Some s1' ∧ sys_sim rb rs rl s1' s2'.
Proof.
  intros Hs%sys_sim_flip Hr.
  pose proof (BufferSim_flip rb rl). pose proof (SinkSim_flip rb rs).
  destruct (run_sim _ _ _ _ _ _ _ Hs Hr) as (s1' & ? & Hs'%sys_sim_flip). eauto.
Qed.

Lemma serial_run_sim_rev ls (s1 : Sys R B1 S1) (s2 : Sys R B2 S2) :
  sys_sim rb rs rl s1 s2 → serial_run ls s2 = true → serial_run ls s1 = true.
Proof.
  intros Hs%sys_sim_flip Hr.
  pose proof (BufferSim_flip rb rl). pose proof (SinkSim_flip rb rs).
  by eapply serial_run_sim.
Qed.

(** Related systems execute the same schedules, and reach related
    states. *)
Lemma run_bisim ls (s1 : Sys R B1 S1) (s2 : Sys R B2 S2) :
  sys_sim rb rs rl s1 s2 → option_Forall2 (sys_sim rb rs rl) (run ls s1) (run ls s2).
Proof.
  intros Hs. destruct (run ls s1) as [s1'|] eqn:E1.
  - destruct (run_sim _ _ _ _ _ _ _ Hs E1) as (s2' & -> & ?). by constructor.
  - destruct (run ls s2) as [s2'|] eqn:E2; [|constructor].
    destruct (run_sim_rev _ _ _ _ Hs E2) as (s1' & ? & _). congruence.
Qed.

End bisimulation.

(** ** The journal as the reference implementation *)

Section journal.
Context {R B S : Type} `{!ObserverBuffer R B} `{!StatsReceiver B S}.

#[export] Instance replays_sim : BufferSim (replays (R:=R) (B:=B)) any_summary.
Proof.
  split; unfold replays; [done| |done].
  intros j b r o ->. by rewrite /= replay_snoc.
Qed.

#[export] Instance relayed_sim (k0 : S) : SinkSim (replays (R:=R) (B:=B)) (relayed k0).
Proof.
  split. unfold replays, relayed, sent_to. intros js k j b -> ->.
  by rewrite /= fmap_app fold_left_app.
Qed.

(** Two recording sinks hold related buffers, one by one. *)
#[export] Instance recorded_sim {B1 B2} (rb : B1 → B2 → Prop) : SinkSim rb (Forall2 rb).
Proof. split. intros k1 k2 b1 b2 Hk Hb. apply Forall2_app; [done|by constructor]. Qed.


End journal.

(** ** The counting buffer *)

Section counts.
Context {R : Type}.

(** The counts a recording sink holds add up to the tags of the journals
    they replay. *)
Lemma total_replays (js : list (Journal R)) (sent : list Counts) :
  Forall2 replays js sent →
  total sent = MkCounts (count_tag false (js ≫= entries)) (count_tag true (js ≫= entries)).
Proof.
  unfold total. induction 1 as [|j c js sent Hc _ IH]; [done|].
  injection IH as IH1 IH2. rewrite Hc replay_counts bind_cons !count_tag_app /=.
  by rewrite IH1 IH2.
Qed.

(** C18 (the counts after Stop).  With the counting buffer and a sink that
    records what it is sent: when a serialised execution ends with no
    lifecycle call in progress, the observer not running and both queues
    empty, the counts of the buffers the sink was sent add up to the number
    of pushes to each queue. *)
Theorem counts_after_stop to ri (t0 : Time) (ls : list (Label R))
    (s : Sys R Counts (list Counts)) :
  serial_run ls (initial (B:=Counts) (Some []) to ri t0) = true →
  run ls (initial (Some []) to ri t0) = Some s →
  isRunning (obs s) = false → cs s = ∅ →
  chan_len (targetWriteChan (obs s)) = 0%nat →
  chan_len (targetWriteOversizedChan (obs s)) = 0%nat →
  ∃ sent, statsClient (obs s) = Some sent ∧
          total sent = MkCounts (count_tag false (pushes ls)) (count_tag true (pushes ls)).
Proof.
  intros Hs Hr Hoff Hidle Hq1 Hq2.
  assert (option_Forall2 (Forall2 (replays (R:=R) (B:=Counts))) (Some []) (Some []))
    as Hk0 by (by repeat constructor).
  pose proof (initial_sim (R:=R) (replays (R:=R) (B:=Counts)) _ any_summary
                _ _ to ri t0 Hk0) as H0.
  destruct (run_sim_rev _ _ _ ls _ _ _ H0 Hr) as (sJ & HrJ & Hsim).
  pose proof (serial_run_sim_rev _ _ _ ls _ _ H0 Hs) as HsJ.
  destruct (serial_accounted to ri t0 ls sJ HsJ HrJ) as ([js Hjs] & Hph & Hc).
  destruct Hsim as ((Hk & _ & _ & Hw & Hv & _ & _ & Hrun) & _ & Hcs & _).
  rewrite Hjs in Hk. inv Hk.
  eexists. split; [done|].
  erewrite total_replays by done.
  rewrite !count_tag_class -!Hc idle_drained_accounted; try congruence.
  by rewrite /delivered /delivered_to Hjs.
Qed.

End counts.

Lemma counts_after_stop_witness :
  serial_run sched_drained_stop counts_init = true ∧
  run sched_drained_stop counts_init = Some counts_stopped ∧
  isRunning (obs counts_stopped) = false ∧ cs counts_stopped = ∅ ∧
  chan_len (targetWriteChan (obs counts_stopped)) = 0%nat ∧
  chan_len (targetWriteOversizedChan (obs counts_stopped)) = 0%nat ∧
  ∃ sent, statsClient (obs counts_stopped) = Some sent ∧
          total sent = MkCounts (count_tag false (pushes sched_drained_stop))
                         (count_tag true (pushes sched_drained_stop)).
Proof.
  do 6 (split; [vm_compute; reflexivity|]).
  apply (counts_after_stop (ms 100) (ms 1000) 0 sched_drained_stop counts_stopped);
    vm_compute; reflexivity.
Defined.
