(* ===== verification/Heartbeat.v ===== *)
(** * Heartbeat: the periodic flush happens without any event

    When nothing is pushed the loop wakes up every idle timeout, compares
    the clock with its report time, and flushes at the first wake-up after
    the report time.  [heartbeat] is that schedule for a goroutine about to
    enter its [select]: as many idle rounds as fit before the report time
    plus one, then the flush and the reset.  The schedule is executable from
    every such state, it contains no push, and it delivers the buffer to the
    sink later than the report time and at most one idle timeout after it.
    The number of rounds is computed from the clock, the report time and the
    timeout, so the schedule needs no fuel. *)

From S2P Require Import Prelude GoTime Channel Buffer Observer System Invariants Demo.
From S2P Require Import Conservation.

Section heartbeat.
Context {R B K : Type} `{!ObserverBuffer R B} `{!StatsReceiver B K}.

Implicit Types (s : Sys R B K) (g : Goroutine B) (i n : nat) (d to : Duration).

(** One idle round of goroutine [i]: it enters the [select], the clock
    advances by [d], the timer case is taken, the deadline is checked. *)
Definition idle_round i d : list (Label R) :=
  [Loop i Enter; Tick d; Loop i Timeout; Loop i Check].

Fixpoint idle_rounds i d n : list (Label R) :=
  match n with
  | O => []
  | S n => idle_round i d ++ idle_rounds i d n
  end.

(** How many wake-ups, one idle timeout apart, it takes from clock [t] to
    get past the report time [rt]. *)
Definition rounds_to_deadline (t rt : Time) to : nat :=
  S (Z.to_nat ((rt - t) / to)).

(** The idle rounds up to the first wake-up after the report time, then the
    flush and the reset. *)
Definition heartbeat i (t : Time) g to : list (Label R) :=
  idle_rounds i to (rounds_to_deadline t (reportTime g) to)
  ++ [Loop i FlushReport; Loop i Reset].

(** The goroutine after the check at clock [t]. *)
Definition checked (t : Time) g : Goroutine B :=
  set_pc (if After t (reportTime g) then AtFlush else AtSelectEnter) g.

(** ** One round *)

Lemma idle_round_run s i g d :
  gs s !! i = Some g → pc g = AtSelectEnter → 0 ≤ d → timeout (obs s) ≤ d →
  run (idle_round i d) s =
    Some (MkSys (obs s) (<[i := checked (now s + d) g]> (gs s)) (cs s) (now s + d)
            (logs s ++ [Debugf msg_timeout (timeout (obs s))])).
Proof.
  intros Hi Hpc Hd Hto. pose proof (lookup_lt_Some _ _ _ Hi) as Hlt.
  rewrite /idle_round /= Hi /= /select_enter Hpc /= bool_decide_eq_true_2 //=.
  rewrite list_lookup_insert_eq //= /select_timeout /= /timer_fired
    bool_decide_eq_true_2; [|unfold Add; lia].
  rewrite /= list_lookup_insert_eq ?length_insert //= !list_insert_insert_eq.
  by rewrite !app_nil_r.
Qed.

(** Rounds that end before the report time leave the goroutine where it
    was: only the clock and the log change. *)
Lemma idle_rounds_run n s i g to :
  gs s !! i = Some g → pc g = AtSelectEnter → to = timeout (obs s) → 0 ≤ to →
  n = O ∨ now s + Z.of_nat n * to ≤ reportTime g →
  run (idle_rounds i to n) s =
    Some (MkSys (obs s) (gs s) (cs s) (now s + Z.of_nat n * to)
            (logs s ++ replicate n (Debugf msg_timeout to))).
Proof.
  revert s. induction n as [|n IH]; intros s Hi Hpc Hto Hpos Hn.
  - destruct s. simpl. by rewrite Z.add_0_r app_nil_r.
  - destruct Hn as [|Hn]; [done|].
    cbn [idle_rounds]. rewrite run_app (idle_round_run _ _ g) //; [|lia].
    assert (checked (now s + to) g = g) as ->.
    { assert (After (now s + to) (reportTime g) = false) as HA
        by (apply After_false; lia).
      rewrite /checked HA. destruct g; simpl in *; by subst. }
    rewrite list_insert_id // /=.
    rewrite IH /=; [|done..|right; simpl; lia].
    do 2 f_equal; [lia|by rewrite -Hto -app_assoc].
Qed.

Lemma idle_rounds_snoc i d n :
  idle_rounds i d (Datatypes.S n) = idle_rounds i d n ++ idle_round i d.
Proof.
  induction n as [|n IH]; [done|].
  cbn [idle_rounds] in *. by rewrite {1}IH app_assoc.
Qed.

Lemma pushes_idle_rounds i d n : pushes (idle_rounds i d n) = [].
Proof. induction n as [|n IH]; [done|]. by rewrite /pushes /= in IH |- *. Qed.

(** ** How many rounds *)

(** The rounds before the last end no later than the report time. *)
Lemma rounds_before (t rt : Time) to :
  0 < to →
  Z.to_nat ((rt - t) / to) = O ∨ t + Z.of_nat (Z.to_nat ((rt - t) / to)) * to ≤ rt.
Proof.
  intros Hto. destruct (Z.le_gt_cases 0 ((rt - t) / to)) as [Hq|Hq]; [right|left; lia].
  rewrite Z2Nat.id //. pose proof (Z.mul_div_le (rt - t) to Hto). lia.
Qed.

(** The last round ends after the report time, and at most one timeout
    after it (or after the start, when the report time had passed). *)
Lemma rounds_after (t rt : Time) to :
  0 < to →
  rt < t + Z.of_nat (rounds_to_deadline t rt to) * to ≤ Z.max t rt + to.
Proof.
  intros Hto. unfold rounds_to_deadline. rewrite Nat2Z.inj_succ.
  pose proof (Z.mul_div_le (rt - t) to Hto).
  pose proof (Z.mul_succ_div_gt (rt - t) to Hto).
  destruct (Z.le_gt_cases 0 ((rt - t) / to)) as [Hq|Hq].
  - rewrite Z2Nat.id //. lia.
  - assert (Z.to_nat ((rt - t) / to) = O) as -> by lia.
    assert (rt - t < 0) by (apply Z.nle_gt; intros ?; apply Z.nle_gt in Hq;
                            apply Hq, Z.div_pos; lia).
    lia.
Qed.

(** ** The flush and the reset *)

Lemma flush_reset_run s i g :
  gs s !! i = Some g → pc g = AtFlush →
  run [Loop i FlushReport; Loop i Reset] s =
    Some (MkSys (send_stats (obs s) (buffer g))
            (<[i := MkGoroutine AtSelectEnter (Add (now s) (reportInterval (obs s)))
                      buffer_empty]> (gs s))
            (cs s) (now s) (logs s ++ [Infof (buffer_string (buffer g))])).
Proof.
  intros Hi Hpc. pose proof (lookup_lt_Some _ _ _ Hi) as Hlt.
  destruct (send_stats_frame (obs s) (buffer g)) as (_&_&_&_&_&Hri&_).
  rewrite /= Hi /= /flush_report Hpc /= list_lookup_insert_eq //= /reset_report /=.
  by rewrite list_insert_insert_eq Hri app_nil_r.
Qed.

(** ** Durations that [New] does not refuse *)

(** With an idle timeout of zero the timer of the [select] has fired when
    it is armed: any number of idle rounds fit into one instant, each with
    its line in the log. *)
Lemma zero_timeout_spins n s i g :
  gs s !! i = Some g → pc g = AtSelectEnter → timeout (obs s) = 0 →
  now s ≤ reportTime g →
  run (idle_rounds i 0 n) s =
    Some (MkSys (obs s) (gs s) (cs s) (now s)
            (logs s ++ replicate n (Debugf msg_timeout 0))).
Proof.
  intros Hi Hpc Hto Hnow.
  rewrite (idle_rounds_run n s i g 0) //; [|right; lia].
  by rewrite Z.mul_0_r Z.add_0_r.
Qed.

(** With a negative report interval the report time set by the reset is
    already behind the clock: the next iteration flushes again, whatever it
    received. *)
Lemma negative_interval_flushes s i g d :
  gs s !! i = Some g → pc g = AtReset → reportInterval (obs s) < 0 →
  0 ≤ d → timeout (obs s) ≤ d →
  ∃ s' g', run (Loop i Reset :: idle_round i d) s = Some s' ∧
           gs s' !! i = Some g' ∧ pc g' = AtFlush ∧ buffer g' = buffer_empty.
Proof.
  intros Hi Hpc Hri Hd Hto. pose proof (lookup_lt_Some _ _ _ Hi) as Hlt.
  set (g1 := MkGoroutine AtSelectEnter (Add (now s) (reportInterval (obs s)))
               (buffer_empty (B:=B))).
  assert (step (Loop i Reset) s =
          Some (MkSys (obs s) (<[i:=g1]> (gs s)) (cs s) (now s) (logs s ++ []))) as Hs
    by (by rewrite /= Hi /= /reset_report Hpc).
  cbn [run]. rewrite Hs. cbn [mbind option_bind].
  rewrite (idle_round_run _ i g1) //; [|by apply list_lookup_insert_eq].
  eexists _, _. split; [done|]. cbn [gs].
  rewrite list_lookup_insert_eq ?length_insert // /checked /=.
  assert (After (now s + d) (Add (now s) (reportInterval (obs s))) = true) as ->
    by (apply After_spec; unfold Add; lia).
  done.
Qed.

(** ** The heartbeat *)

Lemma pushes_heartbeat i (t : Time) g to : pushes (heartbeat i t g to) = [].
Proof. by rewrite /heartbeat /pushes bind_app -/(pushes (idle_rounds _ _ _)) pushes_idle_rounds. Qed.

(** The state after the heartbeat: the buffer has been sent, the goroutine
    is at the entry of its [select] with an empty buffer, the clock [t'] is
    past the report time by at most one idle timeout, and the log has a
    line for each of the [n] wake-ups and then the summary. *)
Lemma heartbeat_run s i g :
  gs s !! i = Some g → pc g = AtSelectEnter → 0 < timeout (obs s) →
  ∃ t' n,
    run (heartbeat i (now s) g (timeout (obs s))) s =
      Some (MkSys (send_stats (obs s) (buffer g))
              (<[i := MkGoroutine AtSelectEnter (Add t' (reportInterval (obs s)))
                        buffer_empty]> (gs s))
              (cs s) t'
              (logs s ++ replicate n (Debugf msg_timeout (timeout (obs s))) ++
                 [Infof (buffer_string (buffer g))])) ∧
    reportTime g < t' ≤ Z.max (now s) (reportTime g) + timeout (obs s).
Proof.
  intros Hi Hpc Hto. pose proof (lookup_lt_Some _ _ _ Hi) as Hlt.
  pose proof (rounds_after (now s) (reportTime g) _ Hto) as Hafter.
  pose proof (rounds_before (now s) (reportTime g) _ Hto) as Hbefore.
  unfold heartbeat, rounds_to_deadline in *.
  set (n := Z.to_nat _) in *. set (to := timeout (obs s)) in *.
  rewrite Nat2Z.inj_succ in Hafter.
  rewrite idle_rounds_snoc -app_assoc run_app (idle_rounds_run n s i g to) //; [|lia].
  cbn [mbind option_bind]. rewrite run_app (idle_round_run _ i g to) //; [|simpl; lia..].
  assert (After (now s + Z.of_nat n * to + to) (reportTime g) = true) as HA
    by (apply After_spec; lia).
  cbn [mbind option_bind now gs obs]. rewrite /checked HA.
  rewrite (flush_reset_run _ i (set_pc AtFlush g)) /=; [|by rewrite list_lookup_insert_eq|done].
  rewrite list_insert_insert_eq -!app_assoc. exists (now s + Z.of_nat n * to + to), (S n).
  split; [|lia]. by rewrite (replicate_S_end n) -!app_assoc.
Qed.

(** C7 (heartbeat).  From every state in which a goroutine is about to
    enter its [select], with a positive idle timeout, the heartbeat schedule
    is executable; it pushes nothing; it sends the goroutine's buffer to the
    sink (when there is one) at a clock later than the report time and at
    most one idle timeout after it; and it leaves the goroutine at the entry
    of its [select] with an empty buffer and a report time one report
    interval after the flush. *)
Theorem heartbeat_flush s i g :
  gs s !! i = Some g → pc g = AtSelectEnter → 0 < timeout (obs s) →
  ∃ s', run (heartbeat i (now s) g (timeout (obs s))) s = Some s' ∧
        pushes (heartbeat i (now s) g (timeout (obs s))) = [] ∧
        statsClient (obs s') = (λ k, Send k (buffer g)) <$> statsClient (obs s) ∧
        gs s' !! i = Some (MkGoroutine AtSelectEnter
                             (Add (now s') (reportInterval (obs s))) buffer_empty) ∧
        reportTime g < now s' ≤ Z.max (now s) (reportTime g) + timeout (obs s).
Proof.
  intros Hi Hpc Hto. pose proof (lookup_lt_Some _ _ _ Hi) as Hlt.
  destruct (heartbeat_run s i g Hi Hpc Hto) as (t' & n & -> & Ht').
  eexists. split; [done|]. cbn [obs gs now].
  rewrite pushes_heartbeat send_stats_statsClient list_lookup_insert_eq //.
Qed.

End heartbeat.

(** ** Witness: eleven rounds of 100ms reach the first flush at 1100ms *)

Lemma heartbeat_flush_witness :
  gs demo_spawned !! 0%nat = Some fresh_loop ∧ pc fresh_loop = AtSelectEnter ∧
  0 < timeout (obs demo_spawned) ∧
  ∃ s', run (heartbeat 0 (now demo_spawned) fresh_loop (timeout (obs demo_spawned)))
          demo_spawned = Some s' ∧
        pushes (heartbeat (R:=nat) 0 (now demo_spawned) fresh_loop
                  (timeout (obs demo_spawned))) = [] ∧
        statsClient (obs s') =
          (λ k, Send k (buffer fresh_loop)) <$> statsClient (obs demo_spawned) ∧
        gs s' !! 0%nat =
          Some (MkGoroutine AtSelectEnter
                  (Add (now s') (reportInterval (obs demo_spawned))) buffer_empty) ∧
        reportTime fresh_loop < now s'
          ≤ Z.max (now demo_spawned) (reportTime fresh_loop) + timeout (obs demo_spawned).
Proof.
  split; [vm_compute; reflexivity|]. split; [done|]. split; [done|].
  apply (heartbeat_flush demo_spawned 0 fresh_loop); vm_compute; reflexivity.
Defined.
