(* ===== verification/Alias.v ===== *)
(** * Alias: the sink is passed the address of the loop's buffer

    [o.statsClient.Send(&buffer)] (lines 69 and 85) passes the address of
    the goroutine's local variable, which [buffer.Append] (lines 75 and 77)
    mutates and the assignment of line 89 overwrites in place.  The variable
    of the goroutine launched [a]-th is the cell [a] of the store; its
    content in a state is the [buffer] field of that goroutine ([deref]).
    [sent] is the address a step passes to [Send], [passed] the addresses a
    schedule passes.  The sinks of the other files copy the buffer during the
    call, which is what passing the value states.  A sink that keeps the
    pointer reads the cell later: after the reset that follows the flush it
    reads the empty buffer, and after the next merge the result that was
    merged after the flush. *)

From S2P Require Import Prelude GoTime Channel Buffer Observer System Invariants Demo.
From S2P Require Import Queues Conservation Heartbeat.

Section alias.
Context {R B K : Type} `{!ObserverBuffer R B} `{!StatsReceiver B K}.

Implicit Types (s : Sys R B K) (l : Label R) (ls : list (Label R)) (g : Goroutine B).
Implicit Types (a : nat) (e : Entry R) (k : K).

(** The content of the variable [buffer] of the goroutine launched [a]-th
    (line 58). *)
Definition deref s a : option B := buffer <$> gs s !! a.

(** The address a step passes to [Send] (lines 69 and 85): the acting
    goroutine's variable, when there is a sink. *)
Definition sent l s : option nat :=
  match l, statsClient (obs s) with
  | Loop a FlushReport, Some _ | Loop a ExitFlush, Some _ => Some a
  | _, _ => None
  end.

(** The addresses a schedule passes to the sink, oldest first. *)
Fixpoint passed ls s : list nat :=
  match ls with
  | [] => []
  | l :: ls =>
      match step l s with
      | Some s' => option_list (sent l s) ++ passed ls s'
      | None => []
      end
  end.

(** What a sink that kept the pointers [ps] reads in a state. *)
Definition reads s (ps : list nat) : list B := omap (deref s) ps.

(** From the flush of goroutine [a]: the reset, the next [select], a push
    and its receive. *)
Definition late_merge a e : list (Label R) :=
  [Loop a FlushReport; Loop a Reset; Loop a Enter; push e; Loop a (recv e.2)].

(** ** The addresses passed *)

Lemma passed_app ls ls' s s' :
  run ls s = Some s' → passed (ls ++ ls') s = passed ls s ++ passed ls' s'.
Proof.
  revert s. induction ls as [|l ls IH]; intros s Hr; simpl in *; [by simplify_eq|].
  destruct (step l s) as [s1|]; [|done]. by rewrite (IH s1) // app_assoc.
Qed.

(** The goroutine table only grows, and a step replaces goroutines in
    place. *)
Lemma step_gs_length l s s' : step l s = Some s' → (length (gs s) ≤ length (gs s'))%nat.
Proof.
  intros H. inv_step H; rewrite ?length_insert //=. rewrite length_snoc. lia.
Qed.

Lemma run_gs_length ls s s' : run ls s = Some s' → (length (gs s) ≤ length (gs s'))%nat.
Proof.
  revert s. induction ls as [|l ls IH]; intros s Hr; simpl in *; [by simplify_eq|].
  destruct (step l s) as [s1|] eqn:E; [|done].
  pose proof (step_gs_length _ _ _ E). pose proof (IH _ Hr). lia.
Qed.

(** A step passes the address of a goroutine that exists. *)
Lemma sent_valid l s s' a : step l s = Some s' → sent l s = Some a → (a < length (gs s))%nat.
Proof.
  unfold sent. intros H Hs.
  destruct l as [| | | | | |i []| |]; try done; destruct (statsClient (obs s)); try done;
    simplify_eq; simpl in H; apply bind_Some_inv in H as (g & Hg & _);
    by eapply lookup_lt_Some.
Qed.

(** Every pointer the sink was passed points to a cell of the store. *)
Lemma passed_valid ls s s' :
  run ls s = Some s' → Forall (λ a, is_Some (deref s' a)) (passed ls s).
Proof.
  revert s. induction ls as [|l ls IH]; intros s Hr; simpl in *; [constructor|].
  destruct (step l s) as [s1|] eqn:E; [|done]. apply Forall_app. split; [|by eauto].
  destruct (sent l s) as [a|] eqn:Hs; [|constructor]. repeat constructor.
  pose proof (sent_valid _ _ _ _ E Hs). pose proof (step_gs_length _ _ _ E).
  pose proof (run_gs_length _ _ _ Hr). unfold deref.
  destruct (lookup_lt_is_Some_2 (gs s') a) as [g ->]; [lia|by eexists].
Qed.

(** A sink that kept its pointers can read every one of them. *)
Lemma reads_length ls s s' :
  run ls s = Some s' → length (reads s' (passed ls s)) = length (passed ls s).
Proof.
  intros Hr. pose proof (passed_valid _ _ _ Hr) as Hv. unfold reads.
  induction Hv as [|a ps [b Hb] _ IH]; [done|]. by rewrite /= Hb /= IH.
Qed.

(** Only the two flushes pass an address. *)
Lemma passed_quiet ls s : Forall (λ l, ∀ s, sent l s = None) ls → passed ls s = [].
Proof.
  intros Hq. revert s. induction Hq as [|l ls Hl _ IH]; intros s; simpl; [done|].
  destruct (step l s); [|done]. by rewrite Hl IH.
Qed.

Lemma passed_flush a ls s s1 :
  step (Loop a FlushReport) s = Some s1 → is_Some (statsClient (obs s)) →
  passed (Loop a FlushReport :: ls) s = a :: passed ls s1.
Proof. intros Hs [k Hk]. cbn [passed]. by rewrite Hs /sent Hk. Qed.

Lemma sent_push e s : sent (push e) s = None.
Proof. by destruct e as [r []]. Qed.

Lemma sent_recv a t s : sent (Loop a (recv t)) s = None.
Proof. by destruct t. Qed.


(** Entering the [select]. *)
Lemma enter_run s a g :
  gs s !! a = Some g → pc g = AtSelectEnter →
  run [Loop a Enter] s =
    Some (MkSys (obs s) (<[a := set_pc (AtSelect (Add (now s) (timeout (obs s)))) g]> (gs s))
            (cs s) (now s) (logs s)).
Proof. intros Hi Hpc. by rewrite /= Hi /= /select_enter Hpc /= app_nil_r. Qed.

(** The receive of the result just pushed into an empty queue. *)
Lemma push_recv_run s a g timer e :
  gs s !! a = Some g → pc g = AtSelect timer →
  chan_buf (queue e.2 (obs s)) = [] → (0 < chan_cap (queue e.2 (obs s)))%nat →
  run [push e; Loop a (recv e.2)] s =
    Some (MkSys (obs s)
            (<[a := MkGoroutine AtCheck (reportTime g) (Append (buffer g) e.1 e.2)]> (gs s))
            (cs s) (now s) (logs s)).
Proof.
  intros Hi Hpc Hemp Hcap. cbn [run]. rewrite step_push.
  assert (chan_send (queue e.2 (obs s)) e.1 =
          Some (Chan (chan_cap (queue e.2 (obs s))) [e.1])) as ->.
  { apply chan_send_Some. by rewrite /chan_len Hemp. }
  rewrite /= Hi /= (act_recv _ _ _ _ timer e.1 (queue e.2 (obs s))) ?queue_set_queue //=.
  - by rewrite set_queue_set_queue set_queue_id app_nil_r.
  - apply chan_recv_Some. by rewrite Hemp.
Qed.

(** ** The claim *)

(** C31 (the pointer outlives the report).  From every state in which a
    goroutine is about to flush to a sink, with an empty queue that has room:
    the flush, the reset, the next [select], a push and its receive are
    executable; one address is passed to [Send], that of the goroutine's
    variable; a sink that reads the buffer during the call has been sent the
    buffer as it was at the flush; and the variable behind the pointer then
    holds the result that was merged after the flush and nothing of the
    report. *)
Theorem pointer_outlives_report s a g k e :
  gs s !! a = Some g → pc g = AtFlush → statsClient (obs s) = Some k →
  chan_buf (queue e.2 (obs s)) = [] → (0 < chan_cap (queue e.2 (obs s)))%nat →
  ∃ s', run (late_merge a e) s = Some s' ∧
        passed (late_merge a e) s = [a] ∧
        statsClient (obs s') = Some (Send k (buffer g)) ∧
        reads s' [a] = [Append buffer_empty e.1 e.2].
Proof.
  intros Hi Hpc Hk Hemp Hcap. pose proof (lookup_lt_Some _ _ _ Hi) as Hlt.
  change (late_merge a e) with
    ([Loop a FlushReport; Loop a Reset] ++ [Loop a Enter] ++ [push e; Loop a (recv e.2)]).
  rewrite run_app (flush_reset_run s a g) //. cbn [mbind option_bind].
  rewrite run_app. erewrite enter_run; [|by apply list_lookup_insert_eq|done].
  cbn [mbind option_bind].
  erewrite (push_recv_run _ a); cbn [obs gs]; rewrite ?queue_send_stats //;
    [|by apply list_lookup_insert_eq; rewrite length_insert|done].
  eexists. split; [done|]. split_and!.
  - assert (is_Some (step (Loop a FlushReport) s)) as [s1 Hs1]
      by (rewrite /= Hi /= /flush_report Hpc /=; by eexists).
    rewrite (passed_flush a _ s s1) //. f_equal. apply passed_quiet.
    repeat constructor; intros ?; [done..|apply sent_push|apply sent_recv].
  - by rewrite /= /send_stats Hk.
  - rewrite /reads /deref. cbn [omap list_omap gs].
    by rewrite list_lookup_insert_eq ?length_insert.
Qed.

End alias.

Section recorded.
Context {R B : Type} `{!ObserverBuffer R B}.

Implicit Types (s : Sys R B (list B)) (l : Label R) (ls : list (Label R)).

(** With the recording sink a step passes an address exactly when it adds
    a buffer to the record. *)
Lemma step_recorded l s s' bs :
  step l s = Some s' → statsClient (obs s) = Some bs →
  ∃ bs', statsClient (obs s') = Some bs' ∧
         length bs' = (length bs + length (option_list (sent l s)))%nat.
Proof.
  intros H Hs. unfold sent. inv_step H; try (exists bs; split; [done|lia]).
  - unfold Start_spawn in *. simplify_eq. exists bs. split; [done|lia].
  - match goal with H : TargetWrite _ _ = Some _ |- _ =>
      apply TargetWrite_frame in H as (? & _ & ->) end. exists bs. split; [done|lia].
  - match goal with H : TargetWriteOversized _ _ = Some _ |- _ =>
      apply TargetWriteOversized_frame in H as (? & _ & ->) end.
    exists bs. split; [done|lia].
  - rewrite Hs. match goal with H : act _ _ _ _ = Some _ |- _ => inv_act H end;
      rewrite /= /send_stats ?Hs /=; eexists; (split; [done|]);
      rewrite ?length_snoc /=; lia.
Qed.

(** The record of the sink that copies and the pointers of the sink that
    does not have the same length: one entry for each call of [Send]. *)
Lemma recorded_passed to ri (t0 : Time) ls s :
  run ls (initial (Some []) to ri t0) = Some s →
  ∃ bs, statsClient (obs s) = Some bs ∧
        length bs = length (passed ls (initial (B:=B) (Some []) to ri t0)).
Proof.
  revert ls s. apply run_ind; [by exists []|].
  intros ls' s l s' Hr (bs & Hs & Hlen) Hstep.
  destruct (step_recorded _ _ _ _ Hstep Hs) as (bs' & Hs' & Hlen').
  exists bs'. split; [done|].
  rewrite (passed_app _ _ _ _ Hr) length_app /= Hstep app_nil_r. lia.
Qed.

End recorded.

(** ** Witness: the report of the demo and the result pushed after it *)

Lemma pointer_outlives_report_witness :
  ∃ s', run (late_merge 0 (8%nat, false)) demo_late = Some s' ∧
        passed (late_merge 0 (8%nat, false)) demo_late = [0%nat] ∧
        statsClient (obs s') = Some [MkJournal [(7%nat, false)]] ∧
        reads s' [0%nat] = [MkJournal [(8%nat, false)]].
Proof.
  exact (pointer_outlives_report demo_late 0
           (MkGoroutine AtFlush (ms 1000) (MkJournal [(7%nat, false)])) [] (8%nat, false)
           ltac:(vm_compute; reflexivity) eq_refl eq_refl eq_refl ltac:(vm_compute; lia)).
Defined.
