(* ===== verification/Spec.v ===== *)
(** * Spec: the aggregator as an abstract machine

    What the observer promises, without goroutines, program points, clients
    or a clock: two bounded queues, the entries accumulated since the last
    flush, the list of buffers delivered to the sink, and the running flag.
    Every operation is atomic; the shutdown is one operation, the final
    flush together with the end of the loop.  [Refinement] shows that the
    serialised executions of the code are executions of this machine, so the
    invariants proved here are invariants of the code; [Complete] shows that
    every execution of the machine is one of the code. *)

From S2P Require Import Prelude Buffer.

Section spec.
Context {R : Type}.

Record AState : Type := MkA {
  a_running : bool;
  a_queue : list R;
  a_oversized : list R;
  a_buffer : list (Entry R);
  a_sent : list (list (Entry R));
}.

Inductive AOp : Type :=
| ARecordWrite (r : R)            (* a producer enqueues a normal result *)
| ARecordOversizedWrite (r : R)   (* a producer enqueues an oversized result *)
| AMerge                          (* the loop merges the head of the normal queue *)
| AMergeOversized                 (* the loop merges the head of the oversized queue *)
| AFlush                          (* the buffer is delivered and reset *)
| AStart                          (* the loop is launched *)
| AStop.                          (* shutdown: the final flush, not running *)

(** The capacity of each queue. *)
Definition a_capacity : nat := 1000.

Definition a_initial : AState := MkA false [] [] [] [].

Definition astep (op : AOp) (a : AState) : option AState :=
  match op with
  | ARecordWrite r =>
      if bool_decide (length (a_queue a) < a_capacity)%nat
      then Some (MkA (a_running a) (a_queue a ++ [r]) (a_oversized a) (a_buffer a) (a_sent a))
      else None
  | ARecordOversizedWrite r =>
      if bool_decide (length (a_oversized a) < a_capacity)%nat
      then Some (MkA (a_running a) (a_queue a) (a_oversized a ++ [r]) (a_buffer a) (a_sent a))
      else None
  | AMerge =>
      match a_running a, a_queue a with
      | true, r :: q =>
          Some (MkA true q (a_oversized a) (a_buffer a ++ [(r, false)]) (a_sent a))
      | _, _ => None
      end
  | AMergeOversized =>
      match a_running a, a_oversized a with
      | true, r :: q =>
          Some (MkA true (a_queue a) q (a_buffer a ++ [(r, true)]) (a_sent a))
      | _, _ => None
      end
  | AFlush =>
      if a_running a
      then Some (MkA true (a_queue a) (a_oversized a) [] (a_sent a ++ [a_buffer a]))
      else None
  | AStart =>
      if a_running a then None
      else Some (MkA true (a_queue a) (a_oversized a) (a_buffer a) (a_sent a))
  | AStop =>
      if a_running a
      then Some (MkA false (a_queue a) (a_oversized a) [] (a_sent a ++ [a_buffer a]))
      else None
  end.

(** Executing a list of operations. *)
Fixpoint arun (ops : list AOp) (a : AState) : option AState :=
  match ops with
  | [] => Some a
  | op :: ops => a' ← astep op a; arun ops a'
  end.

(** What an operation enqueues. *)
Definition a_pushed (op : AOp) : list (Entry R) :=
  match op with
  | ARecordWrite r => [(r, false)]
  | ARecordOversizedWrite r => [(r, true)]
  | _ => []
  end.

(** Every entry the machine holds: delivered, accumulated, queued. *)
Definition a_entries (a : AState) : list (Entry R) :=
  concat (a_sent a) ++ a_buffer a ++
  ((λ r, (r, false)) <$> a_queue a) ++ ((λ r, (r, true)) <$> a_oversized a).

(** The invariant of the machine: the queues are within their capacity, and
    when the loop is not running nothing is accumulated. *)
Definition a_inv (a : AState) : Prop :=
  (length (a_queue a) ≤ a_capacity)%nat ∧
  (length (a_oversized a) ≤ a_capacity)%nat ∧
  (a_running a = false → a_buffer a = []).

(** ** The machine keeps its invariant and its entries *)

Lemma a_inv_initial : a_inv a_initial.
Proof. unfold a_inv, a_capacity. simpl. split_and!; [lia..|done]. Qed.

Lemma astep_inv op a a' : a_inv a → astep op a = Some a' → a_inv a'.
Proof.
  unfold a_inv. intros (Hq & Ho & Hb) H.
  destruct op; simpl in H; inv_enabled H; simpl in *;
    repeat match goal with
    | H : a_queue a = _ |- _ => rewrite H /= in Hq
    | H : a_oversized a = _ |- _ => rewrite H /= in Ho
    end;
    rewrite ?length_app /=; split_and!; try done; try lia; auto.
Qed.

(** An operation adds what it enqueues and moves the rest around. *)
Lemma astep_entries op a a' :
  astep op a = Some a' → a_entries a' ≡ₚ a_entries a ++ a_pushed op.
Proof.
  unfold a_entries. intros H.
  destruct op; simpl in H; inv_enabled H; simpl;
    repeat match goal with H : _ = _ :: _ |- _ => rewrite H; clear H end;
    rewrite ?fmap_app ?fmap_cons ?concat_app /= ?app_nil_r; solve_Permutation.
Qed.

Lemma arun_app ops ops' a : arun (ops ++ ops') a = arun ops a ≫= arun ops'.
Proof.
  revert a. induction ops as [|op ops IH]; intros a; simpl; [done|].
  destruct (astep op a); simpl; [apply IH|done].
Qed.

Lemma arun_inv ops a a' : a_inv a → arun ops a = Some a' → a_inv a'.
Proof.
  revert a. induction ops as [|op ops IH]; intros a Ha H; simpl in H; [by simplify_eq|].
  apply bind_Some_inv in H as (a1 & H1 & H2). eauto using astep_inv.
Qed.

(** What the machine holds is what was enqueued, each entry once. *)
Lemma arun_entries ops a a' :
  arun ops a = Some a' → a_entries a' ≡ₚ a_entries a ++ (ops ≫= a_pushed).
Proof.
  revert a. induction ops as [|op ops IH]; intros a H; simpl in H.
  - simplify_eq. by rewrite app_nil_r.
  - apply bind_Some_inv in H as (a1 & H1 & H2).
    rewrite (IH _ H2) (astep_entries _ _ _ H1) bind_cons. solve_Permutation.
Qed.

End spec.

Arguments AState : clear implicits.
Arguments AOp : clear implicits.
