(* ===== verification/Refinement.v ===== *)
(** * Refinement: the code implements the abstract machine

    [abs] reads the abstract state of [Spec] off a state of the system with
    the journal buffer and the recording sink: the flag, the contents of the
    two queues, the entries of the loop's buffer that were not sent, and the
    buffers the sink holds.  The machine stops running with the final flush
    and the code clears [isRunning] one statement later, so the flag of the
    abstract state is [isRunning] unless a goroutine is between the two
    ([exited]).  [op_of] names the abstract operation a label implements:
    the two pushes, the two receives of the [select], the periodic flush,
    the launch of the goroutine, and the final flush, which is the shutdown
    of the machine; every other label, the clearing of [isRunning] included,
    is internal.  In a serialised execution every step is that operation of
    the machine on the abstract states (or leaves the abstract state alone),
    so a schedule of the code is a run of the machine ([run_refines], from
    any state that satisfies the invariants; [refinement], from [New]). *)

From S2P Require Import Prelude GoTime Channel Buffer Observer System Invariants Demo.
From S2P Require Import Conservation Spec.

Section refinement.
Context {R : Type}.

Abbreviation JObserver := (Observer R (list (Journal R))).
Abbreviation JGoroutine := (Goroutine (Journal R)).
Abbreviation JSys := (Sys R (Journal R) (list (Journal R))).

Implicit Types (s : JSys) (o : JObserver) (g : JGoroutine) (l : Label R).
Implicit Types (ls : list (Label R)) (a : Action).

(** The goroutine has done its final flush and has not cleared [isRunning]
    yet (between lines 70 and 72). *)
Definition flushed_out g : bool := bool_decide (pc g = AtExitClear).

Definition exited (gl : list JGoroutine) : bool := existsb flushed_out gl.

(** The abstract state of a struct whose loop has the entries [p] not yet
    sent and has done its final flush or not ([x]).  The machine stops
    running with the final flush; the code clears [isRunning] one statement
    later. *)
Definition abs_of o (x : bool) (p : list (Entry R)) : AState R :=
  MkA (isRunning o && negb x)
    (chan_buf (targetWriteChan o)) (chan_buf (targetWriteOversizedChan o))
    p (entries <$> default [] (statsClient o)).

Definition abs s : AState R := abs_of (obs s) (exited (gs s)) (pending s).

(** The abstract operation an action of the goroutine implements. *)
Definition op_of_action a : option (AOp R) :=
  match a with
  | RecvWrite => Some AMerge
  | RecvOversized => Some AMergeOversized
  | FlushReport => Some AFlush
  | ExitFlush => Some AStop
  | Init | Enter | Timeout | Check | Reset | ExitClear => None
  end.

(** The abstract operation a label implements. *)
Definition op_of l : option (AOp R) :=
  match l with
  | CallTargetWrite r => Some (ARecordWrite r)
  | CallTargetWriteOversized r => Some (ARecordOversizedWrite r)
  | StartSpawn _ => Some AStart
  | Loop _ a => op_of_action a
  | Tick _ | CallStart _ | CallStop _ | SelectExit _ _ | StopDone _ _ => None
  end.

(** One operation of the machine, or none. *)
Definition astep_opt (op : option (AOp R)) (st : AState R) : option (AState R) :=
  match op with Some op => astep op st | None => Some st end.

(** The operations a schedule implements, in order. *)
Definition ops_of ls : list (AOp R) := omap op_of ls.

(** ** Actions of the goroutine *)

(** While [isRunning] is set, every action of the goroutine is its abstract
    operation on what the struct and the goroutine stand for. *)
Lemma act_refines a now o g o' g' lg :
  act a now o g = Some (o', g', lg) →
  is_Some (statsClient o) → isRunning o = true →
  astep_opt (op_of_action a) (abs_of o (flushed_out g) (pending_of g)) =
    Some (abs_of o' (flushed_out g') (pending_of g')).
Proof.
  intros H [k Hk] Hrun.
  inv_act H; rewrite /abs_of /pending_of /flushed_out /send_stats /=;
    repeat match goal with
    | H : pc g = _ |- _ => rewrite H; clear H
    | H : chan_recv _ = Some _ |- _ => apply chan_recv_Some in H as [-> _]
    end;
    rewrite ?Hk ?Hrun /= ?fmap_app //.
  by destruct (After _ _).
Qed.

(** In a phase, a live goroutine is the only one that can stand between
    its final flush and the clearing of [isRunning]. *)
Lemma exited_returned (past : list JGoroutine) : returned past → exited past = false.
Proof.
  induction 1 as [|g past Hg _ IH]; [done|]. by rewrite /= IH /flushed_out Hg.
Qed.

Lemma exited_live_last run (gl : list JGoroutine) cl i g g' :
  phase run gl cl → gl !! i = Some g → live (pc g) = true →
  exited gl = flushed_out g ∧ exited (<[i:=g']> gl) = flushed_out g'.
Proof.
  intros Hph Hi Hl.
  phase_cases Hph; acting_is_last Hi Hl;
    by rewrite /exited !existsb_app /= !orb_false_r -/(exited past) exited_returned.
Qed.

(** An action is enabled only while [isRunning] is set. *)
Lemma phase_act_running run (gl : list JGoroutine) cl i g a now o o' g' lg :
  phase run gl cl → gl !! i = Some g → act a now o g = Some (o', g', lg) → run = true.
Proof.
  intros Hph Hi Ha. pose proof (act_live _ _ _ _ _ _ _ Ha) as Hl.
  phase_cases Hph; try done;
    try (by rewrite (returned_lookup _ _ _ Hret Hi) in Hl).
  destruct (live_is_last _ _ _ _ Hret Hi Hl) as [-> ->].
  destruct (act_exit _ _ _ _ _ _ _ Ha) as [(_&?&_)|(_&?&_)]; [by rewrite Hpc|congruence..].
Qed.

(** A caller is between the test and the launch only while [isRunning] is
    clear. *)
Lemma phase_starting_off run (gl : list JGoroutine) cl c :
  phase run gl cl → cl !! c = Some InStartSet → run = false.
Proof. intros Hph Hc. by phase_cases Hph; client_is Hc. Qed.

Lemma phase_starting_returned run (gl : list JGoroutine) cl c :
  phase run gl cl → cl !! c = Some InStartSet → returned gl.
Proof. intros Hph Hc. by phase_cases Hph; client_is Hc. Qed.

(** ** Steps of the system *)

(** Every serialised step from a state with a sink is the abstract
    operation of its label. *)
Lemma step_refines s l s' :
  has_sink s → phase_inv s → observer_wf (obs s) →
  step l s = Some s' → astep_opt (op_of l) (abs s) = Some (abs s').
Proof.
  intros Hk Hph (Hc1 & Hc2 & _) H. unfold has_sink, phase_inv, abs, pending in *.
  inv_step H; try done.
  - unfold Start_spawn in *. simplify_eq.
    match goal with H : _ !! _ = Some InStartSet |- _ =>
      rewrite (phase_starting_off _ _ _ _ Hph H);
      rewrite /exited existsb_app -/(exited (gs s))
        (exited_returned _ (phase_starting_returned _ _ _ _ Hph H)) end.
    by rewrite bind_app /= app_nil_r /abs_of /=.
  - match goal with H : TargetWrite _ _ = Some _ |- _ =>
      apply TargetWrite_frame in H as (c & [Hlt ->]%chan_send_Some & ->) end.
    rewrite /abs_of /= bool_decide_eq_true_2 //. unfold chan_len, a_capacity in *. lia.
  - match goal with H : TargetWriteOversized _ _ = Some _ |- _ =>
      apply TargetWriteOversized_frame in H as (c & [Hlt ->]%chan_send_Some & ->) end.
    rewrite /abs_of /= bool_decide_eq_true_2 //. unfold chan_len, a_capacity in *. lia.
  - match goal with Hi : gs s !! _ = Some _, Ha : act _ _ _ _ = Some (_, ?g', _) |- _ =>
      destruct (pending_live_last _ _ _ _ _ g' Hph Hi (act_live _ _ _ _ _ _ _ Ha))
        as [-> ->];
      destruct (exited_live_last _ _ _ _ _ g' Hph Hi (act_live _ _ _ _ _ _ _ Ha))
        as [-> ->];
      apply (act_refines _ _ _ _ _ _ _ Ha Hk), (phase_act_running _ _ _ _ _ _ _ _ _ _ _ Hph Hi Ha)
    end.
  - match goal with Hi : gs s !! _ = Some _, He : select_exit _ = Some ?g' |- _ =>
      destruct (pending_live_last _ _ _ _ _ g' Hph Hi (sync_live _ _ (or_introl He)))
        as [-> ->];
      destruct (exited_live_last _ _ _ _ _ g' Hph Hi (sync_live _ _ (or_introl He)))
        as [-> ->];
      rewrite (select_exit_pending _ _ He); inv_sync He; unfold flushed_out; simpl;
      by match goal with Hp : pc _ = _ |- _ => rewrite Hp end end.
  - match goal with Hi : gs s !! _ = Some _, He : stop_done _ = Some ?g' |- _ =>
      destruct (pending_live_last _ _ _ _ _ g' Hph Hi (sync_live _ _ (or_intror He)))
        as [-> ->];
      destruct (exited_live_last _ _ _ _ _ g' Hph Hi (sync_live _ _ (or_intror He)))
        as [-> ->];
      rewrite (stop_done_pending _ _ He); inv_sync He; unfold flushed_out; simpl;
      by match goal with Hp : pc _ = _ |- _ => rewrite Hp end end.
Qed.


Lemma ops_of_snoc ls l : ops_of (ls ++ [l]) = ops_of ls ++ option_list (op_of l).
Proof. rewrite /ops_of omap_app /=. by destruct (op_of l). Qed.

Lemma arun_option_list (op : option (AOp R)) st :
  arun (option_list op) st = astep_opt op st.
Proof. destruct op; simpl; [|done]. by destruct (astep _ _). Qed.

Lemma ops_of_app ls ls' : ops_of (ls ++ ls') = ops_of ls ++ ops_of ls'.
Proof. apply omap_app. Qed.

(** What [step_refines] needs of a state, and that serialised steps keep
    it. *)
Definition refines_inv s : Prop := has_sink s ∧ phase_inv s ∧ observer_wf (obs s).

Lemma refines_inv_step s l s' :
  refines_inv s → serial l s = true → step l s = Some s' → refines_inv s'.
Proof.
  intros (Hk & Hph & Hwf) Hl H. split_and!.
  - by eapply has_sink_inductive.
  - by eapply phase_inv_serial_inductive.
  - by destruct (config_inv_inductive (timeout (obs s)) (reportInterval (obs s)) (now s)
                   s l s') as (? & _); [split_and!|..].
Qed.

(** A serialised schedule from any state that has a sink and is in a phase
    is a run of the machine from the abstract state of that state. *)
Lemma run_refines ls s s' :
  refines_inv s → serial_run ls s = true → run ls s = Some s' →
  arun (ops_of ls) (abs s) = Some (abs s') ∧ refines_inv s'.
Proof.
  revert s. induction ls as [|l ls IH]; intros s Hinv Hs Hr; simpl in *.
  - by simplify_eq.
  - apply andb_true_iff in Hs as [Hl Hs].
    destruct (step l s) as [s1|] eqn:E; [|done].
    pose proof (refines_inv_step _ _ _ Hinv Hl E) as Hinv1.
    destruct Hinv as (Hk & Hph & Hwf).
    pose proof (step_refines _ _ _ Hk Hph Hwf E) as Ha.
    destruct (IH _ Hinv1 Hs Hr) as [IHa ?]. split; [|done].
    rewrite /ops_of /= -/(ops_of ls). destruct (op_of l) as [op|]; simpl in Ha |- *.
    + rewrite Ha. exact IHa.
    + apply (inj Some) in Ha. rewrite Ha. exact IHa.
Qed.

(** C5 (refinement).  A serialised execution of the code from [New] with
    a sink is a run of the abstract machine from its initial state: the
    operations are the ones the labels of the schedule implement, in the same
    order, and the state the machine ends in is the abstract state of the
    state the code ends in.  In particular the invariant of the machine
    holds of every state the code reaches. *)
Theorem refinement to ri (t0 : Time) ls s :
  serial_run ls (initial (B:=Journal R) (Some []) to ri t0) = true →
  run ls (initial (Some []) to ri t0) = Some s →
  arun (ops_of ls) a_initial = Some (abs s) ∧ a_inv (abs s).
Proof.
  intros Hs Hr.
  enough (arun (ops_of ls) a_initial = Some (abs s)) as Ha
    by eauto using arun_inv, a_inv_initial.
  revert ls s Hs Hr.
  apply (serial_run_ind (λ ls s, arun (ops_of ls) a_initial = Some (abs s))); [done|].
  intros ls s l s' Hs Hr IH Hl Hstep.
  destruct (serial_accounted _ _ _ _ _ Hs Hr) as (Hk & Hph & _).
  destruct (Reachable_config_inv _ _ _ _ _ (proj2 (Reachable_run _ _) (ex_intro _ ls Hr)))
    as (Hwf & _).
  rewrite ops_of_snoc arun_app IH /= arun_option_list. by apply step_refines.
Qed.

End refinement.

(** ** Witness on the concrete system of [Demo] *)

Lemma refinement_witness :
  serial_run sched_drained_stop demo_init = true ∧
  run sched_drained_stop demo_init = Some demo_stopped ∧
  arun (ops_of sched_drained_stop) a_initial = Some (abs demo_stopped) ∧
  a_inv (abs demo_stopped).
Proof.
  split; [vm_compute; reflexivity|]. split; [vm_compute; reflexivity|].
  apply (refinement (ms 100) (ms 1000) 0 sched_drained_stop demo_stopped);
    vm_compute; reflexivity.
Defined.
