(* ===== verification/Lifecycle.v ===== *)
(** * Lifecycle: what [Start] and [Stop] promise

    [Start] is idempotent and [Stop] is a no-op when nothing runs; with
    serialised callers the six phases of [Invariants.phase] are all there
    is, so at most one aggregation loop is alive; a [Stop] that has passed
    its test of [isRunning] completes in at most eight steps of the
    goroutine without the clock advancing, and its final flush hands the
    buffer to the sink as it is.  The schedules that complete a [Stop] are
    definitions ([to_select], [shutdown], [stop_schedule]), so they can be
    executed on concrete states. *)

From S2P Require Import Prelude GoTime Channel Buffer Observer System Invariants Demo.

Section lifecycle.
Context {R B S : Type} `{!ObserverBuffer R B} `{!StatsReceiver B S}.

Implicit Types (s : Sys R B S) (l : Label R) (o : Observer R S) (g : Goroutine B).
Implicit Types (sc : option S) (to ri : Duration) (t : Time).
Implicit Types (past : list (Goroutine B)).

(** The actions [todo], in order, by one goroutine at clock [t]. *)
Fixpoint acts (todo : list Action) t o g : option (Effect R B S) :=
  match todo with
  | [] => Some (o, g, [])
  | a :: rest =>
      '(o1, g1, lg1) ← act a t o g;
      '(o2, g2, lg2) ← acts rest t o1 g1;
      Some (o2, g2, lg1 ++ lg2)
  end.

(** The actions that bring a goroutine inside the loop back to its
    [select]; [late] says whether the clock has passed the report time. *)
Definition to_select (p : PC) (late : bool) : list Action :=
  match p with
  | AtInit => [Init; Enter]
  | AtSelectEnter => [Enter]
  | AtCheck => if late then [Check; FlushReport; Reset; Enter] else [Check; Enter]
  | AtFlush => [FlushReport; Reset; Enter]
  | AtReset => [Reset; Enter]
  | _ => []
  end.

(** The shutdown handshake of goroutine [i] with client [c]: the rendezvous
    on [exitSignal], the final flush, the clearing of [isRunning], the
    rendezvous on [stopDone]. *)
Definition shutdown (i c : nat) : list (Label R) :=
  [SelectExit i c; Loop i ExitFlush; Loop i ExitClear; StopDone i c].

(** A schedule that completes the [Stop] of client [c] when goroutine [i]
    is the live one. *)
Definition stop_schedule (i c : nat) t g : list (Label R) :=
  map (Loop i) (to_select (pc g) (After t (reportTime g))) ++ shutdown i c.

(** A label that does not begin a lifecycle call. *)
Definition no_calls (l : Label R) : bool :=
  match l with CallStart _ | CallStop _ => false | _ => true end.

(** The call that finds nothing to do: [Start] when the flag is set (the
    branch of lines 50-53), [Stop] when it is clear (the test of line 98
    fails). *)
Definition redundant (running : bool) (c : nat) : Label R :=
  if running then CallStart c else CallStop c.

(** What the calls of [redundant] log, one entry per call. *)
Definition redundant_log (running : bool) (callers : list nat) : list LogEntry :=
  if running then (λ _, Warn msg_already_running) <$> callers else [].

(** ** Schedules of the last goroutine *)

(** A schedule without lifecycle calls is serialised. *)
Lemma serial_run_no_calls ls s s' :
  forallb no_calls ls = true → run ls s = Some s' → serial_run ls s = true.
Proof.
  revert s. induction ls as [|l ls IH]; intros s Hn Hr; [done|].
  simpl in *. apply andb_true_iff in Hn as [Hl Hn].
  destruct (step l s) as [s1|] eqn:E; [|done].
  rewrite (IH _ Hn Hr) andb_true_r. by destruct l.
Qed.

(** A schedule whose only lifecycle call is its first label, from a state
    in which no call is in progress, is serialised. *)
Lemma serial_run_call_first ls s s' :
  cs s = ∅ → forallb no_calls (tail ls) = true → run ls s = Some s' →
  serial_run ls s = true.
Proof.
  destruct ls as [|l ls]; [done|]. intros Hcs Hn Hr. simpl in *.
  destruct (step l s) as [s1|] eqn:E; [|done].
  rewrite (serial_run_no_calls _ _ _ Hn Hr) andb_true_r.
  destruct l; try done; by apply bool_decide_eq_true_2.
Qed.

Lemma step_Loop_last s past g a o' g' lg :
  gs s = past ++ [g] → act a (now s) (obs s) g = Some (o', g', lg) →
  step (Loop (length past) a) s =
    Some (MkSys o' (past ++ [g']) (cs s) (now s) (logs s ++ lg)).
Proof.
  intros Hgs Ha. by rewrite /= Hgs lookup_snoc_new /= Ha /= insert_snoc_last.
Qed.

Lemma run_acts_last todo s past g o' g' lg :
  gs s = past ++ [g] → acts todo (now s) (obs s) g = Some (o', g', lg) →
  run (map (Loop (length past)) todo) s =
    Some (MkSys o' (past ++ [g']) (cs s) (now s) (logs s ++ lg)).
Proof.
  revert s g lg. induction todo as [|a todo IH]; intros s g lg Hgs H; simpl in H.
  - simplify_eq. rewrite app_nil_r -Hgs. by destruct s.
  - inv_enabled H.
    match goal with
    | Ha : act _ _ _ _ = Some (?o1, ?g1, ?lg1),
      Hr : acts _ _ ?o1 ?g1 = Some (_, _, ?lg2) |- _ =>
        cbn [map run]; rewrite (step_Loop_last _ _ _ _ _ _ _ Hgs Ha) /=
          (IH (MkSys o1 (past ++ [g1]) (cs s) (now s) (logs s ++ lg1)) g1 lg2 eq_refl Hr)
          /= app_assoc //
    end.
Qed.

(** From anywhere inside the loop the goroutine reaches its [select]
    without waiting, and [isRunning] is untouched on the way. *)
Lemma to_select_acts t o g :
  in_loop (pc g) = true →
  ∃ o' g' lg timer,
    acts (to_select (pc g) (After t (reportTime g))) t o g = Some (o', g', lg) ∧
    pc g' = AtSelect timer ∧ isRunning o' = isRunning o ∧
    timeout o' = timeout o ∧ reportInterval o' = reportInterval o.
Proof.
  intros Hin. destruct g as [p rt b]. simpl in *.
  destruct (send_stats_frame o b) as (_&_&_&_&?&?&?).
  destruct p; try done; destruct (After t rt) eqn:E;
    cbn -[After send_stats Add]; rewrite ?E; cbn -[After send_stats Add];
    by eexists _, _, _, _.
Qed.

(** The shutdown handshake from the [select]: the final flush sends the
    buffer as it is, [isRunning] is cleared, the goroutine returns and the
    client leaves [Stop]. *)
Lemma shutdown_run s past g c timer :
  gs s = past ++ [g] → pc g = AtSelect timer → cs s = {[c := InStopSend]} →
  run (shutdown (length past) c) s =
    Some (MkSys (set_isRunning false (send_stats (obs s) (buffer g)))
            (past ++ [MkGoroutine AtReturn (reportTime g) (buffer g)]) ∅ (now s)
            (logs s ++ [Warn msg_exit; Infof (buffer_string (buffer g))])).
Proof.
  intros Hgs Hpc Hcs. unfold shutdown.
  rewrite /= Hgs lookup_snoc_new /= /select_exit Hpc /= Hcs lookup_singleton_eq /=.
  rewrite insert_snoc_last lookup_snoc_new /= /exit_flush /= insert_snoc_last.
  rewrite lookup_snoc_new /= /exit_clear /= insert_snoc_last lookup_snoc_new /=.
  rewrite /stop_done /= insert_singleton_eq lookup_singleton_eq /= insert_snoc_last.
  rewrite delete_singleton_eq app_nil_r //.
Qed.

(** The same for any goroutine that waits in its [select] and any client
    blocked on [exitSignal], whoever else is alive or inside a call. *)
Lemma shutdown_run_any s i g c timer :
  gs s !! i = Some g → pc g = AtSelect timer → cs s !! c = Some InStopSend →
  run (shutdown i c) s =
    Some (MkSys (set_isRunning false (send_stats (obs s) (buffer g)))
            (<[i := MkGoroutine AtReturn (reportTime g) (buffer g)]> (gs s))
            (delete c (cs s)) (now s)
            (logs s ++ [Warn msg_exit; Infof (buffer_string (buffer g))])).
Proof.
  intros Hi Hpc Hc. pose proof (lookup_lt_Some _ _ _ Hi) as Hlt. unfold shutdown.
  rewrite /= Hi /= /select_exit Hpc /= Hc /= list_lookup_insert_eq //=.
  rewrite /exit_flush /= list_lookup_insert_eq ?length_insert //= /exit_clear /=.
  rewrite list_lookup_insert_eq ?length_insert //= /stop_done /= lookup_insert_eq /=.
  by rewrite !list_insert_insert_eq delete_insert_eq app_nil_r.
Qed.

(** The whole stop schedule from a state in the stopping phase. *)
Lemma stop_schedule_run s past g c :
  gs s = past ++ [g] → in_loop (pc g) = true → cs s = {[c := InStopSend]} →
  ∃ o' g' lg,
    acts (to_select (pc g) (After (now s) (reportTime g))) (now s) (obs s) g
      = Some (o', g', lg) ∧
    run (stop_schedule (length past) c (now s) g) s =
      Some (MkSys (set_isRunning false (send_stats o' (buffer g')))
              (past ++ [MkGoroutine AtReturn (reportTime g') (buffer g')]) ∅ (now s)
              ((logs s ++ lg) ++ [Warn msg_exit; Infof (buffer_string (buffer g'))])).
Proof.
  intros Hgs Hin Hcs.
  destruct (to_select_acts (now s) (obs s) g Hin) as (o' & g' & lg & timer & Ha & Hpc & _).
  exists o', g', lg. split; [done|].
  rewrite /stop_schedule run_app (run_acts_last _ _ _ _ _ _ _ Hgs Ha).
  exact (shutdown_run (MkSys _ _ _ _ _) _ _ _ _ eq_refl Hpc Hcs).
Qed.

Lemma stop_schedule_length i c t g : (length (stop_schedule i c t g) ≤ 8)%nat.
Proof.
  rewrite /stop_schedule length_app length_map /=.
  destruct (pc g), (After t (reportTime g)); simpl; lia.
Qed.

Lemma stop_schedule_no_calls i c t g : forallb no_calls (stop_schedule i c t g) = true.
Proof.
  rewrite /stop_schedule forallb_app.
  by destruct (pc g), (After t (reportTime g)).
Qed.

(** ** The theorems *)

(** C2 (lifecycle phases).  In every state that [New] followed by any
    serialised schedule can reach, the flag [isRunning], the goroutines and
    the caller are in one of the six phases: idle, starting, running,
    stopping, exiting, signalling.  In particular [isRunning] is set exactly
    from the launch of the goroutine to line 72, and every goroutine but the
    last has returned. *)
Theorem lifecycle_phases sc to ri t0 s :
  SReachable (initial sc to ri t0) s → phase_inv s.
Proof. apply SReachable_phase_inv. Qed.

(** C3 (Stop completes).  When a client has passed the test of [Stop] and
    is blocked on [exitSignal], a schedule of at most eight steps of the
    goroutine, with no clock tick and no other call, makes [Stop] return:
    no client is inside a call, [isRunning] is clear and every goroutine has
    returned. *)
Theorem stop_completes sc to ri t0 s c :
  SReachable (initial sc to ri t0) s → cs s !! c = Some InStopSend →
  ∃ ls s', (length ls ≤ 8)%nat ∧ serial_run ls s = true ∧ run ls s = Some s' ∧
           cs s' = ∅ ∧ isRunning (obs s') = false ∧ returned (gs s') ∧ now s' = now s.
Proof.
  intros Hr%SReachable_phase_inv Hc.
  destruct (phase_stopping_inv _ _ _ _ Hr Hc) as (past & g & Hgs & Hret & Hin & Hcs).
  destruct (stop_schedule_run s past g c Hgs Hin Hcs) as (o' & g' & lg & _ & Hrun).
  eexists _, _. split_and!; [apply stop_schedule_length| |exact Hrun|..]; simpl; try done.
  - eapply serial_run_no_calls; [apply stop_schedule_no_calls|exact Hrun].
  - by apply returned_snoc.
Qed.

(** C4 (final flush).  When the goroutine waits in its [select] and a
    client is blocked in [Stop], the shutdown handshake runs to its end:
    the sink, when there is one, is sent the buffer exactly as accumulated
    (empty or not) once, the log gets the warning and the summary,
    [isRunning] is cleared, the client leaves [Stop], every goroutine has
    returned, and the two queues are left as they were. *)
Theorem stop_final_flush sc to ri t0 s c i g timer :
  SReachable (initial sc to ri t0) s →
  cs s !! c = Some InStopSend → gs s !! i = Some g → pc g = AtSelect timer →
  ∃ s', run (shutdown i c) s = Some s' ∧
        statsClient (obs s') = (λ k, Send k (buffer g)) <$> statsClient (obs s) ∧
        logs s' = logs s ++ [Warn msg_exit; Infof (buffer_string (buffer g))] ∧
        isRunning (obs s') = false ∧ cs s' = ∅ ∧ returned (gs s') ∧
        targetWriteChan (obs s') = targetWriteChan (obs s) ∧
        targetWriteOversizedChan (obs s') = targetWriteOversizedChan (obs s).
Proof.
  intros Hr%SReachable_phase_inv Hc Hi Hpc.
  destruct (phase_stopping_inv _ _ _ _ Hr Hc) as (past & g0 & Hgs & Hret & _ & Hcs).
  rewrite Hgs in Hi.
  destruct (live_is_last _ _ _ _ Hret Hi) as [-> ->]; [by rewrite Hpc|].
  eexists. split; [by eapply shutdown_run|]. simpl.
  destruct (send_stats_frame (obs s) (buffer g0)) as (_&_&->&->&_).
  rewrite send_stats_statsClient. split_and!; try done.
  apply returned_snoc; done.
Qed.

(** C8 (one loop).  With serialised callers at most one goroutine launched
    by [Start] is alive at any time: two table entries that have not
    returned are the same entry. *)
Theorem at_most_one_live_loop sc to ri t0 s i j g g' :
  SReachable (initial sc to ri t0) s →
  gs s !! i = Some g → gs s !! j = Some g' →
  live (pc g) = true → live (pc g') = true → i = j.
Proof. intros Hr%SReachable_phase_inv. exact (phase_one_live _ _ _ _ _ _ _ Hr). Qed.

(** [Start] on a running observer changes nothing but the log, which gets
    the warning, and the call returns at once: no goroutine is launched and
    the client is not left inside the call. *)
Lemma Start_idempotent s c :
  isRunning (obs s) = true → cs s !! c = None →
  step (CallStart c) s =
    Some (MkSys (obs s) (gs s) (cs s) (now s) (logs s ++ [Warn msg_already_running])).
Proof. intros Hr Hc. by rewrite /= Hc /Start_check Hr. Qed.

(** [Stop] on an observer that is not running returns at once and leaves
    the whole state as it was. *)
Lemma Stop_noop s c :
  isRunning (obs s) = false → cs s !! c = None → step (CallStop c) s = Some s.
Proof. intros Hr Hc. rewrite /= Hc /Stop_check Hr /=. by destruct s. Qed.

Lemma redundant_step s c :
  cs s = ∅ →
  step (redundant (isRunning (obs s)) c) s =
    Some (MkSys (obs s) (gs s) ∅ (now s)
            (logs s ++ redundant_log (isRunning (obs s)) [c])).
Proof.
  intros Hcs. unfold redundant, redundant_log.
  destruct (isRunning (obs s)) eqn:Hr.
  - by rewrite Start_idempotent ?Hcs.
  - rewrite Stop_noop ?Hcs // app_nil_r. destruct s; simpl in *. by subst.
Qed.

(** C26 (calls that find nothing to do).  Any number of calls of [Start]
    on a running observer, and any number of calls of [Stop] on one that is
    not running, by any callers one after the other, form a serialised
    execution that changes nothing but the log: no goroutine is launched,
    no flag changes, no caller is left inside a call, nothing is sent on a
    channel; each redundant [Start] logs the warning once and a redundant
    [Stop] logs nothing. *)
Theorem redundant_calls s (callers : list nat) :
  cs s = ∅ →
  run (redundant (isRunning (obs s)) <$> callers) s =
    Some (MkSys (obs s) (gs s) ∅ (now s)
            (logs s ++ redundant_log (isRunning (obs s)) callers)) ∧
  serial_run (redundant (isRunning (obs s)) <$> callers) s = true.
Proof.
  revert s. induction callers as [|c callers IH]; intros s Hcs.
  - split; [|done]. rewrite /redundant_log /=.
    destruct s, (isRunning _); simpl in *; subst; by rewrite ?app_nil_r.
  - rewrite fmap_cons. cbn [run serial_run]. rewrite redundant_step //.
    cbn [mbind option_bind]. destruct (IH (MkSys (obs s) (gs s) ∅ (now s)
      (logs s ++ redundant_log (isRunning (obs s)) [c])) eq_refl) as [Hrun Hser].
    simpl in Hrun, Hser. rewrite Hrun Hser. split.
    + rewrite /redundant_log. by destruct (isRunning _); rewrite ?fmap_cons -?app_assoc.
    + apply andb_true_intro. split; [|done].
      by destruct (isRunning _); apply bool_decide_eq_true_2.
Qed.

End lifecycle.

(** ** Witnesses on the concrete system of [Demo] *)

Lemma lifecycle_phases_witness :
  SReachable demo_init demo_stopping ∧ phase_inv demo_stopping.
Proof.
  split; [apply demo_stopping_reachable|].
  apply (lifecycle_phases (Some []) (ms 100) (ms 1000) 0), demo_stopping_reachable.
Defined.

Lemma stop_completes_witness :
  SReachable demo_init demo_stopping ∧ cs demo_stopping !! 0%nat = Some InStopSend ∧
  ∃ ls s', (length ls ≤ 8)%nat ∧ serial_run ls demo_stopping = true ∧
           run ls demo_stopping = Some s' ∧ cs s' = ∅ ∧ isRunning (obs s') = false ∧
           returned (gs s') ∧ now s' = now demo_stopping.
Proof.
  split; [apply demo_stopping_reachable|]. split; [vm_compute; reflexivity|].
  apply (stop_completes (Some []) (ms 100) (ms 1000) 0 demo_stopping 0);
    [apply demo_stopping_reachable|vm_compute; reflexivity].
Defined.

Lemma stop_final_flush_witness :
  SReachable demo_init demo_stopping ∧ cs demo_stopping !! 0%nat = Some InStopSend ∧
  ∃ s', run (shutdown 0 0) demo_stopping = Some s' ∧
        statsClient (obs s') = Some [MkJournal []] ∧
        chan_buf (targetWriteChan (obs s')) = [7%nat].
Proof.
  split; [apply demo_stopping_reachable|]. split; [vm_compute; reflexivity|].
  destruct (stop_final_flush (Some []) (ms 100) (ms 1000) 0 demo_stopping 0 0
              (MkGoroutine (AtSelect (ms 100)) (ms 1000) (MkJournal [])) (ms 100))
    as (s' & Hrun & Hsink & _ & _ & _ & _ & Hq & _);
    [apply demo_stopping_reachable|vm_compute; reflexivity..|].
  exists s'. rewrite Hsink Hq. split; [exact Hrun|]. split; vm_compute; reflexivity.
Defined.

Lemma at_most_one_live_loop_witness :
  SReachable demo_init demo_running ∧
  gs demo_running !! 0%nat = Some (MkGoroutine (AtSelect (ms 100)) (ms 1000) (MkJournal [])) ∧
  0%nat = 0%nat.
Proof.
  split; [apply demo_running_reachable|]. split; [vm_compute; reflexivity|].
  apply (at_most_one_live_loop (Some []) (ms 100) (ms 1000) 0 demo_running 0 0
           (MkGoroutine (AtSelect (ms 100)) (ms 1000) (MkJournal []))
           (MkGoroutine (AtSelect (ms 100)) (ms 1000) (MkJournal [])));
    [apply demo_running_reachable|vm_compute; reflexivity..].
Defined.

Lemma redundant_calls_witness :
  cs demo_running = ∅ ∧
  run [CallStart 0; CallStart 1; CallStart 0] demo_running =
    Some (MkSys (obs demo_running) (gs demo_running) ∅ (now demo_running)
            (logs demo_running ++ [Warn msg_already_running; Warn msg_already_running;
                                   Warn msg_already_running])) ∧
  serial_run [CallStart 0; CallStart 1; CallStart 0] demo_running = true.
Proof.
  split; [reflexivity|].
  exact (redundant_calls demo_running [0; 1; 0]%nat eq_refl).
Defined.
