(* ===== verification/Progress.v ===== *)
(** * Progress: nothing is stuck when lifecycle calls are serialised

    A goroutine inside the loop can always take a step, at the latest when
    its idle timer has fired.  A lifecycle call that has begun returns:
    [finish_call] computes, from the state, the steps of the caller and of the
    goroutine that are left, at most eight, and they are executable without a
    clock tick and without another call.  [Start] run without interruption is
    the method [Start] of [Observer]. *)

From S2P Require Import Prelude GoTime Channel Buffer Observer System Invariants Demo.
From S2P Require Import Lifecycle.

Section progress.
Context {R B K : Type} `{!ObserverBuffer R B} `{!StatsReceiver B K}.

Implicit Types (s : Sys R B K) (l : Label R) (o : Observer R K) (g : Goroutine B).
Implicit Types (i c : nat) (past : list (Goroutine B)).

(** The steps of client [c] calling [Start] on the struct [o]. *)
Definition Start_labels c o : list (Label R) :=
  CallStart c :: if isRunning o then [] else [StartSpawn c].

(** The action a goroutine inside the loop takes next. *)
Definition next_action (p : PC) : Action :=
  match p with
  | AtInit => Init
  | AtSelectEnter => Enter
  | AtSelect _ => Timeout
  | AtCheck => Check
  | AtFlush => FlushReport
  | AtReset => Reset
  | AtExitFlush => ExitFlush
  | _ => ExitClear
  end.

(** How long a goroutine inside the loop has to wait for it. *)
Definition wait_for (p : PC) (t : Time) : Duration :=
  match p with AtSelect timer => Z.max 0 (timer - t) | _ => 0 end.

(** What is left of the exit path of goroutine [i], whose caller is [c]. *)
Definition exit_path i c (p : PC) : list (Label R) :=
  match p with
  | AtExitFlush => [Loop i ExitFlush; Loop i ExitClear; StopDone i c]
  | AtExitClear => [Loop i ExitClear; StopDone i c]
  | AtStopDone => [StopDone i c]
  | _ => []
  end.

(** The steps that let the lifecycle call in progress return. *)
Definition finish_call s : list (Label R) :=
  let i := pred (length (gs s)) in
  match map_to_list (cs s), gs s !! i with
  | [(c, InStartSet)], _ => [StartSpawn c]
  | [(c, InStopSend)], Some g => stop_schedule i c (now s) g
  | [(c, InStopWait)], Some g => exit_path i c (pc g)
  | _, _ => []
  end.

(** ** The exit path *)

Lemma exit_path_run s past g c :
  gs s = past ++ [g] → cs s = {[c := InStopWait]} →
  pc g = AtExitFlush ∨ pc g = AtExitClear ∨ pc g = AtStopDone →
  ∃ s', run (exit_path (length past) c (pc g)) s = Some s' ∧
        cs s' = ∅ ∧ now s' = now s ∧ gs s' = past ++ [set_pc AtReturn g].
Proof.
  intros Hgs Hcs Hpc. destruct s as [o gl cl t lg]. simpl in *. subst gl cl.
  destruct Hpc as [Hpc|[Hpc|Hpc]]; rewrite Hpc /=;
    rewrite ?lookup_snoc_new /= ?/exit_flush ?/exit_clear ?/stop_done ?Hpc /=
      ?insert_snoc_last ?lookup_snoc_new /= ?insert_snoc_last ?lookup_snoc_new /=
      ?lookup_singleton_eq /= ?insert_snoc_last ?delete_singleton_eq;
    by eexists.
Qed.

Lemma exit_path_length i c p : (length (exit_path i c p) ≤ 8)%nat.
Proof. destruct p; simpl; lia. Qed.

Lemma exit_path_no_calls i c p : forallb no_calls (exit_path i c p) = true.
Proof. by destruct p. Qed.

(** ** [Start] as one method *)

(** The steps of a [Start] call, run without interruption by a client that
    is not inside a call, do what the method does: when the observer is
    running they log the warning, and otherwise they set [isRunning] and add
    the new goroutine to the table; the client is outside the call
    afterwards. *)
Lemma Start_labels_run s c :
  cs s !! c = None →
  run (Start_labels c (obs s)) s =
    Some (MkSys (Start (B:=B) (obs s)).1.1 (gs s ++ option_list (Start (obs s)).1.2)
            (cs s) (now s) (logs s ++ (Start (B:=B) (obs s)).2)).
Proof.
  intros Hc. rewrite /Start_labels /Start /Start_check /= Hc /Start_check.
  destruct (isRunning (obs s)) eqn:Hgo; simpl.
  - by rewrite app_nil_r.
  - by rewrite lookup_insert_eq /= delete_insert_eq ?delete_id // !app_nil_r.
Qed.

(** ** Progress *)


(** C13 (lifecycle calls return).  In every state reachable with
    serialised lifecycle calls, the call in progress, if there is one, can
    return: the steps computed by [finish_call] are executable, they are at
    most eight, none of them begins another call and none is a clock tick,
    and after them no client is inside a call. *)
Theorem lifecycle_calls_return sc to ri t0 s :
  SReachable (initial sc to ri t0) s →
  ∃ s', run (finish_call s) s = Some s' ∧ cs s' = ∅ ∧ now s' = now s ∧
        (length (finish_call s) ≤ 8)%nat ∧ forallb no_calls (finish_call s) = true.
Proof.
  intros Hph%SReachable_phase_inv. unfold phase_inv, finish_call in *.
  destruct s as [o gl cl t lg]. simpl in *.
  phase_cases Hph;
    rewrite ?map_to_list_empty ?map_to_list_singleton ?length_snoc /=
      ?lookup_snoc_new.
  - eexists. split_and!; [done..|simpl; lia|done].
  - rewrite lookup_singleton_eq /= delete_singleton_eq.
    eexists. split_and!; [done..|simpl; lia|done].
  - eexists. split_and!; [done..|simpl; lia|done].
  - destruct (stop_schedule_run (MkSys o (past ++ [g0]) {[c0 := InStopSend]} t lg)
                past g0 c0 eq_refl Hpc eq_refl) as (o' & g' & lg' & _ & Hgo).
    simpl in Hgo. rewrite Hgo. eexists.
    split_and!; [done..|apply stop_schedule_length|apply stop_schedule_no_calls].
  - destruct (exit_path_run (MkSys o (past ++ [g0]) {[c0 := InStopWait]} t lg)
                past g0 c0 eq_refl eq_refl) as (s' & Hgo & ? & ? & _); [tauto|].
    exists s'. split_and!; [done..|apply exit_path_length|apply exit_path_no_calls].
  - destruct (exit_path_run (MkSys o (past ++ [g0]) {[c0 := InStopWait]} t lg)
                past g0 c0 eq_refl eq_refl) as (s' & Hgo & ? & ? & _); [tauto|].
    exists s'. split_and!; [done..|apply exit_path_length|apply exit_path_no_calls].
Qed.

End progress.

(** ** Witnesses on the concrete system of [Demo] *)


Lemma lifecycle_calls_return_witness :
  SReachable demo_init demo_stopping ∧
  ∃ s', run (finish_call demo_stopping) demo_stopping = Some s' ∧
        cs s' = ∅ ∧ now s' = now demo_stopping ∧
        (length (finish_call demo_stopping) ≤ 8)%nat ∧
        forallb no_calls (finish_call demo_stopping) = true.
Proof.
  split; [apply demo_stopping_reachable|].
  apply (lifecycle_calls_return (Some []) (ms 100) (ms 1000) 0 demo_stopping),
    demo_stopping_reachable.
Defined.
