(* ===== verification/Complete.v ===== *)
(** * Complete: the machine does nothing the code cannot do

    [Refinement] shows that the serialised executions of the code are runs
    of the abstract machine of [Spec].  This file shows the converse: every
    run of the machine is the image of a serialised execution of the code.
    [impl] computes, from a state of the code, the schedule that performs one
    operation of the machine: a push is one step, a merge one iteration of
    the loop through a data case, a flush the idle wake-up after the report
    time followed by the flush and the reset, a start the [Start] call and
    the initialisation of the new goroutine, a stop the [Stop] call with its
    handshake.  Between operations the code is in a [shape]: no call in
    progress, and either no loop, or one loop at the entry of its [select]
    before its deadline.  The report interval must not be negative, or the
    loop would flush in every iteration ([Heartbeat.negative_interval_flushes])
    and the merges of the machine could not be followed. *)

From S2P Require Import Prelude GoTime Channel Buffer Observer System Invariants Demo.
From S2P Require Import Queues Backpressure Conservation Roundtrip Heartbeat.
From S2P Require Import Spec Refinement Lifecycle Progress.

Section complete.
Context {R : Type}.

Abbreviation JGoroutine := (Goroutine (Journal R)).
Abbreviation JSys := (Sys R (Journal R) (list (Journal R))).

Implicit Types (s : JSys) (g : JGoroutine) (l : Label R) (ls : list (Label R)).
Implicit Types (op : AOp R) (ops : list (AOp R)) (a : AState R) (r : R) (t : bool).
Implicit Types (past : list JGoroutine).

(** The goroutine launched last. *)
Definition last_loop s : nat := pred (length (gs s)).

(** How long the clock has to run before the timer of the [select] fires
    later than the report time. *)
Definition flush_wait s : Duration :=
  Z.max (Z.max 0 (timeout (obs s)))
    (from_option (λ g, reportTime g - now s + 1) 0 (gs s !! last_loop s)).

(** The schedule that performs one operation of the machine. *)
Definition impl op s : list (Label R) :=
  match op with
  | ARecordWrite r => [push (r, false)]
  | ARecordOversizedWrite r => [push (r, true)]
  | AMerge => merge_round (last_loop s) false
  | AMergeOversized => merge_round (last_loop s) true
  | AFlush =>
      idle_round (last_loop s) (flush_wait s) ++
      [Loop (last_loop s) FlushReport; Loop (last_loop s) Reset]
  | AStart => Start_labels 0 (obs s) ++ [Loop (length (gs s)) Init]
  | AStop => [CallStop 0; Loop (last_loop s) Enter] ++ shutdown (last_loop s) 0
  end.

(** The schedule that performs a list of operations, one after the other. *)
Fixpoint impl_all ops s : list (Label R) :=
  match ops with
  | [] => []
  | op :: ops => impl op s ++ from_option (impl_all ops) [] (run (impl op s) s)
  end.

(** The states of the code between two operations of the machine. *)
Inductive shape s : Prop :=
| Shape_idle :
    cs s = ∅ → isRunning (obs s) = false → returned (gs s) → shape s
| Shape_running past g :
    cs s = ∅ → isRunning (obs s) = true → gs s = past ++ [g] → returned past →
    pc g = AtSelectEnter → now s ≤ reportTime g → shape s.

(** ** Shapes *)

Lemma shape_phase s : shape s → phase_inv s.
Proof.
  intros [Hcs Hrun Hret|past g Hcs Hrun Hgs Hret Hpc _]; unfold phase_inv.
  - by apply Ph_idle.
  - eapply Ph_running; eauto. by rewrite Hpc.
Qed.

(** In a shape the machine runs exactly when [isRunning] is set. *)
Lemma shape_running s : shape s → a_running (abs s) = isRunning (obs s).
Proof.
  intros [Hcs Hrun Hret|past g Hcs Hrun Hgs Hret Hpc _]; rewrite /abs /abs_of /=.
  - by rewrite exited_returned // andb_true_r.
  - by rewrite Hgs /exited existsb_app -/(exited past) exited_returned //=
      /flushed_out Hpc /= andb_true_r.
Qed.

Lemma shape_last s past g : gs s = past ++ [g] → last_loop s = length past.
Proof. intros Hgs. by rewrite /last_loop Hgs length_snoc. Qed.

(** ** One operation at a time *)

Lemma record_step s r t :
  observer_wf (obs s) → shape s → (length (chan_buf (queue t (obs s))) < a_capacity)%nat →
  ∃ s', run [push (r, t)] s = Some s' ∧ shape s' ∧
        reportInterval (obs s') = reportInterval (obs s).
Proof.
  intros Hwf Hsh Hlen. destruct (observer_wf_queue t _ Hwf) as [Hcap _].
  cbn [run]. rewrite step_push /=.
  assert (is_Some (chan_send (queue t (obs s)) r)) as [c ->].
  { destruct (chan_send (queue t (obs s)) r) eqn:E; [by eexists|].
    apply chan_send_None in E. unfold chan_len, a_capacity in *. lia. }
  eexists. split; [done|]. split; [|by destruct t].
  destruct Hsh as [Hcs Hrun Hret|past g Hcs Hrun Hgs Hret Hpc Hnow].
  - apply Shape_idle; by destruct t.
  - eapply Shape_running; eauto; by destruct t.
Qed.

Lemma merge_step s t r q :
  shape s → isRunning (obs s) = true → chan_buf (queue t (obs s)) = r :: q →
  ∃ s', run (merge_round (last_loop s) t) s = Some s' ∧ shape s' ∧
        reportInterval (obs s') = reportInterval (obs s).
Proof.
  intros [Hcs Hrun Hret|past g Hcs Hrun Hgs Hret Hpc Hnow] Hgo Hq; [congruence|].
  rewrite (shape_last _ _ _ Hgs).
  rewrite (merge_round_run s (length past) g t r (Chan (chan_cap (queue t (obs s))) q));
    [|by rewrite Hgs lookup_snoc_new|done..|by rewrite /chan_recv Hq].
  eexists. split; [done|]. split; [|by destruct t].
  eapply Shape_running; [done|by destruct t|simpl; by rewrite Hgs insert_snoc_last|done..].
Qed.

Lemma flush_step s :
  shape s → isRunning (obs s) = true → 0 ≤ reportInterval (obs s) →
  ∃ s', run (impl AFlush s) s = Some s' ∧ shape s' ∧
        reportInterval (obs s') = reportInterval (obs s).
Proof.
  intros [Hcs Hrun Hret|past g Hcs Hrun Hgs Hret Hpc Hnow] Hgo Hri; [congruence|].
  assert (gs s !! length past = Some g) as Hi by (by rewrite Hgs lookup_snoc_new).
  assert (reportTime g < now s + flush_wait s ∧ 0 ≤ flush_wait s ∧
          timeout (obs s) ≤ flush_wait s) as (Hlate & Hpos & Hto)
    by (rewrite /flush_wait (shape_last _ _ _ Hgs) Hi /=; lia).
  destruct (send_stats_frame (obs s) (buffer g)) as (_&_&_&_&_&Hri'&Hrun').
  rewrite /impl (shape_last _ _ _ Hgs) run_app (idle_round_run _ _ g) //.
  cbn [mbind option_bind]. rewrite /checked (proj2 (After_spec _ _) Hlate).
  erewrite flush_reset_run; [|by apply list_lookup_insert_eq, lookup_lt_Some with g|done].
  eexists. split; [done|]. split; [|done].
  eapply (Shape_running _ past); cbn [obs gs cs now logs set_pc buffer pc reportTime];
    [done|by rewrite Hrun'|by rewrite list_insert_insert_eq Hgs insert_snoc_last|done..|].
  unfold Add; simpl; lia.
Qed.

Lemma start_step s :
  shape s → isRunning (obs s) = false → 0 ≤ reportInterval (obs s) →
  ∃ s', run (impl AStart s) s = Some s' ∧ shape s' ∧
        reportInterval (obs s') = reportInterval (obs s).
Proof.
  intros [Hcs Hrun Hret|past g Hcs Hrun Hgs Hret Hpc Hnow] Hgo Hri; [|congruence].
  rewrite /impl run_app Start_labels_run; [|by rewrite Hcs].
  rewrite /Start /Start_check Hrun /=.
  rewrite lookup_snoc_new /= /loop_init /= insert_snoc_last.
  eexists. split; [done|]. split; [|done].
  eapply (Shape_running _ (gs s)); [done..|unfold Add; simpl; lia].
Qed.

Lemma stop_step s :
  shape s → isRunning (obs s) = true →
  ∃ s', run (impl AStop s) s = Some s' ∧ shape s' ∧
        reportInterval (obs s') = reportInterval (obs s).
Proof.
  intros [Hcs Hrun Hret|past g Hcs Hrun Hgs Hret Hpc Hnow] Hgo; [congruence|].
  destruct (send_stats_frame (obs s) (buffer g)) as (_&_&_&_&_&Hri'&_).
  rewrite /impl (shape_last _ _ _ Hgs) run_app. set (rest := run (shutdown _ _)).
  rewrite /= Hcs lookup_empty /Stop_check Hrun /= Hgs lookup_snoc_new /=
    /select_enter Hpc /= insert_snoc_last /rest.
  erewrite (shutdown_run _ past); [|done..|by rewrite /= insert_empty].
  eexists. split; [done|]. split; [|done].
  apply Shape_idle; [done..|]. by apply returned_snoc.
Qed.

(** The guard of an enabled operation, read on the state of the code:
    [Hrun] rewrites the running flag of the machine to [isRunning]. *)
Ltac inv_astep Ha Hrun :=
  unfold astep in Ha; rewrite ?Hrun in Ha; inv_enabled Ha;
  repeat match goal with
         | H : bool_decide _ = true |- _ => apply bool_decide_eq_true in H
         end.

(** Every operation the machine can do from the abstract state of a shape
    is performed by its schedule, which ends in a shape. *)
Lemma complete_step op s a :
  observer_wf (obs s) → 0 ≤ reportInterval (obs s) → shape s →
  astep op (abs s) = Some a →
  ∃ s', run (impl op s) s = Some s' ∧ shape s' ∧
        reportInterval (obs s') = reportInterval (obs s).
Proof.
  intros Hwf Hri Hsh Ha. pose proof (shape_running _ Hsh) as Hrun.
  destruct op; inv_astep Ha Hrun.
  - by apply record_step.
  - by apply record_step.
  - by eapply (merge_step s false).
  - by eapply (merge_step s true).
  - by apply flush_step.
  - by apply start_step.
  - by apply stop_step.
Qed.

(** The schedule of an operation has the operation as its only visible
    step, and at most one lifecycle call, at its head. *)
Lemma impl_ops_of op s a :
  shape s → astep op (abs s) = Some a →
  ops_of (impl op s) = [op] ∧ forallb no_calls (tail (impl op s)) = true.
Proof.
  intros Hsh Ha. pose proof (shape_running _ Hsh) as Hrun.
  destruct op; inv_astep Ha Hrun;
    rewrite /impl /Start_labels; by repeat match goal with H : isRunning _ = _ |- _ =>
                                             rewrite H; clear H end.
Qed.

(** ** Every run of the machine *)

Lemma complete_run ops s a :
  has_sink s → observer_wf (obs s) → 0 ≤ reportInterval (obs s) → shape s →
  arun ops (abs s) = Some a →
  ∃ s', run (impl_all ops s) s = Some s' ∧ serial_run (impl_all ops s) s = true ∧
        ops_of (impl_all ops s) = ops ∧ abs s' = a.
Proof.
  revert s. induction ops as [|op ops IH]; intros s Hk Hwf Hri Hsh Ha; simpl in Ha.
  - exists s. by simplify_eq.
  - apply bind_Some_inv in Ha as (a1 & Ha1 & Ha).
    destruct (complete_step _ _ _ Hwf Hri Hsh Ha1) as (s1 & Hr1 & Hsh1 & Hri1).
    destruct (impl_ops_of _ _ _ Hsh Ha1) as [Hops Hcalls].
    assert (cs s = ∅) as Hcs by (by destruct Hsh).
    pose proof (serial_run_call_first _ _ _ Hcs Hcalls Hr1) as Hser1.
    destruct (run_refines _ _ _ (conj Hk (conj (shape_phase _ Hsh) Hwf)) Hser1 Hr1)
      as [Habs (Hk1 & _ & Hwf1)].
    rewrite Hops /= Ha1 in Habs. apply (inj Some) in Habs. subst a1.
    destruct (IH s1) as (s' & Hr & Hser & Hops' & Habs'); [done|done|lia|done|done|].
    exists s'. cbn [impl_all]. rewrite Hr1 /=.
    by rewrite run_app Hr1 /= serial_run_app Hser1 Hr1 /= Hser ops_of_app Hops Hops'.
Qed.

(** ** The claim *)

(** C23 (completeness).  With a report interval that is not negative,
    every run of the abstract machine from its initial state is the image of
    a serialised execution of the code from [New]: the schedule computed by
    [impl_all] is executable, its lifecycle calls are serialised, the
    operations it implements are the operations of the run in the same
    order, and the state it ends in has the abstract state the run ends in.
    With [Refinement.refinement] the machine and the serialised code have
    the same runs. *)
Theorem completeness to ri (t0 : Time) ops a :
  0 ≤ ri → arun ops a_initial = Some a →
  ∃ s, run (impl_all ops (initial (B:=Journal R) (Some []) to ri t0))
         (initial (Some []) to ri t0) = Some s ∧
       serial_run (impl_all ops (initial (B:=Journal R) (Some []) to ri t0))
         (initial (B:=Journal R) (Some []) to ri t0) = true ∧
       ops_of (impl_all ops (initial (B:=Journal R) (Some []) to ri t0)) = ops ∧
       abs s = a.
Proof.
  intros Hri Ha. apply complete_run; try done.
  - by eexists.
  - apply New_observer_wf.
  - apply Shape_idle; [done..|apply Forall_nil_2].
Qed.

End complete.

(** ** Witness: start, two results, a flush, an oversized result, stop *)

Definition demo_ops : list (AOp nat) :=
  [AStart; ARecordWrite 1%nat; ARecordWrite 2%nat; AMerge; AMerge; AFlush;
   ARecordOversizedWrite 3%nat; AMergeOversized; AStop].

Lemma completeness_witness :
  ∃ s, run (impl_all demo_ops demo_init) demo_init = Some s ∧
       serial_run (impl_all demo_ops demo_init) demo_init = true ∧
       ops_of (impl_all demo_ops demo_init) = demo_ops ∧
       abs s = MkA false [] [] []
                 [[(1%nat, false); (2%nat, false)]; [(3%nat, true)]].
Proof.
  apply (completeness (ms 100) (ms 1000) 0 demo_ops); [done|vm_compute; reflexivity].
Defined.
