(* ===== verification/Race.v ===== *)
(** * Race: happens-before and the unsynchronised field [isRunning]

    [isRunning] is the one field of the struct that is written after [New]
    and it is read and written without a lock: [Start] reads it (line 50)
    and sets it (line 54) in the thread of its caller, [Stop] reads it (line
    98) in the thread of its caller, and the goroutine clears it (line 72).
    Under the memory model of Go two accesses of which one is a write are a
    data race unless one happens before the other, and what orders accesses
    of different threads here are the [go] statement of line 56 and the two
    rendezvous of the shutdown handshake on the unbuffered channels
    [exitSignal] (lines 99 and 63) and [stopDone] (lines 92 and 100).

    [hb_step] reads these edges off a label: the analysis keeps, for every
    thread, the set of events that happen before its next event ([know]); an
    event of a thread adds itself to what the thread knows, a rendezvous gives
    both parties the union of what they know, and a goroutine starts with what
    its parent knew at the [go] statement.  [races] says that an access is not
    ordered after an earlier conflicting access, [race_free] that no access
    of a schedule races.  The sends of the producers order nothing that
    touches [isRunning] and add no edge; with fewer edges there are more
    races, so race freedom here is race freedom with them.

    When one thread makes all the lifecycle calls, no access races: the
    accesses are handed from the caller to the goroutine by the rendezvous on
    [exitSignal] and back by the one on [stopDone] ([owner]).  A lifecycle
    call from a second thread races with the first [Start], even when the two
    calls do not overlap in time. *)

From S2P Require Import Prelude GoTime Channel Buffer Observer System Invariants Demo.

(** The threads that touch [isRunning]. *)
Inductive Thread : Type :=
| Caller (c : nat)        (* the thread in which client [c] calls Start and Stop *)
| Routine (i : nat).      (* the goroutine launched by the [i]-th Start that got to line 56 *)

#[global] Instance Thread_eq_dec : EqDecision Thread.
Proof. solve_decision. Defined.

#[global] Instance Thread_countable : Countable Thread.
Proof.
  refine (inj_countable'
            (λ t, match t with Caller c => inl c | Routine i => inr i end)
            (λ x, match x with inl c => Caller c | inr i => Routine i end) _);
    by intros [].
Defined.

Inductive Access : Type := Rd | Wr.

(** The state of the analysis: what each thread knows, the events that read
    and that wrote [isRunning], the number of goroutines launched and the
    number of events so far. *)
Record HB : Type := MkHB {
  knows : gmap Thread (gset nat);
  rd_events : gset nat;
  wr_events : gset nat;
  spawned : nat;
  events : nat;
}.

(** After [New]: its write of the field (line 44) happens before everything
    that is done with the struct it returns. *)
Definition hb_initial : HB := MkHB ∅ ∅ ∅ 0 0.

(** The events that happen before the next event of thread [t]. *)
Definition know (h : HB) (t : Thread) : gset nat := default ∅ (knows h !! t).

Definition accessed (h : HB) : gset nat := rd_events h ∪ wr_events h.

Section race.
Context {R : Type}.

Implicit Types (l : Label R) (ls : list (Label R)) (h : HB) (t u : Thread).

(** The access to [isRunning] a label makes, and the thread that makes it. *)
Definition access l : option (Thread * Access) :=
  match l with
  | CallStart c => Some (Caller c, Rd)
  | StartSpawn c => Some (Caller c, Wr)
  | CallStop c => Some (Caller c, Rd)
  | Loop i ExitClear => Some (Routine i, Wr)
  | _ => None
  end.

(** The threads that take the step: one for a statement, two for a
    rendezvous, none of those above for the clock and the producers. *)
Definition threads l : list Thread :=
  match l with
  | CallStart c | StartSpawn c | CallStop c => [Caller c]
  | Loop i _ => [Routine i]
  | SelectExit i c | StopDone i c => [Routine i; Caller c]
  | Tick _ | CallTargetWrite _ | CallTargetWriteOversized _ => []
  end.

(** The goroutine the [go] statement of line 56 launches. *)
Definition spawns l (n : nat) : list Thread :=
  match l with StartSpawn _ => [Routine n] | _ => [] end.

(** What the threads of a step know after it: what any of them knew
    before, and the step. *)
Definition joined l h : gset nat := ⋃ (know h <$> threads l) ∪ {[events h]}.

Definition hb_step l h : HB :=
  MkHB (foldr (λ t, <[t := joined l h]>) (knows h) (threads l ++ spawns l (spawned h)))
    (match access l with Some (_, Rd) => rd_events h ∪ {[events h]} | _ => rd_events h end)
    (match access l with Some (_, Wr) => wr_events h ∪ {[events h]} | _ => wr_events h end)
    (spawned h + length (spawns l (spawned h)))
    (S (events h)).

(** The access of [l] is not ordered after an earlier access it conflicts
    with: a read after every write, a write after every access. *)
Definition races l h : bool :=
  match access l with
  | Some (t, Rd) => negb (bool_decide (wr_events h ⊆ know h t))
  | Some (t, Wr) => negb (bool_decide (accessed h ⊆ know h t))
  | None => false
  end.

Fixpoint hb_run ls h : HB :=
  match ls with
  | [] => h
  | l :: ls => hb_run ls (hb_step l h)
  end.

Fixpoint race_free ls h : bool :=
  match ls with
  | [] => true
  | l :: ls => negb (races l h) && race_free ls (hb_step l h)
  end.

(** Every lifecycle call of the label is made by the thread of client [c]. *)
Definition called_by (c : nat) l : bool :=
  match l with
  | CallStart c' | CallStop c' => bool_decide (c' = c)
  | _ => true
  end.

(** The thread of client [c] takes no part in the label. *)
Definition absent (c : nat) l : bool := bool_decide (Caller c ∉ threads l).

(** ** The analysis *)

Lemma know_foldr_insert (K : gset nat) (m : gmap Thread (gset nat)) (ts : list Thread) t :
  default ∅ ((foldr (λ u, <[u := K]>) m ts) !! t) =
    if decide (t ∈ ts) then K else default ∅ (m !! t).
Proof.
  induction ts as [|u ts IH]; simpl; [done|].
  destruct (decide (u = t)) as [->|Hne].
  - rewrite lookup_insert_eq /= decide_True //. set_solver.
  - rewrite lookup_insert_ne // IH. repeat case_decide; set_solver.
Qed.

(** A thread that takes the step knows afterwards what all of them knew. *)
Lemma know_party l h t : t ∈ threads l → know (hb_step l h) t = joined l h.
Proof.
  intros Ht. rewrite /know /hb_step /= know_foldr_insert decide_True //. set_solver.
Qed.

(** A thread that does not take the step knows what it knew. *)
Lemma know_other l h t :
  t ∉ (threads l ++ spawns l (spawned h)) → know (hb_step l h) t = know h t.
Proof. intros Ht. by rewrite /know /hb_step /= know_foldr_insert decide_False. Qed.

Lemma know_joined l h t : t ∈ threads l → know h t ⊆ joined l h.
Proof.
  intros Ht x Hx. unfold joined. rewrite elem_of_union elem_of_union_list. left.
  exists (know h t). split; [|done]. by apply list_elem_of_fmap_2.
Qed.

Lemma event_joined l h : events h ∈ joined l h.
Proof. unfold joined. set_solver. Qed.

Lemma access_threads l t a : access l = Some (t, a) → t ∈ threads l.
Proof. destruct l as [| | | | | |i []| |]; intros; simplify_eq/=; set_solver. Qed.

Lemma accessed_step l h :
  accessed (hb_step l h) ⊆ accessed h ∪ {[events h]} ∧
  (access l = None → accessed (hb_step l h) = accessed h).
Proof.
  unfold accessed, hb_step. simpl.
  destruct (access l) as [[t []]|]; split; try done; set_solver.
Qed.

(** The accesses so far are known to [t]; the step hands them to [t']:
    either both take the step, and an access it makes is by [t], or [t'] is
    [t], which takes no part in a step that makes no access. *)
Definition hands_over l h t t' : Prop :=
  (t ∈ threads l ∧ t' ∈ threads l ∧ ∀ u a, access l = Some (u, a) → u = t) ∨
  (t' = t ∧ t ∉ (threads l ++ spawns l (spawned h)) ∧ access l = None).

Lemma races_owner l h t :
  accessed h ⊆ know h t → (∀ u a, access l = Some (u, a) → u = t) → races l h = false.
Proof.
  intros Hk Ha. unfold races. destruct (access l) as [[u []]|] eqn:E; [..|done];
    rewrite (Ha _ _ eq_refl) bool_decide_eq_true_2 //.
  unfold accessed in Hk. set_solver.
Qed.

Lemma hands_over_step l h t t' :
  accessed h ⊆ know h t → hands_over l h t t' →
  races l h = false ∧ accessed (hb_step l h) ⊆ know (hb_step l h) t'.
Proof.
  intros Hk [(Ht & Ht' & Ha)|(-> & Ht & Ha)].
  - split; [by eapply races_owner|].
    rewrite know_party //. destruct (accessed_step l h) as [Hs _].
    pose proof (know_joined l h t Ht). pose proof (event_joined l h). set_solver.
  - split; [apply (races_owner l h t Hk); by rewrite Ha|].
    rewrite know_other //. destruct (accessed_step l h) as [_ Hs]. by rewrite Hs.
Qed.

Lemma hb_run_app ls ls' h : hb_run (ls ++ ls') h = hb_run ls' (hb_run ls h).
Proof. revert h. induction ls as [|l ls IH]; intros h; simpl; [done|apply IH]. Qed.

Lemma race_free_app ls ls' h :
  race_free (ls ++ ls') h = race_free ls h && race_free ls' (hb_run ls h).
Proof.
  revert h. induction ls as [|l ls IH]; intros h; simpl; [done|].
  by rewrite IH andb_assoc.
Qed.

(** A thread that takes no part in a schedule learns nothing from it. *)
Lemma know_absent ls h c :
  forallb (absent c) ls = true → know (hb_run ls h) (Caller c) = know h (Caller c).
Proof.
  revert h. induction ls as [|l ls IH]; intros h Hs; simpl in *; [done|].
  apply andb_true_iff in Hs as [Hl Hs]. rewrite IH // know_other //.
  apply bool_decide_eq_true in Hl. destruct l; set_solver.
Qed.

(** Writes are never forgotten. *)
Lemma wr_events_mono ls h : wr_events h ⊆ wr_events (hb_run ls h).
Proof.
  revert h. induction ls as [|l ls IH]; intros h; simpl; [done|].
  etrans; [|apply IH]. unfold hb_step. simpl.
  destruct (access l) as [[t []]|]; set_solver.
Qed.

Lemma wr_events_spawn ls h c :
  StartSpawn c ∈ ls → ∃ e, e ∈ wr_events (hb_run ls h).
Proof.
  revert h. induction ls as [|l ls IH]; intros h Hin; [set_solver|].
  apply elem_of_cons in Hin as [<-|Hin]; [|by apply IH].
  exists (events h). apply (wr_events_mono ls). simpl. set_solver.
Qed.

End race.

Section single_caller.
Context {R B S : Type} `{!ObserverBuffer R B} `{!StatsReceiver B S}.

Implicit Types (s : Sys R B S) (l : Label R) (ls : list (Label R)) (h : HB).
Implicit Types (c i : nat) (cl : gmap nat ClientPC).

(** The thread to which the accesses so far are known: the caller, and
    between the two rendezvous of [Stop] the goroutine it is stopping. *)
Definition owner c s : Thread :=
  match cs s !! c with
  | Some InStopWait => Routine (pred (length (gs s)))
  | _ => Caller c
  end.

(** No client but [c] is inside a lifecycle call. *)
Definition only c cl : Prop := ∀ c' p, cl !! c' = Some p → c' = c.

Record race_inv c s h : Prop := RaceInv {
  race_phase : phase_inv s;
  race_only : only c (cs s);
  race_known : accessed h ⊆ know h (owner c s);
}.

(** ** The lifecycle calls of one thread *)

Lemma only_outside c cl : only c cl → cl !! c = None → cl = ∅.
Proof.
  intros Ho Hc. apply map_empty. intros c'.
  destruct (cl !! c') as [p|] eqn:E; [|done]. pose proof (Ho _ _ E) as ->. congruence.
Qed.

Lemma only_enter_call c p cl : only c cl → only c (enter_call c p cl).
Proof.
  intros Ho c' q. destruct p as [p|]; simpl; [|by apply Ho].
  intros [[-> _]|[_ ?]]%lookup_insert_Some; eauto.
Qed.

Lemma only_delete c c' cl : only c cl → only c (delete c' cl).
Proof. intros Ho c'' q [_ ?]%lookup_delete_Some. eauto. Qed.

Lemma only_insert c p cl : only c cl → only c (<[c := p]> cl).
Proof. intros Ho c' q [[-> _]|[_ ?]]%lookup_insert_Some; eauto. Qed.

(** In a serialised execution a goroutine that has not returned is the one
    launched last. *)
Lemma phase_live_last s i g :
  phase_inv s → gs s !! i = Some g → live (pc g) = true → i = pred (length (gs s)).
Proof.
  unfold phase_inv. destruct s as [o gl cl t lg]. simpl. intros Hph Hi Hl.
  phase_cases Hph; try (by rewrite (returned_lookup _ _ _ Hret Hi) in Hl);
    destruct (live_is_last _ _ _ _ Hret Hi Hl) as [-> _]; by rewrite length_snoc.
Qed.

Lemma rendezvous_last s i g :
  phase_inv s → gs s !! i = Some g → pc g ≠ AtReturn → i = pred (length (gs s)).
Proof. intros Hph Hi Hpc. apply (phase_live_last s i g Hph Hi). by destruct (pc g). Qed.

Lemma owner_outside c s : cs s !! c = None → owner c s = Caller c.
Proof. unfold owner. by intros ->. Qed.

Lemma owner_caller c s : cs s !! c ≠ Some InStopWait → owner c s = Caller c.
Proof. unfold owner. by destruct (cs s !! c) as [[]|]. Qed.

Lemma owner_frame c s s' :
  cs s = cs s' → length (gs s) = length (gs s') → owner c s = owner c s'.
Proof. unfold owner. by intros -> ->. Qed.

Lemma owner_waiting c s : cs s !! c = Some InStopWait → owner c s = Routine (pred (length (gs s))).
Proof. unfold owner. by intros ->. Qed.

(** A step that is not a rendezvous and that the caller's thread makes
    outside the wait of [Stop]: the caller keeps the accesses. *)
Lemma hands_over_caller c l h :
  threads l = [Caller c] → hands_over l h (Caller c) (Caller c).
Proof.
  intros Ht. left. rewrite Ht. split_and!; [set_solver..|].
  intros u a Ha%access_threads. rewrite Ht in Ha. set_solver.
Qed.

(** A step in which no thread of the analysis takes part. *)
Lemma hands_over_none l h t : threads l = [] → spawns l (spawned h) = [] → hands_over l h t t.
Proof.
  intros Ht Hs. right. rewrite Ht Hs. split_and!; [done|set_solver|].
  destruct (access l) as [[u a]|] eqn:E; [|done].
  apply access_threads in E. rewrite Ht in E. set_solver.
Qed.

(** A step of goroutine [i] alone. *)
Lemma hands_over_loop c s i a h g :
  phase_inv s → only c (cs s) → gs s !! i = Some g → live (pc g) = true →
  (a = ExitClear → pc g = AtExitClear) →
  hands_over (Loop i a : Label R) h (owner c s) (owner c s).
Proof.
  intros Hph Ho Hi Hl Ha. pose proof (phase_live_last _ _ _ Hph Hi Hl) as ->.
  destruct (decide (owner c s = Routine (pred (length (gs s))))) as [Heq|Hne].
  - left. rewrite Heq. split_and!; [simpl; set_solver..|].
    intros u b Hu%access_threads. simpl in Hu. set_solver.
  - right. split_and!; [done|simpl; set_solver|].
    destruct a; try done. exfalso. apply Hne, owner_waiting.
    unfold phase_inv in Hph. destruct s as [o gl cl t lg]. simpl in *.
    specialize (Ha eq_refl).
    phase_cases Hph; try (by rewrite (returned_lookup _ _ _ Hret Hi) in Hl);
      destruct (live_is_last _ _ _ _ Hret Hi Hl) as [_ ->];
      try (by rewrite Ha in Hpc); try (destruct Hpc; congruence); try congruence.
    rewrite (Ho c0 InStopWait); by rewrite lookup_singleton_eq.
Qed.

(** Every step of an execution in which only the thread of [c] makes
    lifecycle calls hands the accesses from the owner before it to the owner
    after it, and it is a serialised step. *)
Lemma owner_step c s l s' h :
  phase_inv s → only c (cs s) → called_by c l = true → step l s = Some s' →
  hands_over l h (owner c s) (owner c s') ∧ only c (cs s') ∧ serial l s = true.
Proof.
  intros Hph Ho Hc H. inv_step H;
    try match goal with H : cs s !! _ = Some _ |- _ => pose proof (Ho _ _ H) as -> end;
    try (apply bool_decide_eq_true in Hc as ->;
         match goal with H : cs s !! c = None |- _ =>
           pose proof (only_outside _ _ Ho H) as Hcs end).
  - split_and!; [by apply hands_over_none|done..].
  - rewrite Hcs. split_and!; [|apply only_enter_call; by rewrite -Hcs|by apply bool_decide_eq_true_2].
    rewrite owner_outside // owner_caller; [by apply hands_over_caller|].
    match goal with H : Start_check _ = _ |- _ =>
      unfold Start_check in H; case_match; simplify_eq/= end;
      by rewrite ?lookup_insert_eq ?lookup_empty.
  - split_and!; [|by apply only_delete|done].
    rewrite (owner_caller c s) ?(owner_outside c (MkSys _ _ _ _ _)) /= ?lookup_delete_eq //;
      [by apply hands_over_caller|congruence].
  - rewrite Hcs. split_and!; [|apply only_enter_call; by rewrite -Hcs|by apply bool_decide_eq_true_2].
    rewrite owner_outside // owner_caller; [by apply hands_over_caller|].
    unfold Stop_check. case_match; by rewrite /= ?lookup_insert_eq ?lookup_empty.
  - split_and!; [by apply hands_over_none|done..].
  - split_and!; [by apply hands_over_none|done..].
  - split_and!; [|done..].
    rewrite (owner_frame c _ s) /= ?length_insert //.
    match goal with H : act _ _ _ _ = Some _ |- _ =>
      eapply hands_over_loop; [done..|by eapply act_live|];
      intros ->; unfold act, exit_clear in H; by inv_enabled H end.
  - split_and!; [|by apply only_insert|done].
    match goal with H : select_exit _ = Some _, Hi : gs s !! _ = Some _ |- _ =>
      inv_sync H; pose proof (rendezvous_last _ _ _ Hph Hi ltac:(congruence)) as -> end.
    rewrite (owner_caller c s) ?owner_waiting /= ?lookup_insert_eq ?length_insert //;
      [|congruence]. left. split_and!; [set_solver..|done].
  - split_and!; [|by apply only_delete|done].
    match goal with H : stop_done _ = Some _, Hi : gs s !! _ = Some _ |- _ =>
      inv_sync H; pose proof (rendezvous_last _ _ _ Hph Hi ltac:(congruence)) as -> end.
    rewrite (owner_waiting c s) // owner_outside /= ?lookup_delete_eq //.
    left. split_and!; [set_solver..|done].
Qed.

Lemma race_inv_initial c sc to ri (t0 : Time) :
  race_inv c (initial (B:=B) sc to ri t0) hb_initial.
Proof. split; [apply phase_inv_initial|by intros c' p|done]. Qed.

Lemma race_inv_run c ls s s' h :
  race_inv c s h → forallb (called_by c) ls = true → run ls s = Some s' →
  race_free ls h = true ∧ serial_run ls s = true ∧ race_inv c s' (hb_run ls h).
Proof.
  revert s h. induction ls as [|l ls IH]; intros s h Hinv Hc Hr; simpl in *.
  { by simplify_eq. }
  apply andb_true_iff in Hc as [Hl Hc]. apply bind_Some_inv in Hr as (s1 & H1 & Hr).
  destruct Hinv as [Hph Ho Hk].
  destruct (owner_step c s l s1 h Hph Ho Hl H1) as (Hh & Ho1 & Hser).
  destruct (hands_over_step _ _ _ _ Hk Hh) as [Hrace Hk1].
  destruct (IH s1 (hb_step l h)) as (-> & Hs & Hinv'); [|done..|].
  { split; [by eapply phase_inv_serial_inductive|done..]. }
  by rewrite Hrace Hser H1.
Qed.

(** ** The claims *)

(** C24 (one caller, no data race).  When every [Start] and [Stop] is
    called from one thread, no access to [isRunning] is a data race, whatever
    the producers, the clock and the scheduler do: every read by [Start] and
    [Stop] is ordered after every earlier write, and every write by [Start]
    and by the goroutine after every earlier access, by program order, by the
    rendezvous on [exitSignal] and by the rendezvous on [stopDone].  Such an
    execution is serialised: the calls of one thread cannot overlap. *)
Theorem single_caller_race_free c sc to ri (t0 : Time) ls s :
  forallb (called_by c) ls = true → run ls (initial (B:=B) sc to ri t0) = Some s →
  race_free ls hb_initial = true ∧
  serial_run ls (initial (B:=B) sc to ri t0) = true ∧
  accessed (hb_run ls hb_initial) ⊆ know (hb_run ls hb_initial) (owner c s).
Proof.
  intros Hc Hr.
  destruct (race_inv_run c ls _ s hb_initial (race_inv_initial c sc to ri t0) Hc Hr)
    as (? & ? & [_ _ ?]).
  done.
Qed.

(** C32 (a second calling thread races).  Once [Start] has launched a
    goroutine, a [Start] or [Stop] called from another thread is a data race
    on [isRunning], even when it is called while no other call is in
    progress: the call is enabled and the execution is serialised, the
    execution up to the call has no race, and the read of the flag at the
    entry of the call is not ordered after the write of the first [Start]. *)
Theorem second_caller_races c c' sc to ri (t0 : Time) ls s l :
  forallb (called_by c) ls = true → forallb (absent c') ls = true →
  run ls (initial (B:=B) sc to ri t0) = Some s → StartSpawn c ∈ ls → cs s = ∅ →
  l = CallStart c' ∨ l = CallStop c' →
  serial_run (ls ++ [l]) (initial (B:=B) sc to ri t0) = true ∧
  race_free ls hb_initial = true ∧ race_free (ls ++ [l]) hb_initial = false.
Proof.
  intros Hc Ha Hr Hin Hcs Hl.
  destruct (race_inv_run c ls _ s hb_initial (race_inv_initial c sc to ri t0) Hc Hr)
    as (Hfree & Hser & _).
  destruct (wr_events_spawn ls hb_initial c Hin) as [e He].
  pose proof (know_absent ls hb_initial c' Ha) as Hk.
  rewrite serial_run_app race_free_app Hser Hfree Hr /=.
  assert (races l (hb_run ls hb_initial) = true) as ->.
  { destruct Hl as [-> | ->]; rewrite /races /= Hk bool_decide_eq_false_2 //;
      set_solver. }
  split_and!; [|done..].
  destruct Hl as [-> | ->]; rewrite /= Hcs lookup_empty bool_decide_eq_true_2 //;
    by destruct (Start_check (obs s)).
Qed.

End single_caller.

(** ** Witnesses on the concrete system of [Demo] *)

Lemma single_caller_race_free_witness :
  race_free sched_drained_stop hb_initial = true ∧
  serial_run sched_drained_stop demo_init = true ∧
  accessed (hb_run sched_drained_stop hb_initial)
    ⊆ know (hb_run sched_drained_stop hb_initial) (owner 0 demo_stopped).
Proof.
  apply (single_caller_race_free 0 (Some []) (ms 100) (ms 1000) 0 sched_drained_stop);
    [vm_compute; reflexivity|apply run_sched_drained_stop].
Defined.

Lemma second_caller_races_witness :
  serial_run (sched_drained_stop ++ [CallStart 1]) demo_init = true ∧
  race_free sched_drained_stop hb_initial = true ∧
  race_free (sched_drained_stop ++ [CallStart 1]) hb_initial = false.
Proof.
  apply (second_caller_races 0 1 (Some []) (ms 100) (ms 1000) 0 sched_drained_stop
           demo_stopped (CallStart 1));
    [vm_compute; reflexivity|vm_compute; reflexivity|apply run_sched_drained_stop
    |unfold sched_drained_stop; set_solver|done|by left].
Defined.
