(* ===== verification/HappensBefore.v ===== *)
(** * HappensBefore: what the analysis of [Race] computes

    [Race.hb_step] keeps, in one pass over the schedule, what every thread
    knows.  This file states the order it is meant to compute without the
    pass, as the memory model of Go does: event [i] is ordered before a
    later event [j] when a thread that takes part in [i], or that the [go]
    statement of [i] launches, takes part in [j] ([ordered]: program order,
    the rendezvous on the unbuffered channels, the start of a goroutine),
    and [happens_before] is the transitive closure.  An execution is free of
    data races ([drf]) when of two conflicting accesses to [isRunning] the
    earlier happens before the later.  In every execution of the system the
    two agree: a thread knows an event exactly when the event is one it took
    part in or happens before one it took part in, and [Race.race_free] is
    [drf]. *)

From stdpp Require Import relations.
From S2P Require Import Prelude GoTime Channel Buffer Observer System Invariants Demo.
From S2P Require Import Race.

Section happens_before.
Context {R : Type}.

Implicit Types (l : Label R) (ls : list (Label R)) (t u : Thread) (h : HB).
Implicit Types (i j e n : nat).

(** The number of [go] statements of a schedule. *)
Definition launched ls : nat := length (ls ≫= λ l, spawns l 0).

(** The threads that bring what they know to event [i] of a schedule. *)
Definition givers ls i : list Thread := from_option threads [] (ls !! i).

(** The threads that know event [i] once it has happened: the same, and
    the goroutine that the event launches. *)
Definition takers ls i : list Thread :=
  from_option (λ l, threads l ++ spawns l (launched (take i ls))) [] (ls !! i).

(** Event [i] is ordered directly before event [j]. *)
Definition ordered ls i j : Prop :=
  (i < j)%nat ∧ ∃ t, t ∈ takers ls i ∧ t ∈ givers ls j.

Definition happens_before ls : relation nat := tc (ordered ls).

(** Thread [t] took part in an event that is [e] or that [e] happens
    before. *)
Definition known ls t e : Prop :=
  ∃ j, t ∈ takers ls j ∧ (e = j ∨ happens_before ls e j).

(** Goroutines are named by the order of their launch: no event involves a
    goroutine that has not been launched. *)
Definition fresh ls : Prop := ∀ j i, Routine i ∈ takers ls j → (i < launched ls)%nat.

(** The access to [isRunning] that event [i] makes. *)
Definition access_at ls i : option (Thread * Access) := ls !! i ≫= access.

(** Two accesses to one location conflict when one of them writes. *)
Definition conflict (a b : Access) : bool :=
  match a, b with Rd, Rd => false | _, _ => true end.

(** An execution has no data race on [isRunning]: of two conflicting
    accesses the earlier happens before the later. *)
Definition drf ls : Prop :=
  ∀ i j t a u b, (i < j)%nat →
    access_at ls i = Some (t, a) → access_at ls j = Some (u, b) →
    conflict a b = true → happens_before ls i j.

(** The events of one kind of access that the analysis has recorded. *)
Definition accesses_of (a : Access) h : gset nat :=
  match a with Rd => rd_events h | Wr => wr_events h end.

(** ** Counters *)

Lemma spawns_length l n : length (spawns l n) = length (spawns l 0).
Proof. by destruct l. Qed.

Lemma launched_snoc ls l : launched (ls ++ [l]) = (launched ls + length (spawns l 0))%nat.
Proof. by rewrite /launched bind_app length_app /= app_nil_r. Qed.

Lemma launched_cons l ls : launched (l :: ls) = (length (spawns l 0) + launched ls)%nat.
Proof. by rewrite /launched bind_cons length_app. Qed.

Lemma spawned_hb_run ls h : spawned (hb_run ls h) = (spawned h + launched ls)%nat.
Proof.
  revert h. induction ls as [|l ls IH]; intros h; simpl; [by rewrite /launched /=; lia|].
  rewrite IH (launched_cons l ls) /= (spawns_length l (spawned h)). lia.
Qed.

Lemma events_hb_run ls h : events (hb_run ls h) = (events h + length ls)%nat.
Proof.
  revert h. induction ls as [|l ls IH]; intros h; simpl; [lia|]. rewrite IH /=. lia.
Qed.

(** ** Events of a schedule and of its extension *)

Lemma takers_lt ls i t : t ∈ takers ls i → (i < length ls)%nat.
Proof.
  unfold takers. destruct (ls !! i) as [l|] eqn:E; [|by intros ?%elem_of_nil].
  intros _. by eapply lookup_lt_Some.
Qed.

Lemma takers_snoc_old ls l i : (i < length ls)%nat → takers (ls ++ [l]) i = takers ls i.
Proof. intros Hi. rewrite /takers lookup_app_l // take_app_le //. lia. Qed.

Lemma givers_snoc_old ls l i : (i < length ls)%nat → givers (ls ++ [l]) i = givers ls i.
Proof. intros Hi. by rewrite /givers lookup_app_l. Qed.

Lemma takers_snoc_new ls l :
  takers (ls ++ [l]) (length ls) = threads l ++ spawns l (launched ls).
Proof. by rewrite /takers lookup_snoc_new /= take_app_length. Qed.

Lemma givers_snoc_new ls l : givers (ls ++ [l]) (length ls) = threads l.
Proof. by rewrite /givers lookup_snoc_new. Qed.

Lemma takers_snoc ls l i t :
  t ∈ takers (ls ++ [l]) i ↔
  t ∈ takers ls i ∨ (i = length ls ∧ t ∈ threads l ++ spawns l (launched ls)).
Proof.
  destruct (decide (i < length ls)%nat) as [Hlt|Hge].
  - rewrite takers_snoc_old //. split; [by left|]. intros [?|[-> _]]; [done|lia].
  - split.
    + intros Ht. right. pose proof (takers_lt _ _ _ Ht) as Hi.
      rewrite length_snoc in Hi. assert (i = length ls) as -> by lia.
      by rewrite takers_snoc_new in Ht.
    + intros [Ht%takers_lt|[-> Ht]]; [lia|by rewrite takers_snoc_new].
Qed.

Lemma ordered_snoc_old ls l i j :
  (j < length ls)%nat → ordered (ls ++ [l]) i j ↔ ordered ls i j.
Proof.
  intros Hj. unfold ordered.
  split; intros [Hij (t & Hi & Hg)]; (split; [done|]); exists t.
  - rewrite takers_snoc_old in Hi; [|lia]. by rewrite givers_snoc_old in Hg.
  - rewrite takers_snoc_old; [|lia]. by rewrite givers_snoc_old.
Qed.

Lemma happens_before_lt ls i j : happens_before ls i j → (i < j)%nat.
Proof. induction 1 as [i j [? _]|i y j [? _] _ IH]; lia. Qed.

Lemma happens_before_snoc_old ls l i j :
  (j < length ls)%nat → happens_before (ls ++ [l]) i j ↔ happens_before ls i j.
Proof.
  intros Hj. split.
  - induction 1 as [i j Ho|i y j Ho Hb IH].
    + by apply tc_once, (ordered_snoc_old ls l i j Hj).
    + pose proof (happens_before_lt _ _ _ Hb).
      eapply tc_l; [|by apply IH]. apply (ordered_snoc_old ls l i y); [lia|done].
  - induction 1 as [i j Ho|i y j Ho Hb IH].
    + by apply tc_once, (ordered_snoc_old ls l i j Hj).
    + pose proof (happens_before_lt _ _ _ Hb).
      eapply tc_l; [|by apply IH]. apply (ordered_snoc_old ls l i y); [lia|done].
Qed.

(** The last edge of a path. *)
Lemma tc_last {A} (Q : relation A) x z : tc Q x z → Q x z ∨ ∃ y, tc Q x y ∧ Q y z.
Proof.
  revert z. apply tc_ind_r; [by left|]. intros y z Hxy Hyz _. right. eauto.
Qed.

(** What happens before the new event: what a thread that takes part in it
    was part of, and what happens before that. *)
Lemma happens_before_snoc_new ls l e :
  happens_before (ls ++ [l]) e (length ls) ↔ ∃ u, u ∈ threads l ∧ known ls u e.
Proof.
  split.
  - intros [Ho|(y & Hb & Ho)]%tc_last.
    + destruct Ho as [He (u & Hu & Hg)]. rewrite givers_snoc_new in Hg.
      rewrite takers_snoc_old // in Hu. exists u. split; [done|]. exists e. eauto.
    + destruct Ho as [Hy (u & Hu & Hg)]. rewrite givers_snoc_new in Hg.
      rewrite takers_snoc_old // in Hu. apply happens_before_snoc_old in Hb; [|done].
      exists u. split; [done|]. exists y. eauto.
  - intros (u & Hu & j & Hj & He). pose proof (takers_lt _ _ _ Hj) as Hlt.
    assert (ordered (ls ++ [l]) j (length ls)) as Ho.
    { split; [done|]. exists u. by rewrite takers_snoc_old // givers_snoc_new. }
    destruct He as [->|Hb]; [by apply tc_once|].
    eapply tc_r; [|done]. by apply happens_before_snoc_old.
Qed.

(** The declarative counterpart of [know_party] and [know_other]. *)
Lemma known_snoc ls l t e :
  fresh ls →
  known (ls ++ [l]) t e ↔
  if decide (t ∈ threads l ++ spawns l (launched ls))
  then e = length ls ∨ ∃ u, u ∈ threads l ∧ known ls u e
  else known ls t e.
Proof.
  intros Hfresh. case_decide as Ht; split.
  - intros (j & [Hj|[-> _]]%takers_snoc & He).
    + pose proof (takers_lt _ _ _ Hj) as Hlt. right.
      rewrite happens_before_snoc_old // in He.
      apply elem_of_app in Ht as [Ht|Ht]; [exists t; split; [done|]; by exists j|].
      destruct l; try by apply elem_of_nil in Ht. apply list_elem_of_singleton in Ht as ->.
      apply Hfresh in Hj. lia.
    + destruct He as [->|He]; [by left|]. right. by apply happens_before_snoc_new.
  - intros [->|Hu]; exists (length ls); rewrite takers_snoc_new; (split; [done|]);
      [by left|right]. by apply happens_before_snoc_new.
  - intros (j & [Hj|[-> ?]]%takers_snoc & He); [|done].
    pose proof (takers_lt _ _ _ Hj). rewrite happens_before_snoc_old // in He. by exists j.
  - intros (j & Hj & He). pose proof (takers_lt _ _ _ Hj). exists j.
    rewrite takers_snoc_old // happens_before_snoc_old //.
Qed.

(** The same for the analysis. *)
Lemma know_step l h t e :
  e ∈ know (hb_step l h) t ↔
  if decide (t ∈ threads l ++ spawns l (spawned h))
  then e = events h ∨ ∃ u, u ∈ threads l ∧ e ∈ know h u
  else e ∈ know h t.
Proof.
  rewrite /know /hb_step /= know_foldr_insert. case_decide; [|done].
  rewrite /joined elem_of_union elem_of_union_list elem_of_singleton.
  split; intros [Hx|Hx]; eauto.
  - destruct Hx as (X & (u & -> & Hu)%list_elem_of_fmap & He). right. eauto.
  - destruct Hx as (u & Hu & He). left. exists (know h u).
    split; [by apply list_elem_of_fmap_2|done].
Qed.

Lemma fresh_prefixes_snoc ls l :
  (∀ n, fresh (take n (ls ++ [l]))) → (∀ n, fresh (take n ls)) ∧ fresh ls.
Proof.
  intros Hfresh. split; [|rewrite -(take_app_length ls [l]); apply Hfresh].
  intros n. destruct (decide (n ≤ length ls)%nat).
  - rewrite -(take_app_le ls [l]) //.
  - rewrite take_ge; [|lia]. rewrite -(take_app_length ls [l]). apply Hfresh.
Qed.

(** The analysis from the state after [New] computes [known], on every
    schedule whose goroutines are named by the order of their launch. *)
Lemma know_known ls t e :
  (∀ n, fresh (take n ls)) →
  e ∈ know (hb_run ls hb_initial) t ↔ known ls t e.
Proof.
  revert t e. induction ls as [|l ls IH] using rev_ind; intros t e Hfresh.
  - split; [by intros ?%elem_of_empty|]. by intros (j & ?%elem_of_nil & _).
  - destruct (fresh_prefixes_snoc _ _ Hfresh) as [Hpre Hls].
    rewrite hb_run_app /= know_step known_snoc // spawned_hb_run events_hb_run /=.
    case_decide; [|by apply IH].
    split; (intros [->|(u & Hu & He)]; [by left|right; exists u; split; [done|]]);
      by apply IH.
Qed.

(** ** The accesses, and the verdict of the analysis *)

Lemma access_at_lt ls i x : access_at ls i = Some x → (i < length ls)%nat.
Proof.
  unfold access_at. destruct (ls !! i) eqn:E; [|done]. intros _. by eapply lookup_lt_Some.
Qed.

Lemma access_at_snoc ls l i :
  access_at (ls ++ [l]) i = if decide (i = length ls) then access l else access_at ls i.
Proof.
  unfold access_at. case_decide as Hi; [subst; by rewrite lookup_snoc_new|].
  destruct (decide (i < length ls)%nat); [by rewrite lookup_app_l|].
  rewrite !lookup_ge_None_2 // ?length_snoc; lia.
Qed.

(** A statement that accesses the field is a statement of one thread. *)
Lemma access_single l t a : access l = Some (t, a) → threads l = [t].
Proof. destruct l as [| | | | | |i []| |]; intros; by simplify_eq/=. Qed.

Lemma accesses_of_step a l h e :
  e ∈ accesses_of a (hb_step l h) ↔
  e ∈ accesses_of a h ∨ (e = events h ∧ ∃ t, access l = Some (t, a)).
Proof.
  destruct a; simpl; destruct (access l) as [[t []]|];
    rewrite ?elem_of_union ?elem_of_singleton; naive_solver.
Qed.

(** The analysis records the accesses of the schedule. *)
Lemma accesses_of_run ls a e :
  e ∈ accesses_of a (hb_run ls hb_initial) ↔ ∃ t, access_at ls e = Some (t, a).
Proof.
  revert e. induction ls as [|l ls IH] using rev_ind; intros e.
  - split; [by destruct a; intros ?%elem_of_empty|]. by intros [t ?].
  - rewrite hb_run_app /= accesses_of_step IH events_hb_run /= access_at_snoc.
    case_decide as He; split.
    + intros [[t Ht%access_at_lt]|[_ ?]]; [lia|done].
    + by right.
    + intros [?|[? _]]; done.
    + by left.
Qed.

(** An access does not race when the accessing thread knows every earlier
    access it conflicts with. *)
Lemma races_spec l h t a :
  access l = Some (t, a) →
  races l h = false ↔ ∀ b e, conflict b a = true → e ∈ accesses_of b h → e ∈ know h t.
Proof.
  intros Ha. rewrite /races Ha.
  destruct a; rewrite negb_false_iff bool_decide_eq_true; split.
  - intros Hs [] e; [done|]. intros _. apply Hs.
  - intros Hs e He. by apply (Hs Wr).
  - intros Hs [] e _ He; apply Hs; rewrite /accessed; set_solver.
  - intros Hs e [He|He]%elem_of_union; [by apply (Hs Rd)|by apply (Hs Wr)].
Qed.

(** An execution is free of data races when its beginning is, and the thread
    of its last access took part in every earlier access that conflicts, or
    in an event after it. *)
Lemma drf_snoc ls l :
  drf (ls ++ [l]) ↔
  drf ls ∧ ∀ t a i u b, access l = Some (t, a) → access_at ls i = Some (u, b) →
             conflict b a = true → known ls t i.
Proof.
  split.
  - intros Hd. split.
    + intros i j t a u b Hij Hi Hj Hc. pose proof (access_at_lt _ _ _ Hj).
      apply (happens_before_snoc_old ls l); [done|].
      apply (Hd i j t a u b); [done| | |done]; rewrite access_at_snoc decide_False //; lia.
    + intros t a i u b Hl Hi Hc. pose proof (access_at_lt _ _ _ Hi) as Hlt.
      assert (happens_before (ls ++ [l]) i (length ls)) as Hb.
      { apply (Hd i (length ls) u b t a); [done| | |done].
        - rewrite access_at_snoc decide_False //. lia.
        - by rewrite access_at_snoc decide_True. }
      apply happens_before_snoc_new in Hb as (w & Hw & Hk).
      rewrite (access_single _ _ _ Hl) in Hw. by apply list_elem_of_singleton in Hw as ->.
  - intros [Hd Hnew] i j t a u b Hij Hi Hj Hc.
    pose proof (access_at_lt _ _ _ Hj) as Hlt. rewrite length_snoc in Hlt.
    rewrite access_at_snoc decide_False in Hi; [|lia]. rewrite access_at_snoc in Hj.
    case_decide as Hlast.
    + subst j. apply happens_before_snoc_new. exists u. split; [|by eapply Hnew].
      rewrite (access_single _ _ _ Hj). by apply list_elem_of_singleton.
    + apply happens_before_snoc_old; [lia|]. by eapply Hd.
Qed.

(** The verdict of the analysis from the state after [New] is data-race
    freedom. *)
Lemma race_free_drf ls :
  (∀ n, fresh (take n ls)) → race_free ls hb_initial = true ↔ drf ls.
Proof.
  induction ls as [|l ls IH] using rev_ind; intros Hfresh.
  - split; [|done]. by intros _ i j t a u b _ Hi.
  - destruct (fresh_prefixes_snoc _ _ Hfresh) as [Hpre Hls].
    rewrite race_free_app /= andb_true_r andb_true_iff negb_true_iff drf_snoc IH //.
    apply and_iff_compat_l. destruct (access l) as [[t a]|] eqn:Ha.
    + rewrite (races_spec _ _ _ _ Ha). split.
      * intros Hs t' a' i u b [= <- <-] Hi Hc. apply know_known; [done|].
        apply (Hs b); [done|]. apply accesses_of_run. eauto.
      * intros Hs b e Hc [u Hu]%accesses_of_run. apply know_known; [done|]. eauto.
    + split; [by intros _ t a i u b [=]|]. intros _. by rewrite /races Ha.
Qed.

End happens_before.

Section executions.
Context {R B S : Type} `{!ObserverBuffer R B} `{!StatsReceiver B S}.

Implicit Types (s : Sys R B S) (l : Label R) (ls : list (Label R)).

(** The analysis and the system count the goroutines alike. *)
Lemma step_launched l s s' :
  step l s = Some s' → length (gs s') = (length (gs s) + length (spawns l 0))%nat.
Proof. intros H. inv_step H; rewrite ?length_insert ?length_snoc /=; lia. Qed.

Lemma run_launched ls s s' :
  run ls s = Some s' → length (gs s') = (length (gs s) + launched ls)%nat.
Proof.
  revert s. induction ls as [|l ls IH]; intros s Hr; simpl in *.
  - simplify_eq. rewrite /launched /=. lia.
  - apply bind_Some_inv in Hr as (s1 & H1 & Hr).
    rewrite (IH _ Hr) (step_launched _ _ _ H1) launched_cons. lia.
Qed.

(** A step of a goroutine is a step of a goroutine of the table. *)
Lemma step_routine l s s' i :
  step l s = Some s' → Routine i ∈ threads l → (i < length (gs s))%nat.
Proof.
  intros H Hi. inv_step H;
    try (apply list_elem_of_singleton in Hi; simplify_eq);
    try (by apply elem_of_nil in Hi);
    try (apply elem_of_cons in Hi as [?|Hi%list_elem_of_singleton]; simplify_eq);
    by eapply lookup_lt_Some.
Qed.

(** In an execution from [New] goroutines are named by the order of their
    launch. *)
Lemma run_fresh sc to ri (t0 : Time) ls s :
  run ls (initial sc to ri t0) = Some s → fresh ls.
Proof.
  revert s. induction ls as [|l ls IH] using rev_ind; intros s Hr.
  - by intros j i ?%elem_of_nil.
  - rewrite run_snoc in Hr. apply bind_Some_inv in Hr as (s1 & H1 & Hl).
    pose proof (run_launched _ _ _ H1) as Hn. simpl in Hn.
    intros j i [Hj|[-> Hj]]%takers_snoc; rewrite launched_snoc.
    + pose proof (IH _ H1 _ _ Hj). lia.
    + apply elem_of_app in Hj as [Hj|Hj].
      * pose proof (step_routine _ _ _ _ Hl Hj). lia.
      * destruct l; try by apply elem_of_nil in Hj.
        apply list_elem_of_singleton in Hj. simplify_eq/=. lia.
Qed.

(** ** The claim *)

(** C27 (the analysis computes happens-before).  In every execution of the
    system from [New], the set of events that the one-pass analysis of
    [Race] records for a thread is exactly the set of events that the thread
    took part in, or that happen before an event it took part in, in the
    transitive closure of program order, the [go] statement and the two
    rendezvous; the analysis finds no race exactly when of any two
    conflicting accesses to [isRunning] the earlier happens before the
    later; and the analysis numbers events and goroutines as the execution
    does. *)
Theorem know_is_happens_before sc to ri (t0 : Time) ls s t e :
  run ls (initial sc to ri t0) = Some s →
  (e ∈ know (hb_run ls hb_initial) t ↔
     ∃ j, t ∈ takers ls j ∧ (e = j ∨ happens_before ls e j)) ∧
  (race_free ls hb_initial = true ↔ drf ls) ∧
  events (hb_run ls hb_initial) = length ls ∧
  spawned (hb_run ls hb_initial) = length (gs s).
Proof.
  intros Hr.
  assert (∀ n, fresh (take n ls)) as Hfresh.
  { intros n. destruct (run_take _ _ _ n Hr) as [s1 H1]. by eapply run_fresh. }
  split_and!.
  - by apply know_known.
  - by apply race_free_drf.
  - by rewrite events_hb_run.
  - by rewrite spawned_hb_run (run_launched _ _ _ Hr).
Qed.

End executions.

(** ** Witness: the execution of [Demo] that ends with a completed [Stop] *)

Lemma know_is_happens_before_witness :
  (2%nat ∈ know (hb_run sched_drained_stop hb_initial) (Caller 0) ↔
     ∃ j, Caller 0 ∈ takers sched_drained_stop j ∧
          (2%nat = j ∨ happens_before sched_drained_stop 2%nat j)) ∧
  (race_free sched_drained_stop hb_initial = true ↔ drf sched_drained_stop) ∧
  events (hb_run sched_drained_stop hb_initial) = length sched_drained_stop ∧
  spawned (hb_run sched_drained_stop hb_initial) = length (gs demo_stopped).
Proof.
  apply (know_is_happens_before (Some []) (ms 100) (ms 1000) 0 sched_drained_stop
           demo_stopped (Caller 0) 2%nat), run_sched_drained_stop.
Defined.
