(* ===== verification/Restart.v ===== *)
(** * Restart: what [Stop] leaves in the queues, and the next [Start]

    [Stop] makes the loop leave at its next [select]: the final flush sends
    the buffer as it is, and a result that is still in a queue stays there
    (the exit path of lines 63-73 receives nothing).  The struct can be
    started again, and the loop of the second [Start] shares the channels of
    the first: it merges what the shutdown left.  [stop_restart] is the
    schedule of a [Stop], a [Start] and one iteration of the new loop through
    a data case; the theorem says what it does in every state in which one
    loop waits in its [select], not for one execution. *)

From S2P Require Import Prelude GoTime Channel Buffer Observer System Invariants Demo.
From S2P Require Import Queues Conservation Roundtrip Lifecycle Progress.

Section restart.
Context {R B K : Type} `{!ObserverBuffer R B} `{!StatsReceiver B K}.

Implicit Types (s : Sys R B K) (l : Label R) (o : Observer R K) (g : Goroutine B).
Implicit Types (t : bool) (i c : nat) (past : list (Goroutine B)).

(** [Stop] called by client [c] while goroutine [i] waits in its [select]. *)
Definition stop_call i c : list (Label R) := CallStop c :: shutdown i c.

(** [Start] called by client [c], and the initialisation of the goroutine
    it launches, which is the [n]-th. *)
Definition start_call n c : list (Label R) := [CallStart c; StartSpawn c; Loop n Init].

(** A [Stop], a [Start], and one iteration of the new loop through the data
    case of class [t]. *)
Definition stop_restart i c t : list (Label R) :=
  stop_call i c ++ start_call (S i) c ++ merge_round (S i) t.

(** ** The two calls *)

Lemma stop_call_run s i g c timer :
  cs s = ∅ → isRunning (obs s) = true → gs s !! i = Some g → pc g = AtSelect timer →
  run (stop_call i c) s =
    Some (MkSys (set_isRunning false (send_stats (obs s) (buffer g)))
            (<[i := MkGoroutine AtReturn (reportTime g) (buffer g)]> (gs s)) ∅ (now s)
            (logs s ++ [Warn msg_exit; Infof (buffer_string (buffer g))])).
Proof.
  intros Hcs Hrun Hi Hpc.
  assert (step (CallStop c) s =
            Some (MkSys (obs s) (gs s) {[c := InStopSend]} (now s) (logs s))) as Hstep
    by (by rewrite /= Hcs lookup_empty /Stop_check Hrun /= insert_empty).
  unfold stop_call. cbn [run]. rewrite Hstep. cbn [mbind option_bind].
  erewrite shutdown_run_any; [|done..|by rewrite /= lookup_singleton_eq].
  by rewrite /= delete_singleton_eq.
Qed.

Lemma start_call_run s c n :
  cs s = ∅ → isRunning (obs s) = false → length (gs s) = n →
  run (start_call n c) s =
    Some (MkSys (set_isRunning true (obs s))
            (gs s ++ [MkGoroutine AtSelectEnter (Add (now s) (reportInterval (obs s)))
                        buffer_empty])
            ∅ (now s) (logs s)).
Proof.
  intros Hcs Hrun <-.
  rewrite /start_call /= Hcs lookup_empty /Start_check Hrun /= lookup_insert_eq /=.
  by rewrite lookup_snoc_new /= insert_snoc_last delete_insert_eq ?delete_empty ?app_nil_r.
Qed.

Lemma stop_call_serial i c s s' :
  cs s = ∅ → run (stop_call i c) s = Some s' → serial_run (stop_call i c) s = true.
Proof. intros. by eapply serial_run_call_first. Qed.

Lemma start_call_serial n c s s' :
  cs s = ∅ → run (start_call n c ) s = Some s' → serial_run (start_call n c) s = true.
Proof. intros. by eapply serial_run_call_first. Qed.

Lemma merge_round_no_calls i t : forallb no_calls (merge_round (R:=R) i t) = true.
Proof. by destruct t. Qed.

(** ** The claim *)

(** C29 (what a shutdown strands, the next run delivers).  In every state
    in which one loop waits in its [select], no call is in progress and a
    queue holds a result: [Stop], then [Start], then one iteration of the new
    loop is a serialised execution; the final flush of the first loop sends
    its buffer without the queued result, which stays in the queue; the
    second [Start] launches another goroutine on the same channels, and that
    goroutine merges the result into its buffer, with the tag of the queue.
    What is pushed before [Stop] and not yet received is not in the final
    flush. *)
Theorem stop_strands_restart_merges s past g timer c k t r q :
  gs s = past ++ [g] → returned past → pc g = AtSelect timer → cs s = ∅ →
  isRunning (obs s) = true → statsClient (obs s) = Some k →
  chan_buf (queue t (obs s)) = r :: q → 0 ≤ reportInterval (obs s) →
  ∃ s1 s2,
    run (stop_call (length past) c) s = Some s1 ∧
    run (stop_restart (length past) c t) s = Some s2 ∧
    serial_run (stop_restart (length past) c t) s = true ∧
    isRunning (obs s1) = false ∧ returned (gs s1) ∧
    statsClient (obs s1) = Some (Send k (buffer g)) ∧
    chan_buf (queue t (obs s1)) = r :: q ∧
    statsClient (obs s2) = Some (Send k (buffer g)) ∧
    isRunning (obs s2) = true ∧ chan_buf (queue t (obs s2)) = q ∧
    gs s2 = past ++ [MkGoroutine AtReturn (reportTime g) (buffer g);
                     MkGoroutine AtSelectEnter (Add (now s) (reportInterval (obs s)))
                       (Append buffer_empty r t)].
Proof.
  intros Hgs Hret Hpc Hcs Hrun Hk Hq Hri.
  destruct (send_stats_frame (obs s) (buffer g)) as (_&_&_&_&_&Hri1&_).
  set (g1 := MkGoroutine AtReturn (reportTime g) (buffer g)).
  set (g2 := MkGoroutine AtSelectEnter (Add (now s) (reportInterval (obs s)))
               (buffer_empty (B:=B))).
  pose proof (stop_call_run s (length past) g c timer Hcs Hrun) as H1.
  rewrite Hgs lookup_snoc_new insert_snoc_last in H1. specialize (H1 eq_refl Hpc).
  match type of H1 with _ = Some ?x => set (s1 := x) in * end.
  pose proof (start_call_run s1 c (S (length past)) eq_refl eq_refl (length_snoc _ _)) as H2.
  change (reportInterval (obs s1))
    with (reportInterval (send_stats (obs s) (buffer g))) in H2.
  rewrite Hri1 -/g2 in H2.
  match type of H2 with _ = Some ?x => set (s2 := x) in * end.
  assert (queue t (obs s2) = queue t (obs s)) as Hq2
    by (by rewrite /= !queue_set_isRunning queue_send_stats).
  assert (gs s2 !! S (length past) = Some g2) as Hi
    by (rewrite /s2 /s1 /= -(length_snoc past g1); apply lookup_snoc_new).
  assert (now s2 ≤ reportTime g2) as Hle by (rewrite /s2 /g2 /Add /=; lia).
  pose proof (merge_round_run s2 (S (length past)) g2 t r
                (Chan (chan_cap (queue t (obs s))) q) Hi eq_refl Hle) as H3.
  rewrite Hq2 /chan_recv Hq in H3. specialize (H3 eq_refl).
  exists s1. eexists. split; [done|].
  rewrite /stop_restart run_app serial_run_app H1. cbn [mbind option_bind from_option].
  rewrite run_app serial_run_app H2. cbn [mbind option_bind from_option].
  rewrite (stop_call_serial _ _ _ _ Hcs H1) (start_call_serial _ _ s1 _ eq_refl H2).
  rewrite (serial_run_no_calls _ _ _ (merge_round_no_calls _ t) H3) H3.
  split_and!; try done.
  - by apply returned_snoc.
  - by rewrite /= send_stats_statsClient Hk.
  - by rewrite /= queue_set_isRunning queue_send_stats.
  - destruct t; by rewrite /= send_stats_statsClient Hk.
  - by destruct t.
  - by rewrite /= queue_set_queue.
  - by rewrite /= -(length_snoc past g1) insert_snoc_last -app_assoc.
Qed.

End restart.

(** ** Witness: the execution of [Demo] with a result in the queue *)

Lemma stop_strands_restart_merges_witness :
  ∃ s1 s2,
    run (stop_call 0 0) demo_queued = Some s1 ∧
    run (stop_restart 0 0 false) demo_queued = Some s2 ∧
    serial_run (stop_restart 0 0 false) demo_queued = true ∧
    isRunning (obs s1) = false ∧ returned (gs s1) ∧
    statsClient (obs s1) = Some [MkJournal []] ∧
    chan_buf (targetWriteChan (obs s1)) = [7%nat] ∧
    statsClient (obs s2) = Some [MkJournal []] ∧
    isRunning (obs s2) = true ∧ chan_buf (targetWriteChan (obs s2)) = [] ∧
    gs s2 = [MkGoroutine AtReturn (ms 1000) (MkJournal []);
             MkGoroutine AtSelectEnter (ms 1000) (MkJournal [(7%nat, false)])].
Proof.
  exact (stop_strands_restart_merges demo_queued []
           (MkGoroutine (AtSelect (ms 100)) (ms 1000) (MkJournal [])) (ms 100) 0%nat []
           false 7%nat [] eq_refl (Forall_nil_2 _) eq_refl eq_refl eq_refl eq_refl eq_refl
           ltac:(done)).
Defined.
