(* ===== verification/Unserialised.v ===== *)
(** * Unserialised: lifecycle calls that overlap

    The source asks its callers to serialise [Start] and [Stop].  This file
    says what happens when they do not, in every state and for every pair of
    clients, not for one execution.

    Two [Start] calls that overlap both pass the test of line 50 before
    either reaches line 54: two goroutines are launched ([racing_starts]).
    A [Stop] then ends one of them and clears [isRunning]; the other is
    [leaked]: it stays in its loop, on the same channels, and since every
    later [Stop] sees the flag clear and returns, nothing but another
    [Start] can ever make it leave.

    Two [Stop] calls that overlap both pass the test of line 98
    ([racing_stops]).  The loop takes the signal of one and returns; the
    other is [stranded] on its send of line 99, and stays there until a later
    [Start] launches a loop that takes the stale signal. *)

From S2P Require Import Prelude GoTime Channel Buffer Observer System Invariants Demo.
From S2P Require Import Queues Backpressure Lifecycle Restart.

Section unserialised.
Context {R B K : Type} `{!ObserverBuffer R B} `{!StatsReceiver B K}.

Implicit Types (s : Sys R B K) (l : Label R) (ls : list (Label R)).
Implicit Types (o : Observer R K) (g : Goroutine B) (i n c : nat).

(** Clients [c1] and [c2] call [Start] together; the two goroutines, which
    are the [n]-th and the next, run up to their [select]. *)
Definition racing_starts n c1 c2 : list (Label R) :=
  [CallStart c1; CallStart c2; StartSpawn c1; StartSpawn c2;
   Loop n Init; Loop n Enter; Loop (S n) Init; Loop (S n) Enter].

(** Clients [c1] and [c2] call [Stop] together; goroutine [i] takes the
    signal of [c1]. *)
Definition racing_stops i c1 c2 : list (Label R) :=
  [CallStop c1; CallStop c2] ++ shutdown i c1.

(** Client [c'] calls [Start]; the goroutine it launches, the [n]-th, runs
    up to its [select] and takes the exit signal that client [c] offers. *)
Definition release n c' c : list (Label R) :=
  [CallStart c'; StartSpawn c'; Loop n Init; Loop n Enter; SelectExit n c].

(** Goroutine [i] is in its loop although the observer is not running and
    no call is in progress. *)
Definition leaked i s : Prop :=
  isRunning (obs s) = false ∧ cs s = ∅ ∧ ∃ g, gs s !! i = Some g ∧ in_loop (pc g) = true.

(** Client [c] is blocked on [exitSignal] and no goroutine is left to
    receive from it. *)
Definition stranded c s : Prop :=
  isRunning (obs s) = false ∧ returned (gs s) ∧ cs s = {[c := InStopSend]}.

(** The goroutine of an observer started at clock [t], waiting in its
    [select]. *)
Definition waiting (t : Time) o : Goroutine B :=
  MkGoroutine (AtSelect (Add t (timeout o))) (Add t (reportInterval o)) buffer_empty.

(** ** Short of a [Start] *)

Lemma leaked_step i s l s' :
  leaked i s → no_start l = true → step l s = Some s' → leaked i s'.
Proof.
  unfold leaked. intros (Hrun & Hcs & g & Hi & Hin) Hl H.
  inv_step H; try done;
    try (match goal with Hc : cs _ !! _ = Some _ |- _ =>
           by rewrite Hcs lookup_empty in Hc end);
    try (split_and!; [done..|by eauto]).
  - rewrite /Stop_check Hrun /=. eauto.
  - match goal with H : TargetWrite _ _ = Some _ |- _ =>
      apply TargetWrite_frame in H as (? & _ & ->) end. eauto.
  - match goal with H : TargetWriteOversized _ _ = Some _ |- _ =>
      apply TargetWriteOversized_frame in H as (? & _ & ->) end. eauto.
  - match goal with Hg : gs s !! ?j = Some _, Ha : act _ _ _ _ = Some _ |- _ =>
      destruct (decide (j = i)) as [->|Hne] end.
    + simplify_eq. destruct (act_in_loop _ _ _ _ _ _ _ ltac:(eassumption) Hin) as [? ->].
      split_and!; [done..|]. eexists. split; [|done].
      by apply list_lookup_insert_eq, lookup_lt_Some with g.
    + split_and!; [|done|exists g; by rewrite list_lookup_insert_ne].
      match goal with Ha : act _ _ _ _ = Some _ |- _ => inv_act Ha; simpl; try done end;
        by destruct (send_stats_frame (obs s) (buffer gr)) as (_&_&_&_&_&_&->).
Qed.

Lemma stranded_step c s l s' :
  stranded c s → no_start l = true → step l s = Some s' → stranded c s'.
Proof.
  unfold stranded. intros (Hrun & Hret & Hcs) Hl H.
  inv_step H; try done;
    try (match goal with Hc : cs _ !! _ = Some _ |- _ =>
           rewrite Hcs in Hc; by apply singleton_lookup_inv in Hc as [_ ?] end).
  - by rewrite /Stop_check Hrun.
  - match goal with H : TargetWrite _ _ = Some _ |- _ =>
      by apply TargetWrite_frame in H as (? & _ & ->) end.
  - match goal with H : TargetWriteOversized _ _ = Some _ |- _ =>
      by apply TargetWriteOversized_frame in H as (? & _ & ->) end.
  - match goal with Hg : gs _ !! _ = Some _, Ha : act _ _ _ _ = Some _ |- _ =>
      apply act_live in Ha; by rewrite (returned_lookup _ _ _ Hret Hg) in Ha end.
  - match goal with Hg : gs _ !! _ = Some _, Ha : select_exit _ = Some _ |- _ =>
      inv_sync Ha; rewrite (returned_lookup _ _ _ Hret Hg) in Heqp; done end.
Qed.

Lemma leaked_run i ls s s' :
  leaked i s → forallb no_start ls = true → run ls s = Some s' → leaked i s'.
Proof.
  revert s. induction ls as [|l ls IH]; intros s Hi Hls Hr; simpl in *.
  - by simplify_eq.
  - apply andb_true_iff in Hls as [Hl Hls].
    destruct (step l s) as [s1|] eqn:E; [|done]. eauto using leaked_step.
Qed.

Lemma stranded_run c ls s s' :
  stranded c s → forallb no_start ls = true → run ls s = Some s' → stranded c s'.
Proof.
  revert s. induction ls as [|l ls IH]; intros s Hi Hls Hr; simpl in *.
  - by simplify_eq.
  - apply andb_true_iff in Hls as [Hl Hls].
    destruct (step l s) as [s1|] eqn:E; [|done]. eauto using stranded_step.
Qed.

(** ** The two races *)

Lemma racing_starts_run s c1 c2 :
  c1 ≠ c2 → cs s = ∅ → isRunning (obs s) = false →
  run (racing_starts (length (gs s)) c1 c2) s =
    Some (MkSys (set_isRunning true (obs s))
            (gs s ++ [waiting (now s) (obs s); waiting (now s) (obs s)]) ∅ (now s)
            (logs s)) ∧
  serial_run (racing_starts (length (gs s)) c1 c2) s = false.
Proof.
  intros Hne Hcs Hrun. destruct s as [o gl cl t lg]. simpl in *. subst cl.
  rewrite /racing_starts /= lookup_empty /Start_check Hrun /=.
  rewrite lookup_insert_ne // lookup_empty Hrun /= lookup_insert_ne // lookup_insert_eq /=.
  rewrite lookup_delete_ne // lookup_insert_eq /= -!app_assoc /=.
  rewrite lookup_app_0 /= insert_app_0 lookup_app_0 /= insert_app_0.
  rewrite lookup_app_1 /= insert_app_1 lookup_app_1 /= insert_app_1 !app_nil_r.
  rewrite delete_insert_ne // !delete_insert_eq !delete_empty.
  split; [done|].
  by rewrite (bool_decide_eq_false_2 (<[c1:=InStartSet]> ∅ = ∅)) ?andb_false_r.
Qed.

Lemma racing_stops_run s i g c1 c2 timer :
  c1 ≠ c2 → cs s = ∅ → isRunning (obs s) = true → gs s !! i = Some g →
  pc g = AtSelect timer →
  run (racing_stops i c1 c2) s =
    Some (MkSys (set_isRunning false (send_stats (obs s) (buffer g)))
            (<[i := MkGoroutine AtReturn (reportTime g) (buffer g)]> (gs s))
            {[c2 := InStopSend]} (now s)
            (logs s ++ [Warn msg_exit; Infof (buffer_string (buffer g))])) ∧
  serial_run (racing_stops i c1 c2) s = false.
Proof.
  intros Hne Hcs Hrun Hi Hpc.
  assert (run [CallStop c1; CallStop c2] s =
            Some (MkSys (obs s) (gs s) (<[c2 := InStopSend]> {[c1 := InStopSend]})
                    (now s) (logs s))) as Hcalls.
  { rewrite /= Hcs lookup_empty /Stop_check Hrun /= insert_empty.
    by rewrite lookup_singleton_ne // Hrun. }
  unfold racing_stops. rewrite run_app serial_run_app Hcalls. cbn [mbind option_bind].
  erewrite shutdown_run_any;
    [|done..|by rewrite /= lookup_insert_ne // lookup_singleton_eq].
  split.
  - by rewrite /= delete_insert_ne // delete_singleton_eq.
  - assert (serial_run [CallStop c1; CallStop c2] s = false) as ->; [|done].
    rewrite /= Hcs lookup_empty /Stop_check Hrun /=.
    by rewrite (bool_decide_eq_false_2 (<[c1:=InStopSend]> ∅ = ∅)) ?andb_false_r.
Qed.

Lemma release_run s c c' :
  c' ≠ c → cs s = {[c := InStopSend]} → isRunning (obs s) = false →
  run (release (length (gs s)) c' c) s =
    Some (MkSys (set_isRunning true (obs s))
            (gs s ++ [MkGoroutine AtExitFlush (Add (now s) (reportInterval (obs s)))
                        buffer_empty])
            {[c := InStopWait]} (now s) (logs s)).
Proof.
  intros Hne Hcs Hrun. destruct s as [o gl cl t lg]. simpl in *. subst cl.
  rewrite /release /= lookup_singleton_ne // /Start_check Hrun /= lookup_insert_eq /=.
  rewrite delete_insert_eq delete_singleton_ne // lookup_snoc_new /= insert_snoc_last.
  rewrite lookup_snoc_new /= insert_snoc_last lookup_snoc_new /= lookup_singleton_eq.
  by rewrite insert_snoc_last insert_singleton_eq !app_nil_r.
Qed.

(** ** The claims *)

(** C33 (two Starts at once leak a loop).  In every state in which the
    observer is not running and no call is in progress, two clients that
    call [Start] together both pass the test of [isRunning]: the execution
    is possible and it is not a serialised one, no warning is logged, and two
    goroutines wait in their [select] on the same channels.  A [Stop] then
    ends the first of them and clears [isRunning]; the second is still in
    its loop, and whatever happens afterwards short of another [Start] (any
    number of [Stop] calls included) it stays there. *)
Theorem racing_starts_two_loops s c1 c2 :
  c1 ≠ c2 → cs s = ∅ → isRunning (obs s) = false →
  ∃ s1 s2,
    run (racing_starts (length (gs s)) c1 c2) s = Some s1 ∧
    serial_run (racing_starts (length (gs s)) c1 c2) s = false ∧
    gs s1 = gs s ++ [waiting (now s) (obs s); waiting (now s) (obs s)] ∧
    logs s1 = logs s ∧
    run (stop_call (length (gs s)) c1) s1 = Some s2 ∧
    leaked (S (length (gs s))) s2 ∧
    ∀ ls s3, forallb no_start ls = true → run ls s2 = Some s3 →
             leaked (S (length (gs s))) s3.
Proof.
  intros Hne Hcs Hrun. destruct (racing_starts_run s c1 c2 Hne Hcs Hrun) as [H1 Hser].
  match type of H1 with _ = Some ?x => set (s1 := x) in * end.
  pose proof (stop_call_run s1 (length (gs s)) (waiting (now s) (obs s)) c1
                (Add (now s) (timeout (obs s))) eq_refl eq_refl (lookup_app_0 _ _ _)
                eq_refl) as H2.
  match type of H2 with _ = Some ?x => set (s2 := x) in * end.
  assert (leaked (S (length (gs s))) s2) as Hleak.
  { split_and!; [|done|].
    - by destruct (send_stats_frame (set_isRunning true (obs s))
                     (buffer (waiting (now s) (obs s)))) as (_&_&_&_&_&_&?).
    - exists (waiting (now s) (obs s)). by rewrite /= insert_app_0 lookup_app_1. }
  exists s1, s2. split_and!; try done. intros ls s3. by apply leaked_run.
Qed.

(** C34 (two Stops at once strand a caller).  In every state in which one
    loop waits in its [select] and no call is in progress, two clients that
    call [Stop] together both pass the test of [isRunning]; the loop takes
    the signal of one, does its final flush once and returns; the other
    caller is blocked on its send with no goroutine left to receive it, and
    whatever happens afterwards short of a [Start] it stays blocked.  A later
    [Start] releases it, and the loop that [Start] launches is then told to
    exit as soon as it reaches its [select]. *)
Theorem racing_stops_block s past g timer c1 c2 c3 :
  c1 ≠ c2 → c3 ≠ c2 → cs s = ∅ → isRunning (obs s) = true →
  gs s = past ++ [g] → returned past → pc g = AtSelect timer →
  ∃ s1 s3,
    run (racing_stops (length past) c1 c2) s = Some s1 ∧
    serial_run (racing_stops (length past) c1 c2) s = false ∧
    stranded c2 s1 ∧
    statsClient (obs s1) = (λ k, Send k (buffer g)) <$> statsClient (obs s) ∧
    (∀ ls s2, forallb no_start ls = true → run ls s1 = Some s2 →
              stranded c2 s2 ∧ ∀ j, step (SelectExit j c2) s2 = None) ∧
    run (release (S (length past)) c3 c2) s1 = Some s3 ∧
    cs s3 = {[c2 := InStopWait]} ∧
    ∃ g', gs s3 !! S (length past) = Some g' ∧ pc g' = AtExitFlush.
Proof.
  intros Hne Hne3 Hcs Hrun Hgs Hret Hpc.
  destruct (racing_stops_run s (length past) g c1 c2 timer) as [H1 Hser];
    [done..|by rewrite Hgs lookup_snoc_new|done|].
  rewrite Hgs insert_snoc_last in H1.
  match type of H1 with _ = Some ?x => set (s1 := x) in * end.
  assert (stranded c2 s1) as Hs.
  { split_and!; [done| |done]. by apply returned_snoc. }
  pose proof (release_run s1 c2 c3 Hne3 eq_refl eq_refl) as H3.
  rewrite {1}/s1 /= length_snoc in H3.
  exists s1. eexists. split_and!; [done..| | |exact H3|done|].
  - by rewrite /= send_stats_statsClient.
  - intros ls s2 Hls Hr. pose proof (stranded_run _ _ _ _ Hs Hls Hr) as Hs2.
    split; [done|]. intros j. destruct Hs2 as (_ & Hret2 & _). simpl.
    destruct (gs s2 !! j) as [gj|] eqn:Hj; [|done].
    by rewrite /= /select_exit (returned_lookup _ _ _ Hret2 Hj).
  - eexists. split; [by rewrite /= -app_assoc /= lookup_app_1|done].
Qed.

End unserialised.

(** ** Witnesses on the concrete system of [Demo] *)

Lemma racing_starts_two_loops_witness :
  ∃ s1 s2,
    run (racing_starts 0 0 1) demo_init = Some s1 ∧
    serial_run (racing_starts 0 0 1) demo_init = false ∧
    gs s1 = [waiting 0 (obs demo_init); waiting 0 (obs demo_init)] ∧
    logs s1 = [] ∧
    run (stop_call 0 0) s1 = Some s2 ∧
    leaked 1 s2 ∧
    ∀ ls s3, forallb no_start ls = true → run ls s2 = Some s3 → leaked 1 s3.
Proof. exact (racing_starts_two_loops demo_init 0 1 ltac:(done) eq_refl eq_refl). Defined.

Lemma racing_stops_block_witness :
  ∃ s1 s3,
    run (racing_stops 0 0 1) demo_running = Some s1 ∧
    serial_run (racing_stops 0 0 1) demo_running = false ∧
    stranded 1 s1 ∧
    statsClient (obs s1) = Some [MkJournal []] ∧
    (∀ ls s2, forallb no_start ls = true → run ls s1 = Some s2 →
              stranded 1 s2 ∧ ∀ j, step (SelectExit j 1) s2 = None) ∧
    run (release 1 2 1) s1 = Some s3 ∧
    cs s3 = {[1%nat := InStopWait]} ∧
    ∃ g', gs s3 !! 1%nat = Some g' ∧ pc g' = AtExitFlush.
Proof.
  exact (racing_stops_block demo_running []
           (MkGoroutine (AtSelect (ms 100)) (ms 1000) (MkJournal [])) (ms 100) 0 1 2
           ltac:(done) ltac:(done) eq_refl eq_refl eq_refl (Forall_nil_2 _) eq_refl).
Defined.
