(* ===== verification/Fair.v ===== *)
(** * Fair: the loop terminates, and [Stop] returns in every fair execution

    The body of [ObserverLoop] has no inner loop: between two choices of the
    [select] the goroutine takes at most five steps.  [potential] is the
    number of steps that separate a program point from the return of the
    goroutine when the [select] takes the exit case; every step of the
    goroutine lowers it, except the three other cases of the [select], which
    raise it by four.

    An infinite execution is a function from step numbers to labels.  It is
    fair to goroutine [i] when the goroutine is scheduled again whenever it
    can take a step, and when its [select] prefers another ready case to a
    ready exit signal at most [bound] times.  In every such execution of the
    serialised system a [Stop] that has passed its test of [isRunning]
    returns.  The bound is needed: [starve] is an infinite execution in which
    the goroutine keeps running, its [select] takes a queued result every
    time, and [Stop] never returns. *)

From S2P Require Import Prelude GoTime Channel Buffer Observer System Invariants Demo.
From S2P Require Import Lifecycle Progress.

Local Open Scope nat_scope.

Section fair.
Context {R B K : Type} `{!ObserverBuffer R B} `{!StatsReceiver B K}.

Implicit Types (s : Sys R B K) (l : Label R) (ls : list (Label R)) (g : Goroutine B).
Implicit Types (i c n m : nat) (σ : nat → Label R) (p : PC) (a : Action).
Implicit Types (o : Observer R K) (t : Time).

(** The steps the goroutine takes from [p] to its return when the [select]
    takes the exit case, the periodic flush counted in. *)
Definition potential p : nat :=
  match p with
  | AtCheck => 8
  | AtFlush => 7
  | AtReset | AtInit => 6
  | AtSelectEnter => 5
  | AtSelect _ => 4
  | AtExitFlush => 3
  | AtExitClear => 2
  | AtStopDone => 1
  | AtReturn => 0
  end.

(** The cases of the [select] that stay in the loop. *)
Definition other_case a : bool :=
  match a with RecvWrite | RecvOversized | Timeout => true | _ => false end.

(** The labels that are steps of goroutine [i]. *)
Definition by_loop i l : bool :=
  match l with
  | Loop j _ | SelectExit j _ | StopDone j _ => bool_decide (j = i)
  | _ => false
  end.

(** Those in which its [select] takes a case that stays in the loop. *)
Definition by_other_case i l : bool :=
  match l with
  | Loop j a => bool_decide (j = i) && other_case a
  | _ => false
  end.

(** The label is the return of the [Stop] call of client [c]. *)
Definition returns c l : bool :=
  match l with StopDone _ c' => bool_decide (c' = c) | _ => false end.

Definition loop_steps i ls : nat := length (filter (λ l, by_loop i l) ls).
Definition other_choices i ls : nat := length (filter (λ l, by_other_case i l) ls).

(** The first [n] labels of an infinite schedule. *)
Definition prefix σ n : list (Label R) := σ <$> seq 0 n.

(** Goroutine [i] can take a step. *)
Definition runnable i s : Prop := ∃ l, by_loop i l = true ∧ is_Some (step l s).

(** An infinite serialised execution from [s] that is fair to goroutine
    [i]. *)
Record fair i (bound : nat) s σ : Prop := {
  fair_serial : ∀ n, serial_run (prefix σ n) s = true;
  fair_scheduled : ∀ n sn,
    run (prefix σ n) s = Some sn → runnable i sn → ∃ m, n ≤ m ∧ by_loop i (σ m) = true;
  fair_select : ∀ n, other_choices i (prefix σ n) ≤ bound;
}.

(** A finite schedule followed by one label for ever, and by a clock that
    stands still. *)
Definition pad_with (l0 : Label R) ls : nat → Label R := λ n, default l0 (ls !! n).
Definition pad ls : nat → Label R := pad_with (Tick 0%Z) ls.

(** The [Stop] call of client [c] is in progress and no goroutine has been
    launched since the table had [n] entries. *)
Definition stop_pending c n s : Prop :=
  length (gs s) = n ∧ (cs s = {[c := InStopSend]} ∨ cs s = {[c := InStopWait]}).

(** The step by which goroutine [i] at [p] serves the [Stop] call of [c]. *)
Definition next_label i c p : Label R :=
  match p with
  | AtSelect _ => SelectExit i c
  | AtStopDone => StopDone i c
  | _ => Loop i (next_action p)
  end.

(** An infinite schedule in which the [select] of goroutine [i] never
    takes the exit signal: the goroutine merges a result, tests the deadline
    and enters the [select] again, a producer pushes the next result, and so
    on. *)
Fixpoint starve i (r : R) n : Label R :=
  match n with
  | 0 => Loop i RecvWrite
  | 1 => Loop i Check
  | 2 => Loop i Enter
  | 3 => CallTargetWrite r
  | S (S (S (S n))) => starve i r n
  end.

(** The labels of the loop, the producers and the clock. *)
Definition data_step l : bool :=
  match l with
  | Loop _ _ | CallTargetWrite _ | CallTargetWriteOversized _ | Tick _ => true
  | _ => false
  end.

(** Client [c] offers the exit signal, goroutine [i] waits in its [select]
    before the report deadline, and a result is queued. *)
Definition starving c i s : Prop :=
  cs s = {[c := InStopSend]} ∧
  ∃ g timer, gs s !! i = Some g ∧ pc g = AtSelect timer ∧ (now s ≤ reportTime g)%Z ∧
             chan_buf (targetWriteChan (obs s)) ≠ [] ∧ chan_wf (targetWriteChan (obs s)).

(** ** Counting *)

Lemma loop_steps_snoc i ls l :
  loop_steps i (ls ++ [l]) = loop_steps i ls + (if by_loop i l then 1 else 0).
Proof.
  rewrite /loop_steps list.filter_app length_app filter_cons filter_nil.
  by destruct (by_loop i l).
Qed.

Lemma other_choices_snoc i ls l :
  other_choices i (ls ++ [l]) = other_choices i ls + (if by_other_case i l then 1 else 0).
Proof.
  rewrite /other_choices list.filter_app length_app filter_cons filter_nil.
  by destruct (by_other_case i l).
Qed.

Lemma prefix_S σ n : prefix σ (S n) = prefix σ n ++ [σ n].
Proof. by rewrite /prefix seq_S fmap_app. Qed.

Lemma prefix_run_S σ s n sn :
  run (prefix σ (S n)) s = Some sn ↔
  ∃ s1, run (prefix σ n) s = Some s1 ∧ step (σ n) s1 = Some sn.
Proof.
  rewrite prefix_S run_snoc. split.
  - intros (s1 & ? & ?)%bind_Some_inv. eauto.
  - by intros (s1 & -> & ?).
Qed.

Lemma prefix_le σ n m : n ≤ m → ∃ ls, prefix σ m = prefix σ n ++ ls.
Proof.
  induction 1 as [|m _ [ls IH]]; [exists []; by rewrite app_nil_r|].
  exists (ls ++ [σ m]). by rewrite prefix_S IH app_assoc.
Qed.

Lemma forallb_prefix (f : Label R → bool) σ n :
  (∀ k, f (σ k) = true) → forallb f (prefix σ n) = true.
Proof.
  intros Hf. induction n as [|n IH]; [done|].
  by rewrite prefix_S forallb_app IH /= Hf.
Qed.

Lemma loop_steps_prefix_mono i σ n m :
  n ≤ m → loop_steps i (prefix σ n) ≤ loop_steps i (prefix σ m).
Proof.
  induction 1 as [|m _ IH]; [done|]. rewrite prefix_S loop_steps_snoc. lia.
Qed.

(** ** The potential *)

Lemma act_potential a t o g o' g' lg :
  act a t o g = Some (o', g', lg) →
  potential (pc g') + 1 ≤ potential (pc g) + (if other_case a then 5 else 0).
Proof.
  intros H. inv_act H;
    repeat match goal with H : pc g = _ |- _ => rewrite H; clear H end;
    simpl; try lia; case_match; simpl; lia.
Qed.

Lemma sync_potential g g' :
  select_exit g = Some g' ∨ stop_done g = Some g' →
  potential (pc g') + 1 ≤ potential (pc g).
Proof.
  intros [H|H]; inv_sync H;
    repeat match goal with H : pc g = _ |- _ => rewrite H; clear H end; simpl; lia.
Qed.

(** One step of the system and the potential of goroutine [i]: a step of
    another thread leaves it, a step of the goroutine lowers it by one at
    least, unless the [select] took a case that stays in the loop. *)
Lemma step_potential l s s' i g :
  step l s = Some s' → gs s !! i = Some g →
  ∃ g', gs s' !! i = Some g' ∧
        potential (pc g') + (if by_loop i l then 1 else 0)
        ≤ potential (pc g) + (if by_other_case i l then 5 else 0).
Proof.
  intros H Hi. inv_step H; try (by exists g; split; [|lia]).
  - unfold Start_spawn in *. simplify_eq.
    exists g. split; [by apply lookup_snoc_old|lia].
  - match goal with Hj : gs s !! _ = Some ?gr, Ha : act _ _ _ ?gr = Some (_, ?gr', _) |- _ =>
      destruct (lookup_insert_cases _ _ _ _ _ gr' Hi Hj) as [(-> & -> & ?)|[? ?]];
      [apply act_potential in Ha|] end.
    + exists gr'. by rewrite bool_decide_eq_true_2.
    + exists g. by rewrite bool_decide_eq_false_2.
  - match goal with Hj : gs s !! _ = Some ?gr, He : select_exit ?gr = Some ?gr' |- _ =>
      destruct (lookup_insert_cases _ _ _ _ _ gr' Hi Hj) as [(-> & -> & ?)|[? ?]];
      [pose proof (sync_potential _ _ (or_introl He))|] end.
    + exists gr'. rewrite bool_decide_eq_true_2 //. split; [done|lia].
    + exists g. by rewrite bool_decide_eq_false_2.
  - match goal with Hj : gs s !! _ = Some ?gr, He : stop_done ?gr = Some ?gr' |- _ =>
      destruct (lookup_insert_cases _ _ _ _ _ gr' Hi Hj) as [(-> & -> & ?)|[? ?]];
      [pose proof (sync_potential _ _ (or_intror He))|] end.
    + exists gr'. rewrite bool_decide_eq_true_2 //. split; [done|lia].
    + exists g. by rewrite bool_decide_eq_false_2.
Qed.

(** Along a schedule. *)
Lemma run_potential ls s s' i g :
  run ls s = Some s' → gs s !! i = Some g →
  ∃ g', gs s' !! i = Some g' ∧
        potential (pc g') + loop_steps i ls ≤ potential (pc g) + 5 * other_choices i ls.
Proof.
  intros Hr Hi. revert ls s' Hr.
  apply (run_ind (λ ls s', ∃ g', gs s' !! i = Some g' ∧
           potential (pc g') + loop_steps i ls
           ≤ potential (pc g) + 5 * other_choices i ls)).
  - exists g. split; [done|]. rewrite /loop_steps /other_choices /=. lia.
  - intros ls s1 l s2 _ (g1 & Hg1 & IH) Hstep.
    destruct (step_potential _ _ _ _ _ Hstep Hg1) as (g2 & Hg2 & Hle).
    exists g2. split; [done|]. rewrite loop_steps_snoc other_choices_snoc.
    destruct (by_loop i l), (by_other_case i l); lia.
Qed.

(** ** The loop terminates *)

(** C15 (the loop body terminates).  In every execution the number of
    steps a goroutine of [Start] takes is bounded by the potential of the
    program point it started from plus five for each time its [select] took
    a case that stays in the loop: an iteration of [ObserverLoop] is at most
    five steps, and once the [select] takes the exit case the goroutine
    returns within three more. *)
Theorem loop_steps_bounded ls s s' i g :
  run ls s = Some s' → gs s !! i = Some g →
  loop_steps i ls ≤ potential (pc g) + 5 * other_choices i ls ∧
  (potential (pc g) + 5 * other_choices i ls ≤ loop_steps i ls →
   ∃ g', gs s' !! i = Some g' ∧ pc g' = AtReturn).
Proof.
  intros Hr Hi. destruct (run_potential _ _ _ _ _ Hr Hi) as (g' & Hg' & Hle).
  split; [lia|]. intros Hge. exists g'. split; [done|].
  destruct (pc g'); simpl in Hle; try lia; done.
Qed.

(** ** A [Stop] in progress *)

Lemma stop_pending_client c n s c' (q : ClientPC) :
  stop_pending c n s → cs s !! c' = Some q →
  c' = c ∧ (q = InStopSend ∧ cs s = {[c := InStopSend]}
            ∨ q = InStopWait ∧ cs s = {[c := InStopWait]}).
Proof.
  intros [_ [Hcs|Hcs]] Hc; rewrite Hcs in Hc;
    apply singleton_lookup_inv in Hc as [-> ->]; eauto.
Qed.

Lemma stop_pending_nonempty c n s : stop_pending c n s → cs s ≠ ∅.
Proof. intros [_ [->| ->]]; apply map_non_empty_singleton. Qed.

(** Until it returns, a [Stop] in progress stays in progress: a serialised
    step begins no other call and launches no goroutine. *)
Lemma stop_pending_step c n s l s' :
  stop_pending c n s → serial l s = true → step l s = Some s' →
  returns c l = true ∨ stop_pending c n s'.
Proof.
  intros Hp Hser H. pose proof (stop_pending_nonempty _ _ _ Hp) as Hne.
  pose proof (λ c' q, stop_pending_client c n s c' q Hp) as Hcl.
  destruct Hp as [Hlen Hcs].
  inv_step H; try (by right); try (by apply bool_decide_eq_true in Hser);
    try match goal with Hc : cs s !! _ = Some _ |- _ => apply Hcl in Hc as [-> Hq] end.
  - by destruct Hq as [[? _]|[? _]].
  - right. split; [by rewrite length_insert|done].
  - right. split; [by rewrite length_insert|].
    destruct Hq as [[_ ->]|[? _]]; [|done]. right. apply insert_singleton_eq.
  - left. by apply bool_decide_eq_true_2.
Qed.

Lemma stop_pending_run c n s ls s' :
  stop_pending c n s → serial_run ls s = true → run ls s = Some s' →
  Exists (λ l, returns c l = true) ls ∨ stop_pending c n s'.
Proof.
  intros Hp. revert ls s'.
  apply (serial_run_ind (λ ls s', Exists (λ l, returns c l = true) ls ∨ stop_pending c n s')).
  - by right.
  - intros ls s1 l s2 _ _ [IH|IH] Hser Hstep.
    + left. apply Exists_app. by left.
    + destruct (stop_pending_step _ _ _ _ _ IH Hser Hstep) as [?|?]; [left|by right].
      apply Exists_app. right. by constructor.
Qed.

(** While its [Stop] is in progress the last goroutine can take a step:
    the exit case of its [select] is ready, and so is the receive of the
    caller on [stopDone]. *)
Lemma stop_pending_runnable c i s :
  phase_inv s → stop_pending c (S i) s → runnable i s.
Proof.
  intros Hph [Hlen Hpend]. unfold phase_inv in Hph. destruct s as [o gl cl t lg].
  simpl in *.
  phase_cases Hph;
    try (by destruct Hpend as [Hp|Hp];
         apply (f_equal (λ m : gmap nat ClientPC, m !! c)) in Hp;
         rewrite lookup_singleton_eq in Hp; client_is Hp);
    rewrite length_snoc in Hlen; simplify_eq;
    exists (next_label (length past) c0 (pc g0));
    (split; [by destruct (pc g0); apply bool_decide_eq_true_2|]);
    destruct g0 as [p rt b]; simpl in *.
  - destruct p; try done; rewrite /= lookup_snoc_new /= ?lookup_singleton_eq;
      by eexists.
  - destruct Hpc; subst p; rewrite /= lookup_snoc_new /=; by eexists.
  - subst p. rewrite /= lookup_snoc_new /= lookup_singleton_eq. by eexists.
Qed.

(** A goroutine that has returned takes no step. *)
Lemma returned_not_runnable i s g :
  gs s !! i = Some g → pc g = AtReturn → ¬ runnable i s.
Proof.
  intros Hi Hpc (l & Hl & s' & Hs).
  destruct l; try done; apply bool_decide_eq_true in Hl as ->;
    inv_step Hs; simplify_eq.
  - match goal with Ha : act _ _ _ _ = Some _ |- _ => inv_act Ha; congruence end.
  - match goal with Ha : select_exit _ = Some _ |- _ => inv_sync Ha; congruence end.
  - match goal with Ha : stop_done _ = Some _ |- _ => inv_sync Ha; congruence end.
Qed.

(** When the [Stop] call returns no client is inside a call, [isRunning]
    is clear and every goroutine has returned. *)
Lemma stop_return_step c n l s s' :
  phase_inv s → stop_pending c n s → returns c l = true → step l s = Some s' →
  cs s' = ∅ ∧ isRunning (obs s') = false ∧ returned (gs s').
Proof.
  intros Hph _ Hlab Hstep. destruct l; try done.
  apply bool_decide_eq_true in Hlab as ->. unfold phase_inv in Hph.
  destruct s as [o gl cl t lg]. inv_step Hstep.
  match goal with
  | Hi : gl !! _ = Some ?gr, He : stop_done ?gr = Some _, Hc : cl !! _ = Some _ |- _ =>
      inv_sync He; assert (live (pc gr) = true) as Hl by (by destruct (pc gr));
      phase_cases Hph; client_is Hc; acting_is_last Hi Hl
  end.
  - destruct Hpc; congruence.
  - rewrite delete_singleton_eq. split_and!; [done..|]. by apply returned_snoc.
Qed.

(** ** A finite execution followed by a clock that stands still *)

Lemma step_Tick_0 s : step (Tick 0%Z) s = Some s.
Proof. destruct s. by rewrite /= Z.add_0_r. Qed.

Lemma run_ticks k s : run (replicate k (Tick 0%Z)) s = Some s.
Proof.
  induction k as [|k IH]; [done|]. cbn [replicate run]. by rewrite step_Tick_0.
Qed.

Lemma serial_run_ticks k s : serial_run (replicate k (Tick 0%Z)) s = true.
Proof.
  induction k as [|k IH]; [done|]. cbn [replicate serial_run]. by rewrite step_Tick_0.
Qed.

Lemma prefix_pad_with l0 ls n :
  prefix (pad_with l0 ls) n = take n ls ++ replicate (n - length ls) l0.
Proof.
  induction n as [|n IH]; [done|]. rewrite prefix_S IH /pad_with.
  destruct (ls !! n) as [l|] eqn:E; simpl.
  - pose proof (lookup_lt_Some _ _ _ E).
    rewrite (take_S_r _ _ _ E). replace (n - length ls) with 0 by lia.
    replace (S n - length ls) with 0 by lia. by rewrite !app_nil_r.
  - apply lookup_ge_None in E. rewrite !take_ge; [|lia..].
    replace (S n - length ls) with (S (n - length ls)) by lia.
    by rewrite replicate_S_end app_assoc.
Qed.

Lemma prefix_pad ls n :
  prefix (pad ls) n = take n ls ++ replicate (n - length ls) (Tick 0%Z).
Proof. apply prefix_pad_with. Qed.

Lemma run_prefix_pad ls s n : run (prefix (pad ls) n) s = run (take n ls) s.
Proof.
  rewrite prefix_pad run_app. destruct (run (take n ls) s); [apply run_ticks|done].
Qed.

Lemma serial_prefix_pad ls s n :
  serial_run ls s = true → serial_run (prefix (pad ls) n) s = true.
Proof.
  rewrite -{1}(take_drop n ls). intros Hs%serial_run_app_l.
  rewrite prefix_pad serial_run_app Hs /=.
  destruct (serial_run_is_Some _ _ Hs) as [s1 ->]. apply serial_run_ticks.
Qed.

Lemma other_choices_app i ls ls' :
  other_choices i (ls ++ ls') = other_choices i ls + other_choices i ls'.
Proof. by rewrite /other_choices list.filter_app length_app. Qed.

Lemma other_choices_ticks i k : other_choices i (replicate k (Tick 0%Z)) = 0.
Proof.
  unfold other_choices. induction k as [|k IH]; [done|].
  rewrite replicate_S filter_cons_False; [done|simpl; tauto].
Qed.

Lemma other_choices_prefix_pad i ls n :
  other_choices i (prefix (pad ls) n) ≤ other_choices i ls.
Proof.
  rewrite prefix_pad -{3}(take_drop n ls) !other_choices_app other_choices_ticks. lia.
Qed.

(** A serialised execution that ends with a step of goroutine [i], after
    which the goroutine has returned, is the beginning of a fair one. *)
Lemma pad_fair i s ls l s' g' :
  serial_run (ls ++ [l]) s = true → run (ls ++ [l]) s = Some s' →
  by_loop i l = true → gs s' !! i = Some g' → pc g' = AtReturn →
  fair i (other_choices i (ls ++ [l])) s (pad (ls ++ [l])).
Proof.
  intros Hser Hrun Hl Hi Hpc. split.
  - intros n. by apply serial_prefix_pad.
  - intros n sn Hn Hrunnable. rewrite run_prefix_pad in Hn.
    destruct (decide (n ≤ length ls)) as [?|Hgt].
    + exists (length ls). split; [done|]. by rewrite /pad /pad_with lookup_snoc_new.
    + rewrite take_ge in Hn; [|rewrite length_snoc; lia]. simplify_eq.
      by destruct (returned_not_runnable _ _ _ Hi Hpc).
  - intros n. apply other_choices_prefix_pad.
Qed.

(** ** Fair executions *)

Lemma Exists_prefix (P : Label R → Prop) σ n :
  Exists P (prefix σ n) → ∃ k, k < n ∧ P (σ k).
Proof.
  intros (l & (k & -> & Hk)%list_elem_of_fmap & Hl)%list.Exists_exists.
  apply elem_of_seq in Hk. exists k. split; [lia|done].
Qed.

(** The first return of the [Stop] call finds the call in progress. *)
Lemma first_return s c N σ n :
  stop_pending c N s → (∀ k, serial_run (prefix σ k) s = true) →
  returns c (σ n) = true →
  ∃ m s1 sm, returns c (σ m) = true ∧ run (prefix σ m) s = Some s1 ∧
             stop_pending c N s1 ∧ step (σ m) s1 = Some sm.
Proof.
  intros Hp Hser Hn.
  destruct (first_true (λ j, returns c (σ j)) 0 n Hn) as (m & _ & Hm & Hfirst).
  destruct (serial_run_is_Some _ _ (Hser m)) as [s1 H1].
  destruct (serial_run_is_Some _ _ (Hser (S m))) as [sm Hsm].
  apply prefix_run_S in Hsm as (s1' & ? & Hstep). simplify_eq.
  exists m, s1, sm. split_and!; [done..| |done].
  destruct (stop_pending_run _ _ _ _ _ Hp (Hser m) H1)
    as [(k & Hk & Hret)%Exists_prefix|?]; [|done].
  rewrite Hfirst in Hret; [done|lia].
Qed.

(** In a fair execution the goroutine that serves a [Stop] in progress
    takes as many steps as one asks for, unless the call returns first. *)
Lemma fair_steps s c i σ bound (N : nat) :
  (∀ n sn, run (prefix σ n) s = Some sn → phase_inv sn) →
  stop_pending c (S i) s → fair i bound s σ →
  (∃ n, returns c (σ n) = true) ∨ ∃ n, N ≤ loop_steps i (prefix σ n).
Proof.
  intros Hph Hp [Hser Hsched _]. induction N as [|N [?|[n Hn]]]; [right; exists 0; lia|by left|].
  destruct (serial_run_is_Some _ _ (Hser n)) as [sn Hrun].
  destruct (stop_pending_run _ _ _ _ _ Hp (Hser n) Hrun) as [(k & _ & ?)%Exists_prefix|Hpn];
    [left; by exists k|].
  destruct (Hsched n sn Hrun) as (m & Hm & Hl);
    [eapply stop_pending_runnable; eauto|].
  right. exists (S m). rewrite prefix_S loop_steps_snoc Hl.
  pose proof (loop_steps_prefix_mono i σ n m Hm). lia.
Qed.

(** C12 (Stop returns in every fair execution).  Take a state of the
    serialised system in which a client has passed the test of [Stop] and
    the goroutine of [Start] is alive, and any infinite serialised execution
    from it in which that goroutine is scheduled again whenever it can take
    a step and in which its [select] takes a case other than the exit signal
    at most [bound] times.  Then some step of the execution is the return of
    the [Stop] call, and after it no client is inside a call, [isRunning] is
    clear and every goroutine has returned: producers that keep pushing, the
    clock and the periodic flush cannot keep [Stop] from returning. *)
Theorem stop_returns_fair sc to ri (t0 : Time) s c i g σ bound :
  SReachable (initial sc to ri t0) s →
  cs s !! c = Some InStopSend → gs s !! i = Some g → live (pc g) = true →
  fair i bound s σ →
  ∃ n sn, returns c (σ n) = true ∧ run (prefix σ (S n)) s = Some sn ∧
          cs sn = ∅ ∧ isRunning (obs sn) = false ∧ returned (gs sn).
Proof.
  intros Hr Hc Hi Hl Hf.
  destruct (phase_stopping_inv _ _ _ _ (SReachable_phase_inv _ _ _ _ _ Hr) Hc)
    as (past & g0 & Hgs & Hret & _ & Hcs).
  rewrite Hgs in Hi. destruct (live_is_last _ _ _ _ Hret Hi Hl) as [-> ->].
  assert (∀ n sn, run (prefix σ n) s = Some sn → phase_inv sn) as Hph.
  { intros n sn Hn. eapply SReachable_phase_inv, SReachable_trans; [exact Hr|].
    eapply SReachable_run; [apply Hf|done]. }
  assert (stop_pending c (S (length past)) s) as Hp.
  { split; [by rewrite Hgs length_snoc|by left]. }
  destruct (fair_steps s c (length past) σ bound
              (S (potential (pc g0) + 5 * bound)) Hph Hp Hf) as [[n Hn]|[n Hn]].
  - destruct (first_return s c (S (length past)) σ n Hp (fair_serial _ _ _ _ Hf) Hn)
      as (m & s1 & sm & Hm & H1 & Hp1 & Hstep).
    exists m, sm. split; [done|]. split; [apply prefix_run_S; eauto|].
    eapply stop_return_step; eauto.
  - destruct (serial_run_is_Some _ _ (fair_serial _ _ _ _ Hf n)) as [sn Hsn].
    rewrite -Hgs in Hi.
    destruct (run_potential _ _ _ _ _ Hsn Hi) as (g' & _ & Hle).
    pose proof (fair_select _ _ _ _ Hf n). lia.
Qed.

(** ** Without fairness of the [select] *)

Lemma starve_cycle c i r s :
  starving c i s →
  ∃ s', run [Loop i RecvWrite; Loop i Check; Loop i Enter; CallTargetWrite r] s = Some s' ∧
        starving c i s'.
Proof.
  intros (Hcs & g & timer & Hi & Hpc & Hnow & Hne & Hwf).
  destruct s as [o gl cl t lg]. simpl in *.
  destruct (chan_buf (targetWriteChan o)) as [|r0 q] eqn:Hq; [done|].
  pose proof (lookup_lt_Some _ _ _ Hi) as Hlt.
  rewrite /run /= Hi /= /select_write Hpc /= /chan_recv Hq /=.
  rewrite list_lookup_insert_eq //= /check_report /=.
  assert (After t (reportTime g) = false) as -> by (apply After_false; lia).
  rewrite /= list_insert_insert_eq list_lookup_insert_eq //= /select_enter /=
    list_insert_insert_eq /TargetWrite /chan_send /chan_can_send /=.
  unfold chan_wf, chan_len in *. rewrite Hq /= in Hwf.
  rewrite bool_decide_eq_true_2 /=; [|lia].
  eexists. split; [done|]. split; [done|]. simpl. eexists _, _.
  split_and!; [by apply list_lookup_insert_eq|done..|by destruct q|].
  rewrite /chan_wf /chan_len /= length_snoc. lia.
Qed.

Lemma starve_period i r k j : starve i r (4 * k + j) = starve i r j.
Proof.
  induction k as [|k IH]; [done|].
  by replace (4 * S k + j) with (S (S (S (S (4 * k + j))))) by lia.
Qed.

Lemma prefix_starve i r k :
  prefix (starve i r) (4 * S k) =
  prefix (starve i r) (4 * k)
    ++ [Loop i RecvWrite; Loop i Check; Loop i Enter; CallTargetWrite r].
Proof.
  pose proof (starve_period i r k 0) as H0. pose proof (starve_period i r k 1) as H1.
  pose proof (starve_period i r k 2) as H2. pose proof (starve_period i r k 3) as H3.
  replace (4 * k + 0) with (4 * k) in H0 by lia.
  replace (4 * k + 1) with (S (4 * k)) in H1 by lia.
  replace (4 * k + 2) with (S (S (4 * k))) in H2 by lia.
  replace (4 * k + 3) with (S (S (S (4 * k)))) in H3 by lia.
  replace (4 * S k) with (S (S (S (S (4 * k))))) by lia.
  by rewrite !prefix_S -!app_assoc H0 H1 H2 H3.
Qed.

Lemma starve_rounds c i r s k :
  starving c i s →
  ∃ sk, run (prefix (starve i r) (4 * k)) s = Some sk ∧ starving c i sk.
Proof.
  intros Hs. induction k as [|k (sk & Hrun & Hsk)]; [by exists s|].
  destruct (starve_cycle c i r sk Hsk) as (s' & Hcyc & Hs').
  exists s'. by rewrite prefix_starve run_app Hrun.
Qed.

Lemma starve_data i r n : data_step (starve i r n) = true.
Proof.
  induction n as [n IH] using (well_founded_induction lt_wf).
  destruct n as [|[|[|[|n]]]]; try done. apply (IH n). lia.
Qed.

Lemma data_step_no_calls l : data_step l = true → no_calls l = true.
Proof. by destruct l. Qed.

(** Steps of the loop and of producers leave the callers where they are. *)
Lemma data_run_cs ls s s' :
  forallb data_step ls = true → run ls s = Some s' → cs s' = cs s.
Proof.
  intros Hd Hr. revert ls s' Hr Hd.
  apply (run_ind (λ ls s', forallb data_step ls = true → cs s' = cs s)); [done|].
  intros ls s1 l s2 _ IH Hstep Hd. rewrite forallb_app /= in Hd.
  apply andb_true_iff in Hd as [Hls Hl%andb_true_iff].
  rewrite -IH //. destruct l; try (by destruct Hl); by inv_step Hstep.
Qed.

(** C25 (an unfair select starves Stop).  When a client offers the exit
    signal while a result is queued, there is an infinite serialised
    execution in which the goroutine takes three steps out of every four and
    the [Stop] call never returns: each time the [select] takes the queued
    result, and a producer pushes the next one before the goroutine is back.
    Every prefix of the execution is executable and leaves the client blocked
    on its send.  That [Stop] returns rests on the [select] choosing the exit
    case among the ready ones, which Go does at random. *)
Theorem stop_can_starve c i r s n :
  starving c i s →
  ∃ sn, run (prefix (starve i r) n) s = Some sn ∧
        serial_run (prefix (starve i r) n) s = true ∧
        cs sn = {[c := InStopSend]} ∧
        ∃ m, n ≤ m ∧ by_loop i (starve i r m) = true.
Proof.
  intros Hs. destruct (starve_rounds c i r s n Hs) as (s4 & Hrun & _).
  destruct (prefix_le (starve i r) n (4 * n)) as [ls Hls]; [lia|].
  rewrite Hls run_app in Hrun. apply bind_Some_inv in Hrun as (sn & Hsn & _).
  pose proof (forallb_prefix data_step _ n (starve_data i r)) as Hd.
  exists sn. split_and!; [done|..].
  - eapply serial_run_no_calls; [|exact Hsn].
    apply forallb_prefix. intros k. apply data_step_no_calls, starve_data.
  - rewrite (data_run_cs _ _ _ Hd Hsn). apply Hs.
  - exists (4 * n). split; [lia|].
    rewrite -(Nat.add_0_r (4 * n)) starve_period. by apply bool_decide_eq_true_2.
Qed.

End fair.

(** ** Witnesses on the concrete system of [Demo] *)

Lemma sched_exit_fair : fair 0 0 demo_stopping (pad sched_exit).
Proof.
  apply (pad_fair 0 demo_stopping [SelectExit 0 0; Loop 0 ExitFlush; Loop 0 ExitClear]
           (StopDone 0 0) demo_exited (MkGoroutine AtReturn (ms 1000) (MkJournal [])));
    vm_compute; reflexivity.
Qed.

Lemma loop_steps_bounded_witness :
  run sched_exit demo_stopping = Some demo_exited ∧
  gs demo_stopping !! 0 = Some (MkGoroutine (AtSelect (ms 100)) (ms 1000) (MkJournal [])) ∧
  loop_steps 0 sched_exit ≤ potential (AtSelect (ms 100)) + 5 * other_choices 0 sched_exit ∧
  (potential (AtSelect (ms 100)) + 5 * other_choices 0 sched_exit ≤ loop_steps 0 sched_exit →
   ∃ g', gs demo_exited !! 0 = Some g' ∧ pc g' = AtReturn).
Proof.
  split; [apply run_sched_exit|]. split; [vm_compute; reflexivity|].
  apply (loop_steps_bounded sched_exit demo_stopping demo_exited 0
           (MkGoroutine (AtSelect (ms 100)) (ms 1000) (MkJournal [])));
    [apply run_sched_exit|vm_compute; reflexivity].
Defined.

Lemma stop_returns_fair_witness :
  SReachable demo_init demo_stopping ∧ cs demo_stopping !! 0 = Some InStopSend ∧
  fair 0 0 demo_stopping (pad sched_exit) ∧
  ∃ n sn, returns 0 (pad sched_exit n) = true ∧
          run (prefix (pad sched_exit) (S n)) demo_stopping = Some sn ∧
          cs sn = ∅ ∧ isRunning (obs sn) = false ∧ returned (gs sn).
Proof.
  split; [apply demo_stopping_reachable|]. split; [vm_compute; reflexivity|].
  split; [apply sched_exit_fair|].
  apply (stop_returns_fair (Some []) (ms 100) (ms 1000) 0%Z demo_stopping 0 0
           (MkGoroutine (AtSelect (ms 100)) (ms 1000) (MkJournal [])) (pad sched_exit) 0);
    [apply demo_stopping_reachable|vm_compute; reflexivity..|apply sched_exit_fair].
Defined.

Lemma demo_stopping_starving : starving 0 0 demo_stopping.
Proof.
  split; [vm_compute; reflexivity|].
  exists (MkGoroutine (AtSelect (ms 100)) (ms 1000) (MkJournal [])), (ms 100).
  split_and!; [vm_compute; reflexivity..|by vm_compute|done|].
  unfold chan_wf, chan_len. simpl. lia.
Qed.

Lemma stop_can_starve_witness :
  starving 0 0 demo_stopping ∧
  ∃ sn, run (prefix (starve 0 7 : nat → DLabel) 10) demo_stopping = Some sn ∧
        serial_run (prefix (starve 0 7) 10) demo_stopping = true ∧
        cs sn = {[0 := InStopSend]} ∧
        ∃ m, 10 ≤ m ∧ by_loop 0 (starve 0 7 m : DLabel) = true.
Proof.
  split; [apply demo_stopping_starving|].
  apply (stop_can_starve 0 0 7 demo_stopping 10), demo_stopping_starving.
Defined.
