(* ===== verification/Periodic.v ===== *)
(** * Periodic: the buffer is flushed in every fair execution

    An execution is live for goroutine [i] when it is infinite, the
    goroutine is scheduled again whenever it can take a step, and the clock
    passes every reading.  In such an execution a goroutine inside the loop
    sends its buffer, again and again: by the periodic flush of lines 83-86
    when the report time has passed, or by the final flush of lines 64-70 when
    a [Stop] comes first.  Producers, other goroutines and callers may take
    any steps in between, serialised or not.

    The proof follows the goroutine from one of its steps to the next: the
    steps of other threads leave its local state, the clock never goes back,
    and once the clock has passed the report time [flush_distance] counts the
    steps the goroutine still takes before it flushes. *)

From S2P Require Import Prelude GoTime Channel Buffer Observer System Invariants Demo.
From S2P Require Import Lifecycle Progress Fair.

Local Open Scope nat_scope.

Section periodic.
Context {R B K : Type} `{!ObserverBuffer R B} `{!StatsReceiver B K}.

Implicit Types (s : Sys R B K) (l : Label R) (ls : list (Label R)) (g : Goroutine B).
Implicit Types (i n m k : nat) (σ : nat → Label R) (p : PC) (a : Action).
Implicit Types (o : Observer R K) (t rt : Time).

(** The label is a flush of goroutine [i]: periodic or final. *)
Definition flushes i l : bool :=
  match l with
  | Loop j FlushReport | Loop j ExitFlush => bool_decide (j = i)
  | _ => false
  end.

(** The steps the goroutine takes before it flushes, once the clock has
    passed its report time; [0] where the report time is about to be set. *)
Definition flush_distance p : nat :=
  match p with
  | AtSelectEnter => 4
  | AtSelect _ => 3
  | AtCheck => 2
  | AtFlush | AtExitFlush => 1
  | _ => 0
  end.

(** The goroutine accumulates towards a flush due at [rt]. *)
Definition awaiting rt g : Prop := reportTime g = rt ∧ flush_distance (pc g) ≠ 0.

(** An infinite execution from [s] in which goroutine [i] is scheduled
    again whenever it can take a step and the clock passes every reading. *)
Record live_exec i s σ : Prop := {
  live_run : ∀ n, is_Some (run (prefix σ n) s);
  live_scheduled : ∀ n sn,
    run (prefix σ n) s = Some sn → runnable i sn → ∃ m, n ≤ m ∧ by_loop i (σ m) = true;
  live_clock : ∀ T : Time, ∃ n sn, run (prefix σ n) s = Some sn ∧ (T ≤ now sn)%Z;
}.

(** The state with the clock advanced by [d]. *)
Definition advance (d : Duration) s : Sys R B K :=
  MkSys (obs s) (gs s) (cs s) (now s + d)%Z (logs s).

(** ** One step *)

Lemma step_other_gs l s s' i g :
  step l s = Some s' → by_loop i l = false → gs s !! i = Some g → gs s' !! i = Some g.
Proof.
  intros H Hl Hi. inv_step H; try done;
    try (by apply bool_decide_eq_false in Hl; rewrite list_lookup_insert_ne).
  unfold Start_spawn in *. simplify_eq. by apply lookup_snoc_old.
Qed.

Lemma step_now_mono l s s' : step l s = Some s' → (now s ≤ now s')%Z.
Proof. intros H. inv_step H; lia. Qed.

Lemma run_now_mono ls s s' : run ls s = Some s' → (now s ≤ now s')%Z.
Proof.
  revert ls s'. apply (run_ind (λ _ s', (now s ≤ now s')%Z)); [done|].
  intros ls s1 l s2 _ IH Hstep%step_now_mono. lia.
Qed.

(** A goroutine on its way to a flush, or about to set its report time,
    can take its next step, in the [select] once the timer has fired. *)
Lemma next_action_enabled s i g :
  gs s !! i = Some g →
  flush_distance (pc g) ≠ 0 ∨ pc g = AtInit ∨ pc g = AtReset →
  (∀ timer, pc g = AtSelect timer → (timer ≤ now s)%Z) →
  runnable i s.
Proof.
  intros Hi Hpc Ht. exists (Loop i (next_action (pc g))).
  split; [by apply bool_decide_eq_true_2|].
  destruct g as [p rt b]. simpl in *.
  destruct p; simpl in *; try (by destruct Hpc as [?|[?|?]]); rewrite Hi /=;
    try (by eexists).
  rewrite /select_timeout /= /timer_fired bool_decide_eq_true_2; [by eexists|by apply Ht].
Qed.

(** An action of a goroutine on its way to a flush is the flush, or leaves
    it on its way with the same report time, and nearer to the flush when
    the clock has passed the report time. *)
Lemma awaiting_act a t o g o' g' lg rt :
  act a t o g = Some (o', g', lg) → awaiting rt g →
  a = FlushReport ∨ a = ExitFlush ∨
  (awaiting rt g' ∧ ((rt < t)%Z → flush_distance (pc g') < flush_distance (pc g))).
Proof.
  intros H [Hrt Hd]. unfold awaiting.
  inv_act H; simpl in *; try (by left); try (by right; left); right; right;
    try (by split_and!; [done..|lia]).
  destruct (After t (reportTime g)) eqn:E; simpl.
  - split_and!; [done..|lia].
  - apply After_false in E. split_and!; [done..|lia].
Qed.

Lemma awaiting_sync g g' rt :
  select_exit g = Some g' ∨ stop_done g = Some g' → awaiting rt g →
  awaiting rt g' ∧ flush_distance (pc g') < flush_distance (pc g).
Proof.
  intros [H|H] [Hrt Hd]; unfold awaiting; inv_sync H; simpl in *; try done.
  split_and!; [done..|lia].
Qed.

(** The same of a step of the system. *)
Lemma awaiting_step l s s' i g rt :
  step l s = Some s' → gs s !! i = Some g → awaiting rt g →
  flushes i l = true ∨
  ∃ g', gs s' !! i = Some g' ∧ awaiting rt g' ∧
        (by_loop i l = true → (rt < now s)%Z →
         flush_distance (pc g') < flush_distance (pc g)).
Proof.
  intros H Hi Ha. destruct (by_loop i l) eqn:Hl.
  - destruct l; try done; apply bool_decide_eq_true in Hl as ->; inv_step H; simplify_eq.
    + match goal with Hact : act _ _ _ _ = Some _ |- _ =>
        destruct (awaiting_act _ _ _ _ _ _ _ _ Hact Ha) as [->|[->|[? ?]]] end;
        [left; by apply bool_decide_eq_true_2..|right].
      eexists. split; [by apply list_lookup_insert_eq, lookup_lt_Some with g|done].
    + match goal with He : select_exit _ = Some _ |- _ =>
        destruct (awaiting_sync _ _ _ (or_introl He) Ha) as [? ?] end.
      right. eexists. split; [by apply list_lookup_insert_eq, lookup_lt_Some with g|done].
    + match goal with He : stop_done _ = Some _ |- _ =>
        destruct (awaiting_sync _ _ _ (or_intror He) Ha) as [? ?] end.
      right. eexists. split; [by apply list_lookup_insert_eq, lookup_lt_Some with g|done].
  - right. exists g. split; [by eapply step_other_gs|done].
Qed.

(** ** Along an execution *)

(** While the goroutine takes no step its local state stays, and the
    clock does not go back. *)
Lemma quiet_gs i σ s n k sn sk g :
  run (prefix σ n) s = Some sn → run (prefix σ (n + k)) s = Some sk →
  gs sn !! i = Some g → (∀ j, n ≤ j < n + k → by_loop i (σ j) = false) →
  gs sk !! i = Some g ∧ (now sn ≤ now sk)%Z.
Proof.
  revert sk. induction k as [|k IH]; intros sk Hn Hk Hg Hq.
  - rewrite Nat.add_0_r in Hk. simplify_eq. split; [done|lia].
  - replace (n + S k) with (S (n + k)) in Hk by lia.
    apply prefix_run_S in Hk as (s1 & H1 & Hstep).
    destruct (IH s1) as [Hg1 Hnow]; [done..|intros; apply Hq; lia|].
    split; [eapply step_other_gs; [done|apply Hq; lia|done]|].
    apply step_now_mono in Hstep. lia.
Qed.

Lemma now_mono σ s n m sn sm :
  n ≤ m → run (prefix σ n) s = Some sn → run (prefix σ m) s = Some sm →
  (now sn ≤ now sm)%Z.
Proof.
  intros [ls Hls]%(prefix_le σ) Hn Hm. rewrite Hls run_app Hn /= in Hm.
  by eapply run_now_mono.
Qed.

(** The first step of the goroutine from [n] on finds it as it was at
    [n]. *)
Lemma first_loop_step i s σ n j sn g :
  live_exec i s σ → run (prefix σ n) s = Some sn → gs sn !! i = Some g →
  n ≤ j → by_loop i (σ j) = true →
  ∃ m sm, n ≤ m ≤ j ∧ run (prefix σ m) s = Some sm ∧ by_loop i (σ m) = true ∧
          gs sm !! i = Some g ∧ (now sn ≤ now sm)%Z.
Proof.
  intros Hl Hn Hg Hj Hb.
  destruct (first_true (λ j, by_loop i (σ j)) n (j - n)) as (m & Hm & Hbm & Hq);
    [by replace (n + (j - n)) with j by lia|].
  destruct (live_run _ _ _ Hl m) as [sm Hsm]. exists m, sm.
  destruct (quiet_gs i σ s n (m - n) sn sm g) as [? ?];
    [done|by replace (n + (m - n)) with m by lia|done|intros; apply Hq; lia|].
  split_and!; [lia..|done|done|done|done].
Qed.

(** A goroutine on its way to a flush takes another step: at once when it
    is not in the [select], and otherwise when a result arrives, the exit
    signal is offered or, at the latest, the clock has reached the timer. *)
Lemma eventually_steps i s σ n sn g :
  live_exec i s σ → run (prefix σ n) s = Some sn → gs sn !! i = Some g →
  flush_distance (pc g) ≠ 0 ∨ pc g = AtInit ∨ pc g = AtReset →
  ∃ m sm, n ≤ m ∧ run (prefix σ m) s = Some sm ∧ by_loop i (σ m) = true ∧
          gs sm !! i = Some g ∧ (now sn ≤ now sm)%Z.
Proof.
  intros Hl Hn Hg Hpc.
  assert (∃ T : Time, ∀ timer, pc g = AtSelect timer → (timer ≤ T)%Z) as [T HT].
  { destruct (pc g) as [| |timer| | | | | | |]; try (by exists 0%Z).
    exists timer. intros ? [= ->]. lia. }
  destruct (live_clock _ _ _ Hl T) as (n' & sn' & Hn' & Hnow').
  destruct (live_run _ _ _ Hl (n + (n' - n))) as [sk Hsk].
  destruct (bounded_search (λ j, by_loop i (σ j)) n (n' - n)) as [(j & Hj & Hbj)|Hq].
  - destruct (first_loop_step i s σ n j sn g) as (m & sm & ? & ? & ? & ? & ?);
      [done..|lia|done|]. exists m, sm. split_and!; [lia|done..].
  - destruct (quiet_gs i σ s n (n' - n) sn sk g) as [Hgk Hnowk]; [done..|].
    assert (now sn' ≤ now sk)%Z by (eapply (now_mono σ s n' (n + (n' - n))); [lia|done..]).
    destruct (live_scheduled _ _ _ Hl _ _ Hsk) as (j & Hj & Hbj).
    { apply (next_action_enabled _ _ g); [done..|]. intros timer Ht%HT. lia. }
    destruct (first_loop_step i s σ (n + (n' - n)) j sk g) as (m & sm & ? & ? & ? & ? & ?);
      [done..|]. exists m, sm. split_and!; [lia|done..|lia].
Qed.

(** Until it flushes, the goroutine stays on its way to the flush. *)
Lemma awaiting_run i s σ rt n k sn sk g :
  run (prefix σ n) s = Some sn → run (prefix σ (n + k)) s = Some sk →
  gs sn !! i = Some g → awaiting rt g →
  (∃ j, n ≤ j < n + k ∧ flushes i (σ j) = true) ∨
  ∃ g', gs sk !! i = Some g' ∧ awaiting rt g'.
Proof.
  revert sk. induction k as [|k IH]; intros sk Hn Hk Hg Ha.
  - rewrite Nat.add_0_r in Hk. simplify_eq. right. eauto.
  - replace (n + S k) with (S (n + k)) in Hk by lia.
    apply prefix_run_S in Hk as (s1 & H1 & Hstep).
    destruct (IH s1) as [(j & ? & ?)|(g1 & Hg1 & Ha1)];
      [done..|left; exists j; split; [lia|done]|].
    destruct (awaiting_step _ _ _ _ _ _ Hstep Hg1 Ha1) as [?|(g' & ? & ? & _)].
    + left. exists (n + k). split; [lia|done].
    + right. eauto.
Qed.

(** Once the clock has passed the report time the flush is at most
    [flush_distance] steps of the goroutine away. *)
Lemma flush_when_due i s σ rt d :
  live_exec i s σ → ∀ n sn g,
  run (prefix σ n) s = Some sn → gs sn !! i = Some g → awaiting rt g →
  flush_distance (pc g) ≤ d → (rt < now sn)%Z →
  ∃ j, n ≤ j ∧ flushes i (σ j) = true.
Proof.
  intros Hl. induction d as [|d IH]; intros n sn g Hn Hg Ha Hd Hnow.
  - destruct Ha as [_ ?]. lia.
  - destruct (eventually_steps i s σ n sn g Hl Hn Hg)
      as (m & sm & Hm & Hsm & Hb & Hgm & Hnowm); [left; apply Ha|].
    destruct (live_run _ _ _ Hl (S m)) as [s' Hs'].
    pose proof Hs' as (s1 & H1 & Hstep)%prefix_run_S. simplify_eq.
    destruct (awaiting_step _ _ _ _ _ _ Hstep Hgm Ha) as [?|(g' & Hg' & Ha' & Hlt)];
      [by exists m|].
    pose proof (step_now_mono _ _ _ Hstep).
    destruct (IH (S m) s' g' Hs' Hg' Ha') as (j & ? & ?); [specialize (Hlt Hb); lia..|].
    exists j. split; [lia|done].
Qed.

(** From every state on the way to a flush the flush comes. *)
Lemma flush_from_awaiting i s σ rt n sn g :
  live_exec i s σ → run (prefix σ n) s = Some sn → gs sn !! i = Some g →
  awaiting rt g → ∃ j, n ≤ j ∧ flushes i (σ j) = true.
Proof.
  intros Hl Hn Hg Ha.
  destruct (live_clock _ _ _ Hl (rt + 1)%Z) as (n' & sn' & Hn' & Hnow').
  destruct (live_run _ _ _ Hl (n + (n' - n))) as [sk Hsk].
  destruct (awaiting_run i s σ rt n (n' - n) sn sk g) as [(j & ? & ?)|(g' & Hg' & Ha')];
    [done..|exists j; split; [lia|done]|].
  assert (now sn' ≤ now sk)%Z
    by (eapply (now_mono σ s n' (n + (n' - n))); [lia|done..]).
  destruct (flush_when_due i s σ rt 4 Hl _ sk g' Hsk Hg' Ha') as (j & ? & ?);
    [destruct (pc g'); simpl; lia|lia|].
  exists j. split; [lia|done].
Qed.

(** The first step of a goroutine at the entry of the loop, or after a
    flush, sets its report time. *)
Lemma init_step l s s' i g :
  step l s = Some s' → by_loop i l = true → gs s !! i = Some g →
  pc g = AtInit ∨ pc g = AtReset →
  ∃ g' rt, gs s' !! i = Some g' ∧ awaiting rt g'.
Proof.
  intros H Hl Hi Hpc.
  destruct l; try done; apply bool_decide_eq_true in Hl as ->; inv_step H; simplify_eq.
  - match goal with Hact : act _ _ _ _ = Some _ |- _ => inv_act Hact end;
      try (by destruct Hpc; congruence);
      eexists _, _; (split; [by apply list_lookup_insert_eq, lookup_lt_Some with g|]);
      by split.
  - match goal with He : select_exit _ = Some _ |- _ => inv_sync He end.
    destruct Hpc; congruence.
  - match goal with He : stop_done _ = Some _ |- _ => inv_sync He end.
    destruct Hpc; congruence.
Qed.

(** Along a schedule that starts after the report time: until the flush,
    every step of the goroutine brings it nearer. *)
Lemma run_flush_distance ls s s' i g :
  run ls s = Some s' → gs s !! i = Some g → flush_distance (pc g) ≠ 0 →
  (reportTime g < now s)%Z →
  Exists (λ l, flushes i l = true) ls ∨
  ∃ g', gs s' !! i = Some g' ∧ awaiting (reportTime g) g' ∧ (reportTime g < now s')%Z ∧
        flush_distance (pc g') + loop_steps i ls ≤ flush_distance (pc g).
Proof.
  intros Hr Hi Hd Hnow. revert ls s' Hr.
  apply (run_ind (λ ls s', Exists (λ l, flushes i l = true) ls ∨
           ∃ g', gs s' !! i = Some g' ∧ awaiting (reportTime g) g' ∧
                 (reportTime g < now s')%Z ∧
                 flush_distance (pc g') + loop_steps i ls ≤ flush_distance (pc g))).
  - right. exists g. split_and!; [done..|]. rewrite /loop_steps /=. lia.
  - intros ls s1 l s2 _ [IH|(g1 & Hg1 & Ha1 & Hn1 & Hle)] Hstep;
      [left; apply Exists_app; by left|].
    pose proof (step_now_mono _ _ _ Hstep).
    destruct (awaiting_step _ _ _ _ _ _ Hstep Hg1 Ha1) as [?|(g2 & Hg2 & Ha2 & Hlt)];
      [left; apply Exists_app; right; by constructor|].
    right. rewrite loop_steps_snoc. destruct (by_loop i l) eqn:Hl.
    + exists g2. split_and!; [done..|lia|]. specialize (Hlt eq_refl Hn1). lia.
    + exists g1. split_and!; [by eapply step_other_gs|done|lia|lia].
Qed.

(** ** A finite execution followed by a running clock *)

Lemma run_clock k s : run (replicate k (Tick 1%Z)) s = Some (advance (Z.of_nat k) s).
Proof.
  revert s. induction k as [|k IH]; intros s.
  - destruct s. by rewrite /advance /= Z.add_0_r.
  - cbn [replicate run]. rewrite /= IH /advance /=. do 2 f_equal. lia.
Qed.

Lemma run_prefix_clock ls s n :
  run (prefix (pad_with (Tick 1%Z) ls) n) s =
  advance (Z.of_nat (n - length ls)) <$> run (take n ls) s.
Proof.
  rewrite prefix_pad_with run_app. destruct (run (take n ls) s); [apply run_clock|done].
Qed.

(** An execution that ends with a step of goroutine [i], after which the
    goroutine has returned, is the beginning of a live one. *)
Lemma pad_live i s ls l s' g' :
  run (ls ++ [l]) s = Some s' → by_loop i l = true →
  gs s' !! i = Some g' → pc g' = AtReturn →
  live_exec i s (pad_with (Tick 1%Z) (ls ++ [l])).
Proof.
  intros Hrun Hl Hi Hpc. split.
  - intros n. rewrite run_prefix_clock.
    destruct (run_take _ _ _ n Hrun) as [s1 ->]. by eexists.
  - intros n sn Hn Hrunnable. rewrite run_prefix_clock in Hn.
    destruct (decide (n ≤ length ls)) as [?|Hgt].
    + exists (length ls). split; [done|]. by rewrite /pad_with lookup_snoc_new.
    + rewrite take_ge in Hn; [|rewrite length_snoc; lia]. rewrite Hrun /= in Hn.
      simplify_eq.
      by destruct (returned_not_runnable i (advance _ s') g' Hi Hpc Hrunnable).
  - intros T. eexists (length (ls ++ [l]) + Z.to_nat (T - now s')), _.
    rewrite run_prefix_clock take_ge; [|lia]. rewrite Hrun /=. split; [done|].
    simpl. lia.
Qed.

(** C11 (the buffer is flushed in every fair execution).  In an infinite
    execution, serialised or not, in which the goroutine is scheduled again
    whenever it can take a step and in which the clock passes every reading,
    a goroutine that is inside the loop at some step flushes at that step or
    a later one: by the periodic flush of lines 83-86, or by the final flush
    of lines 64-70 when an exit signal comes first.  Results that keep
    arriving do not postpone the flush, and neither does their absence. *)
Theorem flush_in_fair_execution i s σ n sn g :
  live_exec i s σ → run (prefix σ n) s = Some sn →
  gs sn !! i = Some g → in_loop (pc g) = true →
  ∃ j, n ≤ j ∧ flushes i (σ j) = true.
Proof.
  intros Hl Hn Hg Hin.
  destruct (decide (flush_distance (pc g) = 0)) as [Hz|Hnz];
    [|by apply (flush_from_awaiting i s σ (reportTime g) n sn g)].
  assert (pc g = AtInit ∨ pc g = AtReset) as Hpc by (destruct (pc g); naive_solver).
  destruct (eventually_steps i s σ n sn g Hl Hn Hg)
    as (m & sm & Hm & Hsm & Hb & Hgm & _); [by right|].
  destruct (live_run _ _ _ Hl (S m)) as [s' Hs'].
  pose proof Hs' as (s1 & H1 & Hstep)%prefix_run_S. simplify_eq.
  destruct (init_step _ _ _ _ _ Hstep Hb Hgm Hpc) as (g' & rt & Hg' & Ha').
  destruct (flush_from_awaiting i s σ rt (S m) s' g' Hl Hs' Hg' Ha') as (j & ? & ?).
  exists j. split; [lia|done].
Qed.

(** C36 (the flush is at most four steps late).  Once the clock has passed
    the report time of a goroutine that is on its way to a flush, the
    goroutine flushes before it has taken as many steps as its program point
    is away from the flush, in every execution: at most the [select], one
    case, the test of the deadline and the flush itself.  The lag of the
    periodic flush behind its deadline is the time the goroutine waits in one
    [select], whatever the traffic. *)
Theorem flush_is_due ls s s' i g :
  run ls s = Some s' → gs s !! i = Some g → flush_distance (pc g) ≠ 0 →
  (reportTime g < now s)%Z → flush_distance (pc g) ≤ loop_steps i ls →
  Exists (λ l, flushes i l = true) ls ∧ flush_distance (pc g) ≤ 4.
Proof.
  intros Hr Hi Hd Hnow Hsteps. split; [|destruct (pc g); simpl; lia].
  destruct (run_flush_distance _ _ _ _ _ Hr Hi Hd Hnow)
    as [?|(g' & _ & [_ ?] & _ & ?)]; [done|lia].
Qed.

End periodic.

(** ** Witness on the concrete system of [Demo] *)

Lemma sched_flush_stop_live :
  live_exec 0 demo_running (pad_with (Tick 1%Z) sched_flush_stop).
Proof.
  apply (pad_live 0 demo_running
           [Tick (ms 1001); Loop 0 Timeout; Loop 0 Check; Loop 0 FlushReport;
            Loop 0 Reset; Loop 0 Enter; CallStop 0; SelectExit 0 0; Loop 0 ExitFlush;
            Loop 0 ExitClear]
           (StopDone 0 0) demo_flush_stop
           (MkGoroutine AtReturn (ms 2001) (MkJournal [])));
    vm_compute; reflexivity.
Qed.

Lemma flush_in_fair_execution_witness :
  live_exec 0 demo_running (pad_with (Tick 1%Z) sched_flush_stop) ∧
  gs demo_running !! 0 = Some (MkGoroutine (AtSelect (ms 100)) (ms 1000) (MkJournal [])) ∧
  ∃ j, 0 ≤ j ∧ flushes 0 (pad_with (Tick 1%Z) sched_flush_stop j) = true.
Proof.
  split; [apply sched_flush_stop_live|]. split; [vm_compute; reflexivity|].
  apply (flush_in_fair_execution 0 demo_running (pad_with (Tick 1%Z) sched_flush_stop)
           0 demo_running (MkGoroutine (AtSelect (ms 100)) (ms 1000) (MkJournal [])));
    [apply sched_flush_stop_live|vm_compute; reflexivity..].
Defined.

Lemma flush_is_due_witness :
  run sched_due demo_overdue = Some demo_due_flushed ∧
  gs demo_overdue !! 0 = Some (MkGoroutine (AtSelect (ms 100)) (ms 1000) (MkJournal [])) ∧
  (ms 1000 < now demo_overdue)%Z ∧
  Exists (λ l : DLabel, flushes 0 l = true) sched_due ∧
  flush_distance (AtSelect (ms 100)) ≤ 4.
Proof.
  split; [apply run_sched_due|]. split; [vm_compute; reflexivity|]. split; [done|].
  apply (flush_is_due sched_due demo_overdue demo_due_flushed 0
           (MkGoroutine (AtSelect (ms 100)) (ms 1000) (MkJournal [])));
    [apply run_sched_due|vm_compute; reflexivity|done|done|vm_compute; lia].
Defined.
