(* ===== verification/Safety.v ===== *)
(** * Safety: what holds in every execution, serialised or not

    The timing of the periodic flush (only after the deadline, the next
    deadline later than the last, two flushes of one loop more than a report
    interval apart), the behaviour without a sink, the constancy of the
    configuration, and determinism of the labelled semantics. *)

From S2P Require Import Prelude GoTime Channel Buffer Observer System Invariants Demo.

Section safety.
Context {R B S : Type} `{!ObserverBuffer R B} `{!StatsReceiver B S}.

Implicit Types (s : Sys R B S) (l : Label R) (o : Observer R S) (g : Goroutine B).
Implicit Types (sc : option S) (to ri : Duration) (t : Time).

(** The struct with a nil sink in place of its sink, and the system with
    that struct. *)
Definition without_sink o : Observer R S := set_statsClient None o.

Definition drop_sink s : Sys R B S :=
  MkSys (without_sink (obs s)) (gs s) (cs s) (now s) (logs s).

(** Goroutine [i] flushed at or after clock [t1] and is about to reset, or
    has reset since and reports next no earlier than [t1 + ri]. *)
Definition flushed_since (t1 : Time) ri (g : Goroutine B) : Prop :=
  pc g = AtReset ∨ (pc g ≠ AtInit ∧ t1 + ri ≤ reportTime g).

Definition spaced (t1 : Time) ri (i : nat) s : Prop :=
  reportInterval (obs s) = ri ∧ t1 ≤ now s ∧
  ∃ g, gs s !! i = Some g ∧ flushed_since t1 ri g.

(** ** Without a sink *)

(** With a nil sink [send_stats] does nothing, and what it does with a sink
    is gone when the sink is taken away. *)
Lemma send_stats_without_sink o (b : B) :
  send_stats (without_sink o) b = without_sink o ∧
  without_sink (send_stats o b) = without_sink o.
Proof. unfold send_stats. by destruct (statsClient o). Qed.

(** The sink is read by nothing but [Send]: an action is enabled with a nil
    sink exactly when it is with a sink, and does the same to the goroutine
    and the log. *)
Lemma act_without_sink a t o g :
  act a t (without_sink o) g = (λ x, (without_sink x.1.1, x.1.2, x.2)) <$> act a t o g.
Proof.
  destruct (send_stats_without_sink o (buffer g)) as [H1 H2].
  destruct a; simpl;
    rewrite /loop_init /select_enter /select_write /select_oversized /select_timeout
      /check_report /flush_report /reset_report /exit_flush /exit_clear;
    destruct (pc g); simpl; rewrite ?H1 ?H2 //;
    try (by case_match); by destruct (chan_recv _) as [[? ?]|].
Qed.

Lemma step_drop_sink l s : step l (drop_sink s) = drop_sink <$> step l s.
Proof.
  destruct l; simpl; try (by repeat case_match).
  - unfold Start_check. simpl. by repeat case_match.
  - unfold TargetWrite. simpl. by destruct (chan_send _ _).
  - unfold TargetWriteOversized. simpl. by destruct (chan_send _ _).
  - destruct (gs s !! _) as [gr|]; [|done]. simpl. rewrite act_without_sink.
    by destruct (act _ _ _ _) as [[[o' g'] lg]|].
  - destruct (gs s !! _) as [gr|]; [|done]. simpl.
    destruct (select_exit gr); [|done]. simpl. by repeat case_match.
  - destruct (gs s !! _) as [gr|]; [|done]. simpl.
    destruct (stop_done gr); [|done]. simpl. by repeat case_match.
Qed.

Lemma run_drop_sink ls s : run ls (drop_sink s) = drop_sink <$> run ls s.
Proof.
  revert s. induction ls as [|l ls IH]; intros s; [done|].
  simpl. rewrite step_drop_sink. destruct (step l s) as [s1|]; [apply IH|done].
Qed.

(** An action keeps [flushed_since]: only the reset changes the report
    time, and it sets it one interval after the current clock. *)
Lemma act_flushed_since a t o g o' g' lg (t1 : Time) :
  act a t o g = Some (o', g', lg) → t1 ≤ t →
  flushed_since t1 (reportInterval o) g → flushed_since t1 (reportInterval o) g'.
Proof.
  unfold flushed_since. intros H Ht Hold.
  inv_act H; simpl; try (by left);
    try (by right; split; [done|unfold Add; lia]);
    (destruct Hold as [Hold|[_ Hold]]; [done|]);
    by (right; split; [try case_match|]).
Qed.

Lemma sync_flushed_since g g' (t1 : Time) ri :
  select_exit g = Some g' ∨ stop_done g = Some g' →
  flushed_since t1 ri g → flushed_since t1 ri g'.
Proof.
  unfold flushed_since. intros [H|H] Hold; inv_sync H;
    (destruct Hold as [?|[? ?]]; [congruence|by right]).
Qed.

Lemma flushed_since_insert (t1 : Time) ri i j (gl : list (Goroutine B)) g gr gr' :
  gl !! i = Some g → gl !! j = Some gr → flushed_since t1 ri g →
  (flushed_since t1 ri gr → flushed_since t1 ri gr') →
  ∃ g1, <[j:=gr']> gl !! i = Some g1 ∧ flushed_since t1 ri g1.
Proof.
  intros Hi Hj Hg Hstep. destruct (decide (j = i)) as [->|Hne].
  - simplify_eq. exists gr'. split; [|by apply Hstep].
    by apply list_lookup_insert_eq, lookup_lt_Some with g.
  - exists g. by rewrite list_lookup_insert_ne.
Qed.

Lemma spaced_inductive (t1 : Time) ri i : inductive_inv (spaced t1 ri i).
Proof.
  intros s l s' (Hri & Ht & g & Hi & Hg) H. unfold spaced. subst ri.
  inv_step H; try (by eauto 10).
  - split_and!; [done|lia|eauto].
  - unfold Start_spawn in *. simplify_eq. eauto 10 using lookup_snoc_old.
  - match goal with H : TargetWrite _ _ = Some _ |- _ =>
      apply TargetWrite_frame in H as (? & _ & ->) end. eauto 10.
  - match goal with H : TargetWriteOversized _ _ = Some _ |- _ =>
      apply TargetWriteOversized_frame in H as (? & _ & ->) end. eauto 10.
  - match goal with Ha : act _ _ _ _ = Some _ |- _ =>
      destruct (act_frame _ _ _ _ _ _ _ Ha) as (_ & Hri' & _) end.
    split_and!; [done..|].
    eapply flushed_since_insert; eauto using act_flushed_since.
  - split_and!; [done..|].
    eapply flushed_since_insert; eauto using sync_flushed_since.
  - split_and!; [done..|].
    eapply flushed_since_insert; eauto using sync_flushed_since.
Qed.

(** C10 (flush after the deadline).  A goroutine is at the periodic flush of
    lines 83-86 only when the clock is strictly past its report time: no
    periodic flush happens early. *)
Theorem flush_after_deadline sc to ri t0 s i g :
  Reachable (initial sc to ri t0) s →
  gs s !! i = Some g → pc g = AtFlush → reportTime g < now s.
Proof. intros Hr%Reachable_deadline_inv Hi Hpc. eapply Hr; eauto. Qed.

(** After a flush the reset of lines 88-89 is enabled; it empties the
    buffer and sets the report time to the current clock plus the report
    interval, which for a non-negative interval is strictly later than the
    report time it replaces. *)
Lemma deadline_advances sc to ri t0 s i g :
  Reachable (initial sc to ri t0) s →
  gs s !! i = Some g → pc g = AtReset →
  ∃ g', step (Loop i Reset) s =
          Some (MkSys (obs s) (<[i:=g']> (gs s)) (cs s) (now s) (logs s)) ∧
        reportTime g' = Add (now s) ri ∧ (0 ≤ ri → reportTime g < reportTime g') ∧
        buffer g' = buffer_empty ∧ pc g' = AtSelectEnter.
Proof.
  intros Hr Hi Hpc.
  pose proof (Reachable_deadline_inv _ _ _ _ _ Hr i g Hi (or_intror Hpc)) as Hlt.
  destruct (Reachable_config_inv _ _ _ _ _ Hr) as (_ & _ & Hcfg & _).
  exists (MkGoroutine AtSelectEnter (Add (now s) ri) buffer_empty).
  split_and!; try done.
  - by rewrite /= Hi /= /reset_report Hpc /= app_nil_r Hcfg.
  - unfold Add. simpl. lia.
Qed.

(** C30 (nil sink).  The executions of an observer that [New] was given a
    nil sink are, schedule by schedule, the executions of the observer that
    was given a sink: the same labels are enabled, and the states differ in
    nothing but the sink, which stays nil.  The goroutines and their
    buffers, the queues, the callers, the clock and the log, with the
    summary of every periodic and final flush, are the same: a nil sink
    turns a flush into its log line, and is never an error. *)
Theorem nil_sink_same_run sc to ri t0 ls :
  run ls (initial None to ri t0) = drop_sink <$> run ls (initial sc to ri t0) ∧
  ∀ s, run ls (initial None to ri t0) = Some s → statsClient (obs s) = None.
Proof.
  assert (run ls (initial None to ri t0) = drop_sink <$> run ls (initial sc to ri t0)) as E
    by apply (run_drop_sink ls (initial sc to ri t0)).
  split; [done|]. intros s. rewrite E. by intros (s' & _ & ->)%fmap_Some.
Qed.

(** The labelled relation is a partial function: a label names one atomic
    action, and all the nondeterminism of the system (scheduling, the choice
    of [select], the passing of time) is in the choice of the label. *)
Lemma Step_deterministic s l s1 s2 : Step s l s1 → Step s l s2 → s1 = s2.
Proof. intros H1%Step_step H2%Step_step. congruence. Qed.

(** The idle timeout and the report interval given to [New] never change,
    the clock never goes back behind its origin, and the two handshake
    channels stay unbuffered and empty. *)
Lemma config_constant sc to ri t0 s :
  Reachable (initial sc to ri t0) s →
  timeout (obs s) = to ∧ reportInterval (obs s) = ri ∧ t0 ≤ now s ∧
  exitSignal (obs s) = make_chan 0 ∧ stopDone (obs s) = make_chan 0.
Proof.
  intros ((_ & _ & _ & _ & ? & ?) & ? & ? & ?)%Reachable_config_inv. done.
Qed.

(** From a goroutine at the reset, whatever the system does next, that
    goroutine does not decide to flush again before the clock has advanced
    by more than the report interval. *)
Lemma next_flush_later sc to ri t0 s ls s' i g g' :
  Reachable (initial sc to ri t0) s →
  gs s !! i = Some g → pc g = AtReset →
  run ls s = Some s' → gs s' !! i = Some g' → pc g' = AtFlush →
  now s + ri < now s'.
Proof.
  intros Hr Hi Hpc Hrun Hi' Hpc'.
  assert (Reachable s s') as Hrs by (apply Reachable_run; eauto).
  destruct (Reachable_config_inv _ _ _ _ _ Hr) as (_ & _ & Hri & _).
  assert (spaced (now s) ri i s') as (_ & _ & g1 & Hg1 & Hsp).
  { eapply Reachable_inv; [|apply spaced_inductive|exact Hrs].
    split_and!; [done|lia|]. exists g. split; [done|by left]. }
  pose proof (Reachable_deadline_inv _ _ _ _ _ (Reachable_trans _ _ _ Hr Hrs)
                i g' Hi' (or_introl Hpc')) as Hlt.
  simplify_eq. destruct Hsp as [?|[_ ?]]; [congruence|lia].
Qed.

(** C14 (the floating schedule).  From a state in which a goroutine has
    just sent its buffer (it is at the reset of lines 88-89): the reset is
    enabled; it empties the buffer and sets the report time to the current
    clock plus the report interval, which for a non-negative interval is
    strictly later than the report time it replaces, so the schedule floats
    and never moves back; and whatever the system does next, that goroutine
    does not decide to flush again before the clock has advanced by more
    than the report interval: two periodic flushes of one loop are more
    than [reportInterval] apart. *)
Theorem flushes_spaced sc to ri t0 s i g :
  Reachable (initial sc to ri t0) s →
  gs s !! i = Some g → pc g = AtReset →
  (∃ g', step (Loop i Reset) s =
           Some (MkSys (obs s) (<[i:=g']> (gs s)) (cs s) (now s) (logs s)) ∧
         reportTime g' = Add (now s) ri ∧ (0 ≤ ri → reportTime g < reportTime g') ∧
         buffer g' = buffer_empty ∧ pc g' = AtSelectEnter) ∧
  ∀ ls s' g', run ls s = Some s' → gs s' !! i = Some g' → pc g' = AtFlush →
              now s + ri < now s'.
Proof. eauto using deadline_advances, next_flush_later. Qed.

End safety.

(** ** Witnesses on the concrete system of [Demo] *)

Lemma nil_sink_same_run_witness :
  run sched_late demo_init_nil = drop_sink <$> run sched_late demo_init ∧
  ∀ s, run sched_late demo_init_nil = Some s → statsClient (obs s) = None.
Proof. exact (nil_sink_same_run (Some []) (ms 100) (ms 1000) 0 sched_late). Defined.

Lemma flush_after_deadline_witness :
  Reachable demo_init demo_late ∧
  gs demo_late !! 0%nat = Some (MkGoroutine AtFlush (ms 1000) (MkJournal [(7%nat, false)])) ∧
  ms 1000 < now demo_late.
Proof.
  split; [apply SReachable_Reachable, demo_late_reachable|].
  split; [vm_compute; reflexivity|].
  apply (flush_after_deadline (Some []) (ms 100) (ms 1000) 0 demo_late 0
           (MkGoroutine AtFlush (ms 1000) (MkJournal [(7%nat, false)])));
    [apply SReachable_Reachable, demo_late_reachable|vm_compute; reflexivity..].
Defined.

Lemma flushes_spaced_witness :
  Reachable demo_init demo_flushed ∧
  gs demo_flushed !! 0%nat
    = Some (MkGoroutine AtReset (ms 1000) (MkJournal [(7%nat, false)])) ∧
  (∃ g', step (Loop 0 Reset) demo_flushed =
           Some (MkSys (obs demo_flushed) (<[0%nat:=g']> (gs demo_flushed))
                   (cs demo_flushed) (now demo_flushed) (logs demo_flushed)) ∧
         reportTime g' = Add (now demo_flushed) (ms 1000) ∧
         (0 ≤ ms 1000 → ms 1000 < reportTime g') ∧
         buffer g' = buffer_empty ∧ pc g' = AtSelectEnter) ∧
  ∀ ls s' g', run ls demo_flushed = Some s' → gs s' !! 0%nat = Some g' → pc g' = AtFlush →
              now demo_flushed + ms 1000 < now s'.
Proof.
  split; [apply SReachable_Reachable, demo_flushed_reachable|].
  split; [vm_compute; reflexivity|].
  apply (flushes_spaced (Some []) (ms 100) (ms 1000) 0 demo_flushed 0
           (MkGoroutine AtReset (ms 1000) (MkJournal [(7%nat, false)])));
    [apply SReachable_Reachable, demo_flushed_reachable|vm_compute; reflexivity..].
Defined.
