(* ===== verification/Report.v ===== *)
(** * Report: one reporting period, from the first result to the flush

    Between two flushes the loop waits in its [select]; each time it wakes
    up a result has arrived, which it merges (lines 74-77), or the idle
    timer has fired (lines 78-79), and after either it compares the clock
    with the report time (line 82).  [rounds] is the schedule of such a
    period up to the report time: a list of waits, each ended by a result
    that a producer pushes and the [select] takes, or by the timer.
    [period] adds the heartbeat of [Heartbeat] that follows when nothing
    else arrives.  The theorem composes the queues, the loop, the clock and
    the sink: whatever arrives during the period, at whatever times, is sent
    to the sink in one buffer, in the order of arrival and with the tag of
    its queue, at the first wake-up after the report time. *)

From S2P Require Import Prelude GoTime Channel Buffer Observer System Invariants Demo.
From S2P Require Import Queues Conservation Roundtrip Heartbeat.

Section report.
Context {R B K : Type} `{!ObserverBuffer R B} `{!StatsReceiver B K}.

Implicit Types (s : Sys R B K) (o : Observer R K) (g : Goroutine B) (i : nat).
Implicit Types (d to : Duration) (e : Entry R) (t : bool).
Implicit Types (x : Duration * option (Entry R)) (xs : list (Duration * option (Entry R))).

(** One wake-up of goroutine [i]: it enters the [select] and waits for [d];
    then a producer pushes a result, which the [select] receives and
    merges, or the timer case is taken; then the deadline is tested. *)
Definition round i d (a : option (Entry R)) : list (Label R) :=
  match a with
  | Some e => [Loop i Enter; Tick d; push e; Loop i (recv e.2); Loop i Check]
  | None => idle_round i d
  end.

Definition rounds i xs : list (Label R) := xs ≫= λ x, round i x.1 x.2.

(** The time the waits of a period take, and the results that arrive. *)
Definition elapsed xs : Duration := foldr (λ x d, x.1 + d) 0 xs.

Definition arrived xs : list (Entry R) := omap snd xs.

(** The debug lines of the wake-ups by the timer (line 79). *)
Definition timeouts to xs : list LogEntry :=
  xs ≫= λ x, match x.2 with Some _ => [] | None => [Debugf msg_timeout to] end.

(** A wait does not go back in time, and the timer does not fire before the
    idle timeout has elapsed. *)
Definition on_time to x : Prop := 0 ≤ x.1 ∧ (x.2 = None → to ≤ x.1).

(** A period that begins at clock [now]: the wake-ups up to the report
    time, then the heartbeat up to the flush. *)
Definition period i (now : Time) g to xs : list (Label R) :=
  rounds i xs ++ heartbeat i (now + elapsed xs) g to.

(** ** One wake-up *)

Lemma arrival_run s i g d e :
  gs s !! i = Some g → pc g = AtSelectEnter → 0 ≤ d → now s + d ≤ reportTime g →
  chan_buf (queue e.2 (obs s)) = [] → (0 < chan_cap (queue e.2 (obs s)))%nat →
  run (round i d (Some e)) s =
    Some (MkSys (obs s)
            (<[i := MkGoroutine AtSelectEnter (reportTime g) (Append (buffer g) e.1 e.2)]>
               (gs s))
            (cs s) (now s + d) (logs s)).
Proof.
  intros Hi Hpc Hd Hrt Hq Hcap. pose proof (lookup_lt_Some _ _ _ Hi) as Hlt.
  assert (chan_send (queue e.2 (obs s)) e.1 =
            Some (Chan (chan_cap (queue e.2 (obs s))) [e.1])) as Hsend.
  { apply chan_send_Some. rewrite /chan_len Hq. split; [simpl; lia|done]. }
  assert (After (now s + d) (reportTime g) = false) as HA by (by apply After_false).
  destruct e as [r []]; simpl in *;
    rewrite Hi /= /select_enter Hpc /= bool_decide_eq_true_2 //=
      /TargetWriteOversized /TargetWrite Hsend /= list_lookup_insert_eq //=
      /select_oversized /select_write /= list_lookup_insert_eq ?length_insert //=
      /check_report /= HA /= !list_insert_insert_eq !app_nil_r;
    destruct s as [[? ? ? [? ?] [? ?] ? ? ?] ? ? ? ?]; simpl in *; by subst.
Qed.

Lemma timeout_run s i g d :
  gs s !! i = Some g → pc g = AtSelectEnter → 0 ≤ d → timeout (obs s) ≤ d →
  now s + d ≤ reportTime g →
  run (round i d None) s =
    Some (MkSys (obs s) (gs s) (cs s) (now s + d)
            (logs s ++ [Debugf msg_timeout (timeout (obs s))])).
Proof.
  intros Hi Hpc Hd Hto Hrt. rewrite /round (idle_round_run _ _ g) //.
  assert (After (now s + d) (reportTime g) = false) as HA by (by apply After_false).
  rewrite /checked HA list_insert_id //. rewrite Hi. f_equal. destruct g; simpl in *; by subst.
Qed.

(** ** The wake-ups before the report time *)

Lemma rounds_cons i x xs : rounds i (x :: xs) = round i x.1 x.2 ++ rounds i xs.
Proof. done. Qed.

Lemma elapsed_nonneg to xs : Forall (on_time to) xs → 0 ≤ elapsed xs.
Proof. induction 1 as [|x xs [Hx _] _ IH]; simpl; lia. Qed.

Lemma rounds_run xs s i g :
  gs s !! i = Some g → pc g = AtSelectEnter →
  Forall (on_time (timeout (obs s))) xs → now s + elapsed xs ≤ reportTime g →
  (∀ t, chan_buf (queue t (obs s)) = []) → (∀ t, 0 < chan_cap (queue t (obs s)))%nat →
  run (rounds i xs) s =
    Some (MkSys (obs s)
            (<[i := MkGoroutine AtSelectEnter (reportTime g)
                      (replay_from (buffer g) (arrived xs))]> (gs s))
            (cs s) (now s + elapsed xs) (logs s ++ timeouts (timeout (obs s)) xs)).
Proof.
  revert s g. induction xs as [|[d [e|]] xs IH]; intros s g Hi Hpc Hxs Hrt Hq Hcap.
  - rewrite /= Z.add_0_r app_nil_r list_insert_id; [by destruct s|].
    rewrite Hi. f_equal. destruct g; simpl in *; by subst.
  - apply Forall_cons_1 in Hxs as [[Hd _] Hxs]. pose proof (elapsed_nonneg _ _ Hxs).
    pose proof (lookup_lt_Some _ _ _ Hi). simpl in Hd, Hrt.
    rewrite rounds_cons run_app. cbn [fst snd]. rewrite (arrival_run s i g d e) //; [|lia].
    cbn [mbind option_bind].
    rewrite (IH _ (MkGoroutine AtSelectEnter (reportTime g) (Append (buffer g) e.1 e.2)));
      rewrite /= ?list_lookup_insert_eq ?list_insert_insert_eq //; [|lia].
    by rewrite Z.add_assoc.
  - apply Forall_cons_1 in Hxs as [[Hd Hto] Hxs]. pose proof (elapsed_nonneg _ _ Hxs).
    simpl in Hd, Hto, Hrt.
    rewrite rounds_cons run_app. cbn [fst snd].
    rewrite (timeout_run s i g d) //; [|by apply Hto|lia].
    cbn [mbind option_bind]. rewrite (IH _ g) //=; [|lia]. by rewrite Z.add_assoc -app_assoc.
Qed.

Lemma pushes_rounds i xs : pushes (rounds i xs) = arrived xs.
Proof.
  induction xs as [|[d [[r []]|]] xs IH]; [done|..];
    by rewrite rounds_cons /pushes bind_app -/(pushes (rounds i xs)) IH.
Qed.

(** ** The claim *)

(** C28 (one reporting period).  From every state in which a goroutine is
    about to enter its [select] with both queues empty, and for every
    sequence of wake-ups that ends by the report time (each after a wait of
    any length, by a result that arrives or by the idle timer): the period
    is executable; the sink is sent exactly one buffer, the one that merges
    into the goroutine's buffer the results that arrived, in the order of
    arrival and each with the tag of its queue; the flush happens after the
    report time and at most one idle timeout after it; the queues are empty
    again, the goroutine is back at the entry of its [select] with an empty
    buffer and a report time one report interval after the flush; and the
    log has gained the lines of the timer wake-ups and, last, the summary
    of the buffer sent. *)
Theorem period_report s i g k xs :
  gs s !! i = Some g → pc g = AtSelectEnter → 0 < timeout (obs s) →
  statsClient (obs s) = Some k →
  (∀ t, chan_buf (queue t (obs s)) = []) → (∀ t, 0 < chan_cap (queue t (obs s)))%nat →
  Forall (on_time (timeout (obs s))) xs → now s + elapsed xs ≤ reportTime g →
  ∃ s' n,
    run (period i (now s) g (timeout (obs s)) xs) s = Some s' ∧
    pushes (period i (now s) g (timeout (obs s)) xs) = arrived xs ∧
    statsClient (obs s') = Some (Send k (replay_from (buffer g) (arrived xs))) ∧
    (∀ t, chan_buf (queue t (obs s')) = []) ∧
    gs s' !! i = Some (MkGoroutine AtSelectEnter
                         (Add (now s') (reportInterval (obs s))) buffer_empty) ∧
    reportTime g < now s' ≤ reportTime g + timeout (obs s) ∧
    logs s' = logs s ++ timeouts (timeout (obs s)) xs ++
                replicate n (Debugf msg_timeout (timeout (obs s))) ++
                [Infof (buffer_string (replay_from (buffer g) (arrived xs)))].
Proof.
  intros Hi Hpc Hto Hk Hq Hcap Hxs Hrt. pose proof (lookup_lt_Some _ _ _ Hi) as Hlt.
  set (g1 := MkGoroutine AtSelectEnter (reportTime g) (replay_from (buffer g) (arrived xs))).
  pose proof (rounds_run xs s i g Hi Hpc Hxs Hrt Hq Hcap) as H1. fold g1 in H1.
  match type of H1 with _ = Some ?x => set (s1 := x) in * end.
  destruct (heartbeat_run s1 i g1) as (t' & n & H2 & Ht');
    [by apply list_lookup_insert_eq|done..|].
  exists (MkSys (send_stats (obs s) (buffer g1))
            (<[i := MkGoroutine AtSelectEnter (Add t' (reportInterval (obs s)))
                      buffer_empty]> (gs s))
            (cs s) t'
            (logs s1 ++ replicate n (Debugf msg_timeout (timeout (obs s))) ++
               [Infof (buffer_string (buffer g1))])), n.
  split_and!.
  - rewrite /period run_app H1. cbn [mbind option_bind].
    by rewrite -/(now s1) H2 /= list_insert_insert_eq.
  - by rewrite /period /pushes bind_app -/(pushes (rounds i xs)) pushes_rounds
       -/(pushes (heartbeat _ _ _ _)) pushes_heartbeat app_nil_r.
  - by rewrite /= send_stats_statsClient Hk.
  - intros t. by rewrite /= queue_send_stats.
  - by rewrite /= list_lookup_insert_eq.
  - simpl in *. lia.
  - simpl in *. lia.
  - by rewrite /= -app_assoc.
Qed.

End report.

(** ** Witness: the scenario of the specification

    Report interval 1s, idle timeout 100ms; a result at 0ms, the timer at
    100ms, an oversized result at 150ms, results at 200ms and 300ms. *)

Lemma period_report_witness :
  ∃ s' n,
    run (period 0 0 fresh_loop (ms 100)
           [(0, Some (1%nat, false)); (ms 100, None); (ms 50, Some (2%nat, true));
            (ms 50, Some (3%nat, false)); (ms 100, Some (4%nat, false))]) demo_spawned
      = Some s' ∧
    pushes (period 0 0 fresh_loop (ms 100)
              [(0, Some (1%nat, false)); (ms 100, None); (ms 50, Some (2%nat, true));
               (ms 50, Some (3%nat, false)); (ms 100, Some (4%nat, false))])
      = [(1%nat, false); (2%nat, true); (3%nat, false); (4%nat, false)] ∧
    statsClient (obs s') =
      Some [MkJournal [(1%nat, false); (2%nat, true); (3%nat, false); (4%nat, false)]] ∧
    (∀ t, chan_buf (queue t (obs s')) = []) ∧
    gs s' !! 0%nat = Some (MkGoroutine AtSelectEnter (Add (now s') (ms 1000)) (MkJournal [])) ∧
    ms 1000 < now s' ≤ ms 1000 + ms 100 ∧
    logs s' = [] ++ [Debugf msg_timeout (ms 100)] ++
                replicate n (Debugf msg_timeout (ms 100)) ++
                [Infof "results=3 oversized=1"].
Proof.
  exact (period_report demo_spawned 0 fresh_loop []
           [(0, Some (1%nat, false)); (ms 100, None); (ms 50, Some (2%nat, true));
            (ms 50, Some (3%nat, false)); (ms 100, Some (4%nat, false))]
           eq_refl eq_refl eq_refl eq_refl
           ltac:(by intros []) ltac:(intros []; vm_compute; lia)
           ltac:(repeat constructor; vm_compute; congruence)
           ltac:(vm_compute; congruence)).
Defined.
