(* ===== verification/Scenario.v ===== *)
(** * Scenario: the scenario of the specification, evaluated by the kernel

    Report interval 1s, idle timeout 100ms, three results and one oversized
    result pushed within the first 300ms: the whole execution, label by
    label, from [New] to the first periodic flush, with a timer that fires a
    microsecond late at every wake-up.  [Report.period_report] is the
    general statement; this file is the execution itself, as a test of the
    semantics that the kernel evaluates. *)

From S2P Require Import Prelude GoTime Channel Buffer Observer System Invariants Demo.

(** One idle iteration of the loop: the timer fires a microsecond late, the
    deadline has not passed, the select is entered again. *)
Definition idle_iteration : list DLabel :=
  [Tick (ms 100 + 1000); Loop 0 Timeout; Loop 0 Check; Loop 0 Enter].

(** The scenario of the specification: pushes at 0ms, 150ms (oversized),
    200ms and 300ms, then idle iterations until the clock has passed one
    second, then the flush and the reset. *)
Definition scenario : list DLabel :=
  sched_start ++
  [CallTargetWrite 1%nat; Loop 0 RecvWrite; Loop 0 Check; Loop 0 Enter;
   Tick (ms 100); Loop 0 Timeout; Loop 0 Check; Loop 0 Enter;
   Tick (ms 50); CallTargetWriteOversized 2%nat; Loop 0 RecvOversized;
   Loop 0 Check; Loop 0 Enter;
   Tick (ms 50); CallTargetWrite 3%nat; Loop 0 RecvWrite; Loop 0 Check; Loop 0 Enter;
   Tick (ms 100); CallTargetWrite 4%nat; Loop 0 RecvWrite; Loop 0 Check; Loop 0 Enter]
  ++ idle_iteration ++ idle_iteration ++ idle_iteration
  ++ idle_iteration ++ idle_iteration ++ idle_iteration ++
  [Tick (ms 100 + 1000); Loop 0 Timeout; Loop 0 Check;
   Loop 0 FlushReport; Loop 0 Reset; Loop 0 Enter].

(** What the sink holds after the scenario. *)
Definition scenario_report : Journal nat :=
  MkJournal [(1%nat, false); (2%nat, true); (3%nat, false); (4%nat, false)].

(** With a report interval of one second and an idle timeout of 100ms,
    three results and one oversized result pushed in the first 300ms are
    delivered to the sink in exactly one [Send], just after the first
    second; that buffer holds the four entries in arrival order with their
    tags; afterwards the buffer is empty, the next deadline is one interval
    after the flush, and the summary was logged once. *)
Example spec_scenario :
  ∃ s timer,
    run scenario demo_init = Some s ∧ serial_run scenario demo_init = true ∧
    statsClient (obs s) = Some [scenario_report] ∧
    count_tag false (entries scenario_report) = 3%nat ∧
    count_tag true (entries scenario_report) = 1%nat ∧
    gs s = [MkGoroutine (AtSelect timer) (Add (now s) (ms 1000)) (MkJournal [])] ∧
    ms 1000 < now s < ms 1001 ∧
    filter (λ e, e = Infof "results=3 oversized=1") (logs s)
      = [Infof "results=3 oversized=1"] ∧
    chan_len (targetWriteChan (obs s)) = 0%nat ∧
    chan_len (targetWriteOversizedChan (obs s)) = 0%nat.
Proof.
  eexists _, _. split; [vm_compute; reflexivity|].
  split_and!; try (vm_compute; reflexivity); by vm_compute.
Qed.
